(** * Download correlation and stream-capture engine (src/server.mjs)

    A shallow embedding of the capture engine of the media generator
    service and the properties stated about it.

    Conventions of the embedding.
    - A JavaScript string is a [string] (a sequence of 8-bit code units;
      the code units 0..255 are read as Latin-1).  A value that is either
      a string or [null]/[undefined] is an [option string].
    - Integers that the code keeps in JavaScript numbers (counts, byte
      lengths, clock values, timer delays) are [Z].
    - [node:path] is modelled in its POSIX flavour.
    - The output directory is a finite map from paths to contents.
      Creating the directory and writing a file into it succeed;
      copying fails when the source is missing.
    - The sink [onStreamEvent] of the caller returns, and console output
      is not part of the model. *)

From Stdlib Require Import ZArith Ascii String List Bool Lia.
From Stdlib Require DecimalString DecimalPos DecimalZ.
From stdpp Require Import base option list strings gmap.

(* ===================================================================== *)
(** * Part I: the embedding                                               *)
(* ===================================================================== *)

(** ** Text primitives of the JavaScript runtime *)

Abbreviation chars := (list ascii).

Definition chars_of (s : string) : chars := list_ascii_of_string s.
Definition str_of (l : chars) : string := string_of_list_ascii l.

Definition code (c : ascii) : N := N_of_ascii c.

(** White space removed by [String.prototype.trim], restricted to the
    code units below 256. *)
Definition is_js_space (c : ascii) : bool :=
  let n := code c in
  ((9 <=? n) && (n <=? 13) || (n =? 32) || (n =? 160))%N.

Fixpoint trim_start (l : chars) : chars :=
  match l with
  | c :: l' => if is_js_space c then trim_start l' else l
  | [] => []
  end.

Definition trim_chars (l : chars) : chars :=
  rev (trim_start (rev (trim_start l))).

Definition trim (s : string) : string := str_of (trim_chars (chars_of s)).

Definition is_digit (c : ascii) : bool :=
  let n := code c in ((48 <=? n) && (n <=? 57))%N.

Definition is_upper (c : ascii) : bool :=
  let n := code c in ((65 <=? n) && (n <=? 90))%N.

Definition is_lower (c : ascii) : bool :=
  let n := code c in ((97 <=? n) && (n <=? 122))%N.

(** [String.prototype.toLowerCase] on one code unit: A-Z and the Latin-1
    capitals (U+00C0..U+00DE without the multiplication sign). *)
Definition lower_char (c : ascii) : ascii :=
  let n := code c in
  if (is_upper c || ((192 <=? n) && (n <=? 222) && negb (n =? 215)))%N
  then ascii_of_N (n + 32) else c.

Definition toLowerCase (s : string) : string :=
  str_of (map lower_char (chars_of s)).

Fixpoint starts_with (p l : chars) : bool :=
  match p, l with
  | [], _ => true
  | a :: p', b :: l' => if ascii_dec a b then starts_with p' l' else false
  | _ :: _, [] => false
  end.

Definition startsWith (s p : string) : bool :=
  starts_with (chars_of p) (chars_of s).

Definition str_eqb (a b : string) : bool := bool_decide (a = b).

(** Truthiness of a string, and of a string-or-null. *)
Definition nonempty (s : string) : bool := negb (str_eqb s "").

Definition truthy (v : option string) : bool :=
  match v with Some s => nonempty s | None => false end.

(** [a || b] on strings-or-null when the result is used as a value. *)
Definition or_else (a b : option string) : option string :=
  if truthy a then a else b.

(** [a || null] *)
Definition or_null (a : option string) : option string :=
  if truthy a then a else None.

(** [value.split(sep)[0]]: the text before the first separator. *)
Fixpoint before_first (sep : ascii) (l : chars) : chars :=
  match l with
  | [] => []
  | c :: l' => if ascii_dec c sep then [] else c :: before_first sep l'
  end.

(** The text after the first separator, when there is one. *)
Fixpoint after_first (sep : ascii) (l : chars) : option chars :=
  match l with
  | [] => None
  | c :: l' => if ascii_dec c sep then Some l' else after_first sep l'
  end.

(** [parts[parts.length - 1]] of [value.split(sep)]: the text after the
    last separator (the whole text when there is none). *)
Definition after_last (sep : ascii) (l : chars) : chars :=
  rev (before_first sep (rev l)).

(** ** node:path, POSIX flavour *)

Definition slash : ascii := "/"%char.
Definition dot : ascii := "."%char.

Fixpoint drop_slashes (l : chars) : chars :=
  match l with
  | c :: l' => if ascii_dec c slash then drop_slashes l' else l
  | [] => []
  end.

(** [basename(path)]: trailing slashes are skipped, then the text after
    the last remaining slash is kept. *)
Definition basename_chars (l : chars) : chars :=
  rev (before_first slash (drop_slashes (rev l))).

Definition basename (s : string) : string :=
  str_of (basename_chars (chars_of s)).

(** [extname(path)]: from the last dot of the last component to its end;
    empty when there is no dot, when the dot opens the component and when
    the component is [..]. *)
Definition extname_chars (l : chars) : chars :=
  let b := basename_chars l in
  let suf := after_last dot b in
  let pre_len := (length b - length suf - 1)%nat in
  if forallb (fun c => negb (bool_decide (c = dot))) b then []
  else if (pre_len =? 0)%nat then []
  else if bool_decide (b = [dot; dot]) then []
  else dot :: suf.

Definition extname (s : string) : string :=
  str_of (extname_chars (chars_of s)).

(** ** File-name helpers of server.mjs *)

(** [sanitizeFileName]: every code unit outside [a-zA-Z0-9._-] becomes an
    underscore. *)
Definition is_safe_char (c : ascii) : bool :=
  is_lower c || is_upper c || is_digit c ||
  bool_decide (c = dot) || bool_decide (c = "_"%char) ||
  bool_decide (c = "-"%char).

Definition sanitizeFileName (s : string) : string :=
  str_of (map (fun c => if is_safe_char c then c else "_"%char) (chars_of s)).

Definition applyExtension (fileName ext : string) : string :=
  if negb (nonempty ext) then fileName
  else if nonempty (extname fileName) then fileName
  else fileName +:+ ext.

(** ** The stream-part marker

    [/\.part(\d+)(?=\.[^.]+$|$)/i], matched by backtracking as the regular
    expression engine does. *)

(** The lookahead [(?=\.[^.]+$|$)] at the text that remains. *)
Definition lookahead_ok (rest : chars) : bool :=
  match rest with
  | [] => true
  | c :: ext =>
      bool_decide (c = dot) &&
      negb (bool_decide (ext = [])) &&
      forallb (fun x => negb (bool_decide (x = dot))) ext
  end.

(** The digits read so far are accepted when there is at least one and
    the lookahead holds at the text that remains. *)
Definition stop_here (acc rest : chars) : option chars :=
  if negb (bool_decide (acc = [])) && lookahead_ok rest
  then Some (rev acc) else None.

(** [(\d+)] followed by the lookahead: greedy, the longest run of digits
    is tried first and shorter ones on failure.  [acc] holds the digits
    read so far, last one first. *)
Fixpoint match_digits (acc rest : chars) : option chars :=
  match rest with
  | c :: rest' =>
      if is_digit c then
        match match_digits (c :: acc) rest' with
        | Some ds => Some ds
        | None => stop_here acc rest
        end
      else stop_here acc rest
  | [] => stop_here acc rest
  end.

(** Equality of code units under the [i] flag for an ASCII letter [k]
    given in lower case. *)
Definition ci_eq (k c : ascii) : bool :=
  bool_decide (c = k) || bool_decide (c = ascii_of_N (code k - 32)).

(** A match that starts at the head of the text; the result is the
    capture group. *)
Definition match_here (l : chars) : option chars :=
  match l with
  | d :: p :: a :: r :: t :: rest =>
      if bool_decide (d = dot) && ci_eq "p"%char p && ci_eq "a"%char a &&
         ci_eq "r"%char r && ci_eq "t"%char t
      then match_digits [] rest else None
  | _ => None
  end.

(** [RegExp.prototype.exec]: the leftmost match. *)
Fixpoint exec_part (l : chars) : option chars :=
  match match_here l with
  | Some ds => Some ds
  | None => match l with [] => None | _ :: l' => exec_part l' end
  end.

(** IMAGE_STREAM_PART_SEGMENT_RE.test *)
Definition part_re_test (s : string) : bool :=
  match exec_part (chars_of s) with Some _ => true | None => false end.

(** The decimal value of a run of digits. *)
Definition digit_value (c : ascii) : Z := Z.of_N (code c) - 48.

Definition digits_value (ds : chars) : Z :=
  fold_left (fun acc c => acc * 10 + digit_value c)%Z ds 0%Z.

(** [Number(text)] for a run of decimal digits: the nearest double, ties
    to even; [None] stands for [Infinity].  Below 2^53 the value is
    exact. *)
Definition number_of_digits (ds : chars) : option Z :=
  let n := digits_value ds in
  if (n <? 2 ^ 53)%Z then Some n
  else
    let e := (Z.log2 n - 52)%Z in
    let q := Z.shiftr n e in
    let r := Z.land n (Z.ones e) in
    let half := (2 ^ (e - 1))%Z in
    let q' := if ((half <? r) || ((r =? half) && Z.odd q))%Z
              then (q + 1)%Z else q in
    let v := Z.shiftl q' e in
    if (2 ^ 1024 <=? v)%Z then None else Some v.

Definition isLikelyImageStreamPartName (value : option string) : bool :=
  match value with
  | Some v =>
      if negb (nonempty (trim v)) then false
      else part_re_test (basename (trim v))
  | None => false
  end.

Record FrameInfo := {
  fi_fileName : string;
  fi_isPart : bool;
  fi_partIndex : option Z;
  fi_isFinal : bool
}.

Definition parseImageStreamFrameInfo (value : option string) : FrameInfo :=
  let fileName :=
    match value with
    | Some v => if nonempty (trim v) then basename (trim v) else ""
    | None => ""
    end in
  if negb (nonempty fileName) then
    {| fi_fileName := ""; fi_isPart := false;
       fi_partIndex := None; fi_isFinal := false |}
  else
    match exec_part (chars_of fileName) with
    | None =>
        {| fi_fileName := fileName; fi_isPart := false;
           fi_partIndex := None; fi_isFinal := true |}
    | Some ds =>
        {| fi_fileName := fileName; fi_isPart := true;
           fi_partIndex := number_of_digits ds; fi_isFinal := false |}
    end.

Definition normalizeMatchFileName (value : option string) : string :=
  match value with
  | Some v =>
      if negb (nonempty (trim v)) then "" else toLowerCase (basename (trim v))
  | None => ""
  end.

(** ** The stream-part marker, as the specification words it

    A name holds a part segment when it reads [pre ++ ".part" ++ digits ++
    rest] with "part" in any letter case, at least one digit, and [rest]
    either empty or the final extension (a dot and at least one code unit,
    none of them a dot). *)

Definition ci_letter (k c : ascii) : Prop :=
  c = k \/ c = ascii_of_N (code k - 32).

Definition final_extension_or_end (rest : chars) : Prop :=
  rest = [] \/
  exists ext, rest = dot :: ext /\ ext <> [] /\ Forall (fun c => c <> dot) ext.

Definition part_segment_at (name pre ds rest : chars) : Prop :=
  exists p a r t,
    name = pre ++ dot :: p :: a :: r :: t :: ds ++ rest /\
    ci_letter "p"%char p /\ ci_letter "a"%char a /\
    ci_letter "r"%char r /\ ci_letter "t"%char t /\
    ds <> [] /\ Forall (fun c => is_digit c = true) ds /\
    final_extension_or_end rest.

Definition has_part_segment (name : chars) : Prop :=
  exists pre ds rest, part_segment_at name pre ds rest.

(** The digits of the leftmost part segment of a name. *)
Definition leftmost_part_segment (name ds : chars) : Prop :=
  exists pre rest,
    part_segment_at name pre ds rest /\
    forall pre' ds' rest',
      part_segment_at name pre' ds' rest' -> length pre <= length pre'.

(** The remote name the classifier looks at: the base name of the trimmed
    value, empty when the value is not a string or is blank. *)
Definition remote_name (value : option string) : string :=
  match value with
  | Some v => if nonempty (trim v) then basename (trim v) else ""
  | None => ""
  end.

(** ** Saved files, stream events and the aggregate result *)

(** An entry of [savedFiles]: what [saveBufferToDisk] returns, with the
    frame fields the capture session adds.  A field the code leaves out
    reads as [None] or [false]. *)
Record SavedFile := {
  sf_filePath : string;
  sf_fileName : string;
  sf_byteLength : Z;
  sf_contentType : string;
  sf_metadataId : option string;
  sf_sourceFileName : option string;
  sf_isStreamPart : bool;
  sf_streamPartIndex : option Z;
  sf_isFinalStreamFrame : bool
}.

Inductive EventType :=
| download_url_resolved
| file_saved
| file_ignored
| save_failed
| metadata_missing_download_url
| metadata_missing_item
| convo_stream_completed
| collector_complete.

Global Instance EventType_eq_dec : EqDecision EventType.
Proof. solve_decision. Defined.

(** A stream event.  The free-text [message] and the time stamp [ts] are
    left out: no decision of the engine reads them. *)
Record StreamEvent := {
  ev_type : EventType;
  ev_source : string;
  ev_responseUrl : option string;
  ev_downloadUrl : option string;
  ev_metadataId : option string;
  ev_contentType : option string;
  ev_fileName : option string;
  ev_sourceFileName : option string;
  ev_outputPath : option string;
  ev_byteLength : option Z;
  ev_isStreamPart : bool;
  ev_streamPartIndex : option Z;
  ev_isFinalStreamFrame : bool;
  ev_reason : option string;
  ev_savedCount : option Z
}.

Record SaveResult := {
  sr_savedCount : Z;
  sr_savedFiles : list SavedFile;
  sr_metadataIds : list string;
  sr_streamEvents : list StreamEvent
}.

(** [[...new Set(values)]]: the distinct values in the order of their
    first occurrence. *)
Definition js_set_add (acc : list string) (x : string) : list string :=
  if bool_decide (x ∈ acc) then acc else acc ++ [x].

Definition js_set_values (l : list string) : list string :=
  fold_left js_set_add l [].

(** [buildSaveResult].  [filter(Boolean)] drops the empty id; the saved
    files are kept as they are, and every stream event is an object and
    so passes its filter. *)
Definition buildSaveResult (savedCount : Z) (savedFiles : list SavedFile)
    (metadataIds : list string) (streamEvents : list StreamEvent)
  : SaveResult :=
  {| sr_savedCount := savedCount;
     sr_savedFiles := savedFiles;
     sr_metadataIds := js_set_values (List.filter nonempty metadataIds);
     sr_streamEvents := streamEvents |}.

(** [buildSaveResult()] *)
Definition emptySaveResult : SaveResult := buildSaveResult 0 [] [] [].

(** [mergeSaveResults]; [extra] may be missing.  The [??] defaults of the
    code stand for fields that a [SaveResult] record always has. *)
Definition mergeSaveResults (base : SaveResult) (extra : option SaveResult)
  : SaveResult :=
  match extra with
  | None => base
  | Some extra =>
      buildSaveResult
        (sr_savedCount base + sr_savedCount extra)%Z
        (sr_savedFiles base ++ sr_savedFiles extra)
        (sr_metadataIds base ++ sr_metadataIds extra)
        (sr_streamEvents base ++ sr_streamEvents extra)
  end.

(** ** Content types *)

Definition chars_eqb (a : chars) (b : string) : bool :=
  bool_decide (a = chars_of b).

(** [normalizeContentType]: the text before the first [;], trimmed, in
    lower case. *)
Definition normalizeContentType (contentType : string) : string :=
  str_of (map lower_char
            (trim_chars (before_first ";"%char (chars_of contentType)))).

Definition MIME_EXTENSION_MAP : list (string * string) :=
  [ ("image/jpeg", ".jpg");
    ("image/jpg", ".jpg");
    ("image/png", ".png");
    ("image/webp", ".webp");
    ("image/gif", ".gif");
    ("image/svg+xml", ".svg");
    ("application/pdf", ".pdf");
    ("text/csv", ".csv");
    ("application/csv", ".csv");
    ("text/plain", ".txt");
    ("text/markdown", ".md");
    ("application/json", ".json");
    ("application/zip", ".zip");
    ("application/x-zip-compressed", ".zip");
    ("application/msword", ".doc");
    ("application/vnd.openxmlformats-officedocument.wordprocessingml.document",
     ".docx");
    ("application/vnd.ms-excel", ".xls");
    ("application/vnd.openxmlformats-officedocument.spreadsheetml.sheet",
     ".xlsx");
    ("application/vnd.ms-powerpoint", ".ppt");
    ("application/vnd.openxmlformats-officedocument.presentationml.presentation",
     ".pptx") ].

(** A property read on the frozen table (own properties only). *)
Fixpoint table_lookup (k : string) (m : list (string * string))
  : option string :=
  match m with
  | [] => None
  | (k', v) :: m' => if str_eqb k k' then Some v else table_lookup k m'
  end.

(** [/^[a-z0-9-]+$/i] on one code unit *)
Definition is_subtype_char (c : ascii) : bool :=
  is_lower c || is_upper c || is_digit c || bool_decide (c = "-"%char).

Definition is_nil {A} (l : list A) : bool :=
  match l with [] => true | _ => false end.

Definition extensionFromContentType (contentType : string) : string :=
  let normalized := normalizeContentType contentType in
  if negb (nonempty normalized) then ""
  else
    match table_lookup normalized MIME_EXTENSION_MAP with
    | Some mapped => mapped
    | None =>
        let n := chars_of normalized in
        let type := before_first slash n in
        match after_first slash n with
        | None => ""
        | Some rest =>
            let subtype := before_first slash rest in
            if is_nil type || is_nil subtype then ""
            else
              let simplifiedSubtype := before_first "+"%char subtype in
              if is_nil simplifiedSubtype then ""
              else if chars_eqb type "image" &&
                      forallb is_subtype_char simplifiedSubtype
              then str_of (dot :: map lower_char simplifiedSubtype)
              else if chars_eqb type "text" &&
                      chars_eqb simplifiedSubtype "csv"
              then ".csv"
              else ""
        end
    end.

Definition isJsonContentType (contentType : string) : bool :=
  str_eqb (normalizeContentType contentType) "application/json".

(** [String(n)] for an integer. *)
Definition dec_string (z : Z) : string :=
  DecimalString.NilZero.string_of_int (Z.to_int z).

(** [String(n).padStart(2, "0")] *)
Definition pad2 (s : string) : string :=
  match s with
  | "" => "00"
  | String c "" => String "0"%char s
  | _ => s
  end.

(** ** What the engine takes from its platform

    The URL parser of the runtime, the parser of a Content-Disposition
    header of server.mjs (kept abstract: its regular expressions and
    percent-decoding play no part in the properties), [path.resolve]
    against the configured output directory, and the configuration flag
    that enables downloads through curl. *)

Record Url := {
  url_hostname : string;
  url_pathname : string;
  url_id_param : option string      (* searchParams.get("id") *)
}.

Class Platform := {
  url_parse : string -> option Url;          (* [new URL(text)]; [None]: throws *)
  parseContentDispositionFileName : string -> string;
  resolve_in_outputDir : string -> string;   (* [resolve(config.outputDir, name)] *)
  preferCurlDownloads : bool                 (* [config.preferCurlDownloads] *)
}.

(** ** Errors, and computations that change a state and may throw *)

Inductive JsError :=
| DownloadFailed (attempts : nat) (lastStatus : option Z)
| RequestFailed
| InvalidUrl (text : string)
| JsonUnreadable
| NoSuchFile (path : string).

Inductive Res (A : Type) :=
| Ok (a : A)
| Throw (e : JsError).
Arguments Ok {A} a.
Arguments Throw {A} e.

Definition M (S A : Type) : Type := S -> Res A * S.

Definition ret {S A} (a : A) : M S A := fun s => (Ok a, s).

Definition throw {S A} (e : JsError) : M S A := fun s => (Throw e, s).

Definition bind {S A B} (m : M S A) (k : A -> M S B) : M S B :=
  fun s =>
    match m s with
    | (Ok a, s') => k a s'
    | (Throw e, s') => (Throw e, s')
    end.

(** [try { m } catch (error) { handler(error) }] *)
Definition try_catch {S A} (m : M S A) (handler : JsError -> M S A) : M S A :=
  fun s =>
    match m s with
    | (Ok a, s') => (Ok a, s')
    | (Throw e, s') => handler e s'
    end.

Definition get_state {S} : M S S := fun s => (Ok s, s).

Definition modify {S} (f : S -> S) : M S unit := fun s => (Ok tt, f s).

(** A result that cannot throw, lifted. *)
Definition lift_res {S A} (r : Res A) : M S A := fun s => (r, s).

Notation "'do' x <- c1 ; c2" := (bind c1 (fun x => c2))
  (at level 10, x name, c1 at level 100, c2 at level 200).
Notation "'run' c1 ; c2" := (bind c1 (fun _ => c2))
  (at level 10, c1 at level 100, c2 at level 200).

(** ** The world outside one capture session *)

Abbreviation Bytes := string.

Definition byteLength (b : Bytes) : Z := Z.of_nat (String.length b).

Inductive GenerationMode := mode_image | mode_file.

Global Instance GenerationMode_eq_dec : EqDecision GenerationMode.
Proof. solve_decision. Defined.

(** The run object made by [createImageRun]; [nextFileIndex] is mutable. *)
Record ImageRun := {
  ir_runId : string;
  ir_randomizeFileNames : bool;
  ir_nextFileIndex : Z;
  ir_generationMode : GenerationMode;
  ir_filePrefix : string
}.

(** The output directory as a map from path to content, the clock read by
    [Date.now()], and the run object that every call of one run shares
    ([None]: the functions are called without one).  A file-system call
    fails only for a missing file. *)
Record World := {
  w_disk : gmap string Bytes;
  w_now : Z;
  w_imageRun : option ImageRun
}.

Definition set_disk (d : gmap string Bytes) (w : World) : World :=
  {| w_disk := d; w_now := w_now w; w_imageRun := w_imageRun w |}.

Definition set_imageRun (r : option ImageRun) (w : World) : World :=
  {| w_disk := w_disk w; w_now := w_now w; w_imageRun := r |}.

(** [imageRun?.generationMode === "image"] and [=== "file"] *)
Definition run_is_image (w : World) : bool :=
  match w_imageRun w with
  | Some r => bool_decide (ir_generationMode r = mode_image)
  | None => false
  end.

Definition run_is_file (w : World) : bool :=
  match w_imageRun w with
  | Some r => bool_decide (ir_generationMode r = mode_file)
  | None => false
  end.

(** [imageRun?.filePrefix || "download"] *)
Definition run_prefix (w : World) : string :=
  match w_imageRun w with
  | Some r => if nonempty (ir_filePrefix r) then ir_filePrefix r else "download"
  | None => "download"
  end.

(** [`${imageRun?.filePrefix || "download"}-${suffix}`] *)
Definition prefixed (w : World) (suffix : string) : string :=
  run_prefix w +:+ "-" +:+ suffix.

(** [nextRandomBaseName]: reads and advances [nextFileIndex]. *)
Definition nextRandomBaseName (r : ImageRun) : string * ImageRun :=
  (((if nonempty (ir_filePrefix r) then ir_filePrefix r else "image") +:+
    "-" +:+ ir_runId r +:+ "-" +:+ pad2 (dec_string (ir_nextFileIndex r))),
   {| ir_runId := ir_runId r;
      ir_randomizeFileNames := ir_randomizeFileNames r;
      ir_nextFileIndex := (ir_nextFileIndex r + 1)%Z;
      ir_generationMode := ir_generationMode r;
      ir_filePrefix := ir_filePrefix r |}).

Section Engine.
Context `{Platform}.

(** [saveBufferToDisk]: the file name is the random run name when the run
    asks for one, else the base name of the trimmed name hint, else a name
    made from the clock; it is sanitized, gets the extension of the
    content type when it has none, and the buffer is written under it in
    the output directory. *)
Definition saveBufferToDisk (buffer : Bytes) (fileName : option string)
    (contentType : string) (metadataId : option string) : M World SavedFile :=
  fun w =>
    let ext := extensionFromContentType contentType in
    let normalizedName :=
      match fileName with
      | Some n => if nonempty (trim n) then basename (trim n) else ""
      | None => ""
      end in
    let '(baseName, run') :=
      match w_imageRun w with
      | Some r =>
          if ir_randomizeFileNames r then
            let '(n, r') := nextRandomBaseName r in (n, Some r')
          else
            (if nonempty normalizedName then normalizedName
             else prefixed w (dec_string (w_now w)), Some r)
      | None =>
          (if nonempty normalizedName then normalizedName
           else prefixed w (dec_string (w_now w)), None)
      end in
    let safeName := applyExtension (sanitizeFileName baseName) ext in
    let filePath := resolve_in_outputDir safeName in
    (Ok {| sf_filePath := filePath;
           sf_fileName := basename filePath;
           sf_byteLength := byteLength buffer;
           sf_contentType := contentType;
           sf_metadataId := metadataId;
           sf_sourceFileName := None;
           sf_isStreamPart := false;
           sf_streamPartIndex := None;
           sf_isFinalStreamFrame := false |},
     set_disk (<[filePath := buffer]> (w_disk w)) (set_imageRun run' w)).

(** [extractFileId]: the [id] query parameter when it is not empty, else
    the last path segment of a files/download path. *)
Definition extractFileId (url : string) : Res (option string) :=
  match url_parse url with
  | None => Throw (InvalidUrl url)
  | Some u =>
      if truthy (url_id_param u) then Ok (url_id_param u)
      else if startsWith (url_pathname u) "/backend-api/files/download/" then
        let last := str_of (after_last slash (chars_of (url_pathname u))) in
        Ok (if nonempty last then Some last else None)
      else Ok None
  end.

(** ** The network, as one call of the engine meets it *)

(** A decoded JSON body, with the fields the engine reads.  [JsonOther]
    is a body that is not an object. *)
Record JsonObject := {
  j_download_url : option string;
  j_file_name : option string;
  j_file_size_bytes : option Z;
  j_item : option string;
  j_detail_message : option string
}.

Inductive JsonBody :=
| JsonThrows
| JsonOther
| JsonObj (o : JsonObject).

(** A response of [pageInstance.request.get], or of the page itself. *)
Record HttpResponse := {
  h_status : Z;
  h_contentType : option string;          (* headers()["content-type"] *)
  h_contentDisposition : option string;   (* headers()["content-disposition"] *)
  h_body : option Bytes;                  (* [None]: reading the body throws *)
  h_json : JsonBody
}.

Inductive HttpOutcome :=
| HttpThrows
| HttpReturns (r : HttpResponse).

(** [response.ok()] *)
Definition http_ok (r : HttpResponse) : bool :=
  ((200 <=? h_status r) && (h_status r <=? 299))%Z.

(** [headers()[name] ?? ""] *)
Definition header_or_empty (h : option string) : string :=
  match h with Some v => v | None => "" end.

(** What [fetchDownloadWithRetry] and [fetchDownloadWithCurl] return. *)
Record Fetched := {
  f_buffer : Bytes;
  f_contentType : string;
  f_status : Z;
  f_fileName : string
}.

Inductive CurlOutcome :=
| CurlThrows
| CurlReturns (r : Fetched).

(** The answers of the network to one call of [fetchDownloadWithRetry]:
    the outcome of the curl process and of the n-th browser request
    (n = 1, 2, ...). *)
Record Net := {
  net_curl : CurlOutcome;
  net_get : nat -> HttpOutcome
}.

(** One pass through the body of the retry loop for attempt [attempt]:
    [Some] is the [return] inside the loop. *)
Definition attempt_once (o : HttpOutcome) : option Fetched :=
  match o with
  | HttpReturns r =>
      let contentType := header_or_empty (h_contentType r) in
      if http_ok r && negb (isJsonContentType contentType) then
        match h_body r with
        | Some buffer =>
            Some {| f_buffer := buffer;
                    f_contentType := contentType;
                    f_status := h_status r;
                    f_fileName :=
                      parseContentDispositionFileName
                        (header_or_empty (h_contentDisposition r)) |}
        | None => None
        end
      else None
  | HttpThrows => None
  end.

(** [lastStatus] after an attempt. *)
Definition status_after (o : HttpOutcome) (lastStatus : option Z) : option Z :=
  match o with
  | HttpReturns r => Some (h_status r)
  | HttpThrows => lastStatus
  end.

(** The run of the retry loop: the result, and the pauses slept between
    attempts, in order. *)
Record FetchRun := {
  fr_result : Res Fetched;
  fr_attempts : nat;            (* browser requests made *)
  fr_sleeps : list Z            (* milliseconds *)
}.

(** [for (attempt = first; attempt <= attempts; attempt += 1)], with
    [remaining] passes left. *)
Fixpoint retry_loop (get : nat -> HttpOutcome) (attempts : nat)
    (remaining attempt : nat) (lastStatus : option Z) : FetchRun :=
  match remaining with
  | O =>
      {| fr_result := Throw (DownloadFailed attempts lastStatus);
         fr_attempts := 0; fr_sleeps := [] |}
  | S remaining' =>
      match attempt_once (get attempt) with
      | Some fetched =>
          {| fr_result := Ok fetched; fr_attempts := 1; fr_sleeps := [] |}
      | None =>
          let rest :=
            retry_loop get attempts remaining' (S attempt)
                       (status_after (get attempt) lastStatus) in
          {| fr_result := fr_result rest;
             fr_attempts := S (fr_attempts rest);
             fr_sleeps :=
               (if (attempt <? attempts)%nat
                then [(350 * Z.of_nat attempt)%Z] else []) ++ fr_sleeps rest |}
      end
  end.

(** [fetchDownloadWithRetry(pageInstance, url, { attempts, preferCurl })] *)
Definition fetchDownloadWithRetry_run (net : Net) (attempts : nat)
    (preferCurl : bool) : FetchRun :=
  match (if preferCurl && preferCurlDownloads then net_curl net
         else CurlThrows) with
  | CurlReturns fetched =>
      {| fr_result := Ok fetched; fr_attempts := 0; fr_sleeps := [] |}
  | CurlThrows => retry_loop (net_get net) attempts attempts 1 None
  end.

(** The default attempt budget *)
Definition default_attempts : nat := 4.

Definition fetchDownloadWithRetry {S} (net : Net) (preferCurl : bool)
  : M S Fetched :=
  lift_res (fr_result (fetchDownloadWithRetry_run net default_attempts preferCurl)).

(** ** Saving outside a capture session *)

(** The record handed to [saveDownloadRecord]. *)
Record DownloadRecord := {
  rec_downloadUrl : option string;
  rec_fileName : option string;
  rec_metadataId : option string;
  rec_buffer : option Bytes;
  rec_contentType : option string;
  rec_url : option string
}.

(** [a || b] where [b] is only computed when [a] is falsy and may throw *)
Definition or_else_res (a : option string) (b : Res (option string))
  : Res (option string) :=
  if truthy a then Ok a else b.

Definition extract_opt (url : option string) : Res (option string) :=
  match url with Some u => extractFileId u | None => Ok None end.

(** [metadataId ? [metadataId] : []] *)
Definition id_list (metadataId : option string) : list string :=
  match metadataId with
  | Some i => if nonempty i then [i] else []
  | None => []
  end.

Definition saveDownloadRecord (net : Net) (record : option DownloadRecord)
  : M World SaveResult :=
  match record with
  | None => ret emptySaveResult
  | Some record =>
      do id1 <- lift_res (or_else_res (rec_metadataId record)
                            (extract_opt (rec_downloadUrl record)));
      do metadataId <- lift_res (or_else_res id1 (extract_opt (rec_url record)));
      do w <- get_state;
      match rec_buffer record with
      | Some buffer =>
          do saved <- saveBufferToDisk buffer
                        (match rec_fileName record with
                         | Some n => Some n
                         | None => Some ("download-" +:+ dec_string (w_now w))
                         end)
                        (header_or_empty (rec_contentType record)) metadataId;
          ret (buildSaveResult 1 [saved] (id_list metadataId) [])
      | None =>
          if truthy (rec_downloadUrl record) then
            do fetched <- fetchDownloadWithRetry net (run_is_file w);
            do saved <- saveBufferToDisk (f_buffer fetched)
                          (if truthy (rec_fileName record)
                           then rec_fileName record
                           else if nonempty (f_fileName fetched)
                           then Some (f_fileName fetched)
                           else Some (prefixed w (dec_string (w_now w))))
                          (f_contentType fetched) metadataId;
            ret (buildSaveResult 1 [saved] (id_list metadataId) [])
          else ret emptySaveResult
      end
  end.

(** [saveDownloadFromUrl]: the fallback prober's way to save what a
    download control points at.  [first] is the answer to its own request
    to [url]; [net] answers the fetch of a resolved download URL. *)
Definition saveDownloadFromUrl (first : HttpOutcome) (net : Net) (url : string)
  : M World SaveResult :=
  match first with
  | HttpThrows => throw RequestFailed
  | HttpReturns response =>
      let contentType := header_or_empty (h_contentType response) in
      do initialMetadataId <- lift_res (extractFileId url);
      do w <- get_state;
      if isJsonContentType contentType then
        match h_json response with
        | JsonThrows => throw JsonUnreadable
        | JsonOther =>
            (* download_url missing from metadata response *)
            ret emptySaveResult
        | JsonObj fileInfo =>
            if truthy (j_detail_message fileInfo) then ret emptySaveResult
            else if negb (truthy (j_download_url fileInfo)) then
              ret emptySaveResult
            else
              do fromUrl <- lift_res
                              (extract_opt (j_download_url fileInfo));
              let metadataId :=
                or_null (or_else fromUrl initialMetadataId) in
              let metadataFileNameRaw :=
                match j_file_name fileInfo with
                | Some n => basename n
                | None => ""
                end in
              let fileName :=
                if nonempty metadataFileNameRaw &&
                   negb (run_is_image w &&
                         isLikelyImageStreamPartName (Some metadataFileNameRaw))
                then Some metadataFileNameRaw else None in
              saveDownloadRecord net
                (Some {| rec_downloadUrl := j_download_url fileInfo;
                         rec_fileName := fileName;
                         rec_metadataId := metadataId;
                         rec_buffer := None;
                         rec_contentType := None;
                         rec_url := None |})
        end
      else
        match h_body response with
        | None => throw RequestFailed
        | Some buffer =>
            let metadataId := or_null initialMetadataId in
            let fromHeader :=
              parseContentDispositionFileName
                (header_or_empty (h_contentDisposition response)) in
            let nameCandidate :=
              if nonempty fromHeader then fromHeader
              else match metadataId with
                   | Some i => prefixed w i
                   | None => prefixed w (dec_string (w_now w))
                   end in
            do saved <- saveBufferToDisk buffer (Some nameCandidate)
                          contentType metadataId;
            ret (buildSaveResult 1 [saved] (id_list metadataId) [])
        end
  end.

(** ** The capture session: [collectChatGptDownloads] *)

(** The options of one call; the run object is in the world. *)
Record Options := {
  timeoutMs : Z;
  idleMs : Z;
  maxFiles : Z;
  requireFinalImageFrame : bool;
  waitForConvoStreamCompleted : bool;
  ignoreFileNames : list string
}.

(** A response of the page, as the response listener sees it. *)
Record Response := {
  r_url : string;
  r_contentType : option string;
  r_contentDisposition : option string;
  r_json : JsonBody
}.

(** The variables of the closure.  A timer is [Some delay] while it is
    pending and [None] once cleared or fired.  [cs_listening] tells
    whether the response listener is attached to the page, and
    [cs_queue] holds the responses whose handlers are chained on [queue]
    and have not completed, oldest first. *)
Record Session := {
  cs_savedCount : Z;
  cs_idleTimer : option Z;
  cs_timeoutTimer : option Z;
  cs_finished : bool;
  cs_seen : gset string;
  cs_metadataIds : list string;
  cs_savedFiles : list SavedFile;
  cs_streamEvents : list StreamEvent;
  cs_sawImageStreamPartFrame : bool;
  cs_sawImageFinalFrame : bool;
  cs_convoStreamCompleted : bool;
  cs_listening : bool;
  cs_queue : list Response
}.

Record St := {
  st_session : Session;
  st_world : World
}.

Definition on_session (f : Session -> Session) : M St unit :=
  modify (fun st => {| st_session := f (st_session st);
                       st_world := st_world st |}).

(** A computation on the world, run from inside the session. *)
Definition in_world {A} (m : M World A) : M St A :=
  fun st =>
    let '(r, w') := m (st_world st) in
    (r, {| st_session := st_session st; st_world := w' |}).

Definition set_savedCount (v : Z) (s : Session) : Session :=
  {| cs_savedCount := v; cs_idleTimer := cs_idleTimer s;
     cs_timeoutTimer := cs_timeoutTimer s; cs_finished := cs_finished s;
     cs_seen := cs_seen s; cs_metadataIds := cs_metadataIds s;
     cs_savedFiles := cs_savedFiles s; cs_streamEvents := cs_streamEvents s;
     cs_sawImageStreamPartFrame := cs_sawImageStreamPartFrame s;
     cs_sawImageFinalFrame := cs_sawImageFinalFrame s;
     cs_convoStreamCompleted := cs_convoStreamCompleted s;
     cs_listening := cs_listening s; cs_queue := cs_queue s |}.

Definition set_idleTimer (v : option Z) (s : Session) : Session :=
  {| cs_savedCount := cs_savedCount s; cs_idleTimer := v;
     cs_timeoutTimer := cs_timeoutTimer s; cs_finished := cs_finished s;
     cs_seen := cs_seen s; cs_metadataIds := cs_metadataIds s;
     cs_savedFiles := cs_savedFiles s; cs_streamEvents := cs_streamEvents s;
     cs_sawImageStreamPartFrame := cs_sawImageStreamPartFrame s;
     cs_sawImageFinalFrame := cs_sawImageFinalFrame s;
     cs_convoStreamCompleted := cs_convoStreamCompleted s;
     cs_listening := cs_listening s; cs_queue := cs_queue s |}.

Definition set_timeoutTimer (v : option Z) (s : Session) : Session :=
  {| cs_savedCount := cs_savedCount s; cs_idleTimer := cs_idleTimer s;
     cs_timeoutTimer := v; cs_finished := cs_finished s;
     cs_seen := cs_seen s; cs_metadataIds := cs_metadataIds s;
     cs_savedFiles := cs_savedFiles s; cs_streamEvents := cs_streamEvents s;
     cs_sawImageStreamPartFrame := cs_sawImageStreamPartFrame s;
     cs_sawImageFinalFrame := cs_sawImageFinalFrame s;
     cs_convoStreamCompleted := cs_convoStreamCompleted s;
     cs_listening := cs_listening s; cs_queue := cs_queue s |}.

Definition set_finished (v : bool) (s : Session) : Session :=
  {| cs_savedCount := cs_savedCount s; cs_idleTimer := cs_idleTimer s;
     cs_timeoutTimer := cs_timeoutTimer s; cs_finished := v;
     cs_seen := cs_seen s; cs_metadataIds := cs_metadataIds s;
     cs_savedFiles := cs_savedFiles s; cs_streamEvents := cs_streamEvents s;
     cs_sawImageStreamPartFrame := cs_sawImageStreamPartFrame s;
     cs_sawImageFinalFrame := cs_sawImageFinalFrame s;
     cs_convoStreamCompleted := cs_convoStreamCompleted s;
     cs_listening := cs_listening s; cs_queue := cs_queue s |}.

Definition set_seen (v : gset string) (s : Session) : Session :=
  {| cs_savedCount := cs_savedCount s; cs_idleTimer := cs_idleTimer s;
     cs_timeoutTimer := cs_timeoutTimer s; cs_finished := cs_finished s;
     cs_seen := v; cs_metadataIds := cs_metadataIds s;
     cs_savedFiles := cs_savedFiles s; cs_streamEvents := cs_streamEvents s;
     cs_sawImageStreamPartFrame := cs_sawImageStreamPartFrame s;
     cs_sawImageFinalFrame := cs_sawImageFinalFrame s;
     cs_convoStreamCompleted := cs_convoStreamCompleted s;
     cs_listening := cs_listening s; cs_queue := cs_queue s |}.

Definition set_metadataIds (v : list string) (s : Session) : Session :=
  {| cs_savedCount := cs_savedCount s; cs_idleTimer := cs_idleTimer s;
     cs_timeoutTimer := cs_timeoutTimer s; cs_finished := cs_finished s;
     cs_seen := cs_seen s; cs_metadataIds := v;
     cs_savedFiles := cs_savedFiles s; cs_streamEvents := cs_streamEvents s;
     cs_sawImageStreamPartFrame := cs_sawImageStreamPartFrame s;
     cs_sawImageFinalFrame := cs_sawImageFinalFrame s;
     cs_convoStreamCompleted := cs_convoStreamCompleted s;
     cs_listening := cs_listening s; cs_queue := cs_queue s |}.

Definition set_savedFiles (v : list SavedFile) (s : Session) : Session :=
  {| cs_savedCount := cs_savedCount s; cs_idleTimer := cs_idleTimer s;
     cs_timeoutTimer := cs_timeoutTimer s; cs_finished := cs_finished s;
     cs_seen := cs_seen s; cs_metadataIds := cs_metadataIds s;
     cs_savedFiles := v; cs_streamEvents := cs_streamEvents s;
     cs_sawImageStreamPartFrame := cs_sawImageStreamPartFrame s;
     cs_sawImageFinalFrame := cs_sawImageFinalFrame s;
     cs_convoStreamCompleted := cs_convoStreamCompleted s;
     cs_listening := cs_listening s; cs_queue := cs_queue s |}.

Definition set_streamEvents (v : list StreamEvent) (s : Session) : Session :=
  {| cs_savedCount := cs_savedCount s; cs_idleTimer := cs_idleTimer s;
     cs_timeoutTimer := cs_timeoutTimer s; cs_finished := cs_finished s;
     cs_seen := cs_seen s; cs_metadataIds := cs_metadataIds s;
     cs_savedFiles := cs_savedFiles s; cs_streamEvents := v;
     cs_sawImageStreamPartFrame := cs_sawImageStreamPartFrame s;
     cs_sawImageFinalFrame := cs_sawImageFinalFrame s;
     cs_convoStreamCompleted := cs_convoStreamCompleted s;
     cs_listening := cs_listening s; cs_queue := cs_queue s |}.

Definition set_sawImageStreamPartFrame (v : bool) (s : Session) : Session :=
  {| cs_savedCount := cs_savedCount s; cs_idleTimer := cs_idleTimer s;
     cs_timeoutTimer := cs_timeoutTimer s; cs_finished := cs_finished s;
     cs_seen := cs_seen s; cs_metadataIds := cs_metadataIds s;
     cs_savedFiles := cs_savedFiles s; cs_streamEvents := cs_streamEvents s;
     cs_sawImageStreamPartFrame := v;
     cs_sawImageFinalFrame := cs_sawImageFinalFrame s;
     cs_convoStreamCompleted := cs_convoStreamCompleted s;
     cs_listening := cs_listening s; cs_queue := cs_queue s |}.

Definition set_sawImageFinalFrame (v : bool) (s : Session) : Session :=
  {| cs_savedCount := cs_savedCount s; cs_idleTimer := cs_idleTimer s;
     cs_timeoutTimer := cs_timeoutTimer s; cs_finished := cs_finished s;
     cs_seen := cs_seen s; cs_metadataIds := cs_metadataIds s;
     cs_savedFiles := cs_savedFiles s; cs_streamEvents := cs_streamEvents s;
     cs_sawImageStreamPartFrame := cs_sawImageStreamPartFrame s;
     cs_sawImageFinalFrame := v;
     cs_convoStreamCompleted := cs_convoStreamCompleted s;
     cs_listening := cs_listening s; cs_queue := cs_queue s |}.

Definition set_convoStreamCompleted (v : bool) (s : Session) : Session :=
  {| cs_savedCount := cs_savedCount s; cs_idleTimer := cs_idleTimer s;
     cs_timeoutTimer := cs_timeoutTimer s; cs_finished := cs_finished s;
     cs_seen := cs_seen s; cs_metadataIds := cs_metadataIds s;
     cs_savedFiles := cs_savedFiles s; cs_streamEvents := cs_streamEvents s;
     cs_sawImageStreamPartFrame := cs_sawImageStreamPartFrame s;
     cs_sawImageFinalFrame := cs_sawImageFinalFrame s;
     cs_convoStreamCompleted := v;
     cs_listening := cs_listening s; cs_queue := cs_queue s |}.

Definition set_listening (v : bool) (s : Session) : Session :=
  {| cs_savedCount := cs_savedCount s; cs_idleTimer := cs_idleTimer s;
     cs_timeoutTimer := cs_timeoutTimer s; cs_finished := cs_finished s;
     cs_seen := cs_seen s; cs_metadataIds := cs_metadataIds s;
     cs_savedFiles := cs_savedFiles s; cs_streamEvents := cs_streamEvents s;
     cs_sawImageStreamPartFrame := cs_sawImageStreamPartFrame s;
     cs_sawImageFinalFrame := cs_sawImageFinalFrame s;
     cs_convoStreamCompleted := cs_convoStreamCompleted s;
     cs_listening := v; cs_queue := cs_queue s |}.

Definition set_queue (v : list Response) (s : Session) : Session :=
  {| cs_savedCount := cs_savedCount s; cs_idleTimer := cs_idleTimer s;
     cs_timeoutTimer := cs_timeoutTimer s; cs_finished := cs_finished s;
     cs_seen := cs_seen s; cs_metadataIds := cs_metadataIds s;
     cs_savedFiles := cs_savedFiles s; cs_streamEvents := cs_streamEvents s;
     cs_sawImageStreamPartFrame := cs_sawImageStreamPartFrame s;
     cs_sawImageFinalFrame := cs_sawImageFinalFrame s;
     cs_convoStreamCompleted := cs_convoStreamCompleted s;
     cs_listening := cs_listening s; cs_queue := v |}.

Section Session.
Variable opts : Options.

(** [ignoredFileNameSet] *)
Definition ignoredFileNameSet : gset string :=
  list_to_set
    (List.filter nonempty
       (map (fun entry => normalizeMatchFileName (Some entry))
            (ignoreFileNames opts))).

(** [emitStreamEvent]: the entry is appended to the log (and handed to
    the caller's sink). *)
Definition emitStreamEvent (event : StreamEvent) : M St unit :=
  on_session (fun s => set_streamEvents (cs_streamEvents s ++ [event]) s).

Definition shouldIgnoreCapturedFile (fileName sourceFileName : option string)
  : bool :=
  if bool_decide (ignoredFileNameSet = ∅) then false
  else
    let normalizedFileName := normalizeMatchFileName fileName in
    let normalizedSourceFileName := normalizeMatchFileName sourceFileName in
    (nonempty normalizedFileName &&
     bool_decide (normalizedFileName ∈ ignoredFileNameSet)) ||
    (nonempty normalizedSourceFileName &&
     bool_decide (normalizedSourceFileName ∈ ignoredFileNameSet)).

(** [cleanup]: both timers are cleared and the listener is detached. *)
Definition cleanup (s : Session) : Session :=
  set_listening false (set_timeoutTimer None (set_idleTimer None s)).

Definition finish (s : Session) : Session :=
  if cs_finished s then s else cleanup (set_finished true s).

Definition scheduleIdleCheck (s : Session) : Session :=
  let s := set_idleTimer None s in
  if (cs_savedCount s =? 0)%Z then s
  else if requireFinalImageFrame opts && cs_sawImageStreamPartFrame s &&
          negb (cs_sawImageFinalFrame s) then s
  else if requireFinalImageFrame opts && cs_sawImageFinalFrame s &&
          negb (cs_convoStreamCompleted s) then s
  else set_idleTimer (Some (idleMs opts)) s.

(** [markConvoStreamCompleted]; the conversation fields of the beacon go
    to the event only and are left out. *)
Definition markConvoStreamCompleted : M St unit :=
  do st <- get_state;
  if cs_convoStreamCompleted (st_session st) then ret tt
  else
    run on_session (set_convoStreamCompleted true);
    run emitStreamEvent
          {| ev_type := convo_stream_completed;
             ev_source := "ces_stream_event";
             ev_responseUrl := None; ev_downloadUrl := None;
             ev_metadataId := None; ev_contentType := None;
             ev_fileName := None; ev_sourceFileName := None;
             ev_outputPath := None; ev_byteLength := None;
             ev_isStreamPart := false; ev_streamPartIndex := None;
             ev_isFinalStreamFrame := false; ev_reason := None;
             ev_savedCount := None |};
    on_session (fun s =>
      if (cs_savedCount s =? 0)%Z then s
      else if requireFinalImageFrame opts && cs_sawImageStreamPartFrame s &&
              negb (cs_sawImageFinalFrame s) then s
      else set_idleTimer (Some (Z.min (Z.max 600 (idleMs opts)) 1500)) s).

(** The [eventMeta] argument of [handleFileBuffer]. *)
Record EventMeta := {
  em_source : string;
  em_responseUrl : option string;
  em_downloadUrl : option string;
  em_sourceFileName : option string;
  em_isStreamPart : bool;
  em_streamPartIndex : option Z;
  em_isFinalStreamFrame : bool
}.

(** [typeof v === "string" && v.trim() ? basename(v.trim()) : null] *)
Definition trimmed_basename_or_null (v : option string) : option string :=
  match v with
  | Some s => if nonempty (trim s) then Some (basename (trim s)) else None
  | None => None
  end.

(** [`${left}` || right] for strings *)
Definition str_or (a b : string) : string := if nonempty a then a else b.

(** The closing, synchronous block of [handleFileBuffer]: the entry is
    recorded, the frame flags and the count are updated, and the session
    finishes, arms the short grace window or re-schedules the idle
    check. *)
Definition record_saved (image : bool) (savedEntry : SavedFile)
    (metadataId : option string) (s : Session) : Session :=
  let s := set_savedFiles (cs_savedFiles s ++ [savedEntry]) s in
  let s :=
    if requireFinalImageFrame opts && image then
      let s := if sf_isStreamPart savedEntry
               then set_sawImageStreamPartFrame true s else s in
      if sf_isFinalStreamFrame savedEntry
      then set_sawImageFinalFrame true s else s
    else s in
  let s :=
    match metadataId with
    | Some i => if nonempty i
                then set_metadataIds (js_set_add (cs_metadataIds s) i) s else s
    | None => s
    end in
  let s := set_savedCount (cs_savedCount s + 1)%Z s in
  if (maxFiles opts <=? cs_savedCount s)%Z then finish s
  else if requireFinalImageFrame opts && image &&
          cs_sawImageFinalFrame s && cs_convoStreamCompleted s
  then set_idleTimer (Some (Z.min (Z.max 500 (idleMs opts)) 1500)) s
  else scheduleIdleCheck s.

Definition handleFileBuffer (buffer : Bytes) (contentType : string)
    (nameHint : string) (metadataId : option string) (eventMeta : EventMeta)
  : M St unit :=
  if shouldIgnoreCapturedFile (Some nameHint) (em_sourceFileName eventMeta)
  then
    emitStreamEvent
      {| ev_type := file_ignored;
         ev_source := str_or (em_source eventMeta) "stream_response";
         ev_responseUrl := or_null (em_responseUrl eventMeta);
         ev_downloadUrl := or_null (em_downloadUrl eventMeta);
         ev_metadataId := or_null metadataId;
         ev_contentType := None;
         ev_fileName := trimmed_basename_or_null (Some nameHint);
         ev_sourceFileName :=
           trimmed_basename_or_null (em_sourceFileName eventMeta);
         ev_outputPath := None; ev_byteLength := None;
         ev_isStreamPart := false; ev_streamPartIndex := None;
         ev_isFinalStreamFrame := false;
         ev_reason := Some "matches_upload_reference_name";
         ev_savedCount := None |}
  else
    do st <- get_state;
    do saved <- in_world
                  (saveBufferToDisk buffer
                     (Some (str_or nameHint
                              ("download-" +:+ dec_string (w_now (st_world st)))))
                     contentType metadataId);
    let savedEntry :=
      {| sf_filePath := sf_filePath saved;
         sf_fileName := sf_fileName saved;
         sf_byteLength := sf_byteLength saved;
         sf_contentType := sf_contentType saved;
         sf_metadataId := sf_metadataId saved;
         sf_sourceFileName := or_null (em_sourceFileName eventMeta);
         sf_isStreamPart := em_isStreamPart eventMeta;
         sf_streamPartIndex := em_streamPartIndex eventMeta;
         sf_isFinalStreamFrame := em_isFinalStreamFrame eventMeta |} in
    run emitStreamEvent
          {| ev_type := file_saved;
             ev_source := str_or (em_source eventMeta) "stream_response";
             ev_responseUrl := or_null (em_responseUrl eventMeta);
             ev_downloadUrl := or_null (em_downloadUrl eventMeta);
             ev_metadataId := or_null metadataId;
             ev_contentType := or_null (Some contentType);
             ev_fileName := or_null (Some (sf_fileName savedEntry));
             ev_sourceFileName := or_null (sf_sourceFileName savedEntry);
             ev_outputPath := or_null (Some (sf_filePath savedEntry));
             ev_byteLength := Some (sf_byteLength savedEntry);
             ev_isStreamPart := sf_isStreamPart savedEntry;
             ev_streamPartIndex := sf_streamPartIndex savedEntry;
             ev_isFinalStreamFrame := sf_isFinalStreamFrame savedEntry;
             ev_reason := None; ev_savedCount := None |};
    on_session (record_saved (run_is_image (st_world st)) savedEntry metadataId).

Definition isLikelyUploadEchoMetadata (fileInfo : JsonBody) : bool :=
  match fileInfo with
  | JsonObj o =>
      let fileName :=
        match j_file_name o with Some n => trim n | None => "" end in
      let hasFileName := nonempty fileName in
      let hasFileSize :=
        match j_file_size_bytes o with
        | Some n => (0 <? n)%Z
        | None => false
        end in
      negb hasFileName && negb hasFileSize
  | _ => false
  end.

(** [extractFileId(response.url()) || null] *)
Definition response_file_id (url : string) : option string :=
  match extractFileId url with
  | Ok i => or_null i
  | Throw _ => None
  end.

Definition save_failed_event (source url : string) (withId : bool)
    (contentType : string) : StreamEvent :=
  {| ev_type := save_failed;
     ev_source := source;
     ev_responseUrl := Some url; ev_downloadUrl := None;
     ev_metadataId := if withId then response_file_id url else None;
     ev_contentType := or_null (Some contentType);
     ev_fileName := None; ev_sourceFileName := None;
     ev_outputPath := None; ev_byteLength := None;
     ev_isStreamPart := false; ev_streamPartIndex := None;
     ev_isFinalStreamFrame := false; ev_reason := None;
     ev_savedCount := None |}.

(** The body of the [try] block for a files/download metadata response. *)
Definition metadata_branch (net : Net) (response : Response)
    (contentType : string) : M St unit :=
  match r_json response with
  | JsonThrows => throw JsonUnreadable
  | fileInfo =>
      if negb (bool_decide (ignoredFileNameSet = ∅)) &&
         isLikelyUploadEchoMetadata fileInfo
      then
        emitStreamEvent
          {| ev_type := file_ignored;
             ev_source := "files_download_metadata";
             ev_responseUrl := Some (r_url response);
             ev_downloadUrl := None;
             ev_metadataId := response_file_id (r_url response);
             ev_contentType := None;
             ev_fileName := None; ev_sourceFileName := None;
             ev_outputPath := None; ev_byteLength := None;
             ev_isStreamPart := false; ev_streamPartIndex := None;
             ev_isFinalStreamFrame := false;
             ev_reason := Some "upload_echo_metadata_null_fields";
             ev_savedCount := None |}
      else
        let download_url :=
          match fileInfo with JsonObj o => j_download_url o | _ => None end in
        let file_name :=
          match fileInfo with JsonObj o => j_file_name o | _ => None end in
        match download_url with
        | Some downloadUrl =>
            if nonempty downloadUrl then
              do fromDownload <- lift_res (extractFileId downloadUrl);
              do metadataId <-
                lift_res (or_else_res fromDownload
                            (extractFileId (r_url response)));
              let metadataFileNameRaw :=
                match file_name with Some n => basename n | None => "" end in
              let frameInfo :=
                parseImageStreamFrameInfo (Some metadataFileNameRaw) in
              run emitStreamEvent
                    {| ev_type := download_url_resolved;
                       ev_source := "files_download_metadata";
                       ev_responseUrl := Some (r_url response);
                       ev_downloadUrl := Some downloadUrl;
                       ev_metadataId := or_null metadataId;
                       ev_contentType := or_null (Some contentType);
                       ev_fileName := None;
                       ev_sourceFileName :=
                         or_null (Some (fi_fileName frameInfo));
                       ev_outputPath := None; ev_byteLength := None;
                       ev_isStreamPart := fi_isPart frameInfo;
                       ev_streamPartIndex := fi_partIndex frameInfo;
                       ev_isFinalStreamFrame := fi_isFinal frameInfo;
                       ev_reason := None; ev_savedCount := None |};
              do st <- get_state;
              do fetched <-
                fetchDownloadWithRetry net (run_is_file (st_world st));
              let shouldUseMetadataFileName :=
                nonempty metadataFileNameRaw &&
                negb (run_is_image (st_world st) &&
                      isLikelyImageStreamPartName (Some metadataFileNameRaw)) in
              let nameCandidate :=
                if shouldUseMetadataFileName then metadataFileNameRaw
                else if nonempty (f_fileName fetched)
                then basename (f_fileName fetched)
                else prefixed (st_world st) (dec_string (w_now (st_world st))) in
              handleFileBuffer (f_buffer fetched) (f_contentType fetched)
                nameCandidate metadataId
                {| em_source := "files_download_metadata";
                   em_responseUrl := Some (r_url response);
                   em_downloadUrl := Some downloadUrl;
                   em_sourceFileName := or_null (Some (fi_fileName frameInfo));
                   em_isStreamPart := fi_isPart frameInfo;
                   em_streamPartIndex := fi_partIndex frameInfo;
                   em_isFinalStreamFrame := fi_isFinal frameInfo |}
            else
              emitStreamEvent
                {| ev_type := metadata_missing_download_url;
                   ev_source := "files_download_metadata";
                   ev_responseUrl := Some (r_url response);
                   ev_downloadUrl := None;
                   ev_metadataId := response_file_id (r_url response);
                   ev_contentType := or_null (Some contentType);
                   ev_fileName := None; ev_sourceFileName := None;
                   ev_outputPath := None; ev_byteLength := None;
                   ev_isStreamPart := false; ev_streamPartIndex := None;
                   ev_isFinalStreamFrame := false; ev_reason := None;
                   ev_savedCount := None |}
        | None =>
            emitStreamEvent
              {| ev_type := metadata_missing_download_url;
                 ev_source := "files_download_metadata";
                 ev_responseUrl := Some (r_url response);
                 ev_downloadUrl := None;
                 ev_metadataId := response_file_id (r_url response);
                 ev_contentType := or_null (Some contentType);
                 ev_fileName := None; ev_sourceFileName := None;
                 ev_outputPath := None; ev_byteLength := None;
                 ev_isStreamPart := false; ev_streamPartIndex := None;
                 ev_isFinalStreamFrame := false; ev_reason := None;
                 ev_savedCount := None |}
        end
  end.

(** The event logged for each file that the direct branch saved. *)
Definition direct_saved_event (url : string) (responseFileId : option string)
    (contentType : string) (file : SavedFile) : StreamEvent :=
  {| ev_type := file_saved;
     ev_source := "download_response";
     ev_responseUrl := Some url; ev_downloadUrl := None;
     ev_metadataId := or_null responseFileId;
     ev_contentType :=
       or_null (Some (str_or (sf_contentType file) contentType));
     ev_fileName := or_null (Some (sf_fileName file));
     ev_sourceFileName := None;
     ev_outputPath := or_null (Some (sf_filePath file));
     ev_byteLength := Some (sf_byteLength file);
     ev_isStreamPart := false; ev_streamPartIndex := None;
     ev_isFinalStreamFrame := false; ev_reason := None;
     ev_savedCount := None |}.

(** The direct branch after its save: the count, the files with their
    events and the ids of [next] are merged, then the session finishes
    or re-schedules the idle check. *)
Definition merge_direct (url : string) (responseFileId : option string)
    (contentType : string) (next : SaveResult) (s : Session) : Session :=
  let s := set_savedCount (cs_savedCount s + sr_savedCount next)%Z s in
  let s :=
    fold_left
      (fun s file =>
         set_streamEvents
           (cs_streamEvents s ++
              [direct_saved_event url responseFileId contentType file])
           (set_savedFiles (cs_savedFiles s ++ [file]) s))
      (sr_savedFiles next) s in
  let s :=
    fold_left
      (fun s id =>
         if nonempty id
         then set_metadataIds (js_set_add (cs_metadataIds s) id) s else s)
      (sr_metadataIds next) s in
  if (maxFiles opts <=? cs_savedCount s)%Z then finish s
  else if (0 <? sr_savedCount next)%Z then scheduleIdleCheck s
  else s.

(** [extractFileId(response.url())] once the URL is known to parse *)
Definition responseFileId_of (url : string) : option string :=
  match extractFileId url with
  | Ok i => i
  | Throw _ => None
  end.

(** The name hint of a direct download: the name of the
    Content-Disposition header, else one made from the file id, else one
    made from the clock. *)
Definition direct_name_hint (response : Response) (w : World) : string :=
  let responseFileId := responseFileId_of (r_url response) in
  let fromHeader :=
    parseContentDispositionFileName
      (header_or_empty (r_contentDisposition response)) in
  if nonempty fromHeader then basename fromHeader
  else if truthy responseFileId
  then prefixed w (default "" responseFileId)
  else prefixed w (dec_string (w_now w)).

Definition direct_branch (net : Net) (response : Response)
    (contentType : string) : M St unit :=
  let responseFileId := responseFileId_of (r_url response) in
  do st <- get_state;
  let nameHint := direct_name_hint response (st_world st) in
  if shouldIgnoreCapturedFile (Some nameHint) (Some "") then
    emitStreamEvent
      {| ev_type := file_ignored;
         ev_source := "download_response";
         ev_responseUrl := Some (r_url response);
         ev_downloadUrl := None;
         ev_metadataId := or_null responseFileId;
         ev_contentType := None;
         ev_fileName := or_null (Some nameHint);
         ev_sourceFileName := None;
         ev_outputPath := None; ev_byteLength := None;
         ev_isStreamPart := false; ev_streamPartIndex := None;
         ev_isFinalStreamFrame := false;
         ev_reason := Some "matches_upload_reference_name";
         ev_savedCount := None |}
  else
    do next <-
      try_catch
        (in_world
           (saveDownloadRecord net
              (Some {| rec_downloadUrl := Some (r_url response);
                       rec_fileName := Some nameHint;
                       rec_metadataId := or_null responseFileId;
                       rec_buffer := None;
                       rec_contentType := None;
                       rec_url := None |})))
        (fun _ =>
           run emitStreamEvent
                 (save_failed_event "download_response" (r_url response)
                    true contentType);
           ret emptySaveResult);
    on_session
      (merge_direct (r_url response) responseFileId contentType next).

(** The body of the [try] block for an estuary/content JSON response. *)
Definition estuary_branch (net : Net) (response : Response)
    (contentType : string) : M St unit :=
  match r_json response with
  | JsonThrows => throw JsonUnreadable
  | data =>
      let item :=
        match data with JsonObj o => or_null (j_item o) | _ => None end in
      match item with
      | None =>
          emitStreamEvent
            {| ev_type := metadata_missing_item;
               ev_source := "estuary_content";
               ev_responseUrl := Some (r_url response);
               ev_downloadUrl := None; ev_metadataId := None;
               ev_contentType := or_null (Some contentType);
               ev_fileName := None; ev_sourceFileName := None;
               ev_outputPath := None; ev_byteLength := None;
               ev_isStreamPart := false; ev_streamPartIndex := None;
               ev_isFinalStreamFrame := false; ev_reason := None;
               ev_savedCount := None |}
      | Some item =>
          let downloadUrl :=
            "https://chatgpt.com/backend-api/estuary/content/" +:+ item in
          run emitStreamEvent
                {| ev_type := download_url_resolved;
                   ev_source := "estuary_content";
                   ev_responseUrl := Some (r_url response);
                   ev_downloadUrl := Some downloadUrl;
                   ev_metadataId := Some item;
                   ev_contentType := or_null (Some contentType);
                   ev_fileName := None; ev_sourceFileName := None;
                   ev_outputPath := None; ev_byteLength := None;
                   ev_isStreamPart := false; ev_streamPartIndex := None;
                   ev_isFinalStreamFrame := false; ev_reason := None;
                   ev_savedCount := None |};
          do st <- get_state;
          do fetched <- fetchDownloadWithRetry net (run_is_file (st_world st));
          let nameHint :=
            if nonempty (f_fileName fetched) then basename (f_fileName fetched)
            else prefixed (st_world st) item in
          handleFileBuffer (f_buffer fetched) (f_contentType fetched)
            nameHint (Some item)
            {| em_source := "estuary_content";
               em_responseUrl := Some (r_url response);
               em_downloadUrl := Some downloadUrl;
               em_sourceFileName := None;
               em_isStreamPart := false;
               em_streamPartIndex := None;
               em_isFinalStreamFrame := false |}
      end
  end.

(** The key under which a response is remembered outside media runs:
    its file id, else its URL. *)
Definition dedupeKey (url : string) : string :=
  match extractFileId url with
  | Ok (Some i) => if nonempty i then i else url
  | _ => url
  end.

(** The three branches of [processResponse] that follow its scope and
    dedup checks. *)
Definition dispatch_response (net : Net) (response : Response)
    (isEstuary isDownload : bool) : M St unit :=
  let contentType := header_or_empty (r_contentType response) in
  if isDownload && isJsonContentType contentType then
    try_catch (metadata_branch net response contentType)
      (fun _ =>
         emitStreamEvent
           (save_failed_event "files_download_metadata"
              (r_url response) true contentType))
  else if negb (isJsonContentType contentType) then
    direct_branch net response contentType
  else if isEstuary && isJsonContentType contentType then
    try_catch (estuary_branch net response contentType)
      (fun _ =>
         emitStreamEvent
           (save_failed_event "estuary_content"
              (r_url response) false contentType))
  else ret tt.

(** [processResponse], run to completion. *)
Definition processResponse (net : Net) (response : Response) : M St unit :=
  match url_parse (r_url response) with
  | None => throw (InvalidUrl (r_url response))
  | Some responseUrl =>
      if negb (str_eqb (url_hostname responseUrl) "chatgpt.com") then ret tt
      else
        let pathname := url_pathname responseUrl in
        let isEstuary := startsWith pathname "/backend-api/estuary/content" in
        let isDownload := startsWith pathname "/backend-api/files/download/" in
        if negb isEstuary && negb isDownload then ret tt
        else
          do st <- get_state;
          let isImageRun := run_is_image (st_world st) in
          let key := dedupeKey (r_url response) in
          if negb isImageRun && bool_decide (key ∈ cs_seen (st_session st))
          then ret tt
          else
            run (if negb isImageRun
                 then on_session (fun s => set_seen ({[key]} ∪ cs_seen s) s)
                 else ret tt);
            dispatch_response net response isEstuary isDownload
  end.

(** [copyFile(source, target)] *)
Definition copyFile (source target : string) : M World unit :=
  fun w =>
    match w_disk w !! source with
    | Some content => (Ok tt, set_disk (<[target := content]> (w_disk w)) w)
    | None => (Throw (NoSuchFile source), w)
    end.

(** The path of the extra copy of the latest saved file. *)
Definition latestPath (latestSaved : SavedFile) : string :=
  let latestExt := extensionFromContentType (sf_contentType latestSaved) in
  let latestName := applyExtension "latest" latestExt in
  resolve_in_outputDir latestName.

Definition collector_complete_event (savedCount : Z) : StreamEvent :=
  {| ev_type := collector_complete;
     ev_source := "stream_collector";
     ev_responseUrl := None; ev_downloadUrl := None;
     ev_metadataId := None; ev_contentType := None;
     ev_fileName := None; ev_sourceFileName := None;
     ev_outputPath := None; ev_byteLength := None;
     ev_isStreamPart := false; ev_streamPartIndex := None;
     ev_isFinalStreamFrame := false; ev_reason := None;
     ev_savedCount := Some savedCount |}.

(** What [collectChatGptDownloads] does once [await queue] has returned:
    the latest saved file is copied, the closing event is logged and the
    aggregate is built. *)
Definition complete_collection : M St SaveResult :=
  do st <- get_state;
  run (match last (cs_savedFiles (st_session st)) with
       | Some latestSaved =>
           if bool_decide (sf_filePath latestSaved = latestPath latestSaved)
           then ret tt
           else in_world (copyFile (sf_filePath latestSaved)
                                   (latestPath latestSaved))
       | None => ret tt
       end);
  run emitStreamEvent
        (collector_complete_event (cs_savedCount (st_session st)));
  do st' <- get_state;
  ret (buildSaveResult (cs_savedCount (st_session st'))
         (cs_savedFiles (st_session st'))
         (cs_metadataIds (st_session st'))
         (cs_streamEvents (st_session st'))).

(** *** The session as a transition system

    The body of [collectChatGptDownloads] waits in three stages: it polls
    [finished], then awaits the queue as it stood when the poll
    succeeded, then completes.  Between its own steps the event loop runs
    the response listener, the queued handlers, the beacon callback and
    the timers.  A queued handler is run to completion in one step: the
    variables of the closure that timers and the beacon read are written
    by a handler only in its closing synchronous block.

    The handlers are chained by
    [queue = queue.catch(() => undefined).then(() => processResponse(r))]:
    what a handler throws is dropped by the next link of the chain, and
    the promise [queue] is rejected exactly when the handler that ran
    last threw; [await queue] then throws, and so does the session.

    The page is taken to deliver responses whose [url()] is a well-formed
    URL, as a browser does: a response whose URL does not parse is no
    input of the listener. *)

Inductive Phase :=
| Polling
| AwaitingQueue (pending : nat)
| Returned (result : SaveResult)
| Rejected (e : JsError).

Record Run := {
  run_st : St;
  run_phase : Phase;
  run_queueError : option JsError   (* [queue] is rejected: the handler
                                       that ran last threw *)
}.

Inductive Input :=
| PageResponse (response : Response)   (* the page emits "response" *)
| HandlerCompletes (net : Net)         (* the oldest queued handler runs *)
| BeaconSeen                           (* the stream-completed request is seen *)
| IdleTimerFires
| TimeoutTimerFires
| ClockAdvances (now : Z)
| PollSeesFinished                     (* [checkFinished] resolves *)
| QueueAwaited.                        (* [await queue] returns *)

Definition initial_session : Session :=
  {| cs_savedCount := 0; cs_idleTimer := None;
     cs_timeoutTimer := Some (timeoutMs opts); cs_finished := false;
     cs_seen := ∅; cs_metadataIds := []; cs_savedFiles := [];
     cs_streamEvents := [];
     cs_sawImageStreamPartFrame := false; cs_sawImageFinalFrame := false;
     cs_convoStreamCompleted := negb (waitForConvoStreamCompleted opts);
     cs_listening := true; cs_queue := [] |}.

(** The session right after its set-up: listener attached, hard timeout
    armed. *)
Definition start (w : World) : Run :=
  {| run_st := {| st_session := initial_session; st_world := w |};
     run_phase := Polling;
     run_queueError := None |}.

Definition with_session (f : Session -> Session) (r : Run) : Run :=
  {| run_st := {| st_session := f (st_session (run_st r));
                  st_world := st_world (run_st r) |};
     run_phase := run_phase r;
     run_queueError := run_queueError r |}.

(** [onResponse] *)
Definition onResponse (response : Response) (s : Session) : Session :=
  if cs_finished s then s else set_queue (cs_queue s ++ [response]) s.

(** One step of the event loop; [None] when the input cannot happen in
    the state. *)
Definition step (i : Input) (r : Run) : option Run :=
  let s := st_session (run_st r) in
  match i with
  | PageResponse response =>
      if cs_listening s then
        match url_parse (r_url response) with
        | Some _ => Some (with_session (onResponse response) r)
        | None => None
        end
      else Some r
  | HandlerCompletes net =>
      match cs_queue s with
      | [] => None
      | response :: rest =>
          let '(res, st') := processResponse net response (run_st r) in
          Some {| run_st :=
                    {| st_session := set_queue rest (st_session st');
                       st_world := st_world st' |};
                  run_phase :=
                    match run_phase r with
                    | AwaitingQueue (S n) => AwaitingQueue n
                    | p => p
                    end;
                  run_queueError :=
                    match res with
                    | Ok _ => None
                    | Throw e => Some e
                    end |}
      end
  | BeaconSeen =>
      if waitForConvoStreamCompleted opts then
        let '(_, st') := markConvoStreamCompleted (run_st r) in
        Some {| run_st := st'; run_phase := run_phase r;
                run_queueError := run_queueError r |}
      else None
  | IdleTimerFires =>
      match cs_idleTimer s with
      | Some _ => Some (with_session (fun s => finish (set_idleTimer None s)) r)
      | None => None
      end
  | TimeoutTimerFires =>
      match cs_timeoutTimer s with
      | Some _ =>
          Some (with_session (fun s => finish (set_timeoutTimer None s)) r)
      | None => None
      end
  | ClockAdvances now =>
      if (w_now (st_world (run_st r)) <=? now)%Z then
        Some {| run_st :=
                  {| st_session := s;
                     st_world :=
                       {| w_disk := w_disk (st_world (run_st r));
                          w_now := now;
                          w_imageRun := w_imageRun (st_world (run_st r)) |} |};
                run_phase := run_phase r;
                run_queueError := run_queueError r |}
      else None
  | PollSeesFinished =>
      match run_phase r with
      | Polling =>
          if cs_finished s
          then Some {| run_st := run_st r;
                       run_phase := AwaitingQueue (length (cs_queue s));
                       run_queueError := run_queueError r |}
          else None
      | _ => None
      end
  | QueueAwaited =>
      match run_phase r with
      | AwaitingQueue O =>
          match run_queueError r with
          | Some e =>
              Some {| run_st := run_st r; run_phase := Rejected e;
                      run_queueError := Some e |}
          | None =>
              match complete_collection (run_st r) with
              | (Ok result, st') =>
                  Some {| run_st := st'; run_phase := Returned result;
                          run_queueError := None |}
              | (Throw e, st') =>
                  Some {| run_st := st'; run_phase := Rejected e;
                          run_queueError := None |}
              end
          end
      | _ => None
      end
  end.

(** The runs of a session: the states reached from [start] by steps of
    the event loop. *)
Inductive reachable (w0 : World) : Run -> Prop :=
| reachable_start : reachable w0 (start w0)
| reachable_step (i : Input) (r r' : Run) :
    reachable w0 r -> step i r = Some r' -> reachable w0 r'.

(** The handlers of a list of responses run one after the other, as the
    queue runs them; what a handler throws is dropped. *)
Fixpoint process_all (rs : list (Net * Response)) (st : St) : St :=
  match rs with
  | [] => st
  | (net, response) :: rs' =>
      process_all rs' (snd (processResponse net response st))
  end.

(** A response that passes the scope check of [processResponse]. *)
Definition in_scope (response : Response) : Prop :=
  exists u,
    url_parse (r_url response) = Some u /\
    url_hostname u = "chatgpt.com" /\
    (startsWith (url_pathname u) "/backend-api/estuary/content" = true \/
     startsWith (url_pathname u) "/backend-api/files/download/" = true).

(** A run of the event loop on a list of inputs. *)
Fixpoint run_inputs (inputs : list Input) (r : Run) : option Run :=
  match inputs with
  | [] => Some r
  | i :: inputs' =>
      match step i r with
      | Some r' => run_inputs inputs' r'
      | None => None
      end
  end.

End Session.
End Engine.

(** ** The result reducer: [retainLatestImageOnly] *)

(** The values of [frameInfoByMetadataId]. *)
Record FrameEntry := {
  fe_sourceFileName : string;
  fe_isFinalStreamFrame : bool;
  fe_isStreamPart : bool;
  fe_streamPartIndex : option Z
}.

(** The entries of [orderedCandidates]. *)
Record Candidate := {
  c_filePath : string;
  c_fileName : string;
  c_sourceFileName : string;
  c_byteLength : option Z;
  c_contentType : string;
  c_metadataId : option string;
  c_isStreamPart : bool;
  c_streamPartIndex : option Z;
  c_isFinalStreamFrame : bool
}.

Global Instance Candidate_eq_dec : EqDecision Candidate.
Proof. solve_decision. Defined.

(** [typeof v === "string" && v.trim() ? basename(v.trim()) : ""] *)
Definition trimmed_basename (v : option string) : string :=
  match v with
  | Some s => if nonempty (trim s) then basename (trim s) else ""
  | None => ""
  end.

(** [name && !isLikelyImageStreamPartName(name)] *)
Definition names_final_frame (name : string) : bool :=
  nonempty name && negb (isLikelyImageStreamPartName (Some name)).

(** [name ? isLikelyImageStreamPartName(name) : false] *)
Definition names_part_frame (name : string) : bool :=
  if nonempty name then isLikelyImageStreamPartName (Some name) else false.

(** What the first loop over the events builds. *)
Record FrameScan := {
  fs_frameInfoByMetadataId : gmap string FrameEntry;
  fs_finalFrameMetadataIds : list string;
  fs_preferredFinalFrameMetadataIds : list string;
  fs_sawPartFrameInSequence : bool
}.

Definition empty_scan : FrameScan :=
  {| fs_frameInfoByMetadataId := ∅;
     fs_finalFrameMetadataIds := [];
     fs_preferredFinalFrameMetadataIds := [];
     fs_sawPartFrameInSequence := false |}.

(** One pass through the body of the first loop. *)
Definition scan_event (acc : FrameScan) (event : StreamEvent) : FrameScan :=
  if negb (bool_decide (ev_type event = download_url_resolved)) then acc
  else
    match or_null (ev_metadataId event) with
    | None => acc
    | Some metadataId =>
        let sourceFileName := trimmed_basename (ev_sourceFileName event) in
        let isFinalStreamFrame :=
          ev_isFinalStreamFrame event || names_final_frame sourceFileName in
        let isStreamPart :=
          ev_isStreamPart event || names_part_frame sourceFileName in
        let sawPartFrameInSequence :=
          fs_sawPartFrameInSequence acc || isStreamPart in
        {| fs_frameInfoByMetadataId :=
             <[metadataId :=
                 {| fe_sourceFileName := sourceFileName;
                    fe_isFinalStreamFrame := isFinalStreamFrame;
                    fe_isStreamPart := isStreamPart;
                    fe_streamPartIndex := ev_streamPartIndex event |}]>
               (fs_frameInfoByMetadataId acc);
           fs_finalFrameMetadataIds :=
             if isFinalStreamFrame
             then fs_finalFrameMetadataIds acc ++ [metadataId]
             else fs_finalFrameMetadataIds acc;
           fs_preferredFinalFrameMetadataIds :=
             if isFinalStreamFrame && sawPartFrameInSequence
             then fs_preferredFinalFrameMetadataIds acc ++ [metadataId]
             else fs_preferredFinalFrameMetadataIds acc;
           fs_sawPartFrameInSequence := sawPartFrameInSequence |}
    end.

Definition scan_frames (streamEvents : list StreamEvent) : FrameScan :=
  fold_left scan_event streamEvents empty_scan.

(** [pushCandidate]: the candidates that one call appends, none or one. *)
Definition pushCandidate (frameInfoByMetadataId : gmap string FrameEntry)
    (filePath fileName sourceFileName : option string)
    (byteLength : option Z) (contentType metadataId : option string)
    (isStreamPart : bool) (streamPartIndex : option Z)
    (isFinalStreamFrame : bool) : list Candidate :=
  match filePath with
  | None => []
  | Some filePath =>
      if negb (nonempty (trim filePath)) then []
      else
        let normalizedPath := trim filePath in
        let normalizedMetadataId := or_null metadataId in
        let metadataFrameInfo :=
          match normalizedMetadataId with
          | Some i => frameInfoByMetadataId !! i
          | None => None
          end in
        let frameSourceFileName :=
          match metadataFrameInfo with
          | Some info => fe_sourceFileName info
          | None => ""
          end in
        let normalizedSourceFileName :=
          match sourceFileName with
          | Some name => if nonempty (trim name) then basename (trim name)
                         else frameSourceFileName
          | None => frameSourceFileName
          end in
        let normalizedIsFinalStreamFrame :=
          isFinalStreamFrame ||
          names_final_frame normalizedSourceFileName ||
          match metadataFrameInfo with
          | Some info => fe_isFinalStreamFrame info
          | None => false
          end in
        let normalizedIsStreamPart :=
          isStreamPart ||
          names_part_frame normalizedSourceFileName ||
          match metadataFrameInfo with
          | Some info => fe_isStreamPart info
          | None => false
          end in
        let normalizedStreamPartIndex :=
          match streamPartIndex with
          | Some n => Some n
          | None =>
              match metadataFrameInfo with
              | Some info => fe_streamPartIndex info
              | None => None
              end
          end in
        [ {| c_filePath := normalizedPath;
             c_fileName :=
               match fileName with
               | Some n => if nonempty (trim n) then basename (trim n)
                           else basename normalizedPath
               | None => basename normalizedPath
               end;
             c_sourceFileName := normalizedSourceFileName;
             c_byteLength := byteLength;
             c_contentType := header_or_empty contentType;
             c_metadataId := normalizedMetadataId;
             c_isStreamPart := normalizedIsStreamPart;
             c_streamPartIndex := normalizedStreamPartIndex;
             c_isFinalStreamFrame := normalizedIsFinalStreamFrame |} ]
  end.

Definition candidates_of_event (info : gmap string FrameEntry)
    (event : StreamEvent) : list Candidate :=
  if bool_decide (ev_type event = file_saved) then
    pushCandidate info (ev_outputPath event) (ev_fileName event)
      (ev_sourceFileName event) (ev_byteLength event) (ev_contentType event)
      (ev_metadataId event) (ev_isStreamPart event)
      (ev_streamPartIndex event) (ev_isFinalStreamFrame event)
  else [].

Definition candidates_of_file (info : gmap string FrameEntry)
    (file : SavedFile) : list Candidate :=
  pushCandidate info (Some (sf_filePath file)) (Some (sf_fileName file))
    (sf_sourceFileName file) (Some (sf_byteLength file))
    (Some (sf_contentType file)) (sf_metadataId file)
    (sf_isStreamPart file) (sf_streamPartIndex file)
    (sf_isFinalStreamFrame file).

(** [orderedCandidates]: the saved files of the event log, then those of
    [savedFiles] that have a path. *)
Definition orderedCandidates (saveResult : SaveResult) : list Candidate :=
  let info :=
    fs_frameInfoByMetadataId (scan_frames (sr_streamEvents saveResult)) in
  flat_map (candidates_of_event info) (sr_streamEvents saveResult) ++
  flat_map (candidates_of_file info)
    (List.filter (fun entry => nonempty (sf_filePath entry))
       (sr_savedFiles saveResult)).

(** The loop that builds [existingCandidates], on the candidates from
    the last to the first. *)
Fixpoint existing_from (disk : gmap string Bytes) (seenExistingPaths : gset string)
    (candidates : list Candidate) : list Candidate :=
  match candidates with
  | [] => []
  | candidate :: rest =>
      if negb (nonempty (c_filePath candidate)) then
        existing_from disk seenExistingPaths rest
      else if bool_decide (c_filePath candidate ∈ seenExistingPaths) then
        existing_from disk seenExistingPaths rest
      else if negb (bool_decide (is_Some (disk !! c_filePath candidate))) then
        existing_from disk seenExistingPaths rest
      else
        candidate ::
        existing_from disk ({[c_filePath candidate]} ∪ seenExistingPaths) rest
  end.

Definition existingCandidates (disk : gmap string Bytes)
    (ordered : list Candidate) : list Candidate :=
  existing_from disk ∅ (rev ordered).

(** The loops over the ids of final frames, on the ids from the last to
    the first: the first id that an existing candidate carries selects
    the first such candidate. *)
Fixpoint select_by_ids (ids : list string) (existing : list Candidate)
  : option Candidate :=
  match ids with
  | [] => None
  | metadataId :: rest =>
      match List.find
              (fun candidate =>
                 bool_decide (c_metadataId candidate = Some metadataId))
              existing with
      | Some matchingCandidate => Some matchingCandidate
      | None => select_by_ids rest existing
      end
  end.

(** [candidate.isFinalStreamFrame === true ||
     (candidate.sourceFileName && !isLikelyImageStreamPartName(...))] *)
Definition candidate_is_final (candidate : Candidate) : bool :=
  c_isFinalStreamFrame candidate ||
  names_final_frame (c_sourceFileName candidate).

(** [selected], after the four stages of the selection. *)
Definition select_candidate (scan : FrameScan)
    (existing ordered : list Candidate) : option Candidate :=
  match select_by_ids (rev (fs_preferredFinalFrameMetadataIds scan))
                      existing with
  | Some selected => Some selected
  | None =>
      match select_by_ids (rev (fs_finalFrameMetadataIds scan)) existing with
      | Some selected => Some selected
      | None =>
          match List.find candidate_is_final existing with
          | Some selected => Some selected
          | None =>
              match existing with
              | selected :: _ => Some selected
              | [] => last ordered
              end
          end
      end
  end.

(** [pathsToDelete] *)
Definition pathsToDelete (ordered : list Candidate) (selected : Candidate)
  : list string :=
  List.filter (fun filePath => negb (str_eqb filePath (c_filePath selected)))
    (List.filter nonempty (map c_filePath ordered)).

(** [unlink] of each path, failures dropped. *)
Definition unlink_all (paths : list string) (disk : gmap string Bytes)
  : gmap string Bytes :=
  fold_left (fun d path => delete path d) paths disk.

(** The saved file of the reduced result. *)
Definition retained_file (disk : gmap string Bytes) (saveResult : SaveResult)
    (selected : Candidate) : SavedFile :=
  let byteLength :=
    match disk !! c_filePath selected with
    | Some content => byteLength content
    | None => default 0%Z (c_byteLength selected)
    end in
  let latestMetadataId :=
    if truthy (c_metadataId selected) then c_metadataId selected
    else last (sr_metadataIds saveResult) in
  {| sf_filePath := c_filePath selected;
     sf_fileName :=
       str_or (c_fileName selected) (basename (c_filePath selected));
     sf_byteLength := byteLength;
     sf_contentType := c_contentType selected;
     sf_metadataId := latestMetadataId;
     sf_sourceFileName :=
       if nonempty (c_sourceFileName selected)
       then Some (c_sourceFileName selected) else None;
     sf_isStreamPart := c_isStreamPart selected;
     sf_streamPartIndex := c_streamPartIndex selected;
     sf_isFinalStreamFrame := candidate_is_final selected |}.

Definition retainLatestImageOnly (saveResult : option SaveResult)
  : M World SaveResult :=
  match saveResult with
  | None => ret emptySaveResult
  | Some saveResult =>
      let scan := scan_frames (sr_streamEvents saveResult) in
      let ordered := orderedCandidates saveResult in
      if is_nil ordered then ret saveResult
      else
        do w <- get_state;
        let existing := existingCandidates (w_disk w) ordered in
        match select_candidate scan existing ordered with
        | None => ret saveResult
        | Some selected =>
            let file := retained_file (w_disk w) saveResult selected in
            run modify (fun w =>
                  set_disk (unlink_all (pathsToDelete ordered selected)
                              (w_disk w)) w);
            ret (buildSaveResult 1 [file] (id_list (sf_metadataId file))
                   (sr_streamEvents saveResult))
        end
  end.
(** ** Predicates used in the statements *)

(** [hoare P m Q]: from a state that satisfies [P], the computation [m]
    ends with a result and in a state that satisfy [Q].  [preserves I m]:
    [m] keeps the invariant [I], whether it returns or throws. *)
Definition hoare {S A} (P : S -> Prop) (m : M S A) (Q : Res A -> S -> Prop)
  : Prop :=
  forall s, P s -> Q (fst (m s)) (snd (m s)).

Definition preserves {S A} (I : S -> Prop) (m : M S A) : Prop :=
  hoare I m (fun _ => I).

(** [returns m]: the computation [m] does not throw. *)
Definition returns {S A} (m : M S A) : Prop :=
  forall s, exists a, fst (m s) = Ok a.

(** A saved file straight from [saveBufferToDisk] carries no frame
    fields. *)
Definition plain_file (f : SavedFile) : Prop :=
  sf_isStreamPart f = false /\ sf_isFinalStreamFrame f = false /\
  sf_sourceFileName f = None.

(** Two worlds with the same kind of run and the same clock. *)
Definition same_mode (w w' : World) : Prop :=
  run_is_image w' = run_is_image w /\ run_is_file w' = run_is_file w /\
  run_prefix w' = run_prefix w /\ w_now w' = w_now w.


(** What a save outside the session leaves behind: nothing, or one plain
    file written to the disk. *)
Definition saved_one_or_none (w w' : World) (next : SaveResult) : Prop :=
  (next = emptySaveResult /\ w' = w) \/
  exists f ids buffer,
    next = buildSaveResult 1 [f] ids [] /\ plain_file f /\
    w_disk w' = <[sf_filePath f := buffer]> (w_disk w) /\ same_mode w w'.

(** The session with events appended to its log. *)
Definition log_events (evs : list StreamEvent) (s : Session) : Session :=
  set_streamEvents (cs_streamEvents s ++ evs) s.

(** The frame flags of a media session say what the saved files say. *)
Definition flags_track_files (s : Session) : Prop :=
  cs_sawImageStreamPartFrame s = existsb sf_isStreamPart (cs_savedFiles s) /\
  cs_sawImageFinalFrame s = existsb sf_isFinalStreamFrame (cs_savedFiles s).

(** While parts were saved and no final frame was, an unfinished session
    has no idle timer pending. *)
Definition no_idle_while_parts_only (s : Session) : Prop :=
  cs_finished s = false ->
  cs_sawImageStreamPartFrame s = true ->
  cs_sawImageFinalFrame s = false ->
  cs_idleTimer s = None.

Definition media_inv (s : Session) : Prop :=
  flags_track_files s /\ no_idle_while_parts_only s.

(** The aggregate that a session returns from its closure variables. *)
Definition session_result (s : Session) : SaveResult :=
  buildSaveResult (cs_savedCount s) (cs_savedFiles s) (cs_metadataIds s)
    (cs_streamEvents s).

(** A finished session has reached the cap on saved files. *)
Definition finished_by_cap (maxFiles : Z) (s : Session) : Prop :=
  cs_finished s = true -> (maxFiles <= cs_savedCount s)%Z.

(** Every saved file of the session is on the disk. *)
Definition saved_files_on_disk (st : St) : Prop :=
  forall f, f ∈ cs_savedFiles (st_session st) ->
            is_Some (w_disk (st_world st) !! sf_filePath f).

(** The hard timeout stays armed, and the listener attached, until the
    session is finished; then both are off. *)
Definition timeout_inv (timeout : Z) (s : Session) : Prop :=
  (cs_finished s = false ->
   cs_timeoutTimer s = Some timeout /\ cs_listening s = true) /\
  (cs_finished s = true ->
   cs_timeoutTimer s = None /\ cs_listening s = false).

(** What each waiting stage of [collectChatGptDownloads] knows. *)
Definition phase_inv (r : Run) : Prop :=
  match run_phase r with
  | Polling => True
  | AwaitingQueue n =>
      cs_finished (st_session (run_st r)) = true /\
      n = length (cs_queue (st_session (run_st r)))
  | Returned _ =>
      cs_finished (st_session (run_st r)) = true /\
      cs_queue (st_session (run_st r)) = []
  | Rejected _ => False
  end.

(** The URL of every queued response parses, and [queue] is not
    rejected. *)
Definition queue_inv `{Platform} (r : Run) : Prop :=
  run_queueError r = None /\
  forall response,
    response ∈ cs_queue (st_session (run_st r)) ->
    is_Some (url_parse (r_url response)).

Definition session_good `{Platform} (timeout : Z) (r : Run) : Prop :=
  saved_files_on_disk (run_st r) /\
  timeout_inv timeout (st_session (run_st r)) /\
  phase_inv r /\
  queue_inv r.

(** The inputs that bring a session to its end: the hard timeout when it
    is still pending, the poll, the completion of every queued handler
    on the network [net], and the return from [await queue]. *)
Definition completion_inputs (net : Net) (r : Run) : list Input :=
  match run_phase r with
  | Polling =>
      (if cs_finished (st_session (run_st r)) then []
       else [TimeoutTimerFires]) ++
      [PollSeesFinished] ++
      repeat (HandlerCompletes net)
             (length (cs_queue (st_session (run_st r)))) ++
      [QueueAwaited]
  | AwaitingQueue n => repeat (HandlerCompletes net) n ++ [QueueAwaited]
  | _ => []
  end.

(** A metadata body that reports no file name and no positive size. *)
Definition reports_no_file (o : JsonObject) : Prop :=
  match j_file_name o with Some n => trim n = "" | None => True end /\
  match j_file_size_bytes o with Some n => (n <= 0)%Z | None => True end.

(** ** A platform to run the engine on examples

    A small URL parser for texts of the form
    [scheme://host/path?query#fragment] (no percent-decoding), a reader
    of [filename="..."] in a Content-Disposition header, the output
    directory [/out], and downloads through curl enabled, as by default. *)

Fixpoint take_until (stop : ascii -> bool) (l : chars) : chars :=
  match l with
  | [] => []
  | c :: l' => if stop c then [] else c :: take_until stop l'
  end.

Fixpoint drop_until (stop : ascii -> bool) (l : chars) : chars :=
  match l with
  | [] => []
  | c :: l' => if stop c then l else drop_until stop l'
  end.

Definition strip_prefix (p : string) (l : chars) : option chars :=
  if starts_with (chars_of p) l
  then Some (drop (length (chars_of p)) l) else None.

Definition is_char (k : ascii) (c : ascii) : bool := bool_decide (c = k).

(** The value of the first [id=] parameter of a query. *)
Fixpoint query_id (fuel : nat) (q : chars) : option string :=
  match fuel with
  | O => None
  | S fuel' =>
      match strip_prefix "id=" q with
      | Some v => Some (str_of (take_until (is_char "&"%char) v))
      | None =>
          match drop_until (is_char "&"%char) q with
          | _ :: q' => query_id fuel' q'
          | [] => None
          end
      end
  end.

Definition sample_url_parse (text : string) : option Url :=
  let l := chars_of text in
  let rest :=
    match strip_prefix "https://" l with
    | Some r => Some r
    | None => strip_prefix "http://" l
    end in
  match rest with
  | None => None
  | Some rest =>
      let stop_host c :=
        is_char "/"%char c || is_char "?"%char c || is_char "#"%char c in
      let stop_path c := is_char "?"%char c || is_char "#"%char c in
      let host := take_until stop_host rest in
      let after_host := drop_until stop_host rest in
      let path := take_until stop_path after_host in
      let query :=
        match drop_until stop_path after_host with
        | c :: q => if is_char "?"%char c
                    then take_until (is_char "#"%char) q else []
        | [] => []
        end in
      if is_nil host then None
      else
        Some {| url_hostname := str_of (map lower_char host);
                url_pathname := if is_nil path then "/" else str_of path;
                url_id_param := query_id (S (length query)) query |}
  end.

Fixpoint find_after (p : chars) (fuel : nat) (l : chars) : option chars :=
  match fuel with
  | O => None
  | S fuel' =>
      if starts_with p l then Some (drop (length p) l)
      else match l with
           | [] => None
           | _ :: l' => find_after p fuel' l'
           end
  end.

Definition quote_char : ascii := "034"%char.

Definition sample_disposition_name (header : string) : string :=
  match find_after (chars_of "filename=" ++ [quote_char])
                   (S (String.length header)) (chars_of header) with
  | Some v => str_of (take_until (is_char quote_char) v)
  | None => ""
  end.

Definition sample_platform : Platform :=
  {| url_parse := sample_url_parse;
     parseContentDispositionFileName := sample_disposition_name;
     resolve_in_outputDir := fun name => "/out/" +:+ name;
     preferCurlDownloads := true |}.

(** *** Sample data: a media run that streams [x.png] in parts *)

Definition media_options : Options :=
  {| timeoutMs := 90000%Z; idleMs := 8000%Z;
     maxFiles := 9007199254740991%Z;
     requireFinalImageFrame := true; waitForConvoStreamCompleted := true;
     ignoreFileNames := [] |}.

Definition media_world : World :=
  {| w_disk := ∅;
     w_now := 1700000000000%Z;
     w_imageRun :=
       Some {| ir_runId := "ab12cd34"; ir_randomizeFileNames := false;
               ir_nextFileIndex := 1%Z; ir_generationMode := mode_image;
               ir_filePrefix := "image" |} |}.

(** The metadata response for file [id] that names [fileName] and points
    at a signed download URL. *)
Definition metadata_response (id fileName : string) : Response :=
  {| r_url := "https://chatgpt.com/backend-api/files/download/" +:+ id;
     r_contentType := Some "application/json";
     r_contentDisposition := None;
     r_json :=
       JsonObj {| j_download_url :=
                    Some ("https://files.oaiusercontent.com/" +:+ id +:+
                          "?sig=1");
                  j_file_name := Some fileName;
                  j_file_size_bytes := Some 2048%Z;
                  j_item := None;
                  j_detail_message := None |} |}.

(** A network on which the first browser request returns [body] as a
    PNG image; curl is not available. *)
Definition png_response (body : Bytes) : HttpResponse :=
  {| h_status := 200%Z; h_contentType := Some "image/png";
     h_contentDisposition := None; h_body := Some body;
     h_json := JsonThrows |}.

Definition png_net (body : Bytes) : Net :=
  {| net_curl := CurlThrows;
     net_get := fun _ => HttpReturns (png_response body) |}.

(** The session after the first part frame of the stream was saved. *)
Definition parts_only_inputs : list Input :=
  [ PageResponse (metadata_response "file-p1" "x.part1.png");
    HandlerCompletes (png_net "PNG-part-1") ].

Definition parts_only_run : Run :=
  default (@start media_options media_world)
    (@run_inputs sample_platform media_options parts_only_inputs
       (@start media_options media_world)).

(** *** Sample data: a file run *)

Definition file_options (uploaded : list string) : Options :=
  {| timeoutMs := 90000%Z; idleMs := 8000%Z; maxFiles := 8%Z;
     requireFinalImageFrame := false; waitForConvoStreamCompleted := false;
     ignoreFileNames := uploaded |}.

Definition file_world : World :=
  {| w_disk := ∅;
     w_now := 1700000000000%Z;
     w_imageRun :=
       Some {| ir_runId := "ab12cd34"; ir_randomizeFileNames := false;
               ir_nextFileIndex := 1%Z; ir_generationMode := mode_file;
               ir_filePrefix := "file" |} |}.

Definition pdf_response (body : Bytes) : HttpResponse :=
  {| h_status := 200%Z; h_contentType := Some "application/pdf";
     h_contentDisposition := None; h_body := Some body;
     h_json := JsonThrows |}.

(** A network without curl on which every browser request returns
    [body] as a PDF. *)
Definition pdf_net (body : Bytes) : Net :=
  {| net_curl := CurlThrows;
     net_get := fun _ => HttpReturns (pdf_response body) |}.

(** A network on which curl and every browser request fail. *)
Definition failing_net : Net :=
  {| net_curl := CurlThrows; net_get := fun _ => HttpThrows |}.

(** The state of a session right after its set-up. *)
Definition fresh_state (o : Options) (w : World) : St :=
  run_st (@start o w).

(** A metadata response with [file_name: null, file_size_bytes: null]
    and a download URL. *)
Definition nameless_metadata_response : Response :=
  {| r_url := "https://chatgpt.com/backend-api/files/download/file-e1";
     r_contentType := Some "application/json";
     r_contentDisposition := None;
     r_json :=
       JsonObj {| j_download_url :=
                    Some "https://files.oaiusercontent.com/file-e1?sig=1";
                  j_file_name := None;
                  j_file_size_bytes := None;
                  j_item := None;
                  j_detail_message := None |} |}.


(** A file run that saves [report.pdf], goes idle and is seen finished
    by the poll of the body. *)
Definition saved_pdf_inputs : list Input :=
  [ PageResponse (metadata_response "file-d1" "report.pdf");
    HandlerCompletes (pdf_net "PDF-1");
    IdleTimerFires;
    PollSeesFinished ].

Definition saved_pdf_run : Run :=
  default (@start (file_options []) file_world)
    (@run_inputs sample_platform (file_options []) saved_pdf_inputs
       (@start (file_options []) file_world)).

Definition report_file : SavedFile :=
  {| sf_filePath := "/out/report.pdf";
     sf_fileName := "report.pdf";
     sf_byteLength := 5%Z;
     sf_contentType := "application/pdf";
     sf_metadataId := Some "file-d1";
     sf_sourceFileName := Some "report.pdf";
     sf_isStreamPart := false;
     sf_streamPartIndex := None;
     sf_isFinalStreamFrame := true |}.

(** The pauses of the retry loop after the failed attempts
    [first], ..., [first + n - 1]: 350 ms times the number of the
    attempt, and none after the last attempt of the budget. *)
Definition backoff (attempts first n : nat) : list Z :=
  map (fun j => (350 * Z.of_nat j)%Z)
      (List.filter (fun j => (j <? attempts)%nat) (seq first n)).

(** *** Sample data: a download URL that answers with a JSON body *)

Definition json_body : Fetched :=
  {| f_buffer := "{}"; f_contentType := "application/json";
     f_status := 200%Z; f_fileName := "" |}.

Definition json_http_response : HttpResponse :=
  {| h_status := 200%Z; h_contentType := Some "application/json";
     h_contentDisposition := None; h_body := Some "{}";
     h_json := JsonOther |}.

(** Curl and every browser request get status 200 and the JSON body. *)
Definition json_net : Net :=
  {| net_curl := CurlReturns json_body;
     net_get := fun _ => HttpReturns json_http_response |}.

(** The answer to the fallback prober's own request to a files/download
    URL: the metadata of file [id]. *)
Definition metadata_http_response (id fileName : string) : HttpResponse :=
  {| h_status := 200%Z; h_contentType := Some "application/json";
     h_contentDisposition := None; h_body := Some "{}";
     h_json := r_json (metadata_response id fileName) |}.

(** ** The result reducer, in the words of its specification *)

(** The id that a [download_url_resolved] entry of the log resolves. *)
Definition resolved_id (e : StreamEvent) : option string :=
  if bool_decide (ev_type e = download_url_resolved)
  then or_null (ev_metadataId e) else None.

(** The entry stands for a final frame, for a part frame. *)
Definition announces_final (e : StreamEvent) : bool :=
  ev_isFinalStreamFrame e ||
  names_final_frame (trimmed_basename (ev_sourceFileName e)).

Definition announces_part (e : StreamEvent) : bool :=
  ev_isStreamPart e ||
  names_part_frame (trimmed_basename (ev_sourceFileName e)).

Definition resolves_part (e : StreamEvent) : bool :=
  match resolved_id e with Some _ => announces_part e | None => false end.

Definition resolves_final (e : StreamEvent) : option string :=
  if announces_final e then resolved_id e else None.

(** [i] is the id of a final frame that the log resolves after, or
    together with, a part frame. *)
Definition final_after_part (events : list StreamEvent) (i : string) : Prop :=
  exists before e after,
    events = before ++ e :: after /\
    resolves_final e = Some i /\
    exists p, p ∈ before ++ [e] /\ resolves_part p = true.

(** The candidate carries the id [i], one of the ids [ids]. *)
Definition has_id (i : string) (c : Candidate) : bool :=
  bool_decide (c_metadataId c = Some i).

Definition carries_one_of (ids : list string) (c : Candidate) : bool :=
  existsb (fun i => has_id i c) ids.

(** [sel] is the most recent candidate with [P], in a list that runs
    from the most recent candidate to the oldest. *)
Definition most_recent (P : Candidate -> bool) (existing : list Candidate)
    (sel : Candidate) : Prop :=
  exists newer older,
    existing = newer ++ sel :: older /\
    P sel = true /\
    forall c, c ∈ newer -> P c = false.

(** [sel] is the most recent candidate that carries the latest of the
    ids [ids] that any candidate carries. *)
Definition wins_by_latest_id (ids : list string) (existing : list Candidate)
    (sel : Candidate) : Prop :=
  exists earlier i later,
    ids = earlier ++ i :: later /\
    most_recent (has_id i) existing sel /\
    forall j c, j ∈ later -> c ∈ existing -> has_id j c = false.

(** The priority of the selection among the candidates whose file
    exists, the most recent first: the final frames resolved after a part
    frame, then the resolved final frames, then the candidates marked
    final, then any candidate; and the last candidate of all when no
    file exists. *)
Definition selected_by_priority (preferred finals : list string)
    (existing ordered : list Candidate) (sel : Candidate) : Prop :=
  if existsb (carries_one_of preferred) existing
  then wins_by_latest_id preferred existing sel
  else if existsb (carries_one_of finals) existing
  then wins_by_latest_id finals existing sel
  else if existsb candidate_is_final existing
  then most_recent candidate_is_final existing sel
  else match existing with
       | c :: _ => sel = c
       | [] => last ordered = Some sel
       end.

(** The candidates whose file exists, one for each path: the most recent
    candidate of the path. *)
Definition latest_of_its_path (disk : gmap string Bytes)
    (ordered : list Candidate) (c : Candidate) : Prop :=
  is_Some (disk !! c_filePath c) /\
  exists older newer,
    ordered = older ++ c :: newer /\
    forall c', c' ∈ newer -> c_filePath c' <> c_filePath c.

(** *** Sample data: media runs that stream [x.png] to their end *)

(** The frame [name] of file [id] is announced and downloaded. *)
Definition frame_inputs (id name : string) (body : Bytes) : list Input :=
  [ PageResponse (metadata_response id name);
    HandlerCompletes (png_net body) ].

(** The hard timeout fires, and the body of the session completes. *)
Definition closing_inputs : list Input :=
  [ TimeoutTimerFires; PollSeesFinished; QueueAwaited ].

(** What a media session returns on [inputs], and the world it leaves. *)
Definition media_outcome (inputs : list Input) : SaveResult * World :=
  match @run_inputs sample_platform media_options inputs
          (@start media_options media_world) with
  | Some r =>
      (match run_phase r with
       | Returned result => result
       | _ => emptySaveResult
       end,
       st_world (run_st r))
  | None => (emptySaveResult, media_world)
  end.

(** The frames [x.part1.png], [x.part2.png], [x.png], in this order. *)
Definition in_order_outcome : SaveResult * World :=
  media_outcome
    (frame_inputs "file-p1" "x.part1.png" "PNG-part-1" ++
     [ClockAdvances 1700000000100%Z] ++
     frame_inputs "file-p2" "x.part2.png" "PNG-part-2" ++
     [ClockAdvances 1700000000200%Z] ++
     frame_inputs "file-f" "x.png" "PNG-final" ++
     closing_inputs).

(** The same frames with the second part delivered last. *)
Definition late_part_outcome : SaveResult * World :=
  media_outcome
    (frame_inputs "file-p1" "x.part1.png" "PNG-part-1" ++
     [ClockAdvances 1700000000100%Z] ++
     frame_inputs "file-f" "x.png" "PNG-final" ++
     [ClockAdvances 1700000000200%Z] ++
     frame_inputs "file-p2" "x.part2.png" "PNG-part-2" ++
     closing_inputs).

(** The candidates of the run that delivered its frames in order. *)
Definition part_candidate (path name id : string) (index : Z) : Candidate :=
  {| c_filePath := path;
     c_fileName := basename path;
     c_sourceFileName := name;
     c_byteLength := Some 10%Z;
     c_contentType := "image/png";
     c_metadataId := Some id;
     c_isStreamPart := true;
     c_streamPartIndex := Some index;
     c_isFinalStreamFrame := false |}.

Definition first_part_candidate : Candidate :=
  part_candidate "/out/image-1700000000000.png" "x.part1.png" "file-p1" 1.

Definition second_part_candidate : Candidate :=
  part_candidate "/out/image-1700000000100.png" "x.part2.png" "file-p2" 2.

Definition final_candidate : Candidate :=
  {| c_filePath := "/out/x.png";
     c_fileName := "x.png";
     c_sourceFileName := "x.png";
     c_byteLength := Some 9%Z;
     c_contentType := "image/png";
     c_metadataId := Some "file-f";
     c_isStreamPart := false;
     c_streamPartIndex := None;
     c_isFinalStreamFrame := true |}.

(** ** Further predicates: names and content types *)

(** Every code unit of the name is one of [a-zA-Z0-9._-]. *)
Definition safe_name (s : string) : Prop :=
  Forall (fun c => is_safe_char c = true) (chars_of s).

(** A file extension as the table of content types and the [image/*]
    rule produce it: a dot, then one or more of [a-z0-9-]. *)
Definition is_ext_char (c : ascii) : bool :=
  is_lower c || is_digit c || bool_decide (c = "-"%char).

Definition plain_extension (ext : string) : Prop :=
  exists s, chars_of ext = dot :: s /\ s <> [] /\
            Forall (fun c => is_ext_char c = true) s.

(** The two names that the frozen table of content types inherits from
    [Object.prototype] and that a normalized content type can spell; the
    table is read for its own keys only. *)
Definition inherited_key (s : string) : Prop :=
  s = "constructor" \/ s = "__proto__".

(** The text neither starts nor ends with white space. *)
Definition trimmed (l : chars) : Prop :=
  match l with
  | [] => True
  | c :: _ => is_js_space c = false
  end /\
  match rev l with
  | [] => True
  | c :: _ => is_js_space c = false
  end.

(** The check of [plain_extension], run on a text. *)
Definition is_plain_extension (ext : string) : bool :=
  match chars_of ext with
  | c :: s => bool_decide (c = dot) && negb (is_nil s) && forallb is_ext_char s
  | [] => false
  end.

(** ** The elementary changes of what a session reports and writes

    The count, the saved files, the metadata ids, the dedup set, the
    event log of a session and the output directory change in four ways
    only: an entry that is not [file_saved] is logged; a key is added to
    the dedup set; one file is saved, which writes it to its path, adds
    the file, its [file_saved] entry and its ids and adds one to the
    count; a saved file is copied to its latest path.  Timers, flags, the
    queue, the clock and the run object are written by steps that change
    none of these.  [copies] says whether copies may occur: a handler
    makes none, the closing block of the session makes one. *)

(** The ids that are not empty are added to the set, in order. *)
Definition add_ids (ids : list string) (acc : list string) : list string :=
  fold_left (fun acc id => if nonempty id then js_set_add acc id else acc)
            ids acc.

(** The output directory of a state. *)
Definition disk_of (st : St) : gmap string Bytes := w_disk (st_world st).

Inductive change `{Platform} (copies : bool) (st st' : St) : Prop :=
| change_none :
    cs_savedCount (st_session st') = cs_savedCount (st_session st) /\
    cs_savedFiles (st_session st') = cs_savedFiles (st_session st) /\
    cs_streamEvents (st_session st') = cs_streamEvents (st_session st) /\
    cs_seen (st_session st') = cs_seen (st_session st) /\
    cs_metadataIds (st_session st') = cs_metadataIds (st_session st) /\
    disk_of st' = disk_of st ->
    change copies st st'
| change_log (e : StreamEvent) :
    ev_type e <> file_saved /\
    cs_savedCount (st_session st') = cs_savedCount (st_session st) /\
    cs_savedFiles (st_session st') = cs_savedFiles (st_session st) /\
    cs_streamEvents (st_session st') =
      cs_streamEvents (st_session st) ++ [e] /\
    cs_seen (st_session st') = cs_seen (st_session st) /\
    cs_metadataIds (st_session st') = cs_metadataIds (st_session st) /\
    disk_of st' = disk_of st ->
    change copies st st'
| change_seen (k : string) :
    cs_savedCount (st_session st') = cs_savedCount (st_session st) /\
    cs_savedFiles (st_session st') = cs_savedFiles (st_session st) /\
    cs_streamEvents (st_session st') = cs_streamEvents (st_session st) /\
    cs_seen (st_session st') = {[k]} ∪ cs_seen (st_session st) /\
    cs_metadataIds (st_session st') = cs_metadataIds (st_session st) /\
    disk_of st' = disk_of st ->
    change copies st st'
| change_save (e : StreamEvent) (f : SavedFile) (ids : list string)
    (buffer : Bytes) :
    ev_type e = file_saved /\
    ev_outputPath e = or_null (Some (sf_filePath f)) /\
    sf_byteLength f = byteLength buffer /\
    (forall i, sf_metadataId f = Some i -> i <> "" -> i ∈ ids) /\
    cs_savedCount (st_session st') = (cs_savedCount (st_session st) + 1)%Z /\
    cs_savedFiles (st_session st') = cs_savedFiles (st_session st) ++ [f] /\
    cs_streamEvents (st_session st') =
      cs_streamEvents (st_session st) ++ [e] /\
    cs_seen (st_session st') = cs_seen (st_session st) /\
    cs_metadataIds (st_session st') =
      add_ids ids (cs_metadataIds (st_session st)) /\
    disk_of st' = <[sf_filePath f := buffer]> (disk_of st) ->
    change copies st st'
| change_copy (f : SavedFile) (content : Bytes) :
    copies = true /\
    f ∈ cs_savedFiles (st_session st) /\
    cs_savedCount (st_session st') = cs_savedCount (st_session st) /\
    cs_savedFiles (st_session st') = cs_savedFiles (st_session st) /\
    cs_streamEvents (st_session st') = cs_streamEvents (st_session st) /\
    cs_seen (st_session st') = cs_seen (st_session st) /\
    cs_metadataIds (st_session st') = cs_metadataIds (st_session st) /\
    disk_of st' = <[latestPath f := content]> (disk_of st) ->
    change copies st st'.

Inductive changes `{Platform} (copies : bool) : St -> St -> Prop :=
| changes_refl (st : St) : changes copies st st
| changes_step (st st' st'' : St) :
    changes copies st st' -> change copies st' st'' -> changes copies st st''.

(** The paths that the [file_saved] entries of a log report. *)
Definition saved_event_paths (events : list StreamEvent)
  : list (option string) :=
  map ev_outputPath
      (List.filter (fun e => bool_decide (ev_type e = file_saved)) events).

(** The metadata ids cover those of the files. *)
Definition ids_cover (ids : list string) (files : list SavedFile) : Prop :=
  forall f i, f ∈ files -> sf_metadataId f = Some i -> i <> "" -> i ∈ ids.

(** What a session reports is consistent: the count is the number of
    saved files, the [file_saved] entries of the log report the paths of
    the saved files, in order, and the metadata ids are distinct, not
    empty, and hold the id of every saved file that has one. *)
Definition results_consistent (s : Session) : Prop :=
  cs_savedCount s = Z.of_nat (length (cs_savedFiles s)) /\
  saved_event_paths (cs_streamEvents s) =
    map (fun f => or_null (Some (sf_filePath f))) (cs_savedFiles s) /\
  NoDup (cs_metadataIds s) /\
  Forall (fun id => id <> "") (cs_metadataIds s) /\
  ids_cover (cs_metadataIds s) (cs_savedFiles s).

(** What a session reports only grows. *)
Definition results_grow (s s' : Session) : Prop :=
  (cs_savedCount s <= cs_savedCount s')%Z /\
  cs_savedFiles s `prefix_of` cs_savedFiles s' /\
  cs_streamEvents s `prefix_of` cs_streamEvents s' /\
  cs_seen s ⊆ cs_seen s' /\
  cs_metadataIds s `prefix_of` cs_metadataIds s'.

(** What a session does to the output directory: no path is removed, and
    a path whose content changed is the path of a file saved since, or
    the path of the copy of a saved file. *)
Definition disk_grows `{Platform} (st st' : St) : Prop :=
  (forall p, is_Some (disk_of st !! p) -> is_Some (disk_of st' !! p)) /\
  exists new,
    cs_savedFiles (st_session st') = cs_savedFiles (st_session st) ++ new /\
    forall p,
      disk_of st' !! p <> disk_of st !! p ->
      p ∈ map sf_filePath new \/
      p ∈ map latestPath (cs_savedFiles (st_session st')).

(** The aggregate that a session returns is consistent in the same way,
    and its log ends with the closing entry, which repeats the count. *)
Definition report_consistent (result : SaveResult) : Prop :=
  sr_savedCount result = Z.of_nat (length (sr_savedFiles result)) /\
  saved_event_paths (sr_streamEvents result) =
    map (fun f => or_null (Some (sf_filePath f))) (sr_savedFiles result) /\
  NoDup (sr_metadataIds result) /\
  Forall (fun id => id <> "") (sr_metadataIds result) /\
  ids_cover (sr_metadataIds result) (sr_savedFiles result) /\
  last (sr_streamEvents result) =
    Some (collector_complete_event (sr_savedCount result)).

(** A session that is not finished has saved fewer files than the cap
    allows; the cap is reached by the first save when it is below one. *)
Definition below_cap (maxFiles : Z) (s : Session) : Prop :=
  cs_finished s = false -> (cs_savedCount s < Z.max 1 maxFiles)%Z.

(** ** Saving outside the session *)

(** The outcome of a save from the world [w]: it threw and wrote
    nothing; or it returned the empty result and wrote nothing; or it
    wrote one buffer to one path and returned that one plain file, with
    count 1, the metadata id of the file as the only id when it has one,
    and no events. *)
Definition one_file_or_nothing (w : World) (outcome : Res SaveResult * World)
  : Prop :=
  match outcome with
  | (Throw _, w') => w' = w
  | (Ok next, w') =>
      (next = emptySaveResult /\ w' = w) \/
      exists f buffer,
        next = buildSaveResult 1 [f] (id_list (sf_metadataId f)) [] /\
        plain_file f /\
        sf_byteLength f = byteLength buffer /\
        w_disk w' = <[sf_filePath f := buffer]> (w_disk w) /\
        w_now w' = w_now w
  end.

(** ** The idle timer *)

(** The session requires the final frame of an image and waits for it,
    or has it and waits for the beacon that ends the conversation
    stream. *)
Definition waits_for_frames (requireFinalImageFrame : bool) (s : Session)
  : Prop :=
  requireFinalImageFrame = true /\
  ((cs_sawImageStreamPartFrame s = true /\ cs_sawImageFinalFrame s = false) \/
   (cs_sawImageFinalFrame s = true /\ cs_convoStreamCompleted s = false)).

(** An unfinished session that has saved a file and has no idle timer
    pending is waiting. *)
Definition idle_inv (requireFinalImageFrame : bool) (s : Session) : Prop :=
  cs_finished s = false -> cs_savedCount s <> 0%Z -> cs_idleTimer s = None ->
  waits_for_frames requireFinalImageFrame s.

(** *** Sample data: the file run at its end *)

(** The file run that saved [report.pdf], after [await queue] returned. *)
Definition returned_pdf_run : Run :=
  default (@start (file_options []) file_world)
    (@run_inputs sample_platform (file_options [])
       (saved_pdf_inputs ++ [QueueAwaited])
       (@start (file_options []) file_world)).

(** *** Sample data: a run that randomizes file names *)

Definition random_run (index : Z) : ImageRun :=
  {| ir_runId := "ab12cd34"; ir_randomizeFileNames := true;
     ir_nextFileIndex := index; ir_generationMode := mode_image;
     ir_filePrefix := "image" |}.

Definition random_world (index : Z) : World :=
  {| w_disk := ∅; w_now := 1700000000000%Z;
     w_imageRun := Some (random_run index) |}.

(** ** The header dump of curl: [parseHttpStatusCode], [parseCurlHeaderDump] *)

Definition lf : ascii := "010"%char.
Definition cr : ascii := "013"%char.
Definition colon : ascii := ":"%char.

(** [value.split(/\r?\n/)]: a line ends at a line feed, and a carriage
    return right before the line feed belongs to the separator.  [line]
    holds the code units of the current line, the last one first. *)
Fixpoint split_lines_from (line : chars) (l : chars) : list chars :=
  match l with
  | [] => [rev line]
  | c :: l' =>
      if bool_decide (c = lf) then
        rev (match line with
             | c' :: line' => if bool_decide (c' = cr) then line' else line
             | [] => line
             end) :: split_lines_from [] l'
      else split_lines_from (c :: line) l'
  end.

Definition split_lines (l : chars) : list chars := split_lines_from [] l.

(** [/^HTTP\/\d/i.test(line)] *)
Definition starts_http_digit (line : chars) : bool :=
  match line with
  | h :: t1 :: t2 :: p :: s :: d :: _ =>
      ci_eq "h"%char h && ci_eq "t"%char t1 && ci_eq "t"%char t2 &&
      ci_eq "p"%char p && bool_decide (s = slash) && is_digit d
  | _ => false
  end.

(** [parseHttpStatusCode] on a string:
    [/^HTTP\/\d(?:\.\d)?\s+(\d{3})/i] on the trimmed line, then [Number]
    of the three digits.  The optional group is taken when a dot and a
    digit follow; the white space is skipped to its end. *)
Definition parseHttpStatusCode (line : string) : option Z :=
  let l := trim_chars (chars_of line) in
  if starts_http_digit l then
    let rest := drop 6 l in
    let rest :=
      match rest with
      | c :: d :: rest' =>
          if bool_decide (c = dot) && is_digit d then rest' else rest
      | _ => rest
      end in
    match rest with
    | sp :: rest' =>
        if is_js_space sp then
          match trim_start rest' with
          | a :: b :: c :: _ =>
              if is_digit a && is_digit b && is_digit c
              then Some (digits_value [a; b; c]) else None
          | _ => None
          end
        else None
    | [] => None
    end
  else None.

(** One block of the dump: [{ statusLine, headers }]. *)
Record CurlBlock := {
  cb_statusLine : string;
  cb_headers : gmap string string
}.

(** [object[name] = value] on an object literal, for a string [value]:
    the setter that the object inherits under [__proto__] drops a
    string. *)
Definition js_set_property (name value : string) (object : gmap string string)
  : gmap string string :=
  if str_eqb name "__proto__" then object else <[name := value]> object.

(** The loop over the lines: [blocks] and [current]. *)
Record DumpScan := {
  ds_blocks : list CurlBlock;
  ds_current : option CurlBlock
}.

Definition push_current (scan : DumpScan) : list CurlBlock :=
  match ds_current scan with
  | Some current => ds_blocks scan ++ [current]
  | None => ds_blocks scan
  end.

Definition scan_line (scan : DumpScan) (line : chars) : DumpScan :=
  if starts_http_digit line then
    {| ds_blocks := push_current scan;
       ds_current := Some {| cb_statusLine := trim (str_of line);
                             cb_headers := ∅ |} |}
  else
    match ds_current scan with
    | None => scan
    | Some current =>
        match after_first colon line with
        | None => scan                         (* indexOf(":") is -1 *)
        | Some rawValue =>
            let rawName := before_first colon line in
            if is_nil rawName then scan        (* indexOf(":") is 0 *)
            else
              let name := toLowerCase (trim (str_of rawName)) in
              let value := trim (str_of rawValue) in
              if negb (nonempty name) then scan
              else
                {| ds_blocks := ds_blocks scan;
                   ds_current :=
                     Some {| cb_statusLine := cb_statusLine current;
                             cb_headers :=
                               js_set_property name value
                                 (cb_headers current) |} |}
        end
    end.

(** [statusCode && statusCode !== 100] *)
Definition is_final_status (block : CurlBlock) : bool :=
  match parseHttpStatusCode (cb_statusLine block) with
  | Some statusCode => negb (statusCode =? 0)%Z && negb (statusCode =? 100)%Z
  | None => false
  end.

Record ParsedDump := {
  pd_statusCode : option Z;
  pd_headers : gmap string string
}.

Definition empty_dump : ParsedDump :=
  {| pd_statusCode := None; pd_headers := ∅ |}.

(** [parseCurlHeaderDump] on a string. *)
Definition parseCurlHeaderDump (rawValue : string) : ParsedDump :=
  if negb (nonempty (trim rawValue)) then empty_dump
  else
    let scan :=
      fold_left scan_line (split_lines (chars_of rawValue))
                {| ds_blocks := []; ds_current := None |} in
    let blocks := push_current scan in
    match last blocks with
    | None => empty_dump
    | Some lastBlock =>
        let selected :=
          default lastBlock (List.find is_final_status (rev blocks)) in
        {| pd_statusCode := parseHttpStatusCode (cb_statusLine selected);
           pd_headers := cb_headers selected |}
    end.

(** What [fetchDownloadWithCurl] returns once curl has written the header
    dump and the body. *)
Definition curl_fetched `{Platform} (headerDump : string) (buffer : Bytes)
  : Fetched :=
  let parsed := parseCurlHeaderDump headerDump in
  {| f_buffer := buffer;
     f_contentType := default "" (pd_headers parsed !! "content-type");
     f_status := default 200%Z (pd_statusCode parsed);
     f_fileName :=
       parseContentDispositionFileName
         (default "" (pd_headers parsed !! "content-disposition")) |}.

(** *** The dump as curl writes it

    One response is a status line and header lines, each ended by CR LF,
    and an empty line; the dump of a transfer is one response after the
    other (interim responses, redirects, then the final one). *)

Definition crlf : string := String cr (String lf "").

Definition render_header (header : string * string) : string :=
  fst header +:+ ": " +:+ snd header +:+ crlf.

Definition render_response (response : string * list (string * string))
  : string :=
  fst response +:+ crlf +:+
  fold_right (fun header rest => render_header header +:+ rest) ""
             (snd response) +:+
  crlf.

Definition render_dump (responses : list (string * list (string * string)))
  : string :=
  fold_right (fun response rest => render_response response +:+ rest) ""
             responses.

(** A status line and a header that curl can write: no line feed;
    the status line starts as one; the header name has no colon, is not
    blank and does not make its line look like a status line. *)
Definition status_line_ok (statusLine : string) : Prop :=
  starts_http_digit (chars_of statusLine) = true /\
  lf ∉ chars_of statusLine.

Definition header_ok (header : string * string) : Prop :=
  (lf ∉ chars_of (fst header)) /\ (lf ∉ chars_of (snd header)) /\
  (colon ∉ chars_of (fst header)) /\
  trim (fst header) <> "" /\
  starts_http_digit (chars_of (fst header) ++ [colon]) = false.

Definition response_ok (response : string * list (string * string)) : Prop :=
  status_line_ok (fst response) /\ Forall header_ok (snd response).

(** The status of a response is final: parsed, not 0 and not 100. *)
Definition final_status (response : string * list (string * string)) : bool :=
  match parseHttpStatusCode (fst response) with
  | Some statusCode => negb (statusCode =? 0)%Z && negb (statusCode =? 100)%Z
  | None => false
  end.

(** The response that is read: the last one with a final status, else
    the last one. *)
Definition response_read (responses : list (string * list (string * string)))
  : option (string * list (string * string)) :=
  match List.find final_status (rev responses) with
  | Some response => Some response
  | None => last responses
  end.

(** The value of the header [key] among header lines: that of the last
    line whose name, trimmed and in lower case, is [key]. *)
Definition header_value (key : string) (headers : list (string * string))
  : option string :=
  last (omap (fun header =>
                if str_eqb (toLowerCase (trim (fst header))) key
                then Some (trim (snd header)) else None)
             headers).

(** The lines of a response, as [split] cuts them. *)
Definition header_line (header : string * string) : chars :=
  chars_of (fst header) ++ colon :: " "%char :: chars_of (snd header).

Definition lines_of_response (response : string * list (string * string))
  : list chars :=
  chars_of (fst response) :: map header_line (snd response) ++ [[]].

(** The block that the scan builds from a response. *)
Definition header_fold (headers : list (string * string))
    (object : gmap string string) : gmap string string :=
  fold_left
    (fun object header =>
       js_set_property (toLowerCase (trim (fst header))) (trim (snd header))
                       object)
    headers object.

Definition block_of (response : string * list (string * string))
  : CurlBlock :=
  {| cb_statusLine := trim (fst response);
     cb_headers := header_fold (snd response) ∅ |}.

(** *** Sample data: the dump of a redirected transfer *)

Definition redirected_dump : list (string * list (string * string)) :=
  [ ("HTTP/1.1 302 Found", [("Location", "https://files.example/a.png")]);
    ("HTTP/2 200", [("Content-Type", "text/plain");
                    ("content-type", " image/png ");
                    ("Content-Length", "5")]);
    ("HTTP/1.1 100 Continue", []) ].

(** ** A path that is free: [ensureUniqueOutputPath]

    [dirname] and the two-argument [resolve] of node:path are taken from
    the platform.  The loop of the code has no bound; [fuel] bounds the
    number of its passes, and [None] says that the fuel ran out. *)

Section UniquePath.
Variable path_dirname : string -> string.
Variable path_resolve : string -> string -> string.

(** [basename(filePath, extname(filePath))]: the base name without its
    extension. *)
Definition basename_without_extension (filePath : string) : string :=
  let b := basename_chars (chars_of filePath) in
  str_of (take (length b - length (extname_chars (chars_of filePath))) b).

(** [resolve(parentDir, `${baseName}-${index}${extension}`)] *)
Definition candidate_name (filePath : string) (index : Z) : string :=
  basename_without_extension filePath +:+ "-" +:+ dec_string index +:+
  extname filePath.

Definition nextPath (filePath : string) (index : Z) : string :=
  path_resolve (path_dirname filePath) (candidate_name filePath index).

Fixpoint next_free_path (disk : gmap string Bytes) (filePath : string)
    (fuel : nat) (index : Z) : option string :=
  match fuel with
  | O => None
  | S fuel' =>
      if bool_decide (is_Some (disk !! nextPath filePath index))
      then next_free_path disk filePath fuel' (index + 1)%Z
      else Some (nextPath filePath index)
  end.

Definition ensureUniqueOutputPath (disk : gmap string Bytes)
    (filePath : string) (fuel : nat) : option string :=
  if negb (bool_decide (is_Some (disk !! filePath))) then Some filePath
  else next_free_path disk filePath fuel 2%Z.

End UniquePath.

(** *** Sample data: an output directory with two files of one name *)

Definition sample_dirname (path : string) : string := "/out".

Definition sample_resolve (dir name : string) : string :=
  dir +:+ "/" +:+ name.

Definition crowded_disk : gmap string Bytes :=
  <["/out/a.png" := "one"]> (<["/out/a-2.png" := "two"]> ∅).

(** ** Lists given as text: [parseCommaList], [parseArgs] *)

Definition comma : ascii := ","%char.

(** [value.split(sep)] for a separator of one code unit; [piece] holds
    the code units of the current piece, the last one first. *)
Fixpoint split_on (sep : ascii) (piece : chars) (l : chars) : list chars :=
  match l with
  | [] => [rev piece]
  | c :: l' =>
      if bool_decide (c = sep) then rev piece :: split_on sep [] l'
      else split_on sep (c :: piece) l'
  end.

(** [value.split(",").map((entry) => entry.trim()).filter(Boolean)] *)
Definition parseCommaList (value : string) : list string :=
  List.filter nonempty
    (map (fun entry => trim (str_of entry))
         (split_on comma [] (chars_of value))).

(** [parseArgs]: the empty string is turned away first. *)
Definition parseArgs (value : string) : list string :=
  if negb (nonempty value) then [] else parseCommaList value.

(** The second pass of [normalizeUploadInput] over entries that are
    strings: [raw.flatMap(parseCommaList).filter(Boolean)], then
    [[...new Set(flattened)]]. *)
Definition flatten_upload_entries (raw : list string) : list string :=
  js_set_values (List.filter nonempty (flat_map parseCommaList raw)).

(** ** Windows paths and their mount paths *)

Definition backslash : ascii := "\"%char.

Definition is_letter (c : ascii) : bool := is_lower c || is_upper c.

(** [toUpperCase] on a letter of [a-zA-Z]. *)
Definition upper_letter (c : ascii) : ascii :=
  if is_lower c then ascii_of_N (code c - 32) else c.

(** [value.replace(/\\/g, "/")] and [value.replace(/\//g, "\\")] *)
Definition slashes_forward (l : chars) : chars :=
  map (fun c => if bool_decide (c = backslash) then slash else c) l.

Definition slashes_backward (l : chars) : chars :=
  map (fun c => if bool_decide (c = slash) then backslash else c) l.

(** [WINDOWS_ABS_PATH_RE.test(value)]: [/^[a-zA-Z]:[\\/]/] *)
Definition is_windows_abs_path (l : chars) : bool :=
  match l with
  | d :: c :: s :: _ =>
      is_letter d && bool_decide (c = colon) &&
      (bool_decide (s = backslash) || bool_decide (s = slash))
  | _ => false
  end.

Definition windowsPathToPosixMountPath (value : string) : string :=
  if negb (is_windows_abs_path (chars_of value)) then ""
  else
    let normalized := slashes_forward (chars_of value) in
    let drive := map lower_char (take 1 normalized) in
    let rest := drop_slashes (drop 2 normalized) in
    str_of (chars_of "/mnt/" ++ drive ++ slash :: rest).

(** A code unit that [.] matches: no line terminator. *)
Definition is_line_terminator (c : ascii) : bool :=
  bool_decide (c = lf) || bool_decide (c = cr).

(** The match of [WSL_MOUNT_PATH_RE] and of [CYGDRIVE_PATH_RE]: the
    prefix in any letter case, a drive letter, a slash, and a rest
    without line terminator up to the end.  The prefix is given as
    slashes and small ASCII letters: a code unit has one of these as its
    lower case only when it is that letter, small or capital.  The
    result is the drive letter and the rest. *)
Fixpoint strip_prefix_ci (prefix l : chars) : option chars :=
  match prefix with
  | [] => Some l
  | k :: prefix' =>
      match l with
      | c :: l' =>
          if bool_decide (lower_char c = k)
          then strip_prefix_ci prefix' l' else None
      | [] => None
      end
  end.

Definition match_mount_path (prefix : string) (l : chars)
  : option (ascii * chars) :=
  match strip_prefix_ci (chars_of prefix) l with
  | Some (d :: s :: rest) =>
      if is_letter d && bool_decide (s = slash) &&
         forallb (fun c => negb (is_line_terminator c)) rest
      then Some (d, rest) else None
  | _ => None
  end.

Definition posixMountPathToWindowsPath (value : string) : string :=
  let normalized := slashes_forward (chars_of value) in
  match
    match match_mount_path "/mnt/" normalized with
    | Some m => Some m
    | None => match_mount_path "/cygdrive/" normalized
    end
  with
  | None => ""
  | Some (d, rest) =>
      str_of (upper_letter d :: colon :: backslash :: slashes_backward rest)
  end.

(** The two normal forms: [D:\rest] with a capital drive letter, and
    [/mnt/d/rest] with a small one; [rest] has but the separator of its
    side, does not start with it, and holds no line terminator. *)
Definition windows_normal (value : string) : Prop :=
  exists d rest,
    chars_of value = d :: colon :: backslash :: rest /\
    is_upper d = true /\ (slash ∉ rest) /\
    match rest with c :: _ => c <> backslash | [] => True end /\
    Forall (fun c => is_line_terminator c = false) rest.

Definition mount_normal (value : string) : Prop :=
  exists d rest,
    chars_of value = chars_of "/mnt/" ++ d :: slash :: rest /\
    is_lower d = true /\ (backslash ∉ rest) /\
    match rest with c :: _ => c <> slash | [] => True end /\
    Forall (fun c => is_line_terminator c = false) rest.

(** ** What a session reports is what it wrote *)

(** What a save outside the session leaves behind, in full: nothing, or
    one plain file with its buffer on the disk, its byte length and its
    metadata id reported. *)
Definition saved_one_file (w w' : World) (next : SaveResult) : Prop :=
  (next = emptySaveResult /\ w' = w) \/
  exists f buffer,
    next = buildSaveResult 1 [f] (id_list (sf_metadataId f)) [] /\
    plain_file f /\
    sf_byteLength f = byteLength buffer /\
    w_disk w' = <[sf_filePath f := buffer]> (w_disk w) /\ same_mode w w'.

(** The saved file that was reported last for a path. *)
Definition last_saved_at (files : list SavedFile) (path : string)
  : option SavedFile :=
  last (List.filter (fun f => bool_decide (sf_filePath f = path)) files).

(** The file at each reported path has the byte length that the last
    report for the path gives. *)
Definition lengths_truthful (st : St) : Prop :=
  forall path f,
    last_saved_at (cs_savedFiles (st_session st)) path = Some f ->
    exists content,
      disk_of st !! path = Some content /\
      byteLength content = sf_byteLength f.

(** The body of the session has not reached its closing block. *)
Definition before_closing (r : Run) : Prop :=
  match run_phase r with
  | Polling | AwaitingQueue _ => True
  | _ => False
  end.

(** The input that runs the closing block of the session. *)
Definition closes (i : Input) : bool :=
  match i with
  | QueueAwaited => true
  | _ => false
  end.

(** What a returned aggregate says about the output directory: the file
    at each reported path has the byte length of the last report for the
    path, unless the path is the one of the latest copy; the latest copy
    has the bytes of the file saved last. *)
Definition report_truthful `{Platform} (result : SaveResult)
    (disk : gmap string Bytes) : Prop :=
  (forall path f,
     last_saved_at (sr_savedFiles result) path = Some f ->
     (forall g, last (sr_savedFiles result) = Some g -> path <> latestPath g) ->
     exists content,
       disk !! path = Some content /\
       byteLength content = sf_byteLength f) /\
  (forall g,
     last (sr_savedFiles result) = Some g ->
     exists content,
       disk !! latestPath g = Some content /\
       disk !! sf_filePath g = Some content /\
       byteLength content = sf_byteLength g).
(* ===================================================================== *)
(** * Part II: properties                                                 *)
(* ===================================================================== *)

Example basename_dir : basename "out/a/x.part1.png" = "x.part1.png".
Proof. reflexivity. Qed.

Example extname_png : extname "x.part1.png" = ".png".
Proof. reflexivity. Qed.

Example extname_hidden : extname ".bashrc" = "".
Proof. reflexivity. Qed.

Example frame_part2 :
  parseImageStreamFrameInfo (Some "x.PART12.png") =
  {| fi_fileName := "x.PART12.png"; fi_isPart := true;
     fi_partIndex := Some 12%Z; fi_isFinal := false |}.
Proof. reflexivity. Qed.

Example frame_final :
  parseImageStreamFrameInfo (Some " dir/x.png ") =
  {| fi_fileName := "x.png"; fi_isPart := false;
     fi_partIndex := None; fi_isFinal := true |}.
Proof. reflexivity. Qed.

(** ** The frame classifier *)

Lemma lookahead_ok_spec (rest : chars) :
  lookahead_ok rest = true <-> final_extension_or_end rest.
Proof.
  unfold final_extension_or_end. destruct rest as [|c ext]; simpl.
  - split; [now left | reflexivity].
  - rewrite !andb_true_iff, negb_true_iff, !bool_decide_eq_true,
      bool_decide_eq_false, forallb_forall.
    split.
    + intros [[-> Hne] Hall]. right. exists ext. repeat split; try assumption.
      apply Forall_forall. intros x Hx.
      apply list_elem_of_In, Hall in Hx.
      now apply negb_true_iff, bool_decide_eq_false in Hx.
    + intros [Hnil | (ext' & Heq & Hne & Hall)]; [discriminate |].
      injection Heq as -> ->. repeat split; try assumption.
      intros x Hx. apply negb_true_iff, bool_decide_eq_false.
      rewrite Forall_forall in Hall. now apply Hall, list_elem_of_In.
Qed.

Lemma lookahead_ok_head (c : ascii) (rest : chars) :
  lookahead_ok (c :: rest) = true -> is_digit c = false.
Proof.
  simpl. rewrite !andb_true_iff, bool_decide_eq_true. now intros [[-> _] _].
Qed.

Lemma stop_here_spec (acc rest out : chars) :
  stop_here acc rest = Some out <->
  acc <> [] /\ lookahead_ok rest = true /\ out = rev acc.
Proof.
  unfold stop_here.
  destruct (bool_decide (acc = [])) eqn:Ha; simpl.
  - apply bool_decide_eq_true in Ha. split; [discriminate |].
    intros (H & _); congruence.
  - apply bool_decide_eq_false in Ha.
    destruct (lookahead_ok rest); split; try discriminate.
    + intros [= <-]. auto.
    + intros (_ & _ & ->). reflexivity.
    + intros (_ & H & _). discriminate.
Qed.

(** Every way to read digits and then satisfy the lookahead is the one
    the backtracking matcher returns. *)
Lemma match_digits_complete (ds : chars) :
  forall acc rest,
    Forall (fun c => is_digit c = true) ds ->
    (acc <> [] \/ ds <> []) ->
    lookahead_ok rest = true ->
    match_digits acc (ds ++ rest) = Some (rev acc ++ ds).
Proof.
  induction ds as [|c ds IH]; intros acc rest Hds Hne Hla.
  - rewrite app_nil_r. destruct Hne as [Hne | Hne]; [| congruence].
    assert (Hstop : stop_here acc rest = Some (rev acc))
      by (apply stop_here_spec; auto).
    destruct rest as [|c rest]; simpl; [exact Hstop |].
    rewrite (lookahead_ok_head _ _ Hla). exact Hstop.
  - apply Forall_cons in Hds as [Hc Hds]. simpl. rewrite Hc.
    rewrite (IH (c :: acc) rest Hds); [| left; discriminate | assumption].
    simpl. now rewrite <- app_assoc.
Qed.

Lemma match_digits_sound :
  forall rest acc out,
    match_digits acc rest = Some out ->
    exists ds rest',
      rest = ds ++ rest' /\ out = rev acc ++ ds /\
      Forall (fun c => is_digit c = true) ds /\
      (acc <> [] \/ ds <> []) /\ lookahead_ok rest' = true.
Proof.
  assert (Hstop : forall acc rest out,
             stop_here acc rest = Some out ->
             exists ds rest',
               rest = ds ++ rest' /\ out = rev acc ++ ds /\
               Forall (fun c => is_digit c = true) ds /\
               (acc <> [] \/ ds <> []) /\ lookahead_ok rest' = true).
  { intros acc rest out (Hacc & Hla & ->)%stop_here_spec.
    exists [], rest. rewrite app_nil_r. repeat split; auto. }
  induction rest as [|c rest IH]; intros acc out H.
  - now apply Hstop.
  - simpl in H. destruct (is_digit c) eqn:Hc; [| now apply Hstop].
    destruct (match_digits (c :: acc) rest) as [ds0|] eqn:Hrec;
      [| now apply Hstop].
    injection H as <-.
    destruct (IH _ _ Hrec) as (ds & rest' & -> & -> & Hds & _ & Hla).
    exists (c :: ds), rest'. simpl. rewrite <- app_assoc.
    repeat split; auto.
Qed.

Lemma ci_eq_spec (k c : ascii) : ci_eq k c = true <-> ci_letter k c.
Proof.
  unfold ci_eq, ci_letter.
  now rewrite orb_true_iff, !bool_decide_eq_true.
Qed.

(** A match at the head of the text is a part segment with empty prefix. *)
Lemma match_here_spec (l ds : chars) :
  match_here l = Some ds <-> exists rest, part_segment_at l [] ds rest.
Proof.
  split.
  - destruct l as [|d [|p [|a [|r [|t rest]]]]]; cbn [match_here];
      try discriminate.
    destruct (bool_decide (d = dot) && _ && _ && _ && _) eqn:E;
      [| discriminate].
    repeat (apply andb_true_iff in E as [E ?]).
    apply bool_decide_eq_true in E as ->.
    intros (ds' & rest' & -> & -> & Hds & Hne & Hla)%match_digits_sound.
    exists rest', p, a, r, t. simpl.
    repeat split; try (now apply ci_eq_spec); auto.
    + destruct Hne; congruence.
    + now apply lookahead_ok_spec.
  - intros (rest & p & a & r & t & -> & Hp & Ha & Hr & Ht & Hne & Hds & Hla).
    cbn [match_here app]. apply ci_eq_spec in Hp, Ha, Hr, Ht.
    rewrite Hp, Ha, Hr, Ht.
    rewrite bool_decide_eq_true_2 by reflexivity. cbn [andb].
    apply (match_digits_complete ds [] rest); auto.
    now apply lookahead_ok_spec.
Qed.

Lemma part_segment_at_cons (c : ascii) (l pre ds rest : chars) :
  part_segment_at l pre ds rest -> part_segment_at (c :: l) (c :: pre) ds rest.
Proof.
  intros (p & a & r & t & -> & H). exists p, a, r, t. split; [reflexivity | exact H].
Qed.

Lemma part_segment_at_uncons (c : ascii) (l pre ds rest : chars) :
  part_segment_at (c :: l) pre ds rest -> pre <> [] ->
  exists pre', pre = c :: pre' /\ part_segment_at l pre' ds rest.
Proof.
  intros (p & a & r & t & Heq & H) Hne.
  destruct pre as [|c' pre']; [congruence |].
  simpl in Heq. injection Heq as <- ->.
  exists pre'. split; [reflexivity |]. now exists p, a, r, t.
Qed.

(** [exec] returns the digits of the leftmost part segment. *)
Lemma exec_part_some (l ds : chars) :
  exec_part l = Some ds <-> leftmost_part_segment l ds.
Proof.
  revert ds. induction l as [|c l IH]; intros ds.
  - simpl. split; [discriminate |].
    intros (pre & rest & (p & a & r & t & Heq & _) & _).
    destruct pre; discriminate.
  - cbn [exec_part]. destruct (match_here (c :: l)) as [ds0|] eqn:Hm.
    + apply match_here_spec in Hm as [rest0 Hseg0]. split.
      * intros [= <-]. exists [], rest0. split; [assumption |].
        intros; simpl; lia.
      * intros (pre & rest & Hseg & Hmin).
        specialize (Hmin _ _ _ Hseg0). simpl in Hmin.
        destruct pre; [| simpl in Hmin; lia].
        assert (Hm1 : match_here (c :: l) = Some ds)
          by (apply match_here_spec; eauto).
        assert (Hm2 : match_here (c :: l) = Some ds0)
          by (apply match_here_spec; eauto).
        congruence.
    + rewrite IH. split.
      * intros (pre & rest & Hseg & Hmin).
        exists (c :: pre), rest. split; [now apply part_segment_at_cons |].
        intros pre' ds' rest' Hseg'.
        destruct pre' as [|c' pre''].
        { assert (match_here (c :: l) = Some ds')
            by (apply match_here_spec; eauto). congruence. }
        apply part_segment_at_uncons in Hseg' as (pre3 & [= <- <-] & Hseg');
          [| discriminate].
        specialize (Hmin _ _ _ Hseg'). simpl. lia.
      * intros (pre & rest & Hseg & Hmin).
        destruct pre as [|c' pre'].
        { assert (match_here (c :: l) = Some ds)
            by (apply match_here_spec; eauto). congruence. }
        apply part_segment_at_uncons in Hseg as (pre3 & [= <- <-] & Hseg);
          [| discriminate].
        exists pre', rest. split; [assumption |].
        intros pre2 ds' rest' Hseg'.
        specialize (Hmin _ _ _ (part_segment_at_cons c' _ _ _ _ Hseg')).
        simpl in Hmin. lia.
Qed.

Lemma exec_part_none (l : chars) :
  exec_part l = None <-> ~ has_part_segment l.
Proof.
  induction l as [|c l IH].
  - simpl. split; [| reflexivity].
    intros _ (pre & ds & rest & p & a & r & t & Heq & _).
    destruct pre; discriminate.
  - cbn [exec_part]. destruct (match_here (c :: l)) as [ds0|] eqn:Hm.
    + apply match_here_spec in Hm as [rest0 Hseg0].
      split; [discriminate |]. intros H. exfalso. apply H.
      now exists [], ds0, rest0.
    + rewrite IH. split.
      * intros Hno (pre & ds & rest & Hseg). apply Hno.
        destruct pre as [|c' pre'].
        { assert (match_here (c :: l) = Some ds)
            by (apply match_here_spec; eauto). congruence. }
        apply part_segment_at_uncons in Hseg as (pre3 & _ & Hseg);
          [| discriminate].
        now exists pre3, ds, rest.
      * intros Hno (pre & ds & rest & Hseg). apply Hno.
        exists (c :: pre), ds, rest. now apply part_segment_at_cons.
Qed.

Lemma leftmost_part_segment_has (l ds : chars) :
  leftmost_part_segment l ds -> has_part_segment l.
Proof. intros (pre & rest & H & _). now exists pre, ds, rest. Qed.

Lemma number_of_digits_exact (ds : chars) :
  (digits_value ds < 2 ^ 53)%Z -> number_of_digits ds = Some (digits_value ds).
Proof.
  intros H. unfold number_of_digits.
  destruct (Z.ltb_spec (digits_value ds) (2 ^ 53)); [reflexivity | lia].
Qed.

Lemma nonempty_false (s : string) : nonempty s = false <-> s = "".
Proof.
  unfold nonempty, str_eqb. rewrite negb_false_iff. apply bool_decide_eq_true.
Qed.

Lemma nonempty_true (s : string) : nonempty s = true <-> s <> "".
Proof.
  unfold nonempty, str_eqb. rewrite negb_true_iff. apply bool_decide_eq_false.
Qed.

Lemma no_part_segment_nil : ~ has_part_segment [].
Proof. now apply exec_part_none. Qed.

(** C4, as amended.  The classifier looks at the base name of the trimmed
    remote name.  It marks the name as a stream part exactly when the name
    holds a [.part<N>] segment (any letter case) right before the final
    extension or at the end; then [isFinal] is false and [partIndex] is
    the number read from the digits of the leftmost such segment (the
    digits' value itself below 2^53).  A non-empty name without such a
    segment is final.  A missing or blank name is neither a part nor
    final.  [isPart] and [isFinal] are never both true. *)
Theorem parseImageStreamFrameInfo_classifies (value : option string) :
  let fi := parseImageStreamFrameInfo value in
  let name := chars_of (remote_name value) in
  fi_fileName fi = remote_name value /\
  (fi_isPart fi = true <-> has_part_segment name) /\
  (forall ds, leftmost_part_segment name ds ->
     fi_isPart fi = true /\ fi_isFinal fi = false /\
     fi_partIndex fi = number_of_digits ds /\
     ((digits_value ds < 2 ^ 53)%Z ->
      fi_partIndex fi = Some (digits_value ds))) /\
  (fi_isFinal fi = true <->
     remote_name value <> "" /\ ~ has_part_segment name) /\
  (remote_name value = "" -> fi_isPart fi = false /\ fi_isFinal fi = false) /\
  (fi_isPart fi = false -> fi_partIndex fi = None) /\
  fi_isPart fi && fi_isFinal fi = false.
Proof.
  cbv zeta. unfold parseImageStreamFrameInfo. fold (remote_name value).
  destruct (nonempty (remote_name value)) eqn:Hne; cbn [negb].
  - apply nonempty_true in Hne.
    destruct (exec_part (chars_of (remote_name value))) as [ds0|] eqn:Hex;
      cbn [fi_fileName fi_isPart fi_isFinal fi_partIndex].
    + pose proof Hex as Hleft. apply exec_part_some in Hleft.
      refine (conj eq_refl (conj _ (conj _ (conj _ (conj _ (conj _ eq_refl)))))).
      * split; [intros _ | reflexivity].
        eapply leftmost_part_segment_has; eauto.
      * intros ds Hds. apply exec_part_some in Hds.
        assert (ds = ds0) as -> by congruence.
        repeat split. intros Hlt. now apply number_of_digits_exact.
      * split; [discriminate |]. intros [_ Hno]. exfalso. apply Hno.
        eapply leftmost_part_segment_has; eauto.
      * intros; congruence.
      * discriminate.
    + pose proof Hex as Hno. apply exec_part_none in Hno.
      refine (conj eq_refl (conj _ (conj _ (conj _ (conj _ (conj _ eq_refl)))))).
      * split; [discriminate | intros; contradiction].
      * intros ds Hds. apply exec_part_some in Hds. congruence.
      * split; auto.
      * intros; congruence.
      * reflexivity.
  - apply nonempty_false in Hne. rewrite Hne.
    cbn [fi_fileName fi_isPart fi_isFinal fi_partIndex].
    change (chars_of "") with (@nil ascii).
    refine (conj eq_refl (conj _ (conj _ (conj _ (conj _ (conj _ eq_refl)))))).
    + split; [discriminate |]. intros H. now apply no_part_segment_nil in H.
    + intros ds Hds. apply leftmost_part_segment_has in Hds.
      now apply no_part_segment_nil in Hds.
    + split; [discriminate |]. intros [Hc _]. congruence.
    + auto.
    + reflexivity.
Qed.

(** C4, as first stated, fails where no name is given: there is no part
    segment, and yet the frame is not marked final. *)
Lemma absent_name_is_not_final :
  let fi := parseImageStreamFrameInfo None in
  ~ has_part_segment (chars_of (fi_fileName fi)) /\
  fi_isPart fi = false /\ fi_isFinal fi = false /\
  fi_isFinal (parseImageStreamFrameInfo (Some "")) = false.
Proof.
  cbv zeta. repeat split; try reflexivity. exact no_part_segment_nil.
Qed.

(** ** The aggregate result as a monoid *)

Lemma js_set_go_elem (l acc : list string) (x : string) :
  x ∈ fold_left js_set_add l acc <-> x ∈ acc \/ x ∈ l.
Proof.
  revert acc. induction l as [|y l IH]; intros acc; simpl.
  - rewrite elem_of_nil. tauto.
  - rewrite IH, elem_of_cons. unfold js_set_add. case_bool_decide as Hy.
    + split; [tauto |]. intros [H | [-> | H]]; auto.
    + rewrite elem_of_app, list_elem_of_singleton. tauto.
Qed.

Lemma js_set_values_elem (l : list string) (x : string) :
  x ∈ js_set_values l <-> x ∈ l.
Proof.
  unfold js_set_values. rewrite js_set_go_elem, elem_of_nil. tauto.
Qed.

Lemma js_set_go_NoDup (l acc : list string) :
  NoDup acc -> NoDup (fold_left js_set_add l acc).
Proof.
  revert acc. induction l as [|y l IH]; intros acc Hacc; simpl; [assumption |].
  apply IH. unfold js_set_add. case_bool_decide as Hy; [assumption |].
  apply NoDup_app. repeat split; [assumption | | apply NoDup_singleton].
  intros x Hx ->%list_elem_of_singleton. contradiction.
Qed.

Lemma js_set_values_NoDup (l : list string) : NoDup (js_set_values l).
Proof. apply js_set_go_NoDup, NoDup_nil_2. Qed.

(** Values that are all present already add nothing. *)
Lemma js_set_go_absorb (l acc : list string) :
  (forall x, x ∈ l -> x ∈ acc) -> fold_left js_set_add l acc = acc.
Proof.
  revert acc. induction l as [|y l IH]; intros acc H; simpl; [reflexivity |].
  unfold js_set_add at 2. rewrite bool_decide_eq_true_2.
  - apply IH. intros x Hx. apply H. now right.
  - apply H. now left.
Qed.

(** Going through a set first changes nothing for a later set. *)
Lemma js_set_go_values (l acc : list string) :
  fold_left js_set_add (js_set_values l) acc = fold_left js_set_add l acc.
Proof.
  induction l as [|y l IH] using rev_ind; [reflexivity |].
  unfold js_set_values in *. rewrite !fold_left_app. simpl.
  set (S := fold_left js_set_add l []) in *.
  assert (Hadd : js_set_add S y = if bool_decide (y ∈ S) then S else S ++ [y])
    by reflexivity.
  rewrite Hadd. case_bool_decide as Hy.
  - rewrite IH. unfold js_set_add.
    rewrite bool_decide_eq_true_2; [reflexivity |].
    apply js_set_go_elem. right.
    apply js_set_go_elem in Hy as [Hy | Hy]; [| assumption].
    now apply elem_of_nil in Hy.
  - rewrite fold_left_app, IH. reflexivity.
Qed.

Lemma js_set_values_app_l (l1 l2 : list string) :
  js_set_values (js_set_values l1 ++ l2) = js_set_values (l1 ++ l2).
Proof.
  unfold js_set_values at 1 3. rewrite !fold_left_app.
  fold (js_set_values (js_set_values l1)). fold (js_set_values l1).
  f_equal. unfold js_set_values at 1. apply js_set_go_values.
Qed.

Lemma js_set_values_app_r (l1 l2 : list string) :
  js_set_values (l1 ++ js_set_values l2) = js_set_values (l1 ++ l2).
Proof.
  unfold js_set_values at 1 3. rewrite !fold_left_app.
  apply js_set_go_values.
Qed.

Lemma js_set_values_idem (l : list string) :
  js_set_values (js_set_values l) = js_set_values l.
Proof.
  pose proof (js_set_values_app_l l []) as H. now rewrite !app_nil_r in H.
Qed.

Lemma filter_all_true {A} (f : A -> bool) (l : list A) :
  (forall x, In x l -> f x = true) -> List.filter f l = l.
Proof.
  induction l as [|a l IH]; intros H; simpl; [reflexivity |].
  rewrite (H a) by now left. f_equal. apply IH. intros x Hx. apply H. now right.
Qed.

(** The ids of a built result pass the filter of the next build. *)
Lemma filter_js_set_values (l : list string) :
  List.filter nonempty (js_set_values (List.filter nonempty l)) =
  js_set_values (List.filter nonempty l).
Proof.
  apply filter_all_true. intros x Hx.
  rewrite <- list_elem_of_In, js_set_values_elem, list_elem_of_In in Hx.
  now apply filter_In in Hx.
Qed.

Lemma buildSaveResult_ids_app (a b : list string) :
  js_set_values
    (List.filter nonempty (js_set_values (List.filter nonempty a) ++ b)) =
  js_set_values (List.filter nonempty (a ++ b)).
Proof.
  rewrite !List.filter_app, filter_js_set_values. apply js_set_values_app_l.
Qed.

Lemma buildSaveResult_app_ids (a b : list string) :
  js_set_values
    (List.filter nonempty (a ++ js_set_values (List.filter nonempty b))) =
  js_set_values (List.filter nonempty (a ++ b)).
Proof.
  rewrite !List.filter_app, filter_js_set_values. apply js_set_values_app_r.
Qed.

(** C9.  [mergeSaveResults] is associative on all results: the counts
    add up, the saved files and the stream events are concatenated in
    order, and the metadata ids are the distinct non-empty ids of both
    sides, each once, in the order of first occurrence.  On the results
    that [buildSaveResult] makes, [buildSaveResult()] is a left and a
    right identity, and so is a missing [extra]. *)
Theorem mergeSaveResults_monoid :
  (forall a b c,
     mergeSaveResults (mergeSaveResults a (Some b)) (Some c) =
     mergeSaveResults a (Some (mergeSaveResults b (Some c)))) /\
  (forall n files ids events,
     let a := buildSaveResult n files ids events in
     mergeSaveResults a (Some emptySaveResult) = a /\
     mergeSaveResults emptySaveResult (Some a) = a /\
     mergeSaveResults a None = a) /\
  (forall a b,
     let m := mergeSaveResults a (Some b) in
     sr_savedCount m = (sr_savedCount a + sr_savedCount b)%Z /\
     sr_savedFiles m = sr_savedFiles a ++ sr_savedFiles b /\
     sr_streamEvents m = sr_streamEvents a ++ sr_streamEvents b /\
     NoDup (sr_metadataIds m) /\
     (forall x, x ∈ sr_metadataIds m <->
                x <> "" /\ (x ∈ sr_metadataIds a \/ x ∈ sr_metadataIds b))).
Proof.
  split; [| split].
  - intros a b c. unfold mergeSaveResults, buildSaveResult. simpl. f_equal.
    + lia.
    + now rewrite app_assoc.
    + rewrite buildSaveResult_ids_app, buildSaveResult_app_ids.
      now rewrite app_assoc.
    + now rewrite app_assoc.
  - intros n files ids events a. subst a.
    unfold mergeSaveResults, emptySaveResult, buildSaveResult. simpl.
    repeat split; f_equal; rewrite ?app_nil_r, ?Z.add_0_r;
      try reflexivity.
    + rewrite filter_js_set_values. apply js_set_values_idem.
    + rewrite filter_js_set_values. apply js_set_values_idem.
  - intros a b m. subst m. unfold mergeSaveResults, buildSaveResult. simpl.
    split; [reflexivity |]. split; [reflexivity |]. split; [reflexivity |].
    split; [apply js_set_values_NoDup |].
    intros x. rewrite js_set_values_elem, list_elem_of_In, filter_In.
    rewrite <- list_elem_of_In, elem_of_app, nonempty_true. tauto.
Qed.

Example merge_ids :
  sr_metadataIds
    (mergeSaveResults (buildSaveResult 1 [] ["a"; ""; "b"] [])
                      (Some (buildSaveResult 2 [] ["b"; "c"; "a"] []))) =
  ["a"; "b"; "c"].
Proof. reflexivity. Qed.

(** ** Reasoning about computations that change a state and may throw *)

Lemma hoare_ret {S A} (P : S -> Prop) (a : A) (Q : Res A -> S -> Prop) :
  (forall s, P s -> Q (Ok a) s) -> hoare P (ret a) Q.
Proof. intros H s Hs. now apply H. Qed.

Lemma hoare_throw {S A} (P : S -> Prop) (e : JsError) (Q : Res A -> S -> Prop) :
  (forall s, P s -> Q (Throw e) s) -> hoare P (throw e) Q.
Proof. intros H s Hs. now apply H. Qed.

Lemma hoare_lift_res {S A} (P : S -> Prop) (r : Res A) (Q : Res A -> S -> Prop) :
  (forall s, P s -> Q r s) -> hoare P (lift_res r) Q.
Proof. intros H s Hs. now apply H. Qed.

Lemma hoare_bind {S A B} (P : S -> Prop) (R : Res A -> S -> Prop)
    (Q : Res B -> S -> Prop) (m : M S A) (k : A -> M S B) :
  hoare P m R ->
  (forall a, hoare (R (Ok a)) (k a) Q) ->
  (forall e s, R (Throw e) s -> Q (Throw e) s) ->
  hoare P (bind m k) Q.
Proof.
  intros Hm Hk He s Hs. unfold bind. specialize (Hm s Hs).
  destruct (m s) as [[a | e] s']; simpl in *.
  - now apply Hk.
  - now apply He.
Qed.

Lemma hoare_try_catch {S A} (P : S -> Prop) (R Q : Res A -> S -> Prop)
    (m : M S A) (h : JsError -> M S A) :
  hoare P m R ->
  (forall a s, R (Ok a) s -> Q (Ok a) s) ->
  (forall e, hoare (R (Throw e)) (h e) Q) ->
  hoare P (try_catch m h) Q.
Proof.
  intros Hm Hok Hh s Hs. unfold try_catch. specialize (Hm s Hs).
  destruct (m s) as [[a | e] s']; simpl in *.
  - now apply Hok.
  - now apply Hh.
Qed.

Lemma hoare_conseq {S A} (P P' : S -> Prop) (Q Q' : Res A -> S -> Prop)
    (m : M S A) :
  hoare P' m Q' -> (forall s, P s -> P' s) ->
  (forall r s, Q' r s -> Q r s) -> hoare P m Q.
Proof. intros Hm HP HQ s Hs. apply HQ, Hm, HP, Hs. Qed.

Lemma hoare_get_state {S} (P : S -> Prop) (Q : Res S -> S -> Prop) :
  (forall s, P s -> Q (Ok s) s) -> hoare P get_state Q.
Proof. intros H s Hs. now apply H. Qed.

Lemma hoare_modify {S} (P : S -> Prop) (f : S -> S) (Q : Res unit -> S -> Prop) :
  (forall s, P s -> Q (Ok tt) (f s)) -> hoare P (modify f) Q.
Proof. intros H s Hs. now apply H. Qed.

(** Reading the state hands the continuation a state that satisfies the
    precondition. *)
Lemma hoare_bind_get {S B} (P : S -> Prop) (Q : Res B -> S -> Prop)
    (k : S -> M S B) :
  (forall s0, P s0 -> hoare (fun s => s = s0) (k s0) Q) ->
  hoare P (bind get_state k) Q.
Proof. intros Hk s Hs. unfold bind, get_state. now apply (Hk s Hs s). Qed.

Lemma bind_get_state {S B} (k : S -> M S B) (s : S) :
  bind get_state k s = k s s.
Proof. reflexivity. Qed.

Lemma preserves_ret {S A} (I : S -> Prop) (a : A) : preserves I (ret a).
Proof. now apply hoare_ret. Qed.

Lemma preserves_throw {S A} (I : S -> Prop) (e : JsError) :
  preserves I (@throw S A e).
Proof. now apply hoare_throw. Qed.

Lemma preserves_lift_res {S A} (I : S -> Prop) (r : Res A) :
  preserves I (@lift_res S A r).
Proof. now apply hoare_lift_res. Qed.

Lemma preserves_get_state {S} (I : S -> Prop) : preserves I (@get_state S).
Proof. now apply hoare_get_state. Qed.

Lemma preserves_bind {S A B} (I : S -> Prop) (m : M S A) (k : A -> M S B) :
  preserves I m -> (forall a, preserves I (k a)) -> preserves I (bind m k).
Proof.
  intros Hm Hk. eapply hoare_bind; [exact Hm | exact Hk | auto].
Qed.

Lemma preserves_try_catch {S A} (I : S -> Prop) (m : M S A)
    (h : JsError -> M S A) :
  preserves I m -> (forall e, preserves I (h e)) -> preserves I (try_catch m h).
Proof.
  intros Hm Hh. eapply hoare_try_catch; [exact Hm | auto | exact Hh].
Qed.

Lemma preserves_if {S A} (I : S -> Prop) (b : bool) (m1 m2 : M S A) :
  preserves I m1 -> preserves I m2 -> preserves I (if b then m1 else m2).
Proof. now destruct b. Qed.

Section EngineProps.
Context `{Platform}.

Lemma preserves_fetch {S} (I : S -> Prop) (net : Net) (preferCurl : bool) :
  preserves I (@fetchDownloadWithRetry _ S net preferCurl).
Proof. apply preserves_lift_res. Qed.


Ltac pres_step :=
  first
    [ apply preserves_ret
    | apply preserves_throw
    | apply preserves_lift_res
    | apply preserves_get_state
    | apply preserves_fetch
    | assumption
    | apply preserves_bind; [| intros ?]
    | apply preserves_try_catch; [| intros ?]
    | match goal with
      | |- preserves _ (if ?b then _ else _) => destruct b
      | |- preserves _ (match ?x with _ => _ end) => destruct x
      | |- preserves _ (let '(_, _) := ?x in _) => destruct x
      end ].

Ltac pres := repeat pres_step.

(** The same, trying the known facts [tac] before the structure. *)
Ltac pres_with tac := repeat first [ tac | pres_step ].

(** *** Saving a buffer *)

Lemma same_mode_refl (w : World) : same_mode w w.
Proof. repeat split. Qed.

Lemma same_mode_trans (w1 w2 w3 : World) :
  same_mode w1 w2 -> same_mode w2 w3 -> same_mode w1 w3.
Proof.
  unfold same_mode. intros (? & ? & ? & ?) (? & ? & ? & ?).
  repeat split; congruence.
Qed.

Lemma saveBufferToDisk_spec (buffer : Bytes) (fileName : option string)
    (contentType : string) (metadataId : option string) (w : World) :
  exists f w',
    saveBufferToDisk buffer fileName contentType metadataId w = (Ok f, w') /\
    w_disk w' = <[sf_filePath f := buffer]> (w_disk w) /\
    same_mode w w' /\ plain_file f /\
    sf_metadataId f = metadataId /\ sf_contentType f = contentType /\
    sf_byteLength f = byteLength buffer /\
    sf_fileName f = basename (sf_filePath f).
Proof.
  unfold saveBufferToDisk.
  destruct (w_imageRun w) as [r|] eqn:Hr.
  - destruct (ir_randomizeFileNames r) eqn:Hrand.
    + eexists _, _. split; [reflexivity |]. simpl.
      split; [reflexivity |]. split; [| repeat split].
      unfold same_mode, run_is_image, run_is_file, run_prefix. simpl.
      rewrite Hr. repeat split.
    + eexists _, _. split; [reflexivity |]. simpl.
      split; [reflexivity |]. split; [| repeat split].
      unfold same_mode, run_is_image, run_is_file, run_prefix. simpl.
      rewrite Hr. repeat split.
  - eexists _, _. split; [reflexivity |]. simpl.
    split; [reflexivity |]. split; [| repeat split].
    unfold same_mode, run_is_image, run_is_file, run_prefix. simpl.
    rewrite Hr. repeat split.
Qed.

Lemma saveDownloadRecord_spec (net : Net) (record : option DownloadRecord)
    (w : World) :
  match saveDownloadRecord net record w with
  | (Ok next, w') => saved_one_or_none w w' next
  | (Throw _, w') => w' = w
  end.
Proof.
  unfold saveDownloadRecord. destruct record as [record|];
    [| left; split; reflexivity].
  unfold bind, lift_res, get_state, ret.
  destruct (or_else_res (rec_metadataId record) _) as [id1|]; [| reflexivity].
  destruct (or_else_res id1 _) as [metadataId|]; [| reflexivity].
  destruct (rec_buffer record) as [buffer|].
  - destruct (saveBufferToDisk_spec buffer
                (match rec_fileName record with
                 | Some n => Some n
                 | None => Some ("download-" +:+ dec_string (w_now w))
                 end)
                (header_or_empty (rec_contentType record)) metadataId w)
      as (f & w' & -> & Hd & Hm & Hp & _).
    right. exists f, (id_list metadataId), buffer. auto.
  - destruct (truthy (rec_downloadUrl record)); [| left; split; reflexivity].
    unfold fetchDownloadWithRetry, lift_res.
    destruct (fr_result _) as [fetched|]; [| reflexivity].
    match goal with
    | |- context [saveBufferToDisk ?b ?n ?c ?i w] =>
        destruct (saveBufferToDisk_spec b n c i w)
          as (f & w' & -> & Hd & Hm & Hp & _)
    end.
    right. exists f, (id_list metadataId), (f_buffer fetched). auto.
Qed.

Section SessionProps.
Variable opts : Options.

(** From [P], the pieces of the handler that only log keep [P] and the
    two pieces that save lead to [Q]; then the branches lead from [P] to
    [Q], and so does the whole handler when [P] implies [Q]. *)
Lemma dispatch_response_hoare (P Q : St -> Prop) :
  (forall s, P s -> Q s) ->
  (forall e, preserves P (emitStreamEvent e)) ->
  (forall b ct n id em,
     hoare P (handleFileBuffer opts b ct n id em)
           (fun res s => res = Ok tt /\ Q s)) ->
  (forall net r ct, hoare P (direct_branch opts net r ct) (fun _ => Q)) ->
  forall net r e d, hoare P (dispatch_response opts net r e d) (fun _ => Q).
Proof.
  intros HPQ Hemit Hhandle Hdirect net r e d.
  set (R := fun (res : Res unit) (s : St) =>
              match res with Ok _ => Q s | Throw _ => P s end).
  assert (Hemit' : forall ev, hoare P (emitStreamEvent ev) R).
  { intros ev s Hs. specialize (Hemit ev s Hs). unfold R.
    destruct (emitStreamEvent ev s) as [[[]|err] s']; simpl in *; auto. }
  assert (Hhandle' : forall b ct n id em,
             hoare P (handleFileBuffer opts b ct n id em) R).
  { intros b ct n id em s Hs. destruct (Hhandle b ct n id em s Hs) as [-> HQ].
    exact HQ. }
  assert (Hcatch : forall (m : M St unit) ev,
             hoare P m R ->
             hoare P (try_catch m (fun _ => emitStreamEvent ev)) (fun _ => Q)).
  { intros m ev Hm. eapply hoare_try_catch; [exact Hm | auto |].
    intros err s Hs. apply HPQ. exact (Hemit ev s Hs). }
  assert (Hprefix : forall A (m : M St A) (k : A -> M St unit),
             preserves P m -> (forall a, hoare P (k a) R) ->
             hoare P (bind m k) R).
  { intros A m k Hm Hk. eapply hoare_bind; [exact Hm | exact Hk |].
    intros err s Hs. exact Hs. }
  unfold dispatch_response. cbv zeta.
  destruct (d && isJsonContentType _).
  - apply Hcatch. unfold metadata_branch.
    destruct (r_json r) as [| |o].
    + apply hoare_throw. auto.
    + destruct (negb _ && _); [apply Hemit' |]. apply Hemit'.
    + destruct (negb _ && _); [apply Hemit' |].
      destruct (j_download_url o) as [downloadUrl|]; [| apply Hemit'].
      destruct (nonempty downloadUrl); [| apply Hemit'].
      apply Hprefix; [apply preserves_lift_res | intros fromDownload].
      apply Hprefix; [apply preserves_lift_res | intros metadataId].
      apply Hprefix; [apply Hemit | intros []].
      apply Hprefix; [apply preserves_get_state | intros st].
      apply Hprefix; [apply preserves_fetch | intros fetched].
      apply Hhandle'.
  - destruct (negb (isJsonContentType _)); [apply Hdirect |].
    destruct (e && isJsonContentType _); [| apply hoare_ret; auto].
    apply Hcatch. unfold estuary_branch.
    destruct (r_json r) as [| |o].
    + apply hoare_throw. auto.
    + apply Hemit'.
    + destruct (or_null (j_item o)) as [item|]; [| apply Hemit'].
      apply Hprefix; [apply Hemit | intros []].
      apply Hprefix; [apply preserves_get_state | intros st].
      apply Hprefix; [apply preserves_fetch | intros fetched].
      apply Hhandle'.
Qed.

Lemma processResponse_hoare (P Q : St -> Prop) :
  (forall s, P s -> Q s) ->
  (forall e, preserves P (emitStreamEvent e)) ->
  (forall k, preserves P
               (on_session (fun s => set_seen ({[k]} ∪ cs_seen s) s))) ->
  (forall b ct n id em,
     hoare P (handleFileBuffer opts b ct n id em)
           (fun res s => res = Ok tt /\ Q s)) ->
  (forall net r ct, hoare P (direct_branch opts net r ct) (fun _ => Q)) ->
  forall net r, hoare P (processResponse opts net r) (fun _ => Q).
Proof.
  intros HPQ Hemit Hseen Hhandle Hdirect net r.
  pose proof (dispatch_response_hoare P Q HPQ Hemit Hhandle Hdirect) as Hdisp.
  unfold processResponse.
  destruct (url_parse (r_url r)) as [u|]; [| apply hoare_throw; auto].
  destruct (negb (str_eqb _ _)); [apply hoare_ret; auto |]. cbv zeta.
  destruct (negb _ && negb _); [apply hoare_ret; auto |].
  apply hoare_bind_get. intros st Hst.
  destruct (negb _ && bool_decide _).
  - apply hoare_ret. intros s ->. auto.
  - eapply hoare_bind with (R := fun _ => P).
    + destruct (negb _).
      * intros s ->. now apply Hseen.
      * apply hoare_ret. now intros s ->.
    + intros []. apply Hdisp.
    + intros err s Hs. auto.
Qed.

(** *** The shape of the two saving pieces of the handler *)

Lemma handleFileBuffer_ignored (b : Bytes) (ct n : string)
    (id : option string) (em : EventMeta) (st : St) :
  shouldIgnoreCapturedFile opts (Some n) (em_sourceFileName em) = true ->
  exists e,
    ev_type e = file_ignored /\
    ev_reason e = Some "matches_upload_reference_name" /\
    handleFileBuffer opts b ct n id em st =
    (Ok tt, {| st_session := log_events [e] (st_session st);
               st_world := st_world st |}).
Proof.
  intros Hig. unfold handleFileBuffer. rewrite Hig.
  eexists. split; [| split]; [| | reflexivity]; reflexivity.
Qed.

Lemma handleFileBuffer_saved (b : Bytes) (ct n : string)
    (id : option string) (em : EventMeta) (st : St) :
  shouldIgnoreCapturedFile opts (Some n) (em_sourceFileName em) = false ->
  exists f w' e entry,
    saveBufferToDisk b
      (Some (str_or n ("download-" +:+ dec_string (w_now (st_world st)))))
      ct id (st_world st) = (Ok f, w') /\
    w_disk w' = <[sf_filePath f := b]> (w_disk (st_world st)) /\
    same_mode (st_world st) w' /\
    ev_type e = file_saved /\
    ev_outputPath e = or_null (Some (sf_filePath f)) /\
    sf_filePath entry = sf_filePath f /\
    sf_contentType entry = ct /\
    sf_metadataId entry = id /\
    sf_isStreamPart entry = em_isStreamPart em /\
    sf_isFinalStreamFrame entry = em_isFinalStreamFrame em /\
    handleFileBuffer opts b ct n id em st =
    (Ok tt,
     {| st_session :=
          record_saved opts (run_is_image (st_world st)) entry id
            (log_events [e] (st_session st));
        st_world := w' |}).
Proof.
  intros Hig. unfold handleFileBuffer. rewrite Hig.
  destruct (saveBufferToDisk_spec b
              (Some (str_or n ("download-" +:+ dec_string (w_now (st_world st)))))
              ct id (st_world st))
    as (f & w' & Hsave & Hd & Hm & Hp & Hid & Hct & _).
  unfold bind, get_state, in_world, emitStreamEvent, on_session, modify.
  rewrite Hsave. cbn [st_session st_world].
  match goal with
  | |- context [record_saved opts _ ?entry id
                  (set_streamEvents (_ ++ [?e]) _)] =>
      exists f, w', e, entry
  end.
  split; [reflexivity |]. split; [exact Hd |]. split; [exact Hm |].
  repeat split; try reflexivity; cbn [sf_contentType sf_metadataId]; auto.
Qed.

Lemma direct_branch_shape (net : Net) (r : Response) (ct : string) (st : St) :
  (exists e,
     ev_type e = file_ignored /\
     ev_reason e = Some "matches_upload_reference_name" /\
     direct_branch opts net r ct st =
     (Ok tt, {| st_session := log_events [e] (st_session st);
                st_world := st_world st |})) \/
  (exists next w' evs id,
     saved_one_or_none (st_world st) w' next /\
     (evs = [] \/
      (evs = [save_failed_event "download_response" (r_url r) true ct] /\
       next = emptySaveResult /\ w' = st_world st)) /\
     direct_branch opts net r ct st =
     (Ok tt,
      {| st_session :=
           merge_direct opts (r_url r) id ct next
             (log_events evs (st_session st));
         st_world := w' |})).
Proof.
  unfold direct_branch. rewrite bind_get_state. cbv beta iota zeta.
  destruct (shouldIgnoreCapturedFile opts
              (Some (direct_name_hint r (st_world st))) (Some "")).
  - left. eexists. split; [| split]; [| | reflexivity]; reflexivity.
  - right. unfold bind, try_catch, in_world.
    match goal with
    | |- context [saveDownloadRecord net ?rec (st_world st)] =>
        pose proof (saveDownloadRecord_spec net rec (st_world st)) as Hspec;
        destruct (saveDownloadRecord net rec (st_world st)) as [[next | e] w']
    end.
    + exists next, w', [], (responseFileId_of (r_url r)). split; [exact Hspec |]. split; [now left |].
      unfold on_session, modify, log_events. cbn [st_session st_world].
      rewrite app_nil_r.
      destruct (st_session st); reflexivity.
    + subst w'. cbn [st_session st_world].
      exists emptySaveResult, (st_world st),
        [save_failed_event "download_response" (r_url r) true ct],
        (responseFileId_of (r_url r)).
      split; [left; split; reflexivity |].
      split; [right; split; [reflexivity | split; reflexivity] |].
      reflexivity.
Qed.


Lemma saved_one_or_none_mode (w w' : World) (next : SaveResult) :
  saved_one_or_none w w' next -> same_mode w w'.
Proof.
  intros [[_ ->] | (f & ids & b & _ & _ & _ & Hm)];
    [apply same_mode_refl | exact Hm].
Qed.

(** The pieces of the handler keep a property [I] of the closure
    variables, and the kind of run, when the log, the closing block of
    [handleFileBuffer] and the merge of the direct branch keep [I]. *)
Lemma session_pieces (img0 : bool) (I : Session -> Prop) :
  (forall evs s, I s -> I (log_events evs s)) ->
  (forall f id s, I s -> I (record_saved opts img0 f id s)) ->
  (forall url id ct next s,
     (exists w w', saved_one_or_none w w' next) ->
     I s -> I (merge_direct opts url id ct next s)) ->
  let J := fun st : St =>
             I (st_session st) /\ run_is_image (st_world st) = img0 in
  (forall e, preserves J (emitStreamEvent e)) /\
  (forall b ct n id em,
     hoare J (handleFileBuffer opts b ct n id em)
           (fun res s => res = Ok tt /\ J s)) /\
  (forall net r ct, hoare J (direct_branch opts net r ct) (fun _ => J)).
Proof.
  intros Hlog Hrec Hdir J. split; [| split].
  - intros e s [Hs Hm]. split; [apply (Hlog [e]), Hs | exact Hm].
  - intros b ct n id em s [Hs Hm].
    destruct (shouldIgnoreCapturedFile opts (Some n) (em_sourceFileName em))
      eqn:Hig.
    + destruct (handleFileBuffer_ignored b ct n id em s Hig)
        as (e & _ & _ & ->).
      split; [reflexivity |]. split; [apply Hlog, Hs | exact Hm].
    + destruct (handleFileBuffer_saved b ct n id em s Hig)
        as (f & w' & e & entry & _ & _ & Hmode & _ & _ & _ & _ & _ & _ & _
            & ->).
      split; [reflexivity |].
      cbn [snd st_session st_world]. split.
      * rewrite Hm. apply Hrec, Hlog, Hs.
      * destruct Hmode as [Hmode _]. simpl. congruence.
  - intros net0 r0 ct s [Hs Hm].
    destruct (direct_branch_shape net0 r0 ct s)
      as [(e & _ & _ & ->) | (next & w' & evs & id & Hone & _ & ->)].
    + split; [apply Hlog, Hs | exact Hm].
    + cbn [snd st_session st_world]. split.
      * apply Hdir; [eauto | apply Hlog, Hs].
      * apply saved_one_or_none_mode in Hone as [Hone _]. simpl.
        congruence.
Qed.

Lemma dispatch_response_session_inv (img0 : bool) (I : Session -> Prop) :
  (forall evs s, I s -> I (log_events evs s)) ->
  (forall f id s, I s -> I (record_saved opts img0 f id s)) ->
  (forall url id ct next s,
     (exists w w', saved_one_or_none w w' next) ->
     I s -> I (merge_direct opts url id ct next s)) ->
  forall net r e d st,
    run_is_image (st_world st) = img0 -> I (st_session st) ->
    I (st_session (snd (dispatch_response opts net r e d st))) /\
    run_is_image (st_world (snd (dispatch_response opts net r e d st))) = img0.
Proof.
  intros Hlog Hrec Hdir net r e d st Himg HI.
  destruct (session_pieces img0 I Hlog Hrec Hdir) as (Hemit & Hhandle & Hdirect).
  refine (dispatch_response_hoare _ _ _ Hemit Hhandle Hdirect net r e d st _);
    [auto | split; assumption].
Qed.

(** The same for the whole handler, which also adds to the dedup set. *)
Lemma processResponse_session_inv (img0 : bool) (I : Session -> Prop) :
  (forall evs s, I s -> I (log_events evs s)) ->
  (forall k s, I s -> I (set_seen ({[k]} ∪ cs_seen s) s)) ->
  (forall f id s, I s -> I (record_saved opts img0 f id s)) ->
  (forall url id ct next s,
     (exists w w', saved_one_or_none w w' next) ->
     I s -> I (merge_direct opts url id ct next s)) ->
  forall net r st,
    run_is_image (st_world st) = img0 -> I (st_session st) ->
    I (st_session (snd (processResponse opts net r st))) /\
    run_is_image (st_world (snd (processResponse opts net r st))) = img0.
Proof.
  intros Hlog Hseen Hrec Hdir net r st Himg HI.
  destruct (session_pieces img0 I Hlog Hrec Hdir) as (Hemit & Hhandle & Hdirect).
  refine (processResponse_hoare _ _ _ Hemit _ Hhandle Hdirect net r st _);
    [auto | | split; assumption].
  intros k s [Hs Hm]. split; [apply Hseen, Hs | exact Hm].
Qed.

(** *** Folding the ids and the files of the direct branch into the
    session *)

Lemma fold_ids_fields (ids : list string) (s : Session) :
  let s' :=
    fold_left
      (fun s id =>
         if nonempty id
         then set_metadataIds (js_set_add (cs_metadataIds s) id) s else s)
      ids s in
  cs_savedCount s' = cs_savedCount s /\
  cs_idleTimer s' = cs_idleTimer s /\
  cs_timeoutTimer s' = cs_timeoutTimer s /\
  cs_finished s' = cs_finished s /\
  cs_seen s' = cs_seen s /\
  cs_savedFiles s' = cs_savedFiles s /\
  cs_streamEvents s' = cs_streamEvents s /\
  cs_sawImageStreamPartFrame s' = cs_sawImageStreamPartFrame s /\
  cs_sawImageFinalFrame s' = cs_sawImageFinalFrame s /\
  cs_convoStreamCompleted s' = cs_convoStreamCompleted s /\
  cs_listening s' = cs_listening s /\
  cs_queue s' = cs_queue s.
Proof.
  revert s. induction ids as [|i ids IH]; intros s; simpl.
  - repeat split.
  - specialize (IH (if nonempty i
                    then set_metadataIds (js_set_add (cs_metadataIds s) i) s
                    else s)).
    simpl in IH. destruct (nonempty i); exact IH.
Qed.


(** *** What the closing blocks change *)

Lemma finish_fields (s : Session) :
  cs_savedCount (finish s) = cs_savedCount s /\
  cs_seen (finish s) = cs_seen s /\
  cs_metadataIds (finish s) = cs_metadataIds s /\
  cs_savedFiles (finish s) = cs_savedFiles s /\
  cs_streamEvents (finish s) = cs_streamEvents s /\
  cs_sawImageStreamPartFrame (finish s) = cs_sawImageStreamPartFrame s /\
  cs_sawImageFinalFrame (finish s) = cs_sawImageFinalFrame s /\
  cs_convoStreamCompleted (finish s) = cs_convoStreamCompleted s /\
  cs_queue (finish s) = cs_queue s /\
  cs_finished (finish s) = true.
Proof.
  unfold finish. destruct (cs_finished s) eqn:Hf; repeat split; exact Hf.
Qed.

Lemma scheduleIdleCheck_fields (s : Session) :
  cs_savedCount (scheduleIdleCheck opts s) = cs_savedCount s /\
  cs_seen (scheduleIdleCheck opts s) = cs_seen s /\
  cs_metadataIds (scheduleIdleCheck opts s) = cs_metadataIds s /\
  cs_savedFiles (scheduleIdleCheck opts s) = cs_savedFiles s /\
  cs_streamEvents (scheduleIdleCheck opts s) = cs_streamEvents s /\
  cs_sawImageStreamPartFrame (scheduleIdleCheck opts s) =
    cs_sawImageStreamPartFrame s /\
  cs_sawImageFinalFrame (scheduleIdleCheck opts s) = cs_sawImageFinalFrame s /\
  cs_convoStreamCompleted (scheduleIdleCheck opts s) =
    cs_convoStreamCompleted s /\
  cs_queue (scheduleIdleCheck opts s) = cs_queue s /\
  cs_finished (scheduleIdleCheck opts s) = cs_finished s /\
  cs_timeoutTimer (scheduleIdleCheck opts s) = cs_timeoutTimer s /\
  cs_listening (scheduleIdleCheck opts s) = cs_listening s.
Proof.
  unfold scheduleIdleCheck. simpl.
  destruct (_ =? 0)%Z; [repeat split |].
  destruct (_ && _ && negb (cs_sawImageFinalFrame s)); [repeat split |].
  destruct (_ && _ && negb (cs_convoStreamCompleted s)); repeat split.
Qed.

(** The closing block of [handleFileBuffer] appends the entry and adds
    one to the count. *)
Lemma record_saved_fields (img : bool) (f : SavedFile) (id : option string)
    (s : Session) :
  let s' := record_saved opts img f id s in
  cs_savedCount s' = (cs_savedCount s + 1)%Z /\
  cs_savedFiles s' = cs_savedFiles s ++ [f] /\
  cs_streamEvents s' = cs_streamEvents s /\
  cs_seen s' = cs_seen s /\
  cs_queue s' = cs_queue s.
Proof.
  cbv zeta. unfold record_saved.
  set (s1 := set_savedFiles (cs_savedFiles s ++ [f]) s).
  set (s2 := if requireFinalImageFrame opts && img then _ else _).
  set (s3 := match id with Some _ => _ | None => _ end).
  assert (H3 : cs_savedCount s3 = cs_savedCount s /\
               cs_savedFiles s3 = cs_savedFiles s ++ [f] /\
               cs_streamEvents s3 = cs_streamEvents s /\
               cs_seen s3 = cs_seen s /\ cs_queue s3 = cs_queue s).
  { unfold s3, s2, s1.
    destruct id as [i|]; [destruct (nonempty i) |];
      destruct (requireFinalImageFrame opts && img);
      try destruct (sf_isStreamPart f);
      try destruct (sf_isFinalStreamFrame f); repeat split. }
  destruct H3 as (Hc & Hf & He & Hs & Hq). cbv zeta.
  set (s4 := set_savedCount (cs_savedCount s3 + 1) s3).
  destruct (_ <=? _)%Z.
  - destruct (finish_fields s4) as (-> & -> & _ & -> & -> & _ & _ & _ & -> & _).
    unfold s4. simpl. rewrite Hc. auto.
  - destruct (_ && _ && _ && _).
    + simpl. rewrite Hc. auto.
    + destruct (scheduleIdleCheck_fields s4)
        as (-> & -> & _ & -> & -> & _ & _ & _ & -> & _).
      unfold s4. simpl. rewrite Hc. auto.
Qed.

(** The merge of the direct branch adds the count of [next]. *)
Lemma merge_direct_fields (url : string) (id : option string) (ct : string)
    (next : SaveResult) (s : Session) :
  let s' := merge_direct opts url id ct next s in
  (exists w w', saved_one_or_none w w' next) ->
  cs_savedCount s' = (cs_savedCount s + sr_savedCount next)%Z /\
  cs_savedFiles s' = cs_savedFiles s ++ sr_savedFiles next /\
  cs_seen s' = cs_seen s /\
  cs_queue s' = cs_queue s /\
  (0 <= sr_savedCount next <= 1)%Z /\
  sr_savedCount next = Z.of_nat (length (sr_savedFiles next)).
Proof.
  cbv zeta. intros (w & w' & Hnext). unfold merge_direct.
  destruct Hnext as [[-> _] | (f & ids & b & -> & _)].
  - simpl. rewrite app_nil_r.
    destruct (_ <=? _)%Z.
    + destruct (finish_fields (set_savedCount (cs_savedCount s + 0) s))
        as (-> & -> & _ & -> & _ & _ & _ & _ & -> & _).
      simpl. repeat split; lia.
    + simpl. repeat split; lia.
  - cbn [buildSaveResult sr_savedCount sr_savedFiles sr_metadataIds fold_left
           length].
    match goal with
    | |- context [fold_left ?g ?l ?s0] =>
        pose proof (fold_ids_fields l s0) as Hfold;
        cbv zeta in Hfold; set (s3 := fold_left g l s0) in *
    end.
    destruct Hfold as (Hc & _ & _ & _ & Hs & Hf & _ & _ & _ & _ & _ & Hq).
    simpl in Hc, Hs, Hf, Hq.
    destruct (_ <=? _)%Z.
    + destruct (finish_fields s3) as (-> & -> & _ & -> & _ & _ & _ & _ & -> & _).
      rewrite Hc, Hs, Hf, Hq. repeat split; lia.
    + cbn [Z.ltb Z.compare].
      destruct (scheduleIdleCheck_fields s3)
        as (-> & -> & _ & -> & _ & _ & _ & _ & -> & _).
      rewrite Hc, Hs, Hf, Hq. repeat split; lia.
Qed.

(** *** The idle timer of a media session *)

Lemma media_inv_finish (s : Session) :
  flags_track_files s -> media_inv (finish s).
Proof.
  intros Hf. unfold finish. destruct (cs_finished s) eqn:Hfin.
  - split; [exact Hf |]. intros Hc. congruence.
  - split; [exact Hf |]. intros Hc. discriminate.
Qed.

Lemma media_inv_scheduleIdleCheck (s : Session) :
  requireFinalImageFrame opts = true ->
  flags_track_files s -> media_inv (scheduleIdleCheck opts s).
Proof.
  intros Hreq Hf. unfold scheduleIdleCheck. rewrite Hreq. simpl.
  destruct (cs_savedCount s =? 0)%Z; [split; [exact Hf | intros _ _ _; reflexivity] |].
  destruct (cs_sawImageStreamPartFrame s) eqn:Hp;
    destruct (cs_sawImageFinalFrame s) eqn:Hl; simpl;
    try destruct (cs_convoStreamCompleted s); simpl;
    (split; [exact Hf |]); intros _ Hp' Hl'; simpl in *; congruence.
Qed.

Lemma media_inv_record_saved (f : SavedFile) (id : option string)
    (s : Session) :
  requireFinalImageFrame opts = true ->
  media_inv s -> media_inv (record_saved opts true f id s).
Proof.
  intros Hreq [[Hp Hl] Hidle]. unfold record_saved. rewrite Hreq.
  cbn [andb].
  set (s1 := set_savedFiles (cs_savedFiles s ++ [f]) s).
  set (s2 := if sf_isFinalStreamFrame f then _ else _).
  set (s3 := match id with Some _ => _ | None => _ end).
  set (s4 := set_savedCount (cs_savedCount s3 + 1) s3).
  assert (Hf4 : flags_track_files s4).
  { unfold flags_track_files, s4, s3, s2, s1.
    destruct id as [i|]; [destruct (nonempty i) |];
      destruct (sf_isStreamPart f) eqn:Hfp;
      destruct (sf_isFinalStreamFrame f) eqn:Hfl;
      simpl; rewrite !existsb_app; simpl; rewrite Hfp, Hfl, <- Hp, <- Hl;
      rewrite ?orb_true_r, ?orb_false_r; split; reflexivity. }
  destruct (maxFiles opts <=? cs_savedCount s4)%Z;
    [now apply media_inv_finish |].
  destruct (cs_sawImageFinalFrame s4 && cs_convoStreamCompleted s4) eqn:Hmid.
  - apply andb_true_iff in Hmid as [Hfin4 _].
    split; [exact Hf4 |]. intros _ _ Hl'. unfold s4 in Hfin4.
    simpl in Hl', Hfin4. congruence.
  - now apply media_inv_scheduleIdleCheck.
Qed.

Lemma media_inv_merge_direct (url : string) (id : option string)
    (ct : string) (next : SaveResult) (s : Session) :
  requireFinalImageFrame opts = true ->
  (exists w w', saved_one_or_none w w' next) ->
  media_inv s -> media_inv (merge_direct opts url id ct next s).
Proof.
  intros Hreq (w & w' & Hnext) [[Hp Hl] Hidle]. unfold merge_direct.
  destruct Hnext as [[-> _] | (f & ids & b & -> & (Hfp & Hfl & _) & _)].
  - simpl.
    destruct (maxFiles opts <=? cs_savedCount s + 0)%Z.
    + apply media_inv_finish. split; assumption.
    + split; [split; assumption | exact Hidle].
  - cbn [buildSaveResult sr_savedCount sr_savedFiles sr_metadataIds fold_left].
    match goal with
    | |- context [fold_left ?g ?l ?s0] =>
        pose proof (fold_ids_fields l s0) as Hfold;
        cbv zeta in Hfold; set (s3 := fold_left g l s0) in *
    end.
    destruct Hfold as (_ & _ & _ & _ & _ & Hfiles & _ & Hp3 & Hl3 & _).
    assert (Hf3 : flags_track_files s3).
    { unfold flags_track_files. rewrite Hp3, Hl3, Hfiles. simpl.
      rewrite !existsb_app. simpl. rewrite Hfp, Hfl, !orb_false_r.
      split; assumption. }
    destruct (maxFiles opts <=? cs_savedCount s3)%Z;
      [now apply media_inv_finish |].
    cbn [Z.ltb Z.compare]. now apply media_inv_scheduleIdleCheck.
Qed.

Lemma media_inv_log_events (evs : list StreamEvent) (s : Session) :
  media_inv s -> media_inv (log_events evs s).
Proof. intros H0. exact H0. Qed.

Lemma media_inv_set_seen (k : gset string) (s : Session) :
  media_inv s -> media_inv (set_seen k s).
Proof. intros H0. exact H0. Qed.

Lemma media_inv_processResponse (net : Net) (r : Response) (st : St) :
  requireFinalImageFrame opts = true ->
  run_is_image (st_world st) = true ->
  media_inv (st_session st) ->
  media_inv (st_session (snd (processResponse opts net r st))) /\
  run_is_image (st_world (snd (processResponse opts net r st))) = true.
Proof.
  intros Hreq Himg Hinv.
  exact (processResponse_session_inv true media_inv
           media_inv_log_events
           (fun k s => media_inv_set_seen _ s)
           (fun f id s => media_inv_record_saved f id s Hreq)
           (fun url id ct next s => media_inv_merge_direct url id ct next s Hreq)
           net r st Himg Hinv).
Qed.


(** *** The end of a session, case by case *)

Lemma complete_collection_shape (st : St) :
  let s := st_session st in
  let s' := log_events [collector_complete_event (cs_savedCount s)] s in
  match last (cs_savedFiles s) with
  | None =>
      complete_collection st =
      (Ok (session_result s'), {| st_session := s'; st_world := st_world st |})
  | Some f =>
      if bool_decide (sf_filePath f = latestPath f) then
        complete_collection st =
        (Ok (session_result s'),
         {| st_session := s'; st_world := st_world st |})
      else
        match w_disk (st_world st) !! sf_filePath f with
        | Some content =>
            complete_collection st =
            (Ok (session_result s'),
             {| st_session := s';
                st_world :=
                  set_disk (<[latestPath f := content]> (w_disk (st_world st)))
                           (st_world st) |})
        | None =>
            complete_collection st = (Throw (NoSuchFile (sf_filePath f)), st)
        end
  end.
Proof.
  cbv zeta. unfold complete_collection. rewrite bind_get_state.
  destruct (last (cs_savedFiles (st_session st))) as [f|]; [| reflexivity].
  destruct (bool_decide (sf_filePath f = latestPath f)); [reflexivity |].
  unfold bind, in_world, copyFile, emitStreamEvent, on_session, modify,
    get_state, ret.
  destruct (w_disk (st_world st) !! sf_filePath f); [reflexivity |].
  destruct st; reflexivity.
Qed.

Lemma markConvoStreamCompleted_shape (st : St) :
  markConvoStreamCompleted opts st =
  (Ok tt,
   {| st_session :=
        let s := st_session st in
        if cs_convoStreamCompleted s then s
        else
          let s1 :=
            set_streamEvents
              (cs_streamEvents s ++
                 [{| ev_type := convo_stream_completed;
                     ev_source := "ces_stream_event";
                     ev_responseUrl := None; ev_downloadUrl := None;
                     ev_metadataId := None; ev_contentType := None;
                     ev_fileName := None; ev_sourceFileName := None;
                     ev_outputPath := None; ev_byteLength := None;
                     ev_isStreamPart := false; ev_streamPartIndex := None;
                     ev_isFinalStreamFrame := false; ev_reason := None;
                     ev_savedCount := None |}])
              (set_convoStreamCompleted true s) in
          if (cs_savedCount s1 =? 0)%Z then s1
          else if requireFinalImageFrame opts &&
                  cs_sawImageStreamPartFrame s1 &&
                  negb (cs_sawImageFinalFrame s1) then s1
          else set_idleTimer (Some (Z.min (Z.max 600 (idleMs opts)) 1500)) s1;
      st_world := st_world st |}).
Proof.
  unfold markConvoStreamCompleted. rewrite bind_get_state. cbv zeta.
  destruct (cs_convoStreamCompleted (st_session st)) eqn:Hc.
  - destruct st; reflexivity.
  - reflexivity.
Qed.

Lemma markConvoStreamCompleted_fields (st : St) :
  let st' := snd (markConvoStreamCompleted opts st) in
  cs_finished (st_session st') = cs_finished (st_session st) /\
  cs_savedFiles (st_session st') = cs_savedFiles (st_session st) /\
  cs_savedCount (st_session st') = cs_savedCount (st_session st) /\
  cs_timeoutTimer (st_session st') = cs_timeoutTimer (st_session st) /\
  cs_listening (st_session st') = cs_listening (st_session st) /\
  cs_queue (st_session st') = cs_queue (st_session st) /\
  st_world st' = st_world st.
Proof.
  cbv zeta. rewrite markConvoStreamCompleted_shape. cbn [snd st_session st_world].
  cbv zeta. destruct (cs_convoStreamCompleted _); [repeat split |].
  destruct (_ =? 0)%Z; [repeat split |].
  destruct (_ && _ && _); repeat split.
Qed.

Lemma step_BeaconSeen (r r' : Run) :
  step opts BeaconSeen r = Some r' ->
  run_st r' = snd (markConvoStreamCompleted opts (run_st r)) /\
  run_phase r' = run_phase r.
Proof.
  simpl. destruct (waitForConvoStreamCompleted opts); [| discriminate].
  destruct (markConvoStreamCompleted opts (run_st r)) as [res st'].
  intros [= <-]. split; reflexivity.
Qed.

Lemma media_inv_markConvoStreamCompleted (st : St) :
  requireFinalImageFrame opts = true ->
  media_inv (st_session st) ->
  media_inv (st_session (snd (markConvoStreamCompleted opts st))).
Proof.
  intros Hreq [[Hp Hl] Hidle]. rewrite markConvoStreamCompleted_shape.
  cbn [snd st_session]. cbv zeta.
  destruct (cs_convoStreamCompleted (st_session st));
    [split; [split |]; assumption |].
  rewrite Hreq. simpl.
  destruct (cs_savedCount (st_session st) =? 0)%Z;
    [split; [split |]; assumption |].
  destruct (cs_sawImageStreamPartFrame (st_session st) &&
            negb (cs_sawImageFinalFrame (st_session st))) eqn:Hg.
  - exact (conj (conj Hp Hl) Hidle).
  - split; [exact (conj Hp Hl) |]. intros _ Hp' Hl'. simpl in Hp', Hl'.
    rewrite Hp', Hl' in Hg. discriminate.
Qed.

(** Every state of a media session satisfies the invariant, and the run
    stays a media run. *)
Lemma media_inv_reachable (w0 : World) (r : Run) :
  requireFinalImageFrame opts = true ->
  run_is_image w0 = true ->
  reachable opts w0 r ->
  media_inv (st_session (run_st r)) /\
  run_is_image (st_world (run_st r)) = true.
Proof.
  intros Hreq Himg Hreach. induction Hreach as [|i r r' Hreach [IHs IHw] Hstep].
  - split; [| exact Himg]. split; [split; reflexivity |].
    intros _ _ _. reflexivity.
  - destruct i; simpl in Hstep.
    + destruct (cs_listening _); [destruct (url_parse _); [| discriminate] |];
        injection Hstep as <-; [| now split].
      split; [| exact IHw]. unfold with_session, onResponse. simpl.
      destruct (cs_finished _); exact IHs.
    + destruct (cs_queue _) as [|response rest]; [discriminate |].
      destruct (media_inv_processResponse net response (run_st r) Hreq IHw IHs)
        as [Hs Hw].
      destruct (processResponse opts net response (run_st r)) as [res st'].
      injection Hstep as <-. simpl in *. split; [exact Hs | exact Hw].
    + destruct (waitForConvoStreamCompleted opts); [| discriminate].
      pose proof (media_inv_markConvoStreamCompleted (run_st r) Hreq IHs)
        as Hs.
      pose proof (markConvoStreamCompleted_shape (run_st r)) as Hshape.
      destruct (markConvoStreamCompleted opts (run_st r)) as [res st'].
      injection Hstep as <-. injection Hshape as _ ->.
      split; [exact Hs | exact IHw].
    + destruct (cs_idleTimer _); [| discriminate]. injection Hstep as <-.
      split; [| exact IHw]. apply media_inv_finish. apply IHs.
    + destruct (cs_timeoutTimer _); [| discriminate]. injection Hstep as <-.
      split; [| exact IHw]. apply media_inv_finish. apply IHs.
    + destruct (_ <=? _)%Z; [| discriminate]. injection Hstep as <-.
      split; [exact IHs | exact IHw].
    + destruct (run_phase r); try discriminate.
      destruct (cs_finished _); [| discriminate]. injection Hstep as <-.
      split; [exact IHs | exact IHw].
    + destruct (run_phase r) as [|[|n]| |]; try discriminate.
      destruct (run_queueError r);
        [injection Hstep as <-; split; [exact IHs | exact IHw] |].
      pose proof (complete_collection_shape (run_st r)) as Hshape.
      cbv zeta in Hshape.
      destruct (last (cs_savedFiles (st_session (run_st r)))) as [f|].
      * destruct (bool_decide (sf_filePath f = latestPath f)).
        { rewrite Hshape in Hstep. injection Hstep as <-.
          split; [exact IHs | exact IHw]. }
        destruct (w_disk (st_world (run_st r)) !! sf_filePath f).
        { rewrite Hshape in Hstep. injection Hstep as <-.
          split; [exact IHs | exact IHw]. }
        rewrite Hshape in Hstep. injection Hstep as <-.
        split; [exact IHs | exact IHw].
      * rewrite Hshape in Hstep. injection Hstep as <-.
        split; [exact IHs | exact IHw].
Qed.


(** A handler finishes the session only by reaching the cap. *)
Lemma finished_by_cap_record_saved (img : bool) (f : SavedFile)
    (id : option string) (s : Session) :
  finished_by_cap (maxFiles opts) s ->
  finished_by_cap (maxFiles opts) (record_saved opts img f id s).
Proof.
  intros Hs. unfold record_saved.
  set (s1 := set_savedFiles (cs_savedFiles s ++ [f]) s).
  set (s2 := if requireFinalImageFrame opts && img then _ else _).
  set (s3 := match id with Some _ => _ | None => _ end).
  assert (Hfin : cs_finished s3 = cs_finished s).
  { unfold s3, s2, s1.
    destruct id as [i|]; [destruct (nonempty i) |];
      destruct (requireFinalImageFrame opts && img);
      try destruct (sf_isStreamPart f);
      try destruct (sf_isFinalStreamFrame f); reflexivity. }
  assert (Hcnt : cs_savedCount s3 = cs_savedCount s).
  { unfold s3, s2, s1.
    destruct id as [i|]; [destruct (nonempty i) |];
      destruct (requireFinalImageFrame opts && img);
      try destruct (sf_isStreamPart f);
      try destruct (sf_isFinalStreamFrame f); reflexivity. }
  cbv zeta.
  set (s4 := set_savedCount (cs_savedCount s3 + 1) s3).
  destruct (Z.leb_spec (maxFiles opts) (cs_savedCount s4)) as [Hle | Hgt].
  - intros _. unfold finish. destruct (cs_finished s4); exact Hle.
  - assert (Hno : cs_finished s4 = true -> False).
    { unfold s4. simpl. rewrite Hfin. intros Ht. specialize (Hs Ht).
      unfold s4 in Hgt. simpl in Hgt. lia. }
    destruct (_ && _ && _ && _).
    + intros Ht. simpl in Ht. now apply Hno in Ht.
    + intros Ht. exfalso. apply Hno. revert Ht. unfold scheduleIdleCheck.
      simpl.
      destruct (_ =? 0)%Z; [auto |].
      destruct (_ && _ && negb (cs_sawImageFinalFrame s3)); [auto |].
      destruct (_ && _ && negb (cs_convoStreamCompleted s3)); auto.
Qed.

Lemma finished_by_cap_merge_direct (url : string) (id : option string)
    (ct : string) (next : SaveResult) (s : Session) :
  (exists w w', saved_one_or_none w w' next) ->
  finished_by_cap (maxFiles opts) s ->
  finished_by_cap (maxFiles opts) (merge_direct opts url id ct next s).
Proof.
  intros (w & w' & Hnext) Hs. unfold merge_direct.
  destruct Hnext as [[-> _] | (f & ids & b & -> & _)].
  - simpl. rewrite Z.add_0_r.
    destruct (Z.leb_spec (maxFiles opts) (cs_savedCount s)) as [Hle | Hgt].
    + intros _. unfold finish. simpl. destruct (cs_finished s); exact Hle.
    + intros Ht. simpl in Ht. specialize (Hs Ht). lia.
  - cbn [buildSaveResult sr_savedCount sr_savedFiles sr_metadataIds fold_left].
    match goal with
    | |- context [fold_left ?g ?l ?s0] =>
        pose proof (fold_ids_fields l s0) as Hfold;
        cbv zeta in Hfold; set (s3 := fold_left g l s0) in *
    end.
    destruct Hfold as (Hcnt & _ & _ & Hfin & _).
    simpl in Hcnt, Hfin.
    destruct (Z.leb_spec (maxFiles opts) (cs_savedCount s3)) as [Hle | Hgt].
    + intros _. unfold finish. destruct (cs_finished s3); exact Hle.
    + cbn [Z.ltb Z.compare]. intros Ht. exfalso.
      assert (Ht3 : cs_finished s3 = true).
      { revert Ht. unfold scheduleIdleCheck. simpl.
        destruct (_ =? 0)%Z; [auto |].
        destruct (_ && _ && negb (cs_sawImageFinalFrame s3)); [auto |].
        destruct (_ && _ && negb (cs_convoStreamCompleted s3)); auto. }
      rewrite Hfin in Ht3. specialize (Hs Ht3). lia.
Qed.

Lemma processResponse_finishes_by_cap (net : Net) (r : Response) (st : St) :
  cs_finished (st_session st) = false ->
  cs_finished (st_session (snd (processResponse opts net r st))) = true ->
  (maxFiles opts <=
   cs_savedCount (st_session (snd (processResponse opts net r st))))%Z.
Proof.
  intros Hnot Hfin.
  assert (Hstart : finished_by_cap (maxFiles opts) (st_session st))
    by (intros Ht; congruence).
  destruct (processResponse_session_inv (run_is_image (st_world st))
              (finished_by_cap (maxFiles opts))
              (fun evs s Hs => Hs)
              (fun k s Hs => Hs)
              (fun f id s => finished_by_cap_record_saved _ f id s)
              (fun url id ct next s =>
                 finished_by_cap_merge_direct url id ct next s)
              net r st eq_refl Hstart) as [Hcap _].
  exact (Hcap Hfin).
Qed.

(** C2.  In a media session that requires the final frame, while the
    session is not finished, at least one saved file is a stream part and
    no saved file is a final frame, no idle timer is pending: the idle
    timer cannot fire, the stream-completed beacon arms none, and a step
    that finishes the session is the hard timeout or a handler that
    brings the count of saved files up to the cap. *)
Theorem idle_timer_unarmed_while_only_parts_saved (w0 : World) (r : Run) :
  requireFinalImageFrame opts = true ->
  run_is_image w0 = true ->
  reachable opts w0 r ->
  cs_finished (st_session (run_st r)) = false ->
  (exists f, f ∈ cs_savedFiles (st_session (run_st r)) /\
             sf_isStreamPart f = true) ->
  (forall f, f ∈ cs_savedFiles (st_session (run_st r)) ->
             sf_isFinalStreamFrame f = false) ->
  cs_idleTimer (st_session (run_st r)) = None /\
  step opts IdleTimerFires r = None /\
  (forall r', step opts BeaconSeen r = Some r' ->
              cs_idleTimer (st_session (run_st r')) = None /\
              cs_finished (st_session (run_st r')) = false) /\
  (forall i r',
     step opts i r = Some r' ->
     cs_finished (st_session (run_st r')) = true ->
     i = TimeoutTimerFires \/
     exists net, i = HandlerCompletes net /\
                 (maxFiles opts <= cs_savedCount (st_session (run_st r')))%Z).
Proof.
  intros Hreq Himg Hreach Hnot (f & Hin & Hpart) Hnofinal.
  assert (Hparts : forall r1,
             reachable opts w0 r1 ->
             cs_finished (st_session (run_st r1)) = false ->
             cs_savedFiles (st_session (run_st r1)) =
             cs_savedFiles (st_session (run_st r)) ->
             cs_idleTimer (st_session (run_st r1)) = None).
  { intros r1 Hr1 Hnot1 Hfiles.
    destruct (media_inv_reachable w0 r1 Hreq Himg Hr1) as [[[Hp Hl] Hidle] _].
    apply Hidle; [exact Hnot1 | |].
    - rewrite Hp, Hfiles. apply existsb_exists. exists f.
      split; [now apply list_elem_of_In | exact Hpart].
    - rewrite Hl, Hfiles.
      destruct (existsb sf_isFinalStreamFrame
                  (cs_savedFiles (st_session (run_st r)))) eqn:Hex;
        [| reflexivity].
      apply existsb_exists in Hex as (g & Hg & Hgl).
      apply list_elem_of_In, Hnofinal in Hg. congruence. }
  assert (Hidle : cs_idleTimer (st_session (run_st r)) = None)
    by (apply Hparts; [exact Hreach | exact Hnot | reflexivity]).
  split; [exact Hidle |]. split; [simpl; now rewrite Hidle |]. split.
  - intros r' Hstep.
    assert (Hr' : reachable opts w0 r') by (eapply reachable_step; eauto).
    apply step_BeaconSeen in Hstep as [Hst _].
    destruct (markConvoStreamCompleted_fields (run_st r))
      as (Hfin' & Hfiles' & _).
    cbv zeta in Hfin', Hfiles'. rewrite <- Hst in Hfin', Hfiles'.
    split; [| congruence].
    apply Hparts; [exact Hr' | congruence | exact Hfiles'].
  - intros i r' Hstep Hfin. destruct i; simpl in Hstep.
    + destruct (cs_listening _); [destruct (url_parse _); [| discriminate] |];
        injection Hstep as <-; [| congruence].
      unfold with_session, onResponse in Hfin. simpl in Hfin.
      rewrite Hnot in Hfin. simpl in Hfin. congruence.
    + right. exists net. split; [reflexivity |].
      destruct (cs_queue _) as [|response rest]; [discriminate |].
      pose proof (processResponse_finishes_by_cap net response (run_st r) Hnot)
        as Hcap.
      destruct (processResponse opts net response (run_st r)) as [res st'].
      injection Hstep as <-. simpl in *. now apply Hcap.
    + change (step opts BeaconSeen r = Some r') in Hstep.
      apply step_BeaconSeen in Hstep as [Hst _].
      destruct (markConvoStreamCompleted_fields (run_st r)) as (Hfin' & _).
      cbv zeta in Hfin'. rewrite <- Hst in Hfin'. congruence.
    + rewrite Hidle in Hstep. discriminate.
    + now left.
    + destruct (_ <=? _)%Z; [| discriminate]. injection Hstep as <-.
      simpl in Hfin. congruence.
    + destruct (run_phase r); try discriminate.
      rewrite Hnot in Hstep. discriminate.
    + destruct (run_phase r) as [|[|n]| |]; try discriminate.
      destruct (run_queueError r);
        [injection Hstep as <-; simpl in Hfin; congruence |].
      pose proof (complete_collection_shape (run_st r)) as Hshape.
      cbv zeta in Hshape. exfalso.
      destruct (last (cs_savedFiles (st_session (run_st r)))) as [g|].
      * destruct (bool_decide (sf_filePath g = latestPath g)).
        { rewrite Hshape in Hstep. injection Hstep as <-.
          simpl in Hfin. congruence. }
        destruct (w_disk (st_world (run_st r)) !! sf_filePath g).
        { rewrite Hshape in Hstep. injection Hstep as <-.
          simpl in Hfin. congruence. }
        rewrite Hshape in Hstep. injection Hstep as <-.
        simpl in Hfin. congruence.
      * rewrite Hshape in Hstep. injection Hstep as <-.
        simpl in Hfin. congruence.
Qed.


Lemma run_inputs_reachable (w0 : World) (inputs : list Input) (r r' : Run) :
  reachable opts w0 r -> run_inputs opts inputs r = Some r' ->
  reachable opts w0 r'.
Proof.
  revert r. induction inputs as [|i inputs IH]; intros r Hr Hrun; simpl in Hrun.
  - now injection Hrun as <-.
  - destruct (step opts i r) as [r1|] eqn:Hstep; [| discriminate].
    apply (IH r1); [| exact Hrun]. eapply reachable_step; eauto.
Qed.

(** *** Scope, dedup and dispatch *)

Lemma processResponse_in_scope (net : Net) (r : Response) (st : St) (u : Url) :
  url_parse (r_url r) = Some u ->
  url_hostname u = "chatgpt.com" ->
  startsWith (url_pathname u) "/backend-api/estuary/content" ||
  startsWith (url_pathname u) "/backend-api/files/download/" = true ->
  processResponse opts net r st =
  if negb (run_is_image (st_world st)) &&
     bool_decide (dedupeKey (r_url r) ∈ cs_seen (st_session st))
  then (Ok tt, st)
  else
    dispatch_response opts net r
      (startsWith (url_pathname u) "/backend-api/estuary/content")
      (startsWith (url_pathname u) "/backend-api/files/download/")
      (if negb (run_is_image (st_world st))
       then {| st_session :=
                 set_seen ({[dedupeKey (r_url r)]} ∪ cs_seen (st_session st))
                          (st_session st);
               st_world := st_world st |}
       else st).
Proof.
  intros Hu Hhost Hpath. unfold processResponse. rewrite Hu, Hhost.
  change (negb (str_eqb "chatgpt.com" "chatgpt.com")) with false.
  cbv iota zeta.
  apply orb_true_iff in Hpath.
  assert (Hsc : negb (startsWith (url_pathname u) "/backend-api/estuary/content")
                && negb (startsWith (url_pathname u)
                           "/backend-api/files/download/") = false).
  { destruct Hpath as [Hp | Hp]; rewrite Hp;
      [reflexivity | apply andb_false_r]. }
  rewrite Hsc. rewrite bind_get_state.
  destruct (negb (run_is_image (st_world st)) && bool_decide _);
    [reflexivity |].
  destruct (negb (run_is_image (st_world st))); reflexivity.
Qed.

(** Outside media runs a response whose key was seen is dropped where it
    stands: the state is left as it was. *)
Lemma processResponse_duplicate (net : Net) (r : Response) (st : St) :
  run_is_image (st_world st) = false ->
  dedupeKey (r_url r) ∈ cs_seen (st_session st) ->
  snd (processResponse opts net r st) = st.
Proof.
  intros Himg Hseen. unfold processResponse.
  destruct (url_parse (r_url r)) as [u|]; [| reflexivity].
  destruct (negb (str_eqb _ _)); [reflexivity |]. cbv zeta.
  destruct (negb _ && negb _); [reflexivity |].
  rewrite bind_get_state, Himg.
  now rewrite (bool_decide_eq_true_2 _ Hseen).
Qed.

(** One handler adds at most one to the count. *)
Lemma processResponse_count (net : Net) (r : Response) (st : St) :
  (cs_savedCount (st_session st) <=
   cs_savedCount (st_session (snd (processResponse opts net r st))) <=
   cs_savedCount (st_session st) + 1)%Z.
Proof.
  set (n := cs_savedCount (st_session st)).
  refine (processResponse_hoare
            (fun s => cs_savedCount (st_session s) = n)
            (fun s => (n <= cs_savedCount (st_session s) <= n + 1)%Z)
            _ _ _ _ _ net r st eq_refl).
  - intros s Hs. lia.
  - intros e s Hs. exact Hs.
  - intros k s Hs. exact Hs.
  - intros b ct nm id em s Hs.
    destruct (shouldIgnoreCapturedFile opts (Some nm) (em_sourceFileName em))
      eqn:Hig.
    + destruct (handleFileBuffer_ignored b ct nm id em s Hig)
        as (e & _ & _ & ->).
      split; [reflexivity |]. simpl. lia.
    + destruct (handleFileBuffer_saved b ct nm id em s Hig)
        as (f & w' & e & entry & _ & _ & _ & _ & _ & _ & _ & _ & _ & _ & ->).
      split; [reflexivity |]. cbn [snd st_session].
      destruct (record_saved_fields (run_is_image (st_world s)) entry id
                  (log_events [e] (st_session s))) as (-> & _).
      simpl. lia.
  - intros net0 r0 ct s Hs.
    destruct (direct_branch_shape net0 r0 ct s)
      as [(e & _ & _ & ->) | (next & w' & evs & id & Hone & _ & ->)].
    + simpl. lia.
    + cbn [snd st_session].
      destruct (merge_direct_fields (r_url r0) id ct next
                  (log_events evs (st_session s)))
        as (-> & _ & _ & _ & Hrange & _); [eauto |].
      simpl. lia.
Qed.

(** Outside media runs the handler of a response in scope leaves its key
    in the dedup set. *)
Lemma processResponse_marks_seen (net : Net) (r : Response) (st : St) :
  run_is_image (st_world st) = false ->
  in_scope r ->
  dedupeKey (r_url r) ∈ cs_seen (st_session (snd (processResponse opts net r st)))
  /\ run_is_image (st_world (snd (processResponse opts net r st))) = false.
Proof.
  intros Himg (u & Hu & Hhost & Hpath).
  rewrite (processResponse_in_scope net r st u Hu Hhost)
    by (apply orb_true_iff; exact Hpath).
  rewrite Himg. cbn [negb andb].
  case_bool_decide as Hseen; [split; assumption |].
  apply (dispatch_response_session_inv false
           (fun s => dedupeKey (r_url r) ∈ cs_seen s)).
  - intros evs s Hs. exact Hs.
  - intros f id s Hs.
    destruct (record_saved_fields false f id s) as (_ & _ & _ & -> & _).
    exact Hs.
  - intros url id ct next s Hex Hs.
    destruct (merge_direct_fields url id ct next s Hex) as (_ & _ & -> & _).
    exact Hs.
  - exact Himg.
  - simpl. apply elem_of_union. left. now apply elem_of_singleton.
Qed.

(** C3, as amended.  In a session that is not a media run, let a
    response in scope be followed by any number of responses with the
    same dedup key (the file id of the URL, else the URL).  Then every
    later response is dropped before classification and leaves the state
    as the first one left it, so that the count of saved files grows by
    what the first response adds, which is at most one; and when the key
    was seen before, the first response is dropped as well. *)
Theorem duplicate_download_counted_at_most_once
    (net1 : Net) (r1 : Response) (dups : list (Net * Response)) (st : St) :
  run_is_image (st_world st) = false ->
  in_scope r1 ->
  (forall p, p ∈ dups -> dedupeKey (r_url (snd p)) = dedupeKey (r_url r1)) ->
  let st1 := snd (processResponse opts net1 r1 st) in
  process_all opts ((net1, r1) :: dups) st = st1 /\
  (forall p, p ∈ dups -> snd (processResponse opts (fst p) (snd p) st1) = st1) /\
  (cs_savedCount (st_session st) <=
   cs_savedCount (st_session (process_all opts ((net1, r1) :: dups) st)) <=
   cs_savedCount (st_session st) + 1)%Z /\
  (dedupeKey (r_url r1) ∈ cs_seen (st_session st) -> st1 = st).
Proof.
  intros Himg Hscope Hdups st1.
  destruct (processResponse_marks_seen net1 r1 st Himg Hscope) as [Hseen Himg1].
  fold st1 in Hseen, Himg1.
  assert (Hdrop : forall p, p ∈ dups ->
                            snd (processResponse opts (fst p) (snd p) st1) = st1).
  { intros p Hp. apply processResponse_duplicate; [exact Himg1 |].
    rewrite (Hdups p Hp). exact Hseen. }
  assert (Hall : process_all opts ((net1, r1) :: dups) st = st1).
  { cbn [process_all]. fold st1. clear Hdups.
    induction dups as [|[net r] dups IH]; [reflexivity |].
    cbn [process_all].
    pose proof (Hdrop (net, r) (list_elem_of_here _ _)) as Hhead.
    cbn [fst snd] in Hhead. rewrite Hhead.
    apply IH. intros p Hp. apply Hdrop. now apply list_elem_of_further. }
  split; [exact Hall |]. split; [exact Hdrop |]. split.
  - rewrite Hall. apply processResponse_count.
  - intros Hin. now apply processResponse_duplicate.
Qed.

(** C5, as amended.  In a session that was given at least one uploaded
    reference file name, a files/download metadata response that reaches
    classification and whose decoded body reports neither a non-blank
    file name nor a positive size is discarded: a [file_ignored] event
    with the upload-echo reason is logged and nothing else happens; no
    saved file is added, the count stays and nothing is written. *)
Theorem upload_echo_metadata_is_ignored
    (net : Net) (r : Response) (st : St) (u : Url) (o : JsonObject) :
  ignoredFileNameSet opts <> ∅ ->
  url_parse (r_url r) = Some u ->
  url_hostname u = "chatgpt.com" ->
  startsWith (url_pathname u) "/backend-api/files/download/" = true ->
  isJsonContentType (header_or_empty (r_contentType r)) = true ->
  r_json r = JsonObj o ->
  reports_no_file o ->
  (run_is_image (st_world st) = true \/
   dedupeKey (r_url r) ∉ cs_seen (st_session st)) ->
  let st' := snd (processResponse opts net r st) in
  (exists e,
     ev_type e = file_ignored /\
     ev_reason e = Some "upload_echo_metadata_null_fields" /\
     cs_streamEvents (st_session st') =
     cs_streamEvents (st_session st) ++ [e]) /\
  cs_savedFiles (st_session st') = cs_savedFiles (st_session st) /\
  cs_savedCount (st_session st') = cs_savedCount (st_session st) /\
  st_world st' = st_world st.
Proof.
  intros Hset Hu Hhost Hpath Hjson Hbody [Hname Hsize] Hfresh st'.
  subst st'.
  rewrite (processResponse_in_scope net r st u Hu Hhost)
    by (rewrite Hpath; apply orb_true_r).
  assert (Hecho : isLikelyUploadEchoMetadata (JsonObj o) = true).
  { unfold isLikelyUploadEchoMetadata.
    destruct (j_file_name o) as [n|]; [rewrite Hname |];
      destruct (j_file_size_bytes o) as [z|]; try reflexivity;
      destruct (Z.ltb_spec 0 z); try reflexivity; lia. }
  assert (Hdedup : negb (run_is_image (st_world st)) &&
                   bool_decide (dedupeKey (r_url r) ∈ cs_seen (st_session st))
                   = false).
  { destruct Hfresh as [-> | Hnot]; [reflexivity |].
    rewrite (bool_decide_eq_false_2 _ Hnot). apply andb_false_r. }
  rewrite Hdedup. unfold dispatch_response. rewrite Hpath, Hjson.
  cbn [andb]. unfold try_catch, metadata_branch. rewrite Hbody, Hecho.
  rewrite (bool_decide_eq_false_2 _ Hset). cbn [negb andb].
  destruct (negb (run_is_image (st_world st)));
    (split; [eexists; split; [| split]; [| | reflexivity]; reflexivity
            | repeat split]).
Qed.

(** *** The files of a session are on the disk *)

Lemma saved_files_on_disk_processResponse (net : Net) (r : Response) (st : St) :
  saved_files_on_disk st ->
  saved_files_on_disk (snd (processResponse opts net r st)).
Proof.
  refine (processResponse_hoare saved_files_on_disk saved_files_on_disk
            _ _ _ _ _ net r st); try (intros; assumption).
  - intros e s Hs. exact Hs.
  - intros k s Hs. exact Hs.
  - intros b ct n id em s Hs.
    destruct (shouldIgnoreCapturedFile opts (Some n) (em_sourceFileName em))
      eqn:Hig.
    + destruct (handleFileBuffer_ignored b ct n id em s Hig)
        as (e & _ & _ & ->).
      split; [reflexivity | exact Hs].
    + destruct (handleFileBuffer_saved b ct n id em s Hig)
        as (f & w' & e & entry & _ & Hd & _ & _ & _ & Hpath & _ & _ & _ & _
            & ->).
      split; [reflexivity |]. intros g Hg. cbn [snd st_session st_world] in *.
      destruct (record_saved_fields (run_is_image (st_world s)) entry id
                  (log_events [e] (st_session s))) as (_ & Hfiles & _).
      rewrite Hfiles in Hg. simpl in Hg. rewrite Hd.
      apply elem_of_app in Hg as [Hg | Hg].
      * destruct (decide (sf_filePath f = sf_filePath g)) as [-> | Hne].
        { rewrite lookup_insert_eq. eauto. }
        rewrite lookup_insert_ne by exact Hne. now apply Hs.
      * apply list_elem_of_singleton in Hg as ->. rewrite Hpath.
        rewrite lookup_insert_eq. eauto.
  - intros net0 r0 ct s Hs.
    destruct (direct_branch_shape net0 r0 ct s)
      as [(e & _ & _ & ->) | (next & w' & evs & id & Hone & _ & ->)].
    + exact Hs.
    + intros g Hg. cbn [snd st_session st_world] in *.
      destruct (merge_direct_fields (r_url r0) id ct next
                  (log_events evs (st_session s)))
        as (_ & Hfiles & _); [eauto |].
      rewrite Hfiles in Hg. simpl in Hg.
      destruct Hone as [[-> ->] | (f & ids & b & -> & _ & Hd & _)].
      * simpl in Hg. rewrite app_nil_r in Hg. now apply Hs.
      * simpl in Hg. rewrite Hd.
        apply elem_of_app in Hg as [Hg | Hg].
        { destruct (decide (sf_filePath f = sf_filePath g)) as [-> | Hne].
          - rewrite lookup_insert_eq. eauto.
          - rewrite lookup_insert_ne by exact Hne. now apply Hs. }
        apply list_elem_of_singleton in Hg as ->.
        rewrite lookup_insert_eq. eauto.
Qed.


(** *** The hard timeout and the listener *)

Lemma timeout_inv_finish (T : Z) (s : Session) :
  timeout_inv T s -> timeout_inv T (finish s).
Proof.
  intros Hs. unfold finish. destruct (cs_finished s) eqn:Hf; [exact Hs |].
  split; [discriminate | intros _; split; reflexivity].
Qed.

Lemma timeout_inv_scheduleIdleCheck (T : Z) (s : Session) :
  timeout_inv T s -> timeout_inv T (scheduleIdleCheck opts s).
Proof.
  intros Hs. unfold timeout_inv.
  destruct (scheduleIdleCheck_fields s)
    as (_ & _ & _ & _ & _ & _ & _ & _ & _ & -> & -> & ->).
  exact Hs.
Qed.

Lemma timeout_inv_record_saved (T : Z) (img : bool) (f : SavedFile)
    (id : option string) (s : Session) :
  timeout_inv T s -> timeout_inv T (record_saved opts img f id s).
Proof.
  intros Hs. unfold record_saved.
  set (s1 := set_savedFiles (cs_savedFiles s ++ [f]) s).
  set (s2 := if requireFinalImageFrame opts && img then _ else _).
  set (s3 := match id with Some _ => _ | None => _ end).
  assert (H3 : timeout_inv T s3).
  { unfold s3, s2, s1.
    destruct id as [i|]; [destruct (nonempty i) |];
      destruct (requireFinalImageFrame opts && img);
      try destruct (sf_isStreamPart f);
      try destruct (sf_isFinalStreamFrame f); exact Hs. }
  cbv zeta. set (s4 := set_savedCount (cs_savedCount s3 + 1) s3).
  assert (H4 : timeout_inv T s4) by exact H3.
  destruct (_ <=? _)%Z; [now apply timeout_inv_finish |].
  destruct (_ && _ && _ && _); [exact H4 |].
  now apply timeout_inv_scheduleIdleCheck.
Qed.

Lemma timeout_inv_merge_direct (T : Z) (url : string) (id : option string)
    (ct : string) (next : SaveResult) (s : Session) :
  timeout_inv T s -> timeout_inv T (merge_direct opts url id ct next s).
Proof.
  intros Hs. unfold merge_direct.
  set (s1 := set_savedCount _ s).
  set (s2 := fold_left _ (sr_savedFiles next) s1).
  assert (H2 : timeout_inv T s2).
  { unfold s2. assert (H1 : timeout_inv T s1) by exact Hs.
    clearbody s1. clear s2. revert s1 H1.
    induction (sr_savedFiles next) as [|g l IH]; intros s1 H1; simpl;
      [exact H1 |].
    apply IH. exact H1. }
  match goal with
  | |- context [fold_left ?g ?l s2] =>
      pose proof (fold_ids_fields l s2) as Hfold;
      cbv zeta in Hfold; set (s3 := fold_left g l s2) in *
  end.
  assert (H3 : timeout_inv T s3).
  { destruct Hfold as (_ & _ & Ht & Hf & _ & _ & _ & _ & _ & _ & Hl & _).
    unfold timeout_inv. rewrite Ht, Hf, Hl. exact H2. }
  cbv zeta. destruct (_ <=? _)%Z; [now apply timeout_inv_finish |].
  destruct (_ <? _)%Z; [now apply timeout_inv_scheduleIdleCheck | exact H3].
Qed.

Lemma finished_stays_record_saved (img : bool) (f : SavedFile)
    (id : option string) (s : Session) :
  cs_finished s = true -> cs_finished (record_saved opts img f id s) = true.
Proof.
  intros Hs. unfold record_saved.
  set (s1 := set_savedFiles (cs_savedFiles s ++ [f]) s).
  set (s2 := if requireFinalImageFrame opts && img then _ else _).
  set (s3 := match id with Some _ => _ | None => _ end).
  assert (H3 : cs_finished s3 = true).
  { unfold s3, s2, s1.
    destruct id as [i|]; [destruct (nonempty i) |];
      destruct (requireFinalImageFrame opts && img);
      try destruct (sf_isStreamPart f);
      try destruct (sf_isFinalStreamFrame f); exact Hs. }
  cbv zeta. set (s4 := set_savedCount (cs_savedCount s3 + 1) s3).
  destruct (_ <=? _)%Z; [apply finish_fields |].
  destruct (_ && _ && _ && _); [exact H3 |].
  destruct (scheduleIdleCheck_fields s4)
    as (_ & _ & _ & _ & _ & _ & _ & _ & _ & -> & _). exact H3.
Qed.

Lemma finished_stays_merge_direct (url : string) (id : option string)
    (ct : string) (next : SaveResult) (s : Session) :
  cs_finished s = true -> cs_finished (merge_direct opts url id ct next s) = true.
Proof.
  intros Hs. unfold merge_direct.
  set (s1 := set_savedCount _ s).
  set (s2 := fold_left _ (sr_savedFiles next) s1).
  assert (H2 : cs_finished s2 = true).
  { unfold s2. assert (H1 : cs_finished s1 = true) by exact Hs.
    clearbody s1. clear s2. revert s1 H1.
    induction (sr_savedFiles next) as [|g l IH]; intros s1 H1; simpl;
      [exact H1 |].
    apply IH. exact H1. }
  match goal with
  | |- context [fold_left ?g ?l s2] =>
      pose proof (fold_ids_fields l s2) as Hfold;
      cbv zeta in Hfold; set (s3 := fold_left g l s2) in *
  end.
  assert (H3 : cs_finished s3 = true).
  { destruct Hfold as (_ & _ & _ & Hf & _). now rewrite Hf. }
  cbv zeta. destruct (_ <=? _)%Z; [apply finish_fields |].
  destruct (_ <? _)%Z; [| exact H3].
  destruct (scheduleIdleCheck_fields s3)
    as (_ & _ & _ & _ & _ & _ & _ & _ & _ & -> & _). exact H3.
Qed.

(** A handler keeps the hard timeout, the listener and the queue as they
    are unless it finishes the session, and never un-finishes it. *)
Lemma processResponse_control (net : Net) (r : Response) (st : St) (q : list Response) :
  timeout_inv (timeoutMs opts) (st_session st) ->
  cs_queue (st_session st) = q ->
  let s' := st_session (snd (processResponse opts net r st)) in
  timeout_inv (timeoutMs opts) s' /\
  cs_queue s' = q /\
  (cs_finished (st_session st) = true -> cs_finished s' = true).
Proof.
  intros Ht Hq s'. subst s'.
  set (I := fun s : Session =>
              timeout_inv (timeoutMs opts) s /\ cs_queue s = q /\
              (cs_finished (st_session st) = true -> cs_finished s = true)).
  assert (HI : I (st_session st)) by (split; [exact Ht | split; auto]).
  assert (Hrec : forall f id s,
             I s -> I (record_saved opts (run_is_image (st_world st)) f id s)).
  { intros f id s (H1 & H2 & H3). split; [| split].
    - now apply timeout_inv_record_saved.
    - destruct (record_saved_fields (run_is_image (st_world st)) f id s)
        as (_ & _ & _ & _ & ->). exact H2.
    - intros Hf. apply finished_stays_record_saved. auto. }
  assert (Hdir : forall url id ct next s,
             (exists w w', saved_one_or_none w w' next) ->
             I s -> I (merge_direct opts url id ct next s)).
  { intros url id ct next s Hex (H1 & H2 & H3). split; [| split].
    - now apply timeout_inv_merge_direct.
    - destruct (merge_direct_fields url id ct next s Hex)
        as (_ & _ & _ & -> & _). exact H2.
    - intros Hf. apply finished_stays_merge_direct. auto. }
  exact (proj1 (processResponse_session_inv (run_is_image (st_world st)) I
                  (fun evs s Hs => Hs) (fun k s Hs => Hs) Hrec Hdir
                  net r st eq_refl HI)).
Qed.


Lemma last_elem_of {A} (l : list A) (x : A) : last l = Some x -> x ∈ l.
Proof.
  intros Hl. apply last_Some in Hl as [l' ->].
  apply elem_of_app. right. apply list_elem_of_here.
Qed.

(** The end of a session whose files are on the disk: it returns. *)
Lemma complete_collection_returns (st : St) :
  saved_files_on_disk st ->
  exists st',
    complete_collection st =
    (Ok (session_result (st_session st')), st') /\
    st_session st' =
    log_events [collector_complete_event (cs_savedCount (st_session st))]
               (st_session st) /\
    w_now (st_world st') = w_now (st_world st) /\
    w_imageRun (st_world st') = w_imageRun (st_world st) /\
    match last (cs_savedFiles (st_session st)) with
    | None => w_disk (st_world st') = w_disk (st_world st)
    | Some f =>
        exists content,
          w_disk (st_world st) !! sf_filePath f = Some content /\
          w_disk (st_world st') =
          <[latestPath f := content]> (w_disk (st_world st))
    end.
Proof.
  intros Hdisk. pose proof (complete_collection_shape st) as Hshape.
  cbv zeta in Hshape.
  destruct (last (cs_savedFiles (st_session st))) as [f|] eqn:Hlast.
  - destruct (Hdisk f (last_elem_of _ _ Hlast)) as [content Hc].
    rewrite Hc in Hshape.
    destruct (bool_decide (sf_filePath f = latestPath f)) eqn:Hsame.
    + apply bool_decide_eq_true in Hsame.
      match type of Hshape with _ = (_, ?st') => exists st' end.
      split; [exact Hshape |]. cbn [st_session st_world].
      repeat split. exists content. split; [exact Hc |].
      rewrite <- Hsame. symmetry. now apply insert_id.
    + match type of Hshape with _ = (_, ?st') => exists st' end.
      split; [exact Hshape |]. cbn [st_session st_world].
      repeat split. exists content. split; [exact Hc | reflexivity].
  - match type of Hshape with _ = (_, ?st') => exists st' end.
    split; [exact Hshape |]. repeat split.
Qed.

(** *** A handler throws only on a URL that does not parse *)

Lemma returns_ret {S A} (a : A) : returns (@ret S A a).
Proof. intros s. now exists a. Qed.

Lemma returns_modify {S} (f : S -> S) : returns (modify f).
Proof. intros s. now exists tt. Qed.

Lemma returns_bind {S A B} (m : M S A) (k : A -> M S B) :
  returns m -> (forall a, returns (k a)) -> returns (bind m k).
Proof.
  intros Hm Hk s. unfold bind. destruct (Hm s) as [a Ha].
  destruct (m s) as [[a'|e] s']; [| discriminate]. apply Hk.
Qed.

Lemma returns_bind_get {S B} (k : S -> M S B) :
  (forall s, returns (k s)) -> returns (bind get_state k).
Proof. intros Hk s. unfold bind, get_state. apply Hk. Qed.

Lemma returns_try_catch {S A} (m : M S A) (handler : JsError -> M S A) :
  (forall e, returns (handler e)) -> returns (try_catch m handler).
Proof.
  intros Hh s. unfold try_catch. destruct (m s) as [[a|e] s'].
  - now exists a.
  - apply Hh.
Qed.

Lemma returns_emitStreamEvent (e : StreamEvent) : returns (emitStreamEvent e).
Proof. apply returns_modify. Qed.

Lemma returns_on_session (f : Session -> Session) : returns (on_session f).
Proof. apply returns_modify. Qed.

Lemma direct_branch_returns (net : Net) (response : Response) (ct : string) :
  returns (direct_branch opts net response ct).
Proof.
  unfold direct_branch. cbv zeta. apply returns_bind_get. intros st.
  destruct (shouldIgnoreCapturedFile _ _ _);
    [apply returns_emitStreamEvent |].
  apply returns_bind; [| intros next; apply returns_on_session].
  apply returns_try_catch. intros e.
  apply returns_bind; [apply returns_emitStreamEvent |].
  intros _. apply returns_ret.
Qed.

Lemma dispatch_response_returns (net : Net) (response : Response)
    (isEstuary isDownload : bool) :
  returns (dispatch_response opts net response isEstuary isDownload).
Proof.
  unfold dispatch_response. cbv zeta.
  destruct (isDownload && _);
    [apply returns_try_catch; intros e; apply returns_emitStreamEvent |].
  destruct (negb _); [apply direct_branch_returns |].
  destruct (isEstuary && _);
    [apply returns_try_catch; intros e; apply returns_emitStreamEvent |].
  apply returns_ret.
Qed.

(** A handler whose response has a well-formed URL returns. *)
Lemma processResponse_returns (net : Net) (response : Response) (st : St) :
  is_Some (url_parse (r_url response)) ->
  fst (processResponse opts net response st) = Ok tt.
Proof.
  intros [u Hu].
  assert (Hret : returns (processResponse opts net response)).
  { unfold processResponse. rewrite Hu. cbv zeta.
    destruct (negb (str_eqb _ _)); [apply returns_ret |].
    destruct (negb _ && negb _); [apply returns_ret |].
    apply returns_bind_get. intros st0.
    destruct (negb _ && bool_decide _); [apply returns_ret |].
    apply returns_bind.
    - destruct (negb _); [apply returns_on_session | apply returns_ret].
    - intros _. apply dispatch_response_returns. }
  destruct (Hret st) as [[] ->]. reflexivity.
Qed.

Lemma session_good_reachable (w0 : World) (r : Run) :
  reachable opts w0 r -> session_good (timeoutMs opts) r.
Proof.
  intros Hreach.
  induction Hreach
    as [|i r r' Hreach (Hdisk & Htime & Hphase & Herr & Hurls) Hstep].
  - split; [| split; [| split; [| split]]].
    + intros f Hf. simpl in Hf. now apply elem_of_nil in Hf.
    + split; [intros _; split; reflexivity | discriminate].
    + exact I.
    + reflexivity.
    + intros response Hin. simpl in Hin. now apply elem_of_nil in Hin.
  - unfold phase_inv in Hphase. destruct i; simpl in Hstep.
    + (* a response of the page *)
      destruct (cs_listening (st_session (run_st r))) eqn:Hlisten.
      2:{ injection Hstep as <-.
          exact (conj Hdisk (conj Htime (conj Hphase (conj Herr Hurls)))). }
      destruct (url_parse (r_url response)) as [u|] eqn:Hu; [| discriminate].
      injection Hstep as <-.
      unfold with_session, onResponse.
      destruct (cs_finished (st_session (run_st r))) eqn:Hfin.
      * split; [exact Hdisk |]. split; [exact Htime |]. split.
        -- unfold phase_inv. cbn [run_phase run_st st_session].
           rewrite Hfin. exact Hphase.
        -- split; [exact Herr |]. cbn [run_st st_session]. exact Hurls.
      * split; [exact Hdisk |]. split; [exact Htime |]. split.
        -- unfold phase_inv. cbn [run_phase run_st st_session].
           destruct (run_phase r); try exact I; try contradiction;
             destruct Hphase as [Hf _]; discriminate.
        -- split; [exact Herr |]. cbn [run_st st_session].
           intros response' Hin. cbn in Hin.
           apply elem_of_app in Hin as [Hin | Hin]; [now apply Hurls |].
           apply list_elem_of_singleton in Hin as ->. rewrite Hu. eauto.
    + (* a handler completes *)
      destruct (cs_queue (st_session (run_st r))) as [|response rest] eqn:Hq;
        [discriminate |].
      pose proof (saved_files_on_disk_processResponse net response (run_st r)
                    Hdisk) as Hdisk'.
      destruct (processResponse_control net response (run_st r) _ Htime Hq)
        as (Htime' & Hq' & Hfin').
      pose proof (processResponse_returns net response (run_st r)
                    (Hurls response (list_elem_of_here _ _))) as Hok.
      destruct (processResponse opts net response (run_st r)) as [res st'].
      injection Hstep as <-. cbn [fst snd] in *. subst res.
      split; [exact Hdisk' |]. split; [exact Htime' |]. split.
      * unfold phase_inv. cbn [run_phase run_st st_session].
        destruct (run_phase r) as [|[|n]| |]; try exact I.
        -- destruct Hphase as [_ Hlen]. discriminate.
        -- destruct Hphase as [Hf Hlen]. simpl in Hlen.
           split; [now apply Hfin' | simpl; lia].
        -- destruct Hphase as [_ Hnil]. discriminate.
        -- contradiction.
      * split; [reflexivity |]. cbn [run_st st_session].
        intros response' Hin. apply Hurls. cbn in Hin.
        now apply list_elem_of_further.
    + (* the beacon *)
      assert (Herr' : run_queueError r' = run_queueError r).
      { destruct (waitForConvoStreamCompleted opts); [| discriminate].
        destruct (markConvoStreamCompleted opts (run_st r)) as [res st'].
        now injection Hstep as <-. }
      change (step opts BeaconSeen r = Some r') in Hstep.
      apply step_BeaconSeen in Hstep as [Hst Hph].
      destruct (markConvoStreamCompleted_fields (run_st r))
        as (Hf & Hfiles & _ & Ht & Hl & Hq & Hw).
      cbv zeta in *. rewrite <- Hst in *.
      split; [| split; [| split]].
      * intros f Hin. rewrite Hfiles in Hin. rewrite Hw. now apply Hdisk.
      * unfold timeout_inv. rewrite Hf, Ht, Hl. exact Htime.
      * unfold phase_inv. rewrite Hph, Hf, Hq. exact Hphase.
      * split; [congruence |]. rewrite Hq. exact Hurls.
    + (* the idle timer *)
      destruct (cs_idleTimer _); [| discriminate]. injection Hstep as <-.
      unfold with_session. split; [| split; [| split]].
      * intros f Hin. cbn [run_st st_session st_world] in *.
        destruct (finish_fields (set_idleTimer None (st_session (run_st r))))
          as (_ & _ & _ & Hfiles & _). rewrite Hfiles in Hin.
        now apply Hdisk.
      * cbn [run_st st_session]. apply timeout_inv_finish. exact Htime.
      * unfold phase_inv. cbn [run_phase run_st st_session].
        destruct (finish_fields (set_idleTimer None (st_session (run_st r))))
          as (_ & _ & _ & _ & _ & _ & _ & _ & -> & ->).
        destruct (run_phase r); try exact I; try contradiction;
          destruct Hphase as [_ Hq]; split; auto.
      * split; [exact Herr |]. cbn [run_st st_session].
        destruct (finish_fields (set_idleTimer None (st_session (run_st r))))
          as (_ & _ & _ & _ & _ & _ & _ & _ & -> & _).
        exact Hurls.
    + (* the hard timeout *)
      destruct (cs_timeoutTimer (st_session (run_st r))) eqn:Htimer;
        [| discriminate].
      injection Hstep as <-.
      assert (Hnot : cs_finished (st_session (run_st r)) = false).
      { destruct (cs_finished (st_session (run_st r))) eqn:Hf;
          [| reflexivity].
        destruct Htime as [_ Hfin]. destruct (Hfin Hf). congruence. }
      unfold with_session. split; [| split; [| split]].
      * intros f Hin. cbn [run_st st_session st_world] in *.
        destruct (finish_fields
                    (set_timeoutTimer None (st_session (run_st r))))
          as (_ & _ & _ & Hfiles & _). rewrite Hfiles in Hin.
        now apply Hdisk.
      * cbn [run_st st_session]. unfold finish. simpl. rewrite Hnot.
        split; [discriminate | intros _; split; reflexivity].
      * unfold phase_inv. cbn [run_phase run_st st_session].
        destruct (run_phase r); try exact I; try contradiction;
          destruct Hphase as [Hf _]; congruence.
      * split; [exact Herr |]. cbn [run_st st_session].
        destruct (finish_fields
                    (set_timeoutTimer None (st_session (run_st r))))
          as (_ & _ & _ & _ & _ & _ & _ & _ & -> & _).
        exact Hurls.
    + (* the clock *)
      destruct (_ <=? _)%Z; [| discriminate]. injection Hstep as <-.
      exact (conj Hdisk (conj Htime (conj Hphase (conj Herr Hurls)))).
    + (* the poll *)
      destruct (run_phase r) eqn:Hph; try discriminate.
      destruct (cs_finished (st_session (run_st r))) eqn:Hf; [| discriminate].
      injection Hstep as <-. split; [exact Hdisk |]. split; [exact Htime |].
      split; [unfold phase_inv; simpl; auto |].
      exact (conj Herr Hurls).
    + (* the queue is awaited *)
      destruct (run_phase r) as [|[|n]| |] eqn:Hph; try discriminate.
      destruct Hphase as [Hf Hlen]. rewrite Herr in Hstep.
      destruct (complete_collection_returns (run_st r) Hdisk)
        as (st' & Heq & Hs' & _ & _ & Hd').
      rewrite Heq in Hstep. injection Hstep as <-.
      split; [| split; [| split]].
      * intros f Hin. cbn [run_st] in *. rewrite Hs' in Hin. simpl in Hin.
        specialize (Hdisk f Hin).
        destruct (last (cs_savedFiles (st_session (run_st r)))) as [g|].
        { destruct Hd' as (content & _ & ->).
          destruct (decide (latestPath g = sf_filePath f)) as [-> | Hne].
          - rewrite lookup_insert_eq. eauto.
          - rewrite lookup_insert_ne by exact Hne. exact Hdisk. }
        rewrite Hd'. exact Hdisk.
      * cbn [run_st]. rewrite Hs'. exact Htime.
      * unfold phase_inv. cbn [run_phase run_st]. rewrite Hs'. simpl.
        split; [exact Hf |].
        destruct (cs_queue (st_session (run_st r))); [reflexivity |].
        discriminate.
      * split; [reflexivity |]. cbn [run_st]. rewrite Hs'. exact Hurls.
Qed.


Lemma applyExtension_latest (ext : string) :
  applyExtension "latest" ext = "latest" +:+ ext.
Proof.
  unfold applyExtension. destruct (nonempty ext) eqn:Hext; simpl.
  - reflexivity.
  - apply nonempty_false in Hext. now subst ext.
Qed.

(** C10.  When a session that saved at least one file comes to its end,
    the content of the most recently saved file is found under
    [latest<ext>] in the output directory, [<ext>] being the extension of
    that file's content type; whatever was there before is overwritten
    and no other path changes.  The aggregate returned reports the saved
    files and the count of the session as they were: the copy is neither
    listed nor counted. *)
Theorem latest_copy_after_session (w0 : World) (r r' : Run) (f : SavedFile) :
  reachable opts w0 r ->
  step opts QueueAwaited r = Some r' ->
  last (cs_savedFiles (st_session (run_st r))) = Some f ->
  exists result content,
    run_phase r' = Returned result /\
    w_disk (st_world (run_st r)) !! sf_filePath f = Some content /\
    w_disk (st_world (run_st r')) !! latestPath f = Some content /\
    latestPath f =
      resolve_in_outputDir
        ("latest" +:+ extensionFromContentType (sf_contentType f)) /\
    (forall p, p <> latestPath f ->
               w_disk (st_world (run_st r')) !! p =
               w_disk (st_world (run_st r)) !! p) /\
    sr_savedFiles result = cs_savedFiles (st_session (run_st r)) /\
    sr_savedCount result = cs_savedCount (st_session (run_st r)) /\
    cs_savedFiles (st_session (run_st r')) =
      cs_savedFiles (st_session (run_st r)) /\
    cs_savedCount (st_session (run_st r')) =
      cs_savedCount (st_session (run_st r)).
Proof.
  intros Hreach Hstep Hlast.
  destruct (session_good_reachable w0 r Hreach) as (Hdisk & _ & _ & Herr & _).
  simpl in Hstep. destruct (run_phase r) as [|[|n]| |]; try discriminate.
  rewrite Herr in Hstep.
  destruct (complete_collection_returns (run_st r) Hdisk)
    as (st' & Heq & Hs' & _ & _ & Hd').
  rewrite Heq in Hstep. injection Hstep as <-. rewrite Hlast in Hd'.
  destruct Hd' as (content & Hc & Hd').
  exists (session_result (st_session st')), content.
  cbn [run_phase run_st]. rewrite Hs', Hd'.
  split; [reflexivity |]. split; [exact Hc |].
  split; [apply lookup_insert_eq |].
  split; [unfold latestPath; now rewrite applyExtension_latest |].
  split; [intros p Hp; now apply lookup_insert_ne |].
  repeat split.
Qed.

(** *** The end of every session *)

Lemma drain_queue (net : Net) (w0 : World) (n : nat) (r : Run) :
  reachable opts w0 r ->
  run_phase r = AwaitingQueue n ->
  exists r' result,
    run_inputs opts (repeat (HandlerCompletes net) n ++ [QueueAwaited]) r =
    Some r' /\
    run_phase r' = Returned result.
Proof.
  revert r. induction n as [|n IH]; intros r Hreach Hph.
  - destruct (session_good_reachable w0 r Hreach)
      as (Hdisk & _ & _ & Herr & _).
    destruct (complete_collection_returns (run_st r) Hdisk)
      as (st' & Heq & _).
    eexists _, _. simpl. rewrite Hph, Herr, Heq. split; reflexivity.
  - destruct (session_good_reachable w0 r Hreach) as (_ & _ & Hphase & _).
    unfold phase_inv in Hphase. rewrite Hph in Hphase.
    destruct Hphase as [_ Hlen].
    destruct (cs_queue (st_session (run_st r))) as [|response rest] eqn:Hq;
      [discriminate |].
    assert (Hstep : exists r1, step opts (HandlerCompletes net) r = Some r1 /\
                               run_phase r1 = AwaitingQueue n).
    { simpl. rewrite Hq, Hph.
      destruct (processResponse opts net response (run_st r)) as [res st'].
      eexists. split; reflexivity. }
    destruct Hstep as (r1 & Hstep & Hph1).
    destruct (IH r1) as (r' & result & Hrun & Hret);
      [eapply reachable_step; eauto | exact Hph1 |].
    exists r', result. split; [| exact Hret].
    cbn [repeat app run_inputs]. rewrite Hstep. exact Hrun.
Qed.

(** C8.  In every state of every session:
    - while the session is not finished the hard timeout is pending with
      the delay [timeoutMs] it was armed with at the start, whatever
      happened since, and its firing finishes the session;
    - once the session is finished the response listener is detached and
      a response of the page is not queued any more;
    - the body awaits exactly the handlers that are still queued, so that
      the queue is empty when it returns; no handler throws, the queue
      is not rejected and the body never fails;
    - after it has returned, no step changes the disk, the saved files
      or the count;
    - the session comes to its end: the hard timeout (when still
      pending), the poll, the completion of the queued handlers and the
      return from the wait on the queue can always happen, in this order,
      and end in the returned aggregate. *)
Theorem capture_session_terminates (w0 : World) (r : Run) :
  reachable opts w0 r ->
  (cs_finished (st_session (run_st r)) = false ->
   cs_timeoutTimer (st_session (run_st r)) = Some (timeoutMs opts) /\
   exists r', step opts TimeoutTimerFires r = Some r' /\
              cs_finished (st_session (run_st r')) = true) /\
  (cs_finished (st_session (run_st r)) = true ->
   cs_listening (st_session (run_st r)) = false /\
   forall response, step opts (PageResponse response) r = Some r) /\
  (forall n, run_phase r = AwaitingQueue n ->
             cs_finished (st_session (run_st r)) = true /\
             n = length (cs_queue (st_session (run_st r)))) /\
  (run_queueError r = None /\ forall e, run_phase r <> Rejected e) /\
  (forall result,
     run_phase r = Returned result ->
     cs_queue (st_session (run_st r)) = [] /\
     forall i r',
       step opts i r = Some r' ->
       run_phase r' = Returned result /\
       w_disk (st_world (run_st r')) = w_disk (st_world (run_st r)) /\
       cs_savedFiles (st_session (run_st r')) =
         cs_savedFiles (st_session (run_st r)) /\
       cs_savedCount (st_session (run_st r')) =
         cs_savedCount (st_session (run_st r))) /\
  (forall net, exists r' result,
     run_inputs opts (completion_inputs net r) r = Some r' /\
     run_phase r' = Returned result).
Proof.
  intros Hreach.
  destruct (session_good_reachable w0 r Hreach)
    as (Hdisk & Htime & Hphase & Herr & Hurls).
  unfold phase_inv in Hphase.
  split; [| split; [| split; [| split; [| split]]]].
  - intros Hnot. destruct Htime as [Harmed _].
    destruct (Harmed Hnot) as [Htimer _]. split; [exact Htimer |].
    simpl. rewrite Htimer. eexists. split; [reflexivity |].
    cbn [with_session run_st st_session]. apply finish_fields.
  - intros Hfin. destruct Htime as [_ Hoff].
    destruct (Hoff Hfin) as [_ Hlisten]. split; [exact Hlisten |].
    intros response. simpl. now rewrite Hlisten.
  - intros n Hph. rewrite Hph in Hphase. exact Hphase.
  - split; [exact Herr |]. intros e Hph. rewrite Hph in Hphase. exact Hphase.
  - intros result Hph. rewrite Hph in Hphase. destruct Hphase as [Hfin Hq].
    split; [exact Hq |]. intros i r' Hstep.
    destruct Htime as [_ Hoff]. destruct (Hoff Hfin) as [Htimer Hlisten].
    destruct i; simpl in Hstep.
    + rewrite Hlisten in Hstep. injection Hstep as <-. auto.
    + rewrite Hq in Hstep. discriminate.
    + change (step opts BeaconSeen r = Some r') in Hstep.
      apply step_BeaconSeen in Hstep as [Hst Hph'].
      destruct (markConvoStreamCompleted_fields (run_st r))
        as (_ & Hfiles & Hcount & _ & _ & _ & Hw).
      cbv zeta in *. rewrite <- Hst in *.
      rewrite Hph', Hph, Hw, Hfiles, Hcount. auto.
    + destruct (cs_idleTimer _); [| discriminate]. injection Hstep as <-.
      cbn [with_session run_phase run_st st_session st_world].
      destruct (finish_fields (set_idleTimer None (st_session (run_st r))))
        as (-> & _ & _ & -> & _). auto.
    + rewrite Htimer in Hstep. discriminate.
    + destruct (_ <=? _)%Z; [| discriminate]. injection Hstep as <-. auto.
    + rewrite Hph in Hstep. discriminate.
    + rewrite Hph in Hstep. discriminate.
  - intros net. unfold completion_inputs.
    destruct (run_phase r) as [|n|result|e] eqn:Hph.
    + (* still polling: fire the timeout if needed, then poll and drain *)
      assert (Hfinish :
                exists r1,
                  run_inputs opts
                    (if cs_finished (st_session (run_st r)) then []
                     else [TimeoutTimerFires]) r = Some r1 /\
                  reachable opts w0 r1 /\
                  run_phase r1 = Polling /\
                  cs_finished (st_session (run_st r1)) = true /\
                  cs_queue (st_session (run_st r1)) =
                    cs_queue (st_session (run_st r))).
      { destruct (cs_finished (st_session (run_st r))) eqn:Hfin.
        - exists r. repeat split; auto.
        - destruct Htime as [Harmed _]. destruct (Harmed Hfin) as [Htimer _].
          assert (Hstep : step opts TimeoutTimerFires r =
                          Some (with_session
                                  (fun s => finish (set_timeoutTimer None s)) r))
            by (simpl; now rewrite Htimer).
          eexists. cbn [run_inputs]. rewrite Hstep.
          split; [reflexivity |].
          split; [eapply reachable_step; eauto |].
          split; [exact Hph |].
          cbn [with_session run_st st_session].
          destruct (finish_fields
                      (set_timeoutTimer None (st_session (run_st r))))
            as (_ & _ & _ & _ & _ & _ & _ & _ & Hq' & Hf').
          split; [exact Hf' | exact Hq']. }
      destruct Hfinish as (r1 & Hrun1 & Hreach1 & Hph1 & Hfin1 & Hq1).
      set (r2 := {| run_st := run_st r1;
                    run_phase :=
                      AwaitingQueue (length (cs_queue (st_session (run_st r1))));
                    run_queueError := run_queueError r1 |}).
      assert (Hstep2 : step opts PollSeesFinished r1 = Some r2)
        by (simpl; now rewrite Hph1, Hfin1).
      destruct (drain_queue net w0
                  (length (cs_queue (st_session (run_st r1)))) r2)
        as (r' & result & Hrun & Hret);
        [eapply reachable_step; eauto | reflexivity |].
      exists r', result. split; [| exact Hret].
      rewrite <- Hq1.
      revert Hrun1 Hrun. generalize (repeat (HandlerCompletes net)
                   (length (cs_queue (st_session (run_st r1)))) ++ [QueueAwaited]).
      intros tail Hrun1 Hrun.
      destruct (cs_finished (st_session (run_st r))).
      * simpl in Hrun1. injection Hrun1 as ->.
        cbn [app run_inputs]. rewrite Hstep2. exact Hrun.
      * cbn [app run_inputs] in *.
        destruct (step opts TimeoutTimerFires r) as [rx|]; [| discriminate].
        injection Hrun1 as ->. rewrite Hstep2. exact Hrun.
    + now apply (drain_queue net w0 n r).
    + exists r, result. split; [reflexivity | exact Hph].
    + contradiction.
Qed.


(** *** The retry loop of the byte resolver *)

Lemma attempt_once_some (o : HttpOutcome) (f : Fetched) :
  attempt_once o = Some f ->
  exists r,
    o = HttpReturns r /\ http_ok r = true /\
    isJsonContentType (f_contentType f) = false /\
    h_body r = Some (f_buffer f) /\
    f_contentType f = header_or_empty (h_contentType r) /\
    f_status f = h_status r.
Proof.
  destruct o as [|r]; [discriminate |]. unfold attempt_once.
  destruct (http_ok r) eqn:Hok; [| discriminate].
  destruct (isJsonContentType _) eqn:Hjson; [discriminate |].
  destruct (h_body r) as [buffer|] eqn:Hbody; [| discriminate].
  cbn [andb negb]. intros [= <-]. exists r. cbn.
  repeat split; auto.
Qed.

Lemma backoff_cons (attempts first n : nat) :
  backoff attempts first (S n) =
  (if (first <? attempts)%nat then [(350 * Z.of_nat first)%Z] else []) ++
  backoff attempts (S first) n.
Proof.
  unfold backoff. cbn [seq List.filter].
  now destruct (first <? attempts)%nat.
Qed.

Lemma retry_loop_spec (get : nat -> HttpOutcome) (attempts : nat) :
  forall remaining attempt lastStatus,
    let fr := retry_loop get attempts remaining attempt lastStatus in
    match fr_result fr with
    | Ok f =>
        exists k, (k < remaining)%nat /\
                  attempt_once (get (attempt + k)%nat) = Some f /\
                  (forall j, (j < k)%nat ->
                             attempt_once (get (attempt + j)%nat) = None) /\
                  fr_attempts fr = S k /\
                  fr_sleeps fr = backoff attempts attempt k
    | Throw e =>
        (forall j, (j < remaining)%nat ->
                   attempt_once (get (attempt + j)%nat) = None) /\
        fr_attempts fr = remaining /\
        fr_sleeps fr = backoff attempts attempt remaining /\
        exists s, e = DownloadFailed attempts s
    end.
Proof.
  induction remaining as [|remaining IH]; intros attempt lastStatus;
    cbn [retry_loop].
  - cbn. split; [intros j Hj; lia |]. repeat split. now eexists.
  - destruct (attempt_once (get attempt)) as [f|] eqn:Hfirst;
      cbn [fr_result fr_attempts fr_sleeps].
    + exists 0%nat. rewrite Nat.add_0_r.
      split; [lia |]. split; [exact Hfirst |].
      split; [intros j Hj; lia |]. split; reflexivity.
    + specialize (IH (S attempt) (status_after (get attempt) lastStatus)).
      cbv zeta in IH.
      destruct (fr_result (retry_loop get attempts remaining (S attempt) _))
        as [f|e].
      * destruct IH as (k & Hk & Hhit & Hmiss & Hcount & Hsleeps).
        exists (S k). rewrite Nat.add_succ_r.
        split; [lia |]. split; [exact Hhit |]. split.
        { intros [|j] Hj; [now rewrite Nat.add_0_r |].
          rewrite Nat.add_succ_r. apply Hmiss. lia. }
        split; [now rewrite Hcount |].
        now rewrite backoff_cons, Hsleeps.
      * destruct IH as (Hmiss & Hcount & Hsleeps & Herr).
        split.
        { intros [|j] Hj; [now rewrite Nat.add_0_r |].
          rewrite Nat.add_succ_r. apply Hmiss. lia. }
        split; [now rewrite Hcount |].
        split; [now rewrite backoff_cons, Hsleeps | exact Herr].
Qed.

(** X6: when curl is not used, or fails, the result comes from the loop of
    browser requests: bytes are returned from the first of at most four
    requests that is answered with a success status, a content type
    other than JSON and a readable body, after pauses of 350, 700 and
    1050 ms; without such an answer the fetch fails after four requests
    and these three pauses. *)
Lemma fetchDownloadWithRetry_browser_loop (net : Net) (preferCurl : bool) :
  preferCurl && preferCurlDownloads = false \/ net_curl net = CurlThrows ->
  let fr := fetchDownloadWithRetry_run net default_attempts preferCurl in
  match fr_result fr with
  | Ok f =>
      exists k r,
        (1 <= k <= 4)%nat /\
        net_get net k = HttpReturns r /\
        http_ok r = true /\
        isJsonContentType (f_contentType f) = false /\
        h_body r = Some (f_buffer f) /\
        (forall j, (1 <= j < k)%nat -> attempt_once (net_get net j) = None) /\
        fr_attempts fr = k /\
        fr_sleeps fr = map (fun j => (350 * Z.of_nat j)%Z) (seq 1 (k - 1))
  | Throw e =>
      (forall k, (1 <= k <= 4)%nat -> attempt_once (net_get net k) = None) /\
      fr_attempts fr = 4%nat /\
      fr_sleeps fr = [350; 700; 1050]%Z /\
      exists lastStatus, e = DownloadFailed 4 lastStatus
  end.
Proof.
  intros Hcurl.
  assert (Hrun : fetchDownloadWithRetry_run net default_attempts preferCurl =
                 retry_loop (net_get net) 4 4 1 None).
  { unfold fetchDownloadWithRetry_run, default_attempts.
    destruct Hcurl as [-> | Hthrows]; [reflexivity |].
    rewrite Hthrows. now destruct (preferCurl && preferCurlDownloads). }
  cbv zeta. rewrite Hrun.
  pose proof (retry_loop_spec (net_get net) 4 4 1 None) as Hspec.
  cbv zeta in Hspec.
  destruct (fr_result (retry_loop (net_get net) 4 4 1 None)) as [f|e].
  - destruct Hspec as (k & Hk & Hhit & Hmiss & Hcount & Hsleeps).
    destruct (attempt_once_some _ _ Hhit)
      as (r & Hget & Hok & Hjson & Hbody & _).
    exists (S k), r. change (1 + k)%nat with (S k) in Hget.
    split; [lia |]. split; [exact Hget |]. split; [exact Hok |].
    split; [exact Hjson |]. split; [exact Hbody |]. split.
    { intros j Hj. replace j with (1 + (j - 1))%nat by lia.
      apply Hmiss. lia. }
    split; [exact Hcount |]. rewrite Hsleeps.
    replace (S k - 1)%nat with k by lia.
    destruct k as [|[|[|[|k]]]]; try reflexivity. lia.
  - destruct Hspec as (Hmiss & Hcount & Hsleeps & Herr).
    split.
    { intros k Hk. replace k with (1 + (k - 1))%nat by lia.
      apply Hmiss. lia. }
    split; [exact Hcount |]. split; [exact Hsleeps | exact Herr].
Qed.

End SessionProps.
End EngineProps.

(** ** The result reducer *)

Module ReducerProps.

(** *** Searching a list *)

Lemma elem_of_rev {A} (x : A) (l : list A) : x ∈ rev l <-> x ∈ l.
Proof. rewrite !list_elem_of_In. symmetry. apply in_rev. Qed.

Lemma find_most_recent (P : Candidate -> bool) (l : list Candidate)
    (sel : Candidate) :
  List.find P l = Some sel <-> most_recent P l sel.
Proof.
  unfold most_recent. induction l as [|c l IH]; cbn [List.find].
  - split; [discriminate |]. intros (newer & older & Heq & _).
    now destruct newer.
  - destruct (P c) eqn:Hc.
    + split.
      * intros [= ->]. exists [], l. split; [reflexivity |].
        split; [exact Hc |]. intros c' Hin. now apply not_elem_of_nil in Hin.
      * intros ([|c' newer] & older & Heq & Hsel & Hnewer).
        -- cbn in Heq. now injection Heq as ->.
        -- cbn in Heq. injection Heq as <- _.
           rewrite (Hnewer c (list_elem_of_here _ _)) in Hc. discriminate.
    + rewrite IH. split.
      * intros (newer & older & -> & Hsel & Hnewer).
        exists (c :: newer), older. split; [reflexivity |].
        split; [exact Hsel |]. intros c' Hin.
        apply elem_of_cons in Hin as [-> | Hin]; [exact Hc | now apply Hnewer].
      * intros ([|c' newer] & older & Heq & Hsel & Hnewer).
        -- cbn in Heq. injection Heq as <- _. rewrite Hsel in Hc.
           discriminate.
        -- cbn in Heq. injection Heq as <- ->. exists newer, older.
           split; [reflexivity |]. split; [exact Hsel |].
           intros c'' Hin. apply Hnewer. now apply list_elem_of_further.
Qed.

Lemma find_none_iff (P : Candidate -> bool) (l : list Candidate) :
  List.find P l = None <-> existsb P l = false.
Proof.
  induction l as [|c l IH]; cbn; [tauto |].
  destruct (P c); cbn; [split; discriminate | exact IH].
Qed.

Lemma existsb_false_iff (P : Candidate -> bool) (l : list Candidate) :
  existsb P l = false <-> forall c, c ∈ l -> P c = false.
Proof.
  induction l as [|c l IH]; cbn.
  - split; [| reflexivity]. intros _ c Hin. now apply not_elem_of_nil in Hin.
  - rewrite orb_false_iff, IH. split.
    + intros [Hc Hl] c' Hin.
      apply elem_of_cons in Hin as [-> | Hin]; [exact Hc | now apply Hl].
    + intros Hall. split; [apply Hall, list_elem_of_here |].
      intros c' Hin. now apply Hall, list_elem_of_further.
Qed.

Lemma most_recent_elem (P : Candidate -> bool) (l : list Candidate)
    (sel : Candidate) :
  most_recent P l sel -> sel ∈ l /\ P sel = true.
Proof.
  intros (newer & older & -> & Hsel & _). split; [| exact Hsel].
  apply elem_of_app. right. apply list_elem_of_here.
Qed.

Lemma most_recent_unique (P : Candidate -> bool) (l : list Candidate)
    (sel sel' : Candidate) :
  most_recent P l sel -> most_recent P l sel' -> sel = sel'.
Proof.
  rewrite <- !find_most_recent. congruence.
Qed.

(** *** The loops over the ids of final frames *)

Lemma select_by_ids_none (ids : list string) (existing : list Candidate) :
  select_by_ids ids existing = None <->
  forall j c, j ∈ ids -> c ∈ existing -> has_id j c = false.
Proof.
  induction ids as [|i ids IH]; cbn [select_by_ids].
  - split; [| reflexivity]. intros _ j c Hin. now apply not_elem_of_nil in Hin.
  - destruct (List.find _ existing) as [c0|] eqn:Hfind.
    + split; [discriminate |]. intros Hall.
      apply find_most_recent, most_recent_elem in Hfind as [Hin Hid].
      change (has_id i c0 = true) in Hid.
      rewrite (Hall i c0 (list_elem_of_here _ _) Hin) in Hid. discriminate.
    + apply find_none_iff in Hfind.
      rewrite IH. split.
      * intros Hall j c Hj Hc.
        apply elem_of_cons in Hj as [-> | Hj]; [| now apply Hall].
        now apply (proj1 (existsb_false_iff _ _) Hfind).
      * intros Hall j c Hj Hc. apply Hall; [| exact Hc].
        now apply list_elem_of_further.
Qed.

Lemma select_by_ids_some (ids : list string) (existing : list Candidate)
    (sel : Candidate) :
  select_by_ids ids existing = Some sel ->
  exists later i earlier,
    ids = later ++ i :: earlier /\
    most_recent (has_id i) existing sel /\
    forall j c, j ∈ later -> c ∈ existing -> has_id j c = false.
Proof.
  induction ids as [|i ids IH]; cbn [select_by_ids]; [discriminate |].
  destruct (List.find _ existing) as [c0|] eqn:Hfind.
  - intros [= ->]. exists [], i, ids. split; [reflexivity |].
    split; [now apply find_most_recent |].
    intros j c Hj. now apply not_elem_of_nil in Hj.
  - intros Hsel. destruct (IH Hsel) as (later & i' & earlier & -> & Hmost & Hlater).
    exists (i :: later), i', earlier. split; [reflexivity |].
    split; [exact Hmost |]. intros j c Hj Hc.
    apply elem_of_cons in Hj as [-> | Hj]; [| now apply Hlater].
    apply find_none_iff in Hfind.
    now apply (proj1 (existsb_false_iff _ _) Hfind).
Qed.

Lemma carries_none_iff (ids : list string) (existing : list Candidate) :
  existsb (carries_one_of ids) existing = false <->
  forall j c, j ∈ ids -> c ∈ existing -> has_id j c = false.
Proof.
  rewrite existsb_false_iff. unfold carries_one_of. split.
  - intros Hall j c Hj Hc. specialize (Hall c Hc).
    induction ids as [|i ids IH]; [now apply not_elem_of_nil in Hj |].
    cbn in Hall. apply orb_false_iff in Hall as [Hi Hids].
    apply elem_of_cons in Hj as [-> | Hj]; [exact Hi | now apply IH].
  - intros Hall c Hc.
    induction ids as [|i ids IH]; [reflexivity |].
    cbn. rewrite (Hall i c (list_elem_of_here _ _) Hc). cbn.
    apply IH. intros j c' Hj. apply Hall. now apply list_elem_of_further.
Qed.

Lemma select_by_ids_wins (ids : list string) (existing : list Candidate) :
  match select_by_ids (rev ids) existing with
  | Some sel =>
      existsb (carries_one_of ids) existing = true /\
      wins_by_latest_id ids existing sel
  | None => existsb (carries_one_of ids) existing = false
  end.
Proof.
  destruct (select_by_ids (rev ids) existing) as [sel|] eqn:Hsel.
  - destruct (select_by_ids_some _ _ _ Hsel)
      as (later & i & earlier & Hids & Hmost & Hlater).
    assert (Hids' : ids = rev earlier ++ i :: rev later).
    { rewrite <- (rev_involutive ids), Hids, rev_app_distr. cbn.
      now rewrite <- app_assoc. }
    split.
    + destruct (existsb (carries_one_of ids) existing) eqn:Hnone;
        [reflexivity |].
      apply most_recent_elem in Hmost as [Hin Hid].
      rewrite (proj1 (carries_none_iff _ _) Hnone i sel) in Hid;
        [discriminate | | exact Hin].
      rewrite Hids'. apply elem_of_app. right. apply list_elem_of_here.
    + exists (rev earlier), i, (rev later). split; [exact Hids' |].
      split; [exact Hmost |]. intros j c Hj. apply Hlater.
      now apply elem_of_rev.
  - apply carries_none_iff. intros j c Hj.
    apply (proj1 (select_by_ids_none _ _) Hsel). now apply elem_of_rev.
Qed.

(** The selection follows the priority, and it selects a candidate as
    soon as there is one. *)
Lemma select_candidate_priority (scan : FrameScan)
    (existing ordered : list Candidate) :
  ordered <> [] ->
  exists sel,
    select_candidate scan existing ordered = Some sel /\
    selected_by_priority (fs_preferredFinalFrameMetadataIds scan)
      (fs_finalFrameMetadataIds scan) existing ordered sel.
Proof.
  intros Hne. unfold select_candidate, selected_by_priority.
  pose proof (select_by_ids_wins (fs_preferredFinalFrameMetadataIds scan)
                existing) as Hpref.
  destruct (select_by_ids (rev (fs_preferredFinalFrameMetadataIds scan))
              existing) as [sel|].
  { destruct Hpref as [-> Hwins]. now exists sel. }
  rewrite Hpref.
  pose proof (select_by_ids_wins (fs_finalFrameMetadataIds scan) existing)
    as Hfin.
  destruct (select_by_ids (rev (fs_finalFrameMetadataIds scan)) existing)
    as [sel|].
  { destruct Hfin as [-> Hwins]. now exists sel. }
  rewrite Hfin.
  destruct (List.find candidate_is_final existing) as [sel|] eqn:Hfind.
  { exists sel. split; [reflexivity |].
    destruct (existsb candidate_is_final existing) eqn:Hex.
    - now apply find_most_recent.
    - apply find_none_iff in Hex. congruence. }
  apply find_none_iff in Hfind. rewrite Hfind.
  destruct existing as [|c existing]; [| now exists c].
  destruct (last ordered) as [sel|] eqn:Hlast; [now exists sel |].
  apply last_None in Hlast. contradiction.
Qed.


Lemma selected_by_priority_elem (preferred finals : list string)
    (existing ordered : list Candidate) (sel : Candidate) :
  selected_by_priority preferred finals existing ordered sel ->
  (existing <> [] -> sel ∈ existing) /\
  (existing = [] -> last ordered = Some sel).
Proof.
  unfold selected_by_priority.
  assert (Hwins : forall ids, wins_by_latest_id ids existing sel ->
                              sel ∈ existing).
  { intros ids (earlier & i & later & _ & Hmost & _).
    now apply most_recent_elem in Hmost. }
  destruct (existsb (carries_one_of preferred) existing) eqn:Hpref.
  { intros Hsel. apply Hwins in Hsel. split; [auto |].
    intros ->. now apply not_elem_of_nil in Hsel. }
  destruct (existsb (carries_one_of finals) existing) eqn:Hfin.
  { intros Hsel. apply Hwins in Hsel. split; [auto |].
    intros ->. now apply not_elem_of_nil in Hsel. }
  destruct (existsb candidate_is_final existing) eqn:Hflag.
  { intros Hsel. apply most_recent_elem in Hsel as [Hsel _].
    split; [auto |]. intros ->. now apply not_elem_of_nil in Hsel. }
  destruct existing as [|c existing].
  - intros Hlast. split; [congruence | auto].
  - intros ->. split; [intros _; apply list_elem_of_here | discriminate].
Qed.

(** The priority leaves no choice. *)
Lemma selected_by_priority_unique (preferred finals : list string)
    (existing ordered : list Candidate) (sel sel' : Candidate) :
  selected_by_priority preferred finals existing ordered sel ->
  selected_by_priority preferred finals existing ordered sel' ->
  sel = sel'.
Proof.
  unfold selected_by_priority.
  assert (Hwins : forall ids, wins_by_latest_id ids existing sel ->
                              wins_by_latest_id ids existing sel' ->
                              sel = sel').
  { intros ids (earlier & i & later & Hids & Hmost & Hlater)
           (earlier' & i' & later' & Hids' & Hmost' & Hlater').
    assert (Hi : i = i').
    { destruct (most_recent_elem _ _ _ Hmost) as [Hin Hid].
      destruct (most_recent_elem _ _ _ Hmost') as [Hin' Hid'].
      rewrite Hids in Hids'. clear Hids.
      revert earlier' Hids'.
      induction earlier as [|x earlier IH]; intros [|x' earlier'] Hids';
        cbn in Hids'.
      - congruence.
      - injection Hids' as -> ->.
        rewrite (Hlater i' sel') in Hid'; [discriminate | | exact Hin'].
        apply elem_of_app. right. apply list_elem_of_here.
      - injection Hids' as <- <-.
        rewrite (Hlater' i sel) in Hid; [discriminate | | exact Hin].
        apply elem_of_app. right. apply list_elem_of_here.
      - injection Hids' as _ Htail. now apply (IH earlier'). }
    subst i'. eapply most_recent_unique; eauto. }
  destruct (existsb (carries_one_of preferred) existing); [apply Hwins |].
  destruct (existsb (carries_one_of finals) existing); [apply Hwins |].
  destruct (existsb candidate_is_final existing);
    [apply most_recent_unique |].
  destruct existing; congruence.
Qed.

(** *** The scan of the event log *)

Lemma scan_event_fields (acc : FrameScan) (e : StreamEvent) :
  fs_finalFrameMetadataIds (scan_event acc e) =
    fs_finalFrameMetadataIds acc ++
    match resolves_final e with Some i => [i] | None => [] end /\
  fs_sawPartFrameInSequence (scan_event acc e) =
    fs_sawPartFrameInSequence acc || resolves_part e /\
  fs_preferredFinalFrameMetadataIds (scan_event acc e) =
    fs_preferredFinalFrameMetadataIds acc ++
    match resolves_final e with
    | Some i => if fs_sawPartFrameInSequence acc || resolves_part e
                then [i] else []
    | None => []
    end.
Proof.
  unfold scan_event, resolves_final, resolves_part, resolved_id,
    announces_final, announces_part.
  destruct (bool_decide (ev_type e = download_url_resolved)); cbn [negb].
  - destruct (or_null (ev_metadataId e)) as [i|];
      cbn [fs_finalFrameMetadataIds fs_sawPartFrameInSequence
           fs_preferredFinalFrameMetadataIds].
    + destruct (ev_isFinalStreamFrame e || _); cbn [andb];
        destruct (fs_sawPartFrameInSequence acc || _);
        rewrite ?app_nil_r; auto.
    + destruct (ev_isFinalStreamFrame e || _);
        rewrite ?app_nil_r, ?orb_false_r; auto.
  - destruct (ev_isFinalStreamFrame e || _);
      rewrite ?app_nil_r, ?orb_false_r; auto.
Qed.

Lemma scan_frames_snoc (events : list StreamEvent) (e : StreamEvent) :
  scan_frames (events ++ [e]) = scan_event (scan_frames events) e.
Proof. unfold scan_frames. now rewrite fold_left_app. Qed.

Lemma scan_frames_sawPart (events : list StreamEvent) :
  fs_sawPartFrameInSequence (scan_frames events) = true <->
  exists p, p ∈ events /\ resolves_part p = true.
Proof.
  induction events as [|e events IH] using rev_ind.
  - split; [discriminate |]. intros (p & Hp & _).
    now apply not_elem_of_nil in Hp.
  - rewrite scan_frames_snoc.
    destruct (scan_event_fields (scan_frames events) e) as (_ & -> & _).
    rewrite orb_true_iff, IH. split.
    + intros [(p & Hp & Hpart) | Hpart].
      * exists p. split; [| exact Hpart]. apply elem_of_app. now left.
      * exists e. split; [| exact Hpart]. apply elem_of_app. right.
        apply list_elem_of_here.
    + intros (p & Hp & Hpart). apply elem_of_app in Hp as [Hp | Hp].
      * left. now exists p.
      * apply list_elem_of_singleton in Hp as ->. now right.
Qed.

(** The ids of [finalFrameMetadataIds] are those of the final frames that
    the log resolves, in the order of the log. *)
Lemma scan_frames_finals (events : list StreamEvent) :
  fs_finalFrameMetadataIds (scan_frames events) = omap resolves_final events.
Proof.
  induction events as [|e events IH] using rev_ind; [reflexivity |].
  rewrite scan_frames_snoc, omap_app.
  destruct (scan_event_fields (scan_frames events) e) as (-> & _).
  rewrite IH. cbn. now destruct (resolves_final e).
Qed.

Lemma final_after_part_snoc (events : list StreamEvent) (e : StreamEvent)
    (i : string) :
  final_after_part (events ++ [e]) i <->
  final_after_part events i \/
  (resolves_final e = Some i /\
   exists p, p ∈ events ++ [e] /\ resolves_part p = true).
Proof.
  unfold final_after_part. split.
  - intros (before & e0 & after & Heq & Hfinal & Hpart).
    destruct after as [|x after _] using rev_ind.
    + apply app_inj_tail in Heq as [<- <-]. right. auto.
    + rewrite app_comm_cons, app_assoc in Heq.
      apply app_inj_tail in Heq as [-> <-]. left.
      exists before, e0, after. auto.
  - intros [(before & e0 & after & -> & Hfinal & Hpart) | [Hfinal Hpart]].
    + exists before, e0, (after ++ [e]). split; [| auto].
      now rewrite <- app_assoc.
    + exists events, e, []. auto.
Qed.

(** The ids of [preferredFinalFrameMetadataIds] are those of the final
    frames resolved after a part frame. *)
Lemma scan_frames_preferred (events : list StreamEvent) (i : string) :
  i ∈ fs_preferredFinalFrameMetadataIds (scan_frames events) <->
  final_after_part events i.
Proof.
  induction events as [|e events IH] using rev_ind.
  - split.
    + intros Hin. now apply not_elem_of_nil in Hin.
    + intros (before & e0 & after & Heq & _). now destruct before.
  - rewrite scan_frames_snoc, final_after_part_snoc, <- IH.
    pose proof (scan_frames_sawPart (events ++ [e])) as Hsaw.
    rewrite scan_frames_snoc in Hsaw.
    destruct (scan_event_fields (scan_frames events) e) as (_ & Hsaw' & ->).
    rewrite Hsaw' in Hsaw. rewrite elem_of_app.
    destruct (resolves_final e) as [j|].
    + destruct (fs_sawPartFrameInSequence (scan_frames events) ||
                resolves_part e).
      * rewrite list_elem_of_singleton. split.
        -- intros [Hin | ->]; [now left |]. right.
           split; [reflexivity | now apply Hsaw].
        -- intros [Hin | [[= ->] _]]; auto.
      * split.
        -- intros [Hin | Hin]; [now left |].
           now apply not_elem_of_nil in Hin.
        -- intros [Hin | [_ Hpart]]; [now left |].
           apply Hsaw in Hpart. discriminate.
    + split.
      * intros [Hin | Hin]; [now left |]. now apply not_elem_of_nil in Hin.
      * intros [Hin | [Hfinal _]]; [now left | discriminate].
Qed.


(** *** The candidates *)

Lemma nonempty_trim (p : string) :
  nonempty (trim p) = true -> nonempty p = true.
Proof.
  destruct (nonempty p) eqn:Hp; [reflexivity |].
  apply nonempty_false in Hp. subst p. intros Hne. vm_compute in Hne.
  discriminate.
Qed.

Lemma pushCandidate_path (info : gmap string FrameEntry)
    (filePath fileName sourceFileName : option string) (byteLength : option Z)
    (contentType metadataId : option string) (isStreamPart : bool)
    (streamPartIndex : option Z) (isFinalStreamFrame : bool) (c : Candidate) :
  c ∈ pushCandidate info filePath fileName sourceFileName byteLength
        contentType metadataId isStreamPart streamPartIndex
        isFinalStreamFrame ->
  exists p, filePath = Some p /\ c_filePath c = trim p /\
            nonempty (c_filePath c) = true /\
            c_metadataId c = or_null metadataId.
Proof.
  unfold pushCandidate. destruct filePath as [p|].
  - destruct (nonempty (trim p)) eqn:Hp; cbn [negb].
    + intros Hin. apply list_elem_of_singleton in Hin as ->. cbn.
      exists p. auto.
    + intros Hin. now apply not_elem_of_nil in Hin.
  - intros Hin. now apply not_elem_of_nil in Hin.
Qed.

Lemma elem_of_flat_map {A B} (f : A -> list B) (l : list A) (y : B) :
  y ∈ flat_map f l <-> exists x, x ∈ l /\ y ∈ f x.
Proof.
  rewrite list_elem_of_In, in_flat_map. split.
  - intros (x & Hx & Hy). exists x. now rewrite !list_elem_of_In.
  - intros (x & Hx & Hy). exists x. now rewrite <- !list_elem_of_In.
Qed.

Lemma elem_of_filter_list {A} (P : A -> bool) (l : list A) (x : A) :
  x ∈ List.filter P l <-> x ∈ l /\ P x = true.
Proof. rewrite !list_elem_of_In. apply filter_In. Qed.

(** Every candidate has a path, and comes from a [file_saved] entry of
    the log or from a saved file. *)
Lemma orderedCandidates_elem (saveResult : SaveResult) (c : Candidate) :
  c ∈ orderedCandidates saveResult ->
  nonempty (c_filePath c) = true /\
  ((exists e, e ∈ sr_streamEvents saveResult /\ ev_type e = file_saved /\
              option_map trim (ev_outputPath e) = Some (c_filePath c) /\
              c_metadataId c = or_null (ev_metadataId e)) \/
   (exists f, f ∈ sr_savedFiles saveResult /\
              trim (sf_filePath f) = c_filePath c /\
              c_metadataId c = or_null (sf_metadataId f))).
Proof.
  unfold orderedCandidates. cbv zeta. rewrite elem_of_app, !elem_of_flat_map.
  intros [(e & He & Hc) | (f & Hf & Hc)].
  - unfold candidates_of_event in Hc.
    destruct (bool_decide (ev_type e = file_saved)) eqn:Hty;
      [| now apply not_elem_of_nil in Hc].
    apply bool_decide_eq_true in Hty.
    apply pushCandidate_path in Hc as (p & Hp & Hpath & Hne & Hid).
    split; [exact Hne |]. left. exists e. rewrite Hp, Hpath. auto.
  - apply elem_of_filter_list in Hf as [Hf _].
    unfold candidates_of_file in Hc.
    apply pushCandidate_path in Hc as (p & [= <-] & Hpath & Hne & Hid).
    split; [exact Hne |]. right. exists f. auto.
Qed.

(** A saved file with a path that is not blank is a candidate. *)
Lemma orderedCandidates_nonempty (saveResult : SaveResult) (f : SavedFile) :
  f ∈ sr_savedFiles saveResult ->
  nonempty (trim (sf_filePath f)) = true ->
  orderedCandidates saveResult <> [].
Proof.
  intros Hf Hpath Hnil.
  assert (Hin : exists c, c ∈ orderedCandidates saveResult).
  { unfold orderedCandidates. cbv zeta.
    set (info := fs_frameInfoByMetadataId _).
    assert (Hc : exists c, c ∈ candidates_of_file info f).
    { unfold candidates_of_file, pushCandidate. rewrite Hpath. cbn [negb].
      eexists. apply list_elem_of_here. }
    destruct Hc as [c Hc]. exists c. apply elem_of_app. right.
    apply elem_of_flat_map. exists f. split; [| exact Hc].
    apply elem_of_filter_list. split; [exact Hf |].
    now apply nonempty_trim. }
  destruct Hin as [c Hc]. rewrite Hnil in Hc.
  now apply not_elem_of_nil in Hc.
Qed.

(** *** The candidates whose file exists *)

Lemma existing_from_elem (disk : gmap string Bytes) (cands : list Candidate) :
  forall (seen : gset string) (c : Candidate),
    c ∈ existing_from disk seen cands <->
    exists newer older,
      cands = newer ++ c :: older /\
      nonempty (c_filePath c) = true /\
      is_Some (disk !! c_filePath c) /\
      (c_filePath c ∉ seen) /\
      forall c', c' ∈ newer -> c_filePath c' <> c_filePath c.
Proof.
  induction cands as [|x cands IH]; intros seen c; cbn [existing_from].
  - split.
    + intros Hin. now apply not_elem_of_nil in Hin.
    + intros (newer & older & Heq & _). now destruct newer.
  - assert (Hskip :
              (nonempty (c_filePath x) = false \/ c_filePath x ∈ seen \/
               disk !! c_filePath x = None) ->
              c ∈ existing_from disk seen cands <->
              exists newer older,
                x :: cands = newer ++ c :: older /\
                nonempty (c_filePath c) = true /\
                is_Some (disk !! c_filePath c) /\
                (c_filePath c ∉ seen) /\
                forall c', c' ∈ newer -> c_filePath c' <> c_filePath c).
    { intros Hx. rewrite IH. split.
      - intros (newer & older & -> & Hne & Hex & Hseen & Hnewer).
        exists (x :: newer), older. split; [reflexivity |].
        split; [exact Hne |]. split; [exact Hex |]. split; [exact Hseen |].
        intros c' Hin. apply elem_of_cons in Hin as [-> | Hin];
          [| now apply Hnewer].
        intros Heq. rewrite Heq in Hx.
        destruct Hx as [Hx | [Hx | Hx]]; [congruence | contradiction |].
        rewrite Hx in Hex. now destruct Hex.
      - intros ([|x' newer] & older & Heq & Hne & Hex & Hseen & Hnewer);
          cbn in Heq.
        + injection Heq as <- _.
          destruct Hx as [Hx | [Hx | Hx]]; [congruence | contradiction |].
          rewrite Hx in Hex. now destruct Hex.
        + injection Heq as <- ->. exists newer, older.
          split; [reflexivity |]. split; [exact Hne |].
          split; [exact Hex |]. split; [exact Hseen |].
          intros c' Hin. apply Hnewer. now apply list_elem_of_further. }
    destruct (nonempty (c_filePath x)) eqn:Hne; cbn [negb];
      [| apply Hskip; now left].
    destruct (bool_decide (c_filePath x ∈ seen)) eqn:Hseen.
    { apply bool_decide_eq_true in Hseen. apply Hskip. right. now left. }
    apply bool_decide_eq_false in Hseen.
    destruct (bool_decide (is_Some (disk !! c_filePath x))) eqn:Hex;
      cbn [negb].
    2:{ apply bool_decide_eq_false in Hex. apply Hskip. right. right.
        destruct (disk !! c_filePath x); [| reflexivity].
        exfalso. apply Hex. eauto. }
    apply bool_decide_eq_true in Hex.
    rewrite elem_of_cons, IH. split.
    + intros [-> | (newer & older & -> & Hne' & Hex' & Hseen' & Hnewer)].
      * exists [], cands. split; [reflexivity |]. split; [exact Hne |].
        split; [exact Hex |]. split; [exact Hseen |].
        intros c' Hin. now apply not_elem_of_nil in Hin.
      * exists (x :: newer), older. split; [reflexivity |].
        split; [exact Hne' |]. split; [exact Hex' |].
        apply not_elem_of_union in Hseen' as [Hx Hseen'].
        split; [exact Hseen' |].
        intros c' Hin. apply elem_of_cons in Hin as [-> | Hin];
          [| now apply Hnewer].
        intros Heq. apply Hx. now apply elem_of_singleton.
    + intros ([|x' newer] & older & Heq & Hne' & Hex' & Hseen' & Hnewer);
        cbn in Heq.
      * injection Heq as <- _. now left.
      * injection Heq as <- ->. right. exists newer, older.
        split; [reflexivity |]. split; [exact Hne' |].
        split; [exact Hex' |]. split.
        -- apply not_elem_of_union. split; [| exact Hseen'].
           intros Hin. apply elem_of_singleton in Hin.
           apply (Hnewer x (list_elem_of_here _ _)). congruence.
        -- intros c' Hin. apply Hnewer. now apply list_elem_of_further.
Qed.

(** [existingCandidates] keeps, for each path with a file, the most
    recent candidate of the path. *)
Lemma existingCandidates_elem (disk : gmap string Bytes)
    (ordered : list Candidate) (c : Candidate) :
  (forall c', c' ∈ ordered -> nonempty (c_filePath c') = true) ->
  c ∈ existingCandidates disk ordered <-> latest_of_its_path disk ordered c.
Proof.
  intros Hpaths. unfold existingCandidates, latest_of_its_path.
  rewrite existing_from_elem. split.
  - intros (newer & older & Heq & _ & Hex & _ & Hnewer).
    split; [exact Hex |]. exists (rev older), (rev newer). split.
    + rewrite <- (rev_involutive ordered), Heq, rev_app_distr. cbn.
      now rewrite <- app_assoc.
    + intros c' Hin. apply Hnewer. now apply elem_of_rev.
  - intros (Hex & older & newer & Heq & Hnewer).
    exists (rev newer), (rev older). split.
    + rewrite Heq, rev_app_distr. cbn. now rewrite <- app_assoc.
    + split.
      { apply Hpaths. rewrite Heq. apply elem_of_app. right.
        apply list_elem_of_here. }
      split; [exact Hex |]. split; [apply not_elem_of_empty |].
      intros c' Hin. apply Hnewer. now apply elem_of_rev.
Qed.

(** They are listed from the most recent to the oldest. *)
Lemma existing_from_sublist (disk : gmap string Bytes)
    (cands : list Candidate) (seen : gset string) :
  sublist (existing_from disk seen cands) cands.
Proof.
  revert seen. induction cands as [|x cands IH]; intros seen;
    cbn [existing_from]; [constructor |].
  destruct (negb (nonempty (c_filePath x))); [constructor; apply IH |].
  destruct (bool_decide (c_filePath x ∈ seen)); [constructor; apply IH |].
  destruct (negb (bool_decide (is_Some (disk !! c_filePath x))));
    constructor; apply IH.
Qed.

(** *** The files deleted *)

Lemma unlink_all_lookup (paths : list string) (disk : gmap string Bytes)
    (p : string) :
  unlink_all paths disk !! p =
  if bool_decide (p ∈ paths) then None else disk !! p.
Proof.
  unfold unlink_all. revert disk.
  induction paths as [|a paths IH]; intros disk; cbn [fold_left].
  - rewrite bool_decide_eq_false_2; [reflexivity | apply not_elem_of_nil].
  - rewrite IH. destruct (decide (p ∈ paths)) as [Hin | Hnot].
    + rewrite !bool_decide_eq_true_2; auto. now apply list_elem_of_further.
    + rewrite (bool_decide_eq_false_2 _ Hnot).
      destruct (decide (p = a)) as [-> | Hne].
      * rewrite bool_decide_eq_true_2 by apply list_elem_of_here.
        apply lookup_delete_eq.
      * rewrite bool_decide_eq_false_2.
        -- now apply lookup_delete_ne.
        -- intros Hin. apply elem_of_cons in Hin as [? | ?]; contradiction.
Qed.

Lemma pathsToDelete_elem (ordered : list Candidate) (selected : Candidate)
    (p : string) :
  p ∈ pathsToDelete ordered selected <->
  (exists c, c ∈ ordered /\ c_filePath c = p) /\
  nonempty p = true /\ p <> c_filePath selected.
Proof.
  unfold pathsToDelete. rewrite !elem_of_filter_list, list_elem_of_fmap.
  unfold str_eqb. rewrite negb_true_iff, bool_decide_eq_false.
  split.
  - intros [[(c & -> & Hc) Hne] Hsel]. eauto.
  - intros [(c & Hc & <-) [Hne Hsel]]. eauto.
Qed.


(** *** The reduced result *)

Lemma id_list_values (metadataId : option string) :
  js_set_values (List.filter nonempty (id_list metadataId)) =
  id_list metadataId.
Proof.
  unfold id_list. destruct metadataId as [i|]; [| reflexivity].
  destruct (nonempty i) eqn:Hi; [| reflexivity].
  cbn [List.filter]. rewrite Hi. unfold js_set_values, js_set_add. cbn.
  rewrite bool_decide_eq_false_2; [reflexivity | apply not_elem_of_nil].
Qed.

Lemma retainLatestImageOnly_selected (saveResult : SaveResult) (w : World)
    (selected : Candidate) :
  orderedCandidates saveResult <> [] ->
  select_candidate (scan_frames (sr_streamEvents saveResult))
    (existingCandidates (w_disk w) (orderedCandidates saveResult))
    (orderedCandidates saveResult) = Some selected ->
  let file := retained_file (w_disk w) saveResult selected in
  retainLatestImageOnly (Some saveResult) w =
  (Ok {| sr_savedCount := 1;
         sr_savedFiles := [file];
         sr_metadataIds := id_list (sf_metadataId file);
         sr_streamEvents := sr_streamEvents saveResult |},
   set_disk (unlink_all (pathsToDelete (orderedCandidates saveResult) selected)
               (w_disk w)) w).
Proof.
  intros Hne Hsel file. unfold retainLatestImageOnly.
  destruct (orderedCandidates saveResult) as [|c0 ordered] eqn:Hordered;
    [contradiction |].
  cbn [is_nil]. rewrite bind_get_state. cbv zeta. rewrite Hsel.
  unfold buildSaveResult. rewrite id_list_values. reflexivity.
Qed.

(** C1, as amended.  Let a capture result hold a saved file with a path.
    Its candidates are the saved files of the event log and of the
    result; those whose file exists are taken once for each path, the
    most recent first.  The reducer selects among them by this priority:
    the candidate that carries the id of a final frame resolved after a
    part frame, the latest such id first; else the one that carries the
    id of a resolved final frame, the latest first; else the most recent
    candidate marked final; else the most recent candidate; and the last
    candidate of all when no file exists.  The priority leaves no choice.
    The result reports one saved file, the selected one, with count 1 and
    the event log as it was; the file carries the metadata id of the
    selected candidate and, only when that candidate has none, the last
    id known to the result.  Every path of another candidate is absent
    from the disk afterwards; the selected file and the paths that are
    not candidates are as before. *)
Theorem retainLatestImageOnly_keeps_selected
    (saveResult : SaveResult) (w : World) :
  (exists f, f ∈ sr_savedFiles saveResult /\
             nonempty (trim (sf_filePath f)) = true) ->
  let events := sr_streamEvents saveResult in
  let preferred := fs_preferredFinalFrameMetadataIds (scan_frames events) in
  let finals := fs_finalFrameMetadataIds (scan_frames events) in
  let ordered := orderedCandidates saveResult in
  let existing := existingCandidates (w_disk w) ordered in
  (forall i, i ∈ preferred <-> final_after_part events i) /\
  finals = omap resolves_final events /\
  (forall c, c ∈ existing <-> latest_of_its_path (w_disk w) ordered c) /\
  sublist existing (rev ordered) /\
  exists selected file w',
    selected ∈ ordered /\
    (existing <> [] -> selected ∈ existing) /\
    selected_by_priority preferred finals existing ordered selected /\
    (forall c, selected_by_priority preferred finals existing ordered c ->
               c = selected) /\
    retainLatestImageOnly (Some saveResult) w =
      (Ok {| sr_savedCount := 1;
             sr_savedFiles := [file];
             sr_metadataIds := id_list (sf_metadataId file);
             sr_streamEvents := events |}, w') /\
    sf_filePath file = c_filePath selected /\
    sf_metadataId file =
      (if truthy (c_metadataId selected) then c_metadataId selected
       else last (sr_metadataIds saveResult)) /\
    (forall content,
       w_disk w !! c_filePath selected = Some content ->
       w_disk w' !! sf_filePath file = Some content /\
       sf_byteLength file = byteLength content) /\
    (forall c, c ∈ ordered -> c_filePath c <> c_filePath selected ->
               w_disk w' !! c_filePath c = None) /\
    (forall p, (forall c, c ∈ ordered -> c_filePath c <> p) ->
               w_disk w' !! p = w_disk w !! p).
Proof.
  intros (f & Hf & Hpath) events preferred finals ordered existing.
  assert (Hne : ordered <> [])
    by (eapply orderedCandidates_nonempty; eauto).
  assert (Hpaths : forall c, c ∈ ordered -> nonempty (c_filePath c) = true)
    by (intros c Hc; now apply orderedCandidates_elem in Hc).
  assert (Hexisting : forall c, c ∈ existing <->
                                latest_of_its_path (w_disk w) ordered c)
    by (intros c; now apply existingCandidates_elem).
  split; [intros i; apply scan_frames_preferred |].
  split; [apply scan_frames_finals |].
  split; [exact Hexisting |].
  split; [apply existing_from_sublist |].
  destruct (select_candidate_priority (scan_frames events) existing ordered Hne)
    as (selected & Hsel & Hprio).
  destruct (selected_by_priority_elem _ _ _ _ _ Hprio) as [Hin Hlast].
  assert (Hordered : selected ∈ ordered).
  { destruct (decide (existing = [])) as [Hnil | Hsome].
    - specialize (Hlast Hnil). apply last_Some in Hlast as [l' ->].
      apply elem_of_app. right. apply list_elem_of_here.
    - apply Hin, Hexisting in Hsome as (_ & older & newer & -> & _).
      apply elem_of_app. right. apply list_elem_of_here. }
  exists selected, (retained_file (w_disk w) saveResult selected),
    (set_disk (unlink_all (pathsToDelete ordered selected) (w_disk w)) w).
  split; [exact Hordered |]. split; [exact Hin |]. split; [exact Hprio |].
  split.
  { intros c Hc. eapply selected_by_priority_unique; eauto. }
  split; [now apply retainLatestImageOnly_selected |].
  split; [reflexivity |]. split; [reflexivity |].
  cbn [set_disk w_disk retained_file sf_filePath sf_byteLength].
  split; [| split].
  - intros content Hcontent. rewrite unlink_all_lookup, Hcontent.
    rewrite bool_decide_eq_false_2; [auto |].
    intros Hdel. apply pathsToDelete_elem in Hdel as (_ & _ & Hdiff).
    now apply Hdiff.
  - intros c Hc Hdiff. rewrite unlink_all_lookup.
    rewrite bool_decide_eq_true_2; [reflexivity |].
    apply pathsToDelete_elem. split; [eauto |]. split; [auto | exact Hdiff].
  - intros p Hp. rewrite unlink_all_lookup.
    rewrite bool_decide_eq_false_2; [reflexivity |].
    intros Hdel. apply pathsToDelete_elem in Hdel as ((c & Hc & Heq) & _).
    now apply (Hp c Hc).
Qed.

End ReducerProps.

(* ===================================================================== *)
(** * Part IIb: further properties of the helpers and of the session      *)
(* ===================================================================== *)

(** ** Strings as lists of code units *)

Lemma chars_of_str_of (l : chars) : chars_of (str_of l) = l.
Proof. apply list_ascii_of_string_of_list_ascii. Qed.

Lemma str_of_chars_of (s : string) : str_of (chars_of s) = s.
Proof. apply string_of_list_ascii_of_string. Qed.

Lemma chars_of_app (a b : string) :
  chars_of (a +:+ b) = chars_of a ++ chars_of b.
Proof.
  unfold chars_of. induction a as [|c a IH]; cbn; [reflexivity |].
  now rewrite <- IH.
Qed.

Lemma chars_of_inj (a b : string) : chars_of a = chars_of b -> a = b.
Proof.
  intros Heq. rewrite <- (str_of_chars_of a), <- (str_of_chars_of b).
  now rewrite Heq.
Qed.

Lemma length_chars_of (s : string) : length (chars_of s) = String.length s.
Proof.
  unfold chars_of. induction s as [|c s IH]; cbn; [reflexivity |].
  now rewrite IH.
Qed.

Lemma nonempty_chars (s : string) : nonempty s = true <-> chars_of s <> [].
Proof.
  rewrite nonempty_true. split; intros Hne Heq; apply Hne.
  - now apply chars_of_inj.
  - now subst s.
Qed.

(** Facts about one code unit are settled on the 256 of them. *)
Ltac by_cases_on_char c :=
  destruct c as [[] [] [] [] [] [] [] []]; vm_compute; try reflexivity;
  try discriminate; try tauto.

Lemma lower_char_idem (c : ascii) : lower_char (lower_char c) = lower_char c.
Proof. by_cases_on_char c. Qed.

Lemma lower_char_space (c : ascii) :
  is_js_space (lower_char c) = is_js_space c.
Proof. by_cases_on_char c. Qed.

Lemma lower_char_semicolon (c : ascii) :
  lower_char c = ";"%char <-> c = ";"%char.
Proof. split; [| now intros ->]. by_cases_on_char c. Qed.

(** ** Cutting and trimming *)

Lemma before_first_free (sep : ascii) (l : chars) :
  sep ∉ before_first sep l.
Proof.
  induction l as [|c l IH]; cbn; [apply not_elem_of_nil |].
  destruct (ascii_dec c sep) as [-> | Hne]; [apply not_elem_of_nil |].
  apply not_elem_of_cons. split; [congruence | exact IH].
Qed.

Lemma before_first_id (sep : ascii) (l : chars) :
  sep ∉ l -> before_first sep l = l.
Proof.
  induction l as [|c l IH]; cbn; [reflexivity |]. intros Hnot.
  apply not_elem_of_cons in Hnot as [Hc Hl].
  destruct (ascii_dec c sep) as [-> | _]; [contradiction | now rewrite IH].
Qed.

Lemma before_first_app (sep : ascii) (l rest : chars) :
  sep ∉ l -> before_first sep (l ++ sep :: rest) = l.
Proof.
  induction l as [|c l IH]; cbn.
  - intros _. now destruct (ascii_dec sep sep).
  - intros Hnot. apply not_elem_of_cons in Hnot as [Hc Hl].
    destruct (ascii_dec c sep) as [-> | _]; [contradiction | now rewrite IH].
Qed.

Lemma trim_start_head (l : chars) :
  match trim_start l with
  | [] => True
  | c :: _ => is_js_space c = false
  end.
Proof.
  induction l as [|c l IH]; cbn; [exact I |].
  destruct (is_js_space c) eqn:Hc; [exact IH | exact Hc].
Qed.

Lemma trim_start_id (l : chars) :
  match l with [] => True | c :: _ => is_js_space c = false end ->
  trim_start l = l.
Proof. destruct l as [|c l]; cbn; [reflexivity | now intros ->]. Qed.

Lemma trim_start_last (l : chars) (h : ascii) :
  is_js_space h = false -> exists l', trim_start (l ++ [h]) = l' ++ [h].
Proof.
  intros Hh. induction l as [|c l IH]; cbn.
  - rewrite Hh. now exists [].
  - destruct (is_js_space c); [exact IH | now exists (c :: l)].
Qed.

Lemma trim_start_elem (l : chars) (x : ascii) :
  x ∈ trim_start l -> x ∈ l.
Proof.
  induction l as [|c l IH]; cbn; [auto |].
  destruct (is_js_space c); [| auto]. intros Hin.
  now apply list_elem_of_further, IH.
Qed.

Lemma trim_chars_elem (l : chars) (x : ascii) :
  x ∈ trim_chars l -> x ∈ l.
Proof.
  unfold trim_chars. intros Hin.
  apply ReducerProps.elem_of_rev, trim_start_elem in Hin.
  now apply ReducerProps.elem_of_rev, trim_start_elem in Hin.
Qed.

Lemma trim_chars_trimmed (l : chars) : trimmed (trim_chars l).
Proof.
  unfold trimmed, trim_chars. rewrite rev_involutive.
  split; [| apply trim_start_head].
  pose proof (trim_start_head l) as Hhead.
  destruct (trim_start l) as [|h t]; [exact I |].
  cbn [rev]. destruct (trim_start_last (rev t) h Hhead) as [l' ->].
  rewrite rev_app_distr. exact Hhead.
Qed.

Lemma trim_chars_id (l : chars) : trimmed l -> trim_chars l = l.
Proof.
  intros [Hhead Hlast]. unfold trim_chars.
  rewrite (trim_start_id l Hhead), (trim_start_id (rev l) Hlast).
  apply rev_involutive.
Qed.

Lemma trim_chars_idem (l : chars) : trim_chars (trim_chars l) = trim_chars l.
Proof. apply trim_chars_id, trim_chars_trimmed. Qed.

Lemma trimmed_map_lower (l : chars) :
  trimmed l -> trimmed (map lower_char l).
Proof.
  unfold trimmed. rewrite <- map_rev. intros [Hhead Hlast]. split.
  - destruct l as [|c l]; [exact I |]. cbn. now rewrite lower_char_space.
  - destruct (rev l) as [|c l']; [exact I |]. cbn.
    now rewrite lower_char_space.
Qed.

Lemma trim_start_map_lower (l : chars) :
  trim_start (map lower_char l) = map lower_char (trim_start l).
Proof.
  induction l as [|c l IH]; cbn; [reflexivity |].
  rewrite lower_char_space. now destruct (is_js_space c).
Qed.

Lemma trim_chars_map_lower (l : chars) :
  trim_chars (map lower_char l) = map lower_char (trim_chars l).
Proof.
  unfold trim_chars.
  now rewrite trim_start_map_lower, <- map_rev, trim_start_map_lower, map_rev.
Qed.

Lemma before_first_map_lower (l : chars) :
  before_first ";"%char (map lower_char l) =
  map lower_char (before_first ";"%char l).
Proof.
  induction l as [|c l IH]; cbn; [reflexivity |].
  destruct (ascii_dec (lower_char c) ";") as [Hl | Hl];
    destruct (ascii_dec c ";") as [Hc | Hc]; cbn.
  - reflexivity.
  - apply (proj1 (lower_char_semicolon c)) in Hl. contradiction.
  - subst c. exfalso. apply Hl. reflexivity.
  - now rewrite IH.
Qed.

(** ** Content types *)

(** The normal form of a content type has no parameters, no outer white
    space and no capital letters: normalizing again changes nothing. *)
Lemma normalizeContentType_idem (ct : string) :
  normalizeContentType (normalizeContentType ct) = normalizeContentType ct.
Proof.
  unfold normalizeContentType. rewrite chars_of_str_of.
  set (l := before_first ";"%char (chars_of ct)).
  assert (Hfree : ";"%char ∉ map lower_char (trim_chars l)).
  { intros Hin. apply list_elem_of_fmap in Hin as (c & Hc & Hin).
    symmetry in Hc. apply (proj1 (lower_char_semicolon c)) in Hc as ->.
    apply trim_chars_elem in Hin. now apply before_first_free in Hin. }
  rewrite (before_first_id _ _ Hfree).
  rewrite (trim_chars_id _ (trimmed_map_lower _ (trim_chars_trimmed l))).
  rewrite map_map. f_equal. apply map_ext. apply lower_char_idem.
Qed.

(** X1: the extension and the JSON verdict of a content type depend on its
    normal form only, which has no parameters, no outer white space and
    no capital letters; letter case and the parameters after the first
    [;] change neither. *)
Theorem content_type_reading_is_normalized (ct params : string) :
  extensionFromContentType (normalizeContentType ct) =
    extensionFromContentType ct /\
  isJsonContentType (normalizeContentType ct) = isJsonContentType ct /\
  normalizeContentType (toLowerCase ct) = normalizeContentType ct /\
  (";"%char ∉ chars_of ct ->
   normalizeContentType (ct +:+ ";" +:+ params) = normalizeContentType ct).
Proof.
  split; [| split; [| split]].
  - unfold extensionFromContentType. now rewrite normalizeContentType_idem.
  - unfold isJsonContentType. now rewrite normalizeContentType_idem.
  - unfold normalizeContentType, toLowerCase. rewrite chars_of_str_of.
    rewrite before_first_map_lower, trim_chars_map_lower, map_map.
    f_equal. apply map_ext. apply lower_char_idem.
  - intros Hfree. unfold normalizeContentType.
    rewrite !chars_of_app. cbn [chars_of list_ascii_of_string app].
    rewrite (before_first_app _ _ _ Hfree), (before_first_id _ _ Hfree).
    reflexivity.
Qed.

Lemma is_plain_extension_spec (ext : string) :
  is_plain_extension ext = true <-> plain_extension ext.
Proof.
  unfold is_plain_extension, plain_extension. split.
  - destruct (chars_of ext) as [|c s]; [discriminate |].
    rewrite !andb_true_iff, bool_decide_eq_true, forallb_forall.
    intros [[-> Hs] Hall]. exists s. split; [reflexivity |]. split.
    + now destruct s.
    + apply Forall_forall. intros x Hx. apply Hall. now apply list_elem_of_In.
  - intros (s & -> & Hs & Hall).
    rewrite !andb_true_iff, bool_decide_eq_true, forallb_forall.
    split; [split; [reflexivity | now destruct s] |].
    intros x Hx. rewrite Forall_forall in Hall. apply Hall.
    now apply list_elem_of_In.
Qed.

Lemma table_lookup_elem (k v : string) (m : list (string * string)) :
  table_lookup k m = Some v -> In v (map snd m).
Proof.
  induction m as [|[k' v'] m IH]; cbn; [discriminate |].
  destruct (str_eqb k k'); [intros [= ->]; now left | right; now apply IH].
Qed.

Lemma subtype_char_lower (c : ascii) :
  is_subtype_char c = true -> is_ext_char (lower_char c) = true.
Proof. by_cases_on_char c. Qed.

Lemma extension_empty_or_plain (contentType : string) :
  ~ inherited_key (normalizeContentType contentType) ->
  extensionFromContentType contentType = "" \/
  plain_extension (extensionFromContentType contentType).
Proof.
  intros _. unfold extensionFromContentType. cbv zeta.
  destruct (negb (nonempty _)); [now left |].
  destruct (table_lookup _ MIME_EXTENSION_MAP) as [mapped|] eqn:Hmap.
  { right. apply is_plain_extension_spec.
    apply table_lookup_elem in Hmap.
    assert (Hall : forallb is_plain_extension (map snd MIME_EXTENSION_MAP)
                   = true) by (vm_compute; reflexivity).
    rewrite forallb_forall in Hall. now apply Hall. }
  destruct (after_first slash _) as [rest|]; [| now left].
  destruct (is_nil _ || is_nil _); [now left |].
  destruct (is_nil (before_first "+"%char _)) eqn:Hnil; [now left |].
  destruct (chars_eqb _ "image" && forallb is_subtype_char _) eqn:Himage.
  - right. apply andb_true_iff in Himage as [_ Hall].
    eexists. rewrite chars_of_str_of. split; [reflexivity |]. split.
    + intros Hmap'. apply map_eq_nil in Hmap'. rewrite Hmap' in Hnil.
      discriminate.
    + apply Forall_forall. intros x Hx.
      apply list_elem_of_fmap in Hx as (c & -> & Hc).
      apply subtype_char_lower. rewrite forallb_forall in Hall.
      apply Hall. now apply list_elem_of_In.
  - destruct (chars_eqb _ "text" && chars_eqb _ "csv"); [| now left].
    right. now apply is_plain_extension_spec.
Qed.

(** X2: the extension read off a content type is empty, or a dot followed
    by one or more of [a-z0-9-]: it holds no path separator, no white
    space and no second dot.  A content type whose normal form spells a
    name that the table inherits is left aside. *)
Theorem extensionFromContentType_shape (contentType : string) :
  ~ inherited_key (normalizeContentType contentType) ->
  extensionFromContentType contentType = "" \/
  plain_extension (extensionFromContentType contentType).
Proof. apply extension_empty_or_plain. Qed.


(** ** Extensions of file names *)

Lemma drop_slashes_id (l : chars) :
  match l with [] => True | c :: _ => c <> slash end -> drop_slashes l = l.
Proof.
  destruct l as [|c l]; cbn; [reflexivity |]. intros Hc.
  now destruct (ascii_dec c slash).
Qed.

Lemma ext_char_plain (c : ascii) :
  is_ext_char c = true -> c <> slash /\ c <> dot /\ is_safe_char c = true.
Proof. by_cases_on_char c; repeat split; discriminate. Qed.

Lemma safe_char_no_slash (c : ascii) : is_safe_char c = true -> c <> slash.
Proof. by_cases_on_char c. Qed.

(** A name without directory part that is not empty gets the extension
    that is appended to it. *)
Lemma extname_chars_app (n s : chars) :
  n <> [] -> slash ∉ n -> s <> [] ->
  Forall (fun c => is_ext_char c = true) s ->
  extname_chars (n ++ dot :: s) = dot :: s.
Proof.
  intros Hn Hslash Hs Hall.
  assert (Hs_slash : slash ∉ s).
  { intros Hin. rewrite Forall_forall in Hall.
    now destruct (ext_char_plain _ (Hall _ Hin)). }
  assert (Hs_dot : dot ∉ s).
  { intros Hin. rewrite Forall_forall in Hall.
    now destruct (ext_char_plain _ (Hall _ Hin)) as (_ & Hd & _). }
  assert (Hbase : basename_chars (n ++ dot :: s) = n ++ dot :: s).
  { unfold basename_chars.
    rewrite drop_slashes_id.
    - rewrite before_first_id; [apply rev_involutive |].
      intros Hin. apply ReducerProps.elem_of_rev, elem_of_app in Hin.
      destruct Hin as [Hin | Hin]; [contradiction |].
      apply elem_of_cons in Hin as [Hin | Hin]; [discriminate | contradiction].
    - rewrite rev_app_distr. cbn [rev].
      destruct s as [|c s] using rev_ind; [contradiction |].
      rewrite rev_app_distr. cbn. intros ->. apply Hs_slash.
      apply elem_of_app. right. apply list_elem_of_here. }
  unfold extname_chars. cbv zeta. rewrite Hbase.
  assert (Hsuf : after_last dot (n ++ dot :: s) = s).
  { unfold after_last. rewrite rev_app_distr. cbn [rev].
    rewrite <- app_assoc. cbn [app].
    rewrite before_first_app; [apply rev_involutive |].
    intros Hin. apply (proj1 (ReducerProps.elem_of_rev _ _)) in Hin.
    contradiction. }
  rewrite Hsuf.
  destruct (forallb _ (n ++ dot :: s)) eqn:Hnodot.
  { rewrite forallb_forall in Hnodot.
    specialize (Hnodot dot (in_or_app _ _ _ (or_intror (in_eq _ _)))).
    rewrite bool_decide_eq_true_2 in Hnodot by reflexivity. discriminate. }
  rewrite length_app. cbn [length].
  replace (length n + S (length s) - length s - 1)%nat with (length n) by lia.
  destruct (length n =? 0)%nat eqn:Hlen.
  { apply Nat.eqb_eq in Hlen. destruct n; [contradiction | discriminate]. }
  rewrite bool_decide_eq_false_2; [reflexivity |].
  intros Heq. apply (f_equal (@length ascii)) in Heq.
  rewrite length_app in Heq. cbn in Heq.
  destruct n; [contradiction |]. destruct s; [contradiction |].
  cbn in Heq. lia.
Qed.

Lemma applyExtension_spec (fileName ext : string) :
  fileName <> "" ->
  slash ∉ chars_of fileName ->
  plain_extension ext ->
  extname (applyExtension fileName ext) <> "" /\
  applyExtension (applyExtension fileName ext) ext =
    applyExtension fileName ext /\
  (extname fileName <> "" -> applyExtension fileName ext = fileName) /\
  (extname fileName = "" ->
   applyExtension fileName ext = fileName +:+ ext /\
   extname (fileName +:+ ext) = ext).
Proof.
  intros Hname Hslash (s & Hext & Hs & Hall).
  assert (Hne : nonempty ext = true).
  { apply nonempty_chars. rewrite Hext. discriminate. }
  assert (Happ : extname (fileName +:+ ext) = ext).
  { unfold extname. rewrite chars_of_app, Hext, extname_chars_app; auto.
    - rewrite <- Hext. apply str_of_chars_of.
    - intros Hnil. apply Hname. apply chars_of_inj. now rewrite Hnil. }
  unfold applyExtension. rewrite Hne. cbn [negb].
  destruct (nonempty (extname fileName)) eqn:Hcur.
  - rewrite Hcur. apply nonempty_true in Hcur.
    split; [exact Hcur |]. split; [reflexivity |].
    split; [reflexivity | contradiction].
  - apply nonempty_false in Hcur. rewrite Happ, Hne.
    split; [now apply nonempty_true |]. split; [reflexivity |].
    split; [contradiction | auto].
Qed.

(** X3: on a name that is not empty and has no directory part,
    [applyExtension] with an extension leaves a name that has an
    extension: the name itself when it had one, else the name followed
    by the extension, which is then its extension; applied again it
    changes nothing. *)
Theorem applyExtension_gives_extension (fileName ext : string) :
  fileName <> "" ->
  slash ∉ chars_of fileName ->
  plain_extension ext ->
  extname (applyExtension fileName ext) <> "" /\
  applyExtension (applyExtension fileName ext) ext =
    applyExtension fileName ext /\
  (extname fileName <> "" -> applyExtension fileName ext = fileName) /\
  (extname fileName = "" ->
   applyExtension fileName ext = fileName +:+ ext /\
   extname (fileName +:+ ext) = ext).
Proof. apply applyExtension_spec. Qed.


(** ** The names of saved files *)

Lemma sanitizeFileName_safe (s : string) : safe_name (sanitizeFileName s).
Proof.
  unfold safe_name, sanitizeFileName. rewrite chars_of_str_of.
  apply Forall_forall. intros x Hx.
  apply list_elem_of_fmap in Hx as (c & -> & _).
  destruct (is_safe_char c) eqn:Hc; [exact Hc | reflexivity].
Qed.

Lemma sanitizeFileName_length (s : string) :
  String.length (sanitizeFileName s) = String.length s.
Proof.
  unfold sanitizeFileName.
  now rewrite <- !length_chars_of, chars_of_str_of, length_map.
Qed.

Lemma sanitizeFileName_id (s : string) :
  safe_name s -> sanitizeFileName s = s.
Proof.
  unfold safe_name, sanitizeFileName. intros Hsafe.
  rewrite <- (str_of_chars_of s) at 2. f_equal.
  induction Hsafe as [|c l Hc _ IH]; cbn; [reflexivity |].
  now rewrite Hc, IH.
Qed.

Lemma sanitizeFileName_nonempty (s : string) :
  s <> "" -> sanitizeFileName s <> "".
Proof.
  intros Hs Heq. apply (f_equal String.length) in Heq.
  rewrite sanitizeFileName_length in Heq. now destruct s.
Qed.

Lemma safe_name_app (a b : string) :
  safe_name a -> safe_name b -> safe_name (a +:+ b).
Proof.
  unfold safe_name. rewrite chars_of_app. apply Forall_app_2.
Qed.

Lemma safe_name_no_slash (s : string) : safe_name s -> slash ∉ chars_of s.
Proof.
  unfold safe_name. rewrite Forall_forall. intros Hsafe Hin.
  now apply (safe_char_no_slash _ (Hsafe _ Hin)).
Qed.

Lemma plain_extension_safe (ext : string) :
  plain_extension ext -> safe_name ext.
Proof.
  intros (s & Hext & _ & Hall). unfold safe_name. rewrite Hext.
  constructor; [reflexivity |].
  eapply Forall_impl; [exact Hall |]. intros c Hc.
  now destruct (ext_char_plain c Hc) as (_ & _ & Hsafe).
Qed.

Lemma append_nonempty_l (a b : string) : a <> "" -> a +:+ b <> "".
Proof. destruct a; [contradiction | discriminate]. Qed.

Lemma append_dash_nonempty (a b : string) : a +:+ "-" +:+ b <> "".
Proof. destruct a; discriminate. Qed.

(** The name under which a buffer is saved. *)
Lemma saved_name_safe (base contentType : string) :
  base <> "" ->
  ~ inherited_key (normalizeContentType contentType) ->
  let name := applyExtension (sanitizeFileName base)
                (extensionFromContentType contentType) in
  name <> "" /\ safe_name name /\
  (extensionFromContentType contentType <> "" -> extname name <> "").
Proof.
  intros Hbase Hkey name.
  pose proof (sanitizeFileName_nonempty base Hbase) as Hne.
  pose proof (sanitizeFileName_safe base) as Hsafe.
  destruct (extension_empty_or_plain contentType Hkey) as [Hext | Hext].
  - subst name. rewrite Hext. unfold applyExtension. cbn.
    split; [exact Hne |]. split; [exact Hsafe | contradiction].
  - destruct (applyExtension_spec (sanitizeFileName base) _
                Hne (safe_name_no_slash _ Hsafe) Hext)
      as (Hhas & _ & Hkeep & Hadd).
    split; [| split; [| intros _; exact Hhas]].
    + subst name. unfold applyExtension.
      destruct (negb _); [exact Hne |].
      destruct (nonempty (extname _)); [exact Hne |].
      now apply append_nonempty_l.
    + subst name. unfold applyExtension.
      destruct (negb _); [exact Hsafe |].
      destruct (nonempty (extname _)); [exact Hsafe |].
      apply safe_name_app; [exact Hsafe |].
      now apply plain_extension_safe.
Qed.

(** *** Decimal numerals and the names of a run *)

Lemma uint_digits (d : Decimal.uint) :
  Forall (fun c => is_digit c = true)
         (chars_of (DecimalString.NilEmpty.string_of_uint d)).
Proof. induction d; cbn; constructor; auto. Qed.

Lemma nzhead_no_zero (d u : Decimal.uint) :
  Decimal.nzhead d <> Decimal.D0 u.
Proof. induction d; cbn; try discriminate. exact IHd. Qed.

Lemma to_uint_no_leading_zero (p : positive) (u : Decimal.uint) :
  Pos.to_uint p <> Decimal.D0 u.
Proof.
  intros Heq.
  pose proof (DecimalPos.Unsigned.to_of (Pos.to_uint p)) as Hnorm.
  rewrite DecimalPos.Unsigned.of_to in Hnorm. cbn in Hnorm.
  rewrite Heq in Hnorm at 1. unfold Decimal.unorm in Hnorm.
  destruct (Decimal.nzhead (Pos.to_uint p)) eqn:Hhead;
    try discriminate.
  - injection Hnorm as Hu. subst u.
    exact (DecimalPos.Unsigned.to_uint_nonzero p Heq).
  - exact (nzhead_no_zero (Pos.to_uint p) u0 Hhead).
Qed.

(** [String(n)] of an integer that is not negative: digits, at least
    one, and no leading zero but for zero itself. *)
Lemma dec_string_digits (z : Z) :
  (0 <= z)%Z ->
  dec_string z <> "" /\
  Forall (fun c => is_digit c = true) (chars_of (dec_string z)) /\
  (dec_string z = "0" \/
   exists c s, dec_string z = String c s /\ c <> "0"%char).
Proof.
  intros Hz. unfold dec_string. destruct z as [|p|p]; [| | lia].
  - cbn. split; [discriminate |]. split; [repeat constructor | now left].
  - cbn [Z.to_int DecimalString.NilZero.string_of_int].
    pose proof (DecimalPos.Unsigned.to_uint_nonnil p) as Hnil.
    pose proof (to_uint_no_leading_zero p) as Hlead.
    pose proof (uint_digits (Pos.to_uint p)) as Hdigits.
    unfold DecimalString.NilZero.string_of_uint.
    destruct (Pos.to_uint p) as [|u|u|u|u|u|u|u|u|u|u] eqn:Hp;
      [contradiction | now contradiction (Hlead u) | ..];
      (split; [discriminate |]); (split; [exact Hdigits |]); right;
      eexists _, _; (split; [reflexivity | discriminate]).
Qed.

Lemma dec_string_inj (a b : Z) : dec_string a = dec_string b -> a = b.
Proof.
  unfold dec_string. intros Heq.
  assert (Hok : forall z, Z.to_int z <> Decimal.Pos Decimal.Nil /\
                          Z.to_int z <> Decimal.Neg Decimal.Nil).
  { intros [|p|p]; cbn; split; try discriminate; intros [= Hp];
      now apply (DecimalPos.Unsigned.to_uint_nonnil p). }
  pose proof (DecimalString.NilZero.isi (Z.to_int a)
                (proj1 (Hok a)) (proj2 (Hok a))) as Ha.
  pose proof (DecimalString.NilZero.isi (Z.to_int b)
                (proj1 (Hok b)) (proj2 (Hok b))) as Hb.
  rewrite Heq, Hb in Ha. injection Ha as Ha.
  rewrite <- (DecimalZ.of_to a), <- (DecimalZ.of_to b). now rewrite Ha.
Qed.

Lemma pad2_digits (z : Z) :
  (0 <= z)%Z ->
  Forall (fun c => is_digit c = true) (chars_of (pad2 (dec_string z))).
Proof.
  intros Hz. destruct (dec_string_digits z Hz) as (_ & Hdigits & _).
  unfold pad2. destruct (dec_string z) as [|c [|c' s]];
    [repeat constructor | constructor; [reflexivity | exact Hdigits]
    | exact Hdigits].
Qed.

Lemma pad2_dec_inj (a b : Z) :
  (0 <= a)%Z -> (0 <= b)%Z ->
  pad2 (dec_string a) = pad2 (dec_string b) -> a = b.
Proof.
  intros Ha Hb Heq. apply dec_string_inj.
  destruct (dec_string_digits a Ha) as (Hna & _ & Hla).
  destruct (dec_string_digits b Hb) as (Hnb & _ & Hlb).
  unfold pad2 in Heq.
  destruct (dec_string a) as [|ca [|ca' sa]]; [contradiction | |];
    destruct (dec_string b) as [|cb [|cb' sb]]; try contradiction.
  - injection Heq as ->. reflexivity.
  - injection Heq as <- <- <-.
    destruct Hlb as [[=] | (c & s & [= <- _] & Hc)]. contradiction.
  - injection Heq as -> -> ->.
    destruct Hla as [[=] | (c & s & [= <- _] & Hc)]. contradiction.
  - exact Heq.
Qed.

(** A run of digits is read off the front of a text whose rest is empty
    or starts with a code unit that is no digit. *)
Lemma digits_run (d1 d2 e1 e2 : chars) :
  Forall (fun c => is_digit c = true) d1 ->
  Forall (fun c => is_digit c = true) d2 ->
  match e1 with [] => True | c :: _ => is_digit c = false end ->
  match e2 with [] => True | c :: _ => is_digit c = false end ->
  d1 ++ e1 = d2 ++ e2 -> d1 = d2.
Proof.
  intros H1. revert d2. induction H1 as [|c d1 Hc H1 IH];
    intros d2 H2 He1 He2 Heq.
  - destruct H2 as [|c d2 Hc H2]; [reflexivity |]. cbn in Heq.
    destruct e1 as [|c' e1]; [discriminate |].
    injection Heq as -> _. congruence.
  - destruct H2 as [|c2 d2 Hc2 H2]; cbn in Heq.
    + destruct e2 as [|c' e2]; [discriminate |].
      injection Heq as <- _. congruence.
    + injection Heq as <- Heq. f_equal. now apply (IH d2).
Qed.

Lemma sanitizeFileName_app (a b : string) :
  sanitizeFileName (a +:+ b) = sanitizeFileName a +:+ sanitizeFileName b.
Proof.
  apply chars_of_inj. unfold sanitizeFileName.
  rewrite chars_of_str_of, !chars_of_app, !chars_of_str_of, map_app.
  reflexivity.
Qed.

Lemma digit_is_safe (c : ascii) : is_digit c = true -> is_safe_char c = true.
Proof. by_cases_on_char c. Qed.

Lemma applyExtension_appends (fileName ext : string) :
  exists e, applyExtension fileName ext = fileName +:+ e /\
            (e = "" \/ e = ext).
Proof.
  unfold applyExtension. destruct (negb (nonempty ext)).
  - exists "". split; [| now left]. apply chars_of_inj.
    now rewrite chars_of_app, app_nil_r.
  - destruct (nonempty (extname fileName)).
    + exists "". split; [| now left]. apply chars_of_inj.
      now rewrite chars_of_app, app_nil_r.
    + exists ext. split; [reflexivity | now right].
Qed.

(** The names of two files of one run with different file indexes
    differ, whatever their extensions. *)
Lemma random_names_differ (r1 r2 : ImageRun) (ext1 ext2 : string) :
  ir_runId r1 = ir_runId r2 ->
  ir_filePrefix r1 = ir_filePrefix r2 ->
  (0 <= ir_nextFileIndex r1)%Z -> (0 <= ir_nextFileIndex r2)%Z ->
  ir_nextFileIndex r1 <> ir_nextFileIndex r2 ->
  ext1 = "" \/ plain_extension ext1 ->
  ext2 = "" \/ plain_extension ext2 ->
  applyExtension (sanitizeFileName (fst (nextRandomBaseName r1))) ext1 <>
  applyExtension (sanitizeFileName (fst (nextRandomBaseName r2))) ext2.
Proof.
  intros Hid Hprefix H1 H2 Hne He1 He2 Heq. apply Hne.
  apply (pad2_dec_inj _ _ H1 H2).
  assert (Hrest : forall ext e,
             ext = "" \/ plain_extension ext -> e = "" \/ e = ext ->
             match chars_of e with
             | [] => True
             | c :: _ => is_digit c = false
             end).
  { intros ext e Hext [-> | ->]; [exact I |].
    destruct Hext as [-> | (s & -> & _)]; [exact I | reflexivity]. }
  assert (Hsan : forall z, (0 <= z)%Z ->
             sanitizeFileName (pad2 (dec_string z)) = pad2 (dec_string z)).
  { intros z Hz. apply sanitizeFileName_id. unfold safe_name.
    eapply Forall_impl; [apply (pad2_digits z Hz) |].
    intros c. apply digit_is_safe. }
  cbn [nextRandomBaseName fst] in Heq. rewrite <- Hid, <- Hprefix in Heq.
  set (front := (if nonempty (ir_filePrefix r1) then ir_filePrefix r1
                 else "image") +:+ "-" +:+ ir_runId r1 +:+ "-") in Heq.
  destruct (applyExtension_appends
              (sanitizeFileName (front +:+ pad2 (dec_string (ir_nextFileIndex r1))))
              ext1) as (e1 & Happ1 & Hcase1).
  destruct (applyExtension_appends
              (sanitizeFileName (front +:+ pad2 (dec_string (ir_nextFileIndex r2))))
              ext2) as (e2 & Happ2 & Hcase2).
  assert (Hshape : forall z,
             ((if nonempty (ir_filePrefix r1) then ir_filePrefix r1
               else "image") +:+ "-" +:+ ir_runId r1 +:+ "-" +:+
              pad2 (dec_string z)) = front +:+ pad2 (dec_string z)).
  { intros z. unfold front. apply chars_of_inj.
    rewrite !chars_of_app, <- !app_assoc. reflexivity. }
  rewrite !Hshape, Happ1, Happ2, !sanitizeFileName_app in Heq.
  rewrite (Hsan _ H1), (Hsan _ H2) in Heq.
  apply (f_equal chars_of) in Heq. rewrite !chars_of_app, <- !app_assoc in Heq.
  apply app_inv_head in Heq. apply chars_of_inj.
  exact (digits_run _ _ _ _ (pad2_digits _ H1) (pad2_digits _ H2)
           (Hrest ext1 e1 He1 Hcase1) (Hrest ext2 e2 He2 Hcase2) Heq).
Qed.

Section SavingProps.
Context `{Platform}.


Lemma saveDownloadRecord_outcome (net : Net)
    (record : option DownloadRecord) (w : World) :
  one_file_or_nothing w (saveDownloadRecord net record w).
Proof.
  unfold saveDownloadRecord. destruct record as [record|];
    [| left; split; reflexivity].
  unfold bind, lift_res, get_state, ret.
  destruct (or_else_res (rec_metadataId record) _) as [id1|]; [| reflexivity].
  destruct (or_else_res id1 _) as [metadataId|]; [| reflexivity].
  destruct (rec_buffer record) as [buffer|].
  - destruct (saveBufferToDisk_spec buffer
                (match rec_fileName record with
                 | Some n => Some n
                 | None => Some ("download-" +:+ dec_string (w_now w))
                 end)
                (header_or_empty (rec_contentType record)) metadataId w)
      as (f & w' & -> & Hd & (_ & _ & _ & Hnow) & Hp & Hid & _ & Hlen & _).
    right. exists f, buffer. rewrite Hid. auto.
  - destruct (truthy (rec_downloadUrl record)); [| left; split; reflexivity].
    unfold fetchDownloadWithRetry, lift_res.
    destruct (fr_result _) as [fetched|]; [| reflexivity].
    match goal with
    | |- context [saveBufferToDisk ?b ?n ?c ?i w] =>
        destruct (saveBufferToDisk_spec b n c i w)
          as (f & w' & -> & Hd & (_ & _ & _ & Hnow) & Hp & Hid & _ & Hlen & _)
    end.
    right. exists f, (f_buffer fetched). rewrite Hid. auto.
Qed.

(** X5: the two savers that work outside a capture session,
    [saveDownloadRecord] and [saveDownloadFromUrl], write one file or
    nothing: when they throw, or return the empty result, the output
    directory is as before; otherwise one buffer was written to one path
    and the result reports that one file, with count 1, its metadata id
    as the only id, its byte length, and no events. *)
Theorem savers_write_one_file_or_nothing (first : HttpOutcome) (net : Net)
    (record : option DownloadRecord) (url : string) (w : World) :
  one_file_or_nothing w (saveDownloadRecord net record w) /\
  one_file_or_nothing w (saveDownloadFromUrl first net url w).
Proof.
  split; [apply saveDownloadRecord_outcome |].
  unfold saveDownloadFromUrl. destruct first as [|response]; [reflexivity |].
  cbv zeta. unfold bind at 1. unfold lift_res at 1.
  destruct (extractFileId url) as [initialMetadataId|]; [| reflexivity].
  rewrite bind_get_state.
  destruct (isJsonContentType _).
  - destruct (h_json response) as [| |fileInfo];
      [reflexivity | left; split; reflexivity |].
    destruct (truthy (j_detail_message fileInfo));
      [left; split; reflexivity |].
    destruct (negb (truthy (j_download_url fileInfo)));
      [left; split; reflexivity |].
    unfold bind at 1. unfold lift_res at 1.
    destruct (extract_opt (j_download_url fileInfo)) as [fromUrl|];
      [| reflexivity].
    apply saveDownloadRecord_outcome.
  - destruct (h_body response) as [buffer|]; [| reflexivity].
    unfold bind, ret.
    match goal with
    | |- context [saveBufferToDisk ?b ?n ?c ?i w] =>
        destruct (saveBufferToDisk_spec b n c i w)
          as (f & w' & -> & Hd & (_ & _ & _ & Hnow) & Hp & Hid & _ & Hlen & _)
    end.
    right. exists f, buffer. rewrite Hid. auto.
Qed.

(** A save in a run that randomizes names. *)
Lemma saveBufferToDisk_randomized (buffer : Bytes) (fileName : option string)
    (contentType : string) (metadataId : option string) (w : World)
    (r : ImageRun) :
  w_imageRun w = Some r -> ir_randomizeFileNames r = true ->
  exists f w',
    saveBufferToDisk buffer fileName contentType metadataId w = (Ok f, w') /\
    sf_filePath f =
      resolve_in_outputDir
        (applyExtension (sanitizeFileName (fst (nextRandomBaseName r)))
           (extensionFromContentType contentType)) /\
    w_imageRun w' = Some (snd (nextRandomBaseName r)) /\
    w_disk w' = <[sf_filePath f := buffer]> (w_disk w).
Proof.
  intros Hrun Hrand. unfold saveBufferToDisk. rewrite Hrun, Hrand. cbv zeta.
  cbn [nextRandomBaseName]. eexists _, _. split; [reflexivity |].
  repeat split.
Qed.


(** X12: in a run that randomizes file names, two saves made at
    different file indexes of the run are written to different paths,
    whatever their name hints and content types, and each save advances
    the file index by one; so the saves of one run never overwrite one
    another.  The output directory is taken to resolve different safe
    names to different paths. *)
Theorem randomized_saves_get_distinct_paths
    (b1 b2 : Bytes) (n1 n2 : option string) (ct1 ct2 : string)
    (id1 id2 : option string) (w1 w2 : World) (r1 r2 : ImageRun) :
  (forall a b, a <> "" -> b <> "" -> safe_name a -> safe_name b ->
               resolve_in_outputDir a = resolve_in_outputDir b -> a = b) ->
  ~ inherited_key (normalizeContentType ct1) ->
  ~ inherited_key (normalizeContentType ct2) ->
  w_imageRun w1 = Some r1 -> w_imageRun w2 = Some r2 ->
  ir_randomizeFileNames r1 = true -> ir_randomizeFileNames r2 = true ->
  ir_runId r1 = ir_runId r2 -> ir_filePrefix r1 = ir_filePrefix r2 ->
  (0 <= ir_nextFileIndex r1)%Z -> (0 <= ir_nextFileIndex r2)%Z ->
  ir_nextFileIndex r1 <> ir_nextFileIndex r2 ->
  exists f1 w1' f2 w2' r1',
    saveBufferToDisk b1 n1 ct1 id1 w1 = (Ok f1, w1') /\
    saveBufferToDisk b2 n2 ct2 id2 w2 = (Ok f2, w2') /\
    sf_filePath f1 <> sf_filePath f2 /\
    w_imageRun w1' = Some r1' /\
    ir_nextFileIndex r1' = (ir_nextFileIndex r1 + 1)%Z /\
    ir_runId r1' = ir_runId r1 /\ ir_filePrefix r1' = ir_filePrefix r1 /\
    ir_randomizeFileNames r1' = true.
Proof.
  intros Hinj Hk1 Hk2 Hrun1 Hrun2 Hrand1 Hrand2 Hid Hprefix Hi1 Hi2 Hne.
  destruct (saveBufferToDisk_randomized b1 n1 ct1 id1 w1 r1 Hrun1 Hrand1)
    as (f1 & w1' & Hsave1 & Hpath1 & Hnext1 & _).
  destruct (saveBufferToDisk_randomized b2 n2 ct2 id2 w2 r2 Hrun2 Hrand2)
    as (f2 & w2' & Hsave2 & Hpath2 & _).
  exists f1, w1', f2, w2', (snd (nextRandomBaseName r1)).
  split; [exact Hsave1 |]. split; [exact Hsave2 |]. split.
  - rewrite Hpath1, Hpath2. intros Heq.
    assert (Hbase : forall r, fst (nextRandomBaseName r) <> "").
    { intros r. cbn. apply append_dash_nonempty. }
    destruct (saved_name_safe _ ct1 (Hbase r1) Hk1) as (Hne1 & Hsafe1 & _).
    destruct (saved_name_safe _ ct2 (Hbase r2) Hk2) as (Hne2 & Hsafe2 & _).
    apply (Hinj _ _ Hne1 Hne2 Hsafe1 Hsafe2) in Heq.
    exact (random_names_differ r1 r2 _ _ Hid Hprefix Hi1 Hi2 Hne
             (extension_empty_or_plain ct1 Hk1)
             (extension_empty_or_plain ct2 Hk2) Heq).
  - split; [exact Hnext1 |]. cbn. rewrite Hrand1. repeat split.
Qed.


End SavingProps.

(** ** What a session reports *)

Lemma add_ids_prefix (ids acc : list string) :
  acc `prefix_of` add_ids ids acc.
Proof.
  unfold add_ids. revert acc. induction ids as [|i ids IH]; intros acc; cbn.
  - reflexivity.
  - etransitivity; [| apply IH].
    destruct (nonempty i); [| reflexivity]. unfold js_set_add.
    case_bool_decide; [reflexivity | now apply prefix_app_r].
Qed.

Lemma add_ids_NoDup (ids acc : list string) :
  NoDup acc -> NoDup (add_ids ids acc).
Proof.
  unfold add_ids. revert acc. induction ids as [|i ids IH]; intros acc Hacc;
    cbn; [exact Hacc |].
  apply IH. destruct (nonempty i); [| exact Hacc].
  apply (js_set_go_NoDup [i] acc Hacc).
Qed.

Lemma add_ids_nonempty (ids acc : list string) :
  Forall (fun id => id <> "") acc ->
  Forall (fun id => id <> "") (add_ids ids acc).
Proof.
  unfold add_ids. revert acc. induction ids as [|i ids IH]; intros acc Hacc;
    cbn; [exact Hacc |].
  apply IH. destruct (nonempty i) eqn:Hi; [| exact Hacc].
  unfold js_set_add. case_bool_decide; [exact Hacc |].
  apply Forall_app_2; [exact Hacc |]. constructor; [| constructor].
  now apply nonempty_true.
Qed.

Lemma saved_event_paths_app (a b : list StreamEvent) :
  saved_event_paths (a ++ b) = saved_event_paths a ++ saved_event_paths b.
Proof. unfold saved_event_paths. now rewrite List.filter_app, map_app. Qed.

Lemma results_grow_refl (s : Session) : results_grow s s.
Proof. repeat split; reflexivity. Qed.

Lemma results_grow_trans (s s' s'' : Session) :
  results_grow s s' -> results_grow s' s'' -> results_grow s s''.
Proof.
  intros (H1 & H2 & H3 & H4 & H5) (K1 & K2 & K3 & K4 & K5).
  repeat split; try lia; etransitivity; eauto.
Qed.

Lemma js_set_values_NoDup_id (l : list string) :
  NoDup l -> js_set_values l = l.
Proof.
  induction l as [|x l IH] using rev_ind; intros Hnd; [reflexivity |].
  apply NoDup_app in Hnd as (Hl & Hx & _).
  unfold js_set_values in *. rewrite fold_left_app. cbn. rewrite (IH Hl).
  unfold js_set_add. rewrite bool_decide_eq_false_2; [reflexivity |].
  intros Hin. apply (Hx x Hin). apply list_elem_of_here.
Qed.

Lemma filter_nonempty_id (l : list string) :
  Forall (fun id => id <> "") l -> List.filter nonempty l = l.
Proof.
  intros Hl. apply filter_all_true. intros x Hx.
  apply nonempty_true. rewrite Forall_forall in Hl. apply Hl.
  now apply list_elem_of_In.
Qed.

Section SessionResults.
Context `{Platform}.
Variable opts : Options.

Lemma changes_trans (copies : bool) (st st' st'' : St) :
  changes copies st st' -> changes copies st' st'' -> changes copies st st''.
Proof.
  intros H1 H2. induction H2 as [|st' t t' _ IH Hstep]; [exact H1 |].
  eapply changes_step; [apply IH, H1 | exact Hstep].
Qed.

Lemma changes_one (copies : bool) (st st' : St) :
  change copies st st' -> changes copies st st'.
Proof. intros Hc. eapply changes_step; [apply changes_refl | exact Hc]. Qed.

(** Changes without copies are changes. *)
Lemma change_mono (copies : bool) (st st' : St) :
  change false st st' -> change copies st st'.
Proof.
  intros [Hn | e He | k Hk | e f ids b Hs | f b (Hcopies & _)].
  - now apply change_none.
  - now apply (change_log _ _ _ e).
  - now apply (change_seen _ _ _ k).
  - now apply (change_save _ _ _ e f ids b).
  - discriminate.
Qed.

Lemma changes_mono (copies : bool) (st st' : St) :
  changes false st st' -> changes copies st st'.
Proof.
  intros Hc. induction Hc as [|s s' s'' _ IH Hstep]; [apply changes_refl |].
  eapply changes_step; [exact IH | now apply change_mono].
Qed.

Lemma add_ids_elem (ids acc : list string) (i : string) :
  i ∈ ids -> i <> "" -> i ∈ add_ids ids acc.
Proof.
  unfold add_ids. revert acc. induction ids as [|j ids IH]; intros acc Hin Hi;
    [now apply elem_of_nil in Hin |].
  cbn. apply elem_of_cons in Hin as [<- | Hin]; [| now apply IH].
  rewrite (proj2 (nonempty_true i) Hi).
  eapply elem_of_prefix; [| apply (add_ids_prefix ids)].
  unfold js_set_add. case_bool_decide; [assumption |].
  apply elem_of_app. right. apply list_elem_of_here.
Qed.

(** Each elementary change keeps the reported results consistent, makes
    them grow, and removes nothing from the output directory. *)
Lemma change_consistent (copies : bool) (st st' : St) :
  change copies st st' ->
  results_consistent (st_session st) -> results_consistent (st_session st').
Proof.
  intros Hc (Hcount & Hpaths & Hdup & Hne & Hcover).
  destruct Hc as [(Hc & Hf & He & _ & Hi & _)
                 | e (Hty & Hc & Hf & He & _ & Hi & _)
                 | k (Hc & Hf & He & _ & Hi & _)
                 | e f ids b
                     (Hty & Hout & _ & Hids & Hc & Hf & He & _ & Hi & _)
                 | f b (_ & _ & Hc & Hf & He & _ & Hi & _)];
    unfold results_consistent; rewrite Hc, Hf, He, Hi.
  - auto.
  - rewrite saved_event_paths_app. unfold saved_event_paths at 2. cbn.
    rewrite (bool_decide_eq_false_2 _ Hty). cbn. rewrite app_nil_r. auto.
  - auto.
  - rewrite saved_event_paths_app. unfold saved_event_paths at 2. cbn.
    rewrite (bool_decide_eq_true_2 _ Hty). cbn.
    rewrite length_app, map_app, Hpaths, Hout. cbn.
    split; [lia |]. split; [reflexivity |].
    split; [now apply add_ids_NoDup |].
    split; [now apply add_ids_nonempty |].
    intros g i Hg Hgi Hne'. apply elem_of_app in Hg as [Hg | Hg].
    + eapply elem_of_prefix; [| apply add_ids_prefix].
      exact (Hcover g i Hg Hgi Hne').
    + apply list_elem_of_singleton in Hg. subst g.
      apply add_ids_elem; [exact (Hids i Hgi Hne') | exact Hne'].
  - auto.
Qed.

Lemma change_grow (copies : bool) (st st' : St) :
  change copies st st' -> results_grow (st_session st) (st_session st').
Proof.
  intros [(Hc & Hf & He & Hs & Hi & _) | e (Hty & Hc & Hf & He & Hs & Hi & _)
         | k (Hc & Hf & He & Hs & Hi & _)
         | e f ids b (Hty & Hout & _ & _ & Hc & Hf & He & Hs & Hi & _)
         | f b (_ & _ & Hc & Hf & He & Hs & Hi & _)];
    unfold results_grow; rewrite Hc, Hf, He, Hs, Hi.
  - repeat split; reflexivity.
  - repeat split; try reflexivity. now apply prefix_app_r.
  - repeat split; try reflexivity. apply union_subseteq_r.
  - split; [lia |]. split; [now apply prefix_app_r |].
    split; [now apply prefix_app_r |]. split; [reflexivity |].
    apply add_ids_prefix.
  - repeat split; reflexivity.
Qed.

Lemma disk_grows_refl (st : St) : disk_grows st st.
Proof.
  split; [auto |]. exists []. split; [now rewrite app_nil_r |].
  intros p Hp. now contradiction Hp.
Qed.

Lemma disk_grows_trans (st st' st'' : St) :
  disk_grows st st' -> disk_grows st' st'' -> disk_grows st st''.
Proof.
  intros (Hkeep & new & Hfiles & Hframe) (Hkeep' & new' & Hfiles' & Hframe').
  split; [auto |]. exists (new ++ new').
  split; [now rewrite Hfiles', Hfiles, app_assoc |].
  intros p Hp.
  destruct (decide (disk_of st' !! p = disk_of st !! p)) as [Heq|Hne].
  - rewrite <- Heq in Hp. destruct (Hframe' p Hp) as [Hin|Hin]; [| now right].
    left. rewrite map_app. apply elem_of_app. now right.
  - destruct (Hframe p Hne) as [Hin|Hin].
    + left. rewrite map_app. apply elem_of_app. now left.
    + right. rewrite Hfiles', map_app. apply elem_of_app. now left.
Qed.

Lemma insert_keeps (disk : gmap string Bytes) (q p : string) (b : Bytes) :
  is_Some (disk !! p) -> is_Some (<[q := b]> disk !! p).
Proof.
  intros Hp. destruct (decide (q = p)) as [->|Hne].
  - rewrite lookup_insert_eq. eauto.
  - now rewrite lookup_insert_ne.
Qed.

Lemma insert_changes (disk : gmap string Bytes) (q p : string) (b : Bytes) :
  <[q := b]> disk !! p <> disk !! p -> p = q.
Proof.
  intros Hp. destruct (decide (q = p)) as [->|Hne]; [reflexivity |].
  now rewrite lookup_insert_ne in Hp.
Qed.

Lemma change_disk (copies : bool) (st st' : St) :
  change copies st st' -> disk_grows st st'.
Proof.
  intros [(_ & Hf & _ & _ & _ & Hd) | e (_ & _ & Hf & _ & _ & _ & Hd)
         | k (_ & Hf & _ & _ & _ & Hd)
         | e f ids b (_ & _ & _ & _ & _ & Hf & _ & _ & _ & Hd)
         | f b (_ & Hin & _ & Hf & _ & _ & _ & Hd)];
    unfold disk_grows; rewrite Hf, Hd.
  1-3: split; [auto |]; exists []; split; [now rewrite app_nil_r |];
       intros p Hp; now contradiction Hp.
  - split; [intros p; apply insert_keeps |]. exists [f].
    split; [reflexivity |]. intros p Hp. left.
    apply insert_changes in Hp. subst p. cbn. apply list_elem_of_here.
  - split; [intros p; apply insert_keeps |]. exists [].
    split; [now rewrite app_nil_r |]. intros p Hp. right.
    apply insert_changes in Hp. subst p.
    apply list_elem_of_fmap. now exists f.
Qed.

Lemma changes_consistent (copies : bool) (st st' : St) :
  changes copies st st' ->
  results_consistent (st_session st) -> results_consistent (st_session st').
Proof.
  intros Hc Hs. induction Hc as [|s s' s'' _ IH Hstep]; [exact Hs |].
  eapply change_consistent; [exact Hstep | now apply IH].
Qed.

Lemma changes_grow (copies : bool) (st st' : St) :
  changes copies st st' -> results_grow (st_session st) (st_session st').
Proof.
  intros Hc. induction Hc as [|s s' s'' _ IH Hstep];
    [apply results_grow_refl |].
  eapply results_grow_trans; [exact IH | now apply (change_grow copies)].
Qed.

Lemma changes_disk (copies : bool) (st st' : St) :
  changes copies st st' -> disk_grows st st'.
Proof.
  intros Hc. induction Hc as [|s s' s'' _ IH Hstep];
    [apply disk_grows_refl |].
  eapply disk_grows_trans; [exact IH | now apply (change_disk copies)].
Qed.

(** The branches of the handler, when every entry they log themselves is
    not a [file_saved] entry. *)
Lemma dispatch_response_hoare_log (P Q : St -> Prop) :
  (forall s, P s -> Q s) ->
  (forall e, ev_type e <> file_saved -> preserves P (emitStreamEvent e)) ->
  (forall b ct n id em,
     hoare P (handleFileBuffer opts b ct n id em)
           (fun res s => res = Ok tt /\ Q s)) ->
  (forall net r ct, hoare P (direct_branch opts net r ct) (fun _ => Q)) ->
  forall net r e d, hoare P (dispatch_response opts net r e d) (fun _ => Q).
Proof.
  intros HPQ Hemit Hhandle Hdirect net r e d.
  set (R := fun (res : Res unit) (s : St) =>
              match res with Ok _ => Q s | Throw _ => P s end).
  assert (Hemit' : forall ev, ev_type ev <> file_saved ->
                              hoare P (emitStreamEvent ev) R).
  { intros ev Hev s Hs. specialize (Hemit ev Hev s Hs). unfold R.
    destruct (emitStreamEvent ev s) as [[[]|err] s']; simpl in *; auto. }
  assert (Hhandle' : forall b ct n id em,
             hoare P (handleFileBuffer opts b ct n id em) R).
  { intros b ct n id em s Hs. destruct (Hhandle b ct n id em s Hs) as [-> HQ].
    exact HQ. }
  assert (Hcatch : forall (m : M St unit) ev,
             ev_type ev <> file_saved ->
             hoare P m R ->
             hoare P (try_catch m (fun _ => emitStreamEvent ev)) (fun _ => Q)).
  { intros m ev Hev Hm. eapply hoare_try_catch; [exact Hm | auto |].
    intros err s Hs. apply HPQ. exact (Hemit ev Hev s Hs). }
  assert (Hprefix : forall A (m : M St A) (k : A -> M St unit),
             preserves P m -> (forall a, hoare P (k a) R) ->
             hoare P (bind m k) R).
  { intros A m k Hm Hk. eapply hoare_bind; [exact Hm | exact Hk |].
    intros err s Hs. exact Hs. }
  unfold dispatch_response. cbv zeta.
  destruct (d && isJsonContentType _).
  - apply Hcatch; [discriminate |]. unfold metadata_branch.
    destruct (r_json r) as [| |o].
    + apply hoare_throw. auto.
    + destruct (negb _ && _); apply Hemit'; discriminate.
    + destruct (negb _ && _); [apply Hemit'; discriminate |].
      destruct (j_download_url o) as [downloadUrl|];
        [| apply Hemit'; discriminate].
      destruct (nonempty downloadUrl); [| apply Hemit'; discriminate].
      apply Hprefix; [apply preserves_lift_res | intros fromDownload].
      apply Hprefix; [apply preserves_lift_res | intros metadataId].
      apply Hprefix; [apply Hemit; discriminate | intros []].
      apply Hprefix; [apply preserves_get_state | intros st].
      apply Hprefix; [apply preserves_fetch | intros fetched].
      apply Hhandle'.
  - destruct (negb (isJsonContentType _)); [apply Hdirect |].
    destruct (e && isJsonContentType _); [| apply hoare_ret; auto].
    apply Hcatch; [discriminate |]. unfold estuary_branch.
    destruct (r_json r) as [| |o].
    + apply hoare_throw. auto.
    + apply Hemit'. discriminate.
    + destruct (or_null (j_item o)) as [item|];
        [| apply Hemit'; discriminate].
      apply Hprefix; [apply Hemit; discriminate | intros []].
      apply Hprefix; [apply preserves_get_state | intros st].
      apply Hprefix; [apply preserves_fetch | intros fetched].
      apply Hhandle'.
Qed.

Lemma processResponse_hoare_log (P Q : St -> Prop) :
  (forall s, P s -> Q s) ->
  (forall e, ev_type e <> file_saved -> preserves P (emitStreamEvent e)) ->
  (forall k, preserves P
               (on_session (fun s => set_seen ({[k]} ∪ cs_seen s) s))) ->
  (forall b ct n id em,
     hoare P (handleFileBuffer opts b ct n id em)
           (fun res s => res = Ok tt /\ Q s)) ->
  (forall net r ct, hoare P (direct_branch opts net r ct) (fun _ => Q)) ->
  forall net r, hoare P (processResponse opts net r) (fun _ => Q).
Proof.
  intros HPQ Hemit Hseen Hhandle Hdirect net r.
  pose proof (dispatch_response_hoare_log P Q HPQ Hemit Hhandle Hdirect)
    as Hdisp.
  unfold processResponse.
  destruct (url_parse (r_url r)) as [u|]; [| apply hoare_throw; auto].
  destruct (negb (str_eqb _ _)); [apply hoare_ret; auto |]. cbv zeta.
  destruct (negb _ && negb _); [apply hoare_ret; auto |].
  apply hoare_bind_get. intros st Hst.
  destruct (negb _ && bool_decide _).
  - apply hoare_ret. intros s ->. auto.
  - eapply hoare_bind with (R := fun _ => P).
    + destruct (negb _).
      * intros s ->. now apply Hseen.
      * apply hoare_ret. now intros s ->.
    + intros []. apply Hdisp.
    + intros err s Hs. auto.
Qed.

Lemma fold_ids_metadataIds (ids : list string) (s : Session) :
  cs_metadataIds
    (fold_left
       (fun s id =>
          if nonempty id
          then set_metadataIds (js_set_add (cs_metadataIds s) id) s else s)
       ids s) =
  add_ids ids (cs_metadataIds s).
Proof.
  unfold add_ids. revert s. induction ids as [|i ids IH]; intros s; cbn;
    [reflexivity |].
  rewrite IH. now destruct (nonempty i).
Qed.

Lemma record_saved_metadataIds (img : bool) (f : SavedFile)
    (id : option string) (s : Session) :
  cs_metadataIds (record_saved opts img f id s) =
  add_ids (match id with Some i => [i] | None => [] end) (cs_metadataIds s).
Proof.
  unfold record_saved.
  set (s1 := set_savedFiles (cs_savedFiles s ++ [f]) s).
  set (s2 := if requireFinalImageFrame opts && img then _ else _).
  set (s3 := match id with Some _ => _ | None => _ end).
  assert (H3 : cs_metadataIds s3 =
               add_ids (match id with Some i => [i] | None => [] end)
                       (cs_metadataIds s)).
  { unfold s3, s2, s1, add_ids.
    destruct id as [i|]; [cbn; destruct (nonempty i) |];
      destruct (requireFinalImageFrame opts && img);
      try destruct (sf_isStreamPart f);
      try destruct (sf_isFinalStreamFrame f); reflexivity. }
  cbv zeta.
  set (s4 := set_savedCount (cs_savedCount s3 + 1) s3).
  destruct (_ <=? _)%Z.
  - destruct (finish_fields s4) as (_ & _ & -> & _). exact H3.
  - destruct (_ && _ && _ && _); [exact H3 |].
    destruct (scheduleIdleCheck_fields opts s4) as (_ & _ & -> & _). exact H3.
Qed.

(** The closing block of [handleFileBuffer] is one save. *)
Lemma record_saved_change (img : bool) (e : StreamEvent) (f : SavedFile)
    (id : option string) (st : St) (w' : World) (b : Bytes) :
  ev_type e = file_saved ->
  ev_outputPath e = or_null (Some (sf_filePath f)) ->
  sf_byteLength f = byteLength b ->
  sf_metadataId f = id ->
  w_disk w' = <[sf_filePath f := b]> (disk_of st) ->
  change false st
         {| st_session :=
              record_saved opts img f id (log_events [e] (st_session st));
            st_world := w' |}.
Proof.
  intros Hty Hout Hlen Hid Hdisk.
  destruct (record_saved_fields opts img f id (log_events [e] (st_session st)))
    as (Hc & Hf & He & Hs & _).
  apply (change_save _ _ _ e f
           (match id with Some i => [i] | None => [] end) b).
  split; [exact Hty |].
  split; [exact Hout |]. split; [exact Hlen |].
  split; [intros i Hi _; rewrite <- Hid, Hi; apply list_elem_of_here |].
  cbn [st_session].
  rewrite Hc, Hf, He, Hs, record_saved_metadataIds. repeat split.
  exact Hdisk.
Qed.

(** [saveDownloadRecord] saves nothing, or one plain file whose report
    gives the byte length of what was written and its metadata id. *)
Lemma saveDownloadRecord_one_file (net : Net)
    (record : option DownloadRecord) (w : World) :
  match saveDownloadRecord net record w with
  | (Ok next, w') => saved_one_file w w' next
  | (Throw _, w') => w' = w
  end.
Proof.
  unfold saveDownloadRecord. destruct record as [record|];
    [| left; split; reflexivity].
  unfold bind, lift_res, get_state, ret.
  destruct (or_else_res (rec_metadataId record) _) as [id1|]; [| reflexivity].
  destruct (or_else_res id1 _) as [metadataId|]; [| reflexivity].
  destruct (rec_buffer record) as [buffer|].
  - destruct (saveBufferToDisk_spec buffer
                (match rec_fileName record with
                 | Some n => Some n
                 | None => Some ("download-" +:+ dec_string (w_now w))
                 end)
                (header_or_empty (rec_contentType record)) metadataId w)
      as (f & w' & -> & Hd & Hm & Hp & Hid & _ & Hlen & _).
    right. exists f, buffer. rewrite Hid. auto.
  - destruct (truthy (rec_downloadUrl record)); [| left; split; reflexivity].
    unfold fetchDownloadWithRetry, lift_res.
    destruct (fr_result _) as [fetched|]; [| reflexivity].
    match goal with
    | |- context [saveBufferToDisk ?b ?n ?c ?i w] =>
        destruct (saveBufferToDisk_spec b n c i w)
          as (f & w' & -> & Hd & Hm & Hp & Hid & _ & Hlen & _)
    end.
    right. exists f, (f_buffer fetched). rewrite Hid. auto.
Qed.

(** The direct branch logs that the name is ignored, or merges what
    [saveDownloadRecord] saved, after the entry of a failed save. *)
Lemma direct_branch_outcome (net : Net) (r : Response) (ct : string)
    (st : St) :
  (exists e,
     ev_type e = file_ignored /\
     direct_branch opts net r ct st =
     (Ok tt, {| st_session := log_events [e] (st_session st);
                st_world := st_world st |})) \/
  (exists next w' evs id,
     saved_one_file (st_world st) w' next /\
     (evs = [] \/
      evs = [save_failed_event "download_response" (r_url r) true ct]) /\
     direct_branch opts net r ct st =
     (Ok tt,
      {| st_session :=
           merge_direct opts (r_url r) id ct next
             (log_events evs (st_session st));
         st_world := w' |})).
Proof.
  unfold direct_branch. rewrite bind_get_state. cbv beta iota zeta.
  destruct (shouldIgnoreCapturedFile opts
              (Some (direct_name_hint r (st_world st))) (Some "")).
  - left. eexists. split; [| reflexivity]. reflexivity.
  - right. unfold bind, try_catch, in_world.
    match goal with
    | |- context [saveDownloadRecord net ?rec (st_world st)] =>
        pose proof (saveDownloadRecord_one_file net rec (st_world st))
          as Hspec;
        destruct (saveDownloadRecord net rec (st_world st)) as [[next | e] w']
    end.
    + exists next, w', [], (responseFileId_of (r_url r)).
      split; [exact Hspec |]. split; [now left |].
      unfold on_session, modify, log_events. cbn [st_session st_world].
      rewrite app_nil_r.
      destruct (st_session st); reflexivity.
    + subst w'. cbn [st_session st_world].
      exists emptySaveResult, (st_world st),
        [save_failed_event "download_response" (r_url r) true ct],
        (responseFileId_of (r_url r)).
      split; [left; split; reflexivity |].
      split; [now right |]. reflexivity.
Qed.

(** What [handleFileBuffer] records when it saves: the entry gives the
    path and the byte length of what was written, and the metadata id. *)
Lemma handleFileBuffer_saved_entry (b : Bytes) (ct n : string)
    (id : option string) (em : EventMeta) (st : St) :
  shouldIgnoreCapturedFile opts (Some n) (em_sourceFileName em) = false ->
  exists w' e entry,
    ev_type e = file_saved /\
    ev_outputPath e = or_null (Some (sf_filePath entry)) /\
    sf_byteLength entry = byteLength b /\
    sf_metadataId entry = id /\
    w_disk w' = <[sf_filePath entry := b]> (w_disk (st_world st)) /\
    handleFileBuffer opts b ct n id em st =
    (Ok tt,
     {| st_session :=
          record_saved opts (run_is_image (st_world st)) entry id
            (log_events [e] (st_session st));
        st_world := w' |}).
Proof.
  intros Hig. unfold handleFileBuffer. rewrite Hig.
  destruct (saveBufferToDisk_spec b
              (Some (str_or n ("download-" +:+ dec_string (w_now (st_world st)))))
              ct id (st_world st))
    as (f & w' & Hsave & Hd & Hm & Hp & Hid & Hct & Hlen & _).
  unfold bind, get_state, in_world, emitStreamEvent, on_session, modify.
  rewrite Hsave. cbn [st_session st_world].
  match goal with
  | |- context [record_saved opts _ ?entry id
                  (set_streamEvents (_ ++ [?e]) _)] =>
      exists w', e, entry
  end.
  repeat split; try reflexivity;
    cbn [sf_byteLength sf_metadataId sf_filePath]; auto.
Qed.

(** The closing block of the direct branch is no change or one save. *)
Lemma merge_direct_change (url : string) (id : option string) (ct : string)
    (next : SaveResult) (s : Session) (w w' : World) :
  saved_one_file w w' next ->
  change false {| st_session := s; st_world := w |}
         {| st_session := merge_direct opts url id ct next s;
            st_world := w' |}.
Proof.
  intros [[-> ->] | (f & b & -> & _ & Hlen & Hdisk & _)]; unfold merge_direct.
  - apply change_none. cbn.
    destruct (_ <=? _)%Z.
    + destruct (finish_fields (set_savedCount (cs_savedCount s + 0) s))
        as (-> & -> & -> & -> & -> & _).
      cbn. repeat split. lia.
    + cbn. repeat split. lia.
  - apply (change_save _ _ _ (direct_saved_event url id ct f) f
             (js_set_values (List.filter nonempty (id_list (sf_metadataId f))))
             b).
    split; [reflexivity |]. split; [reflexivity |]. split; [exact Hlen |].
    split.
    { intros i Hi Hne. rewrite Hi. cbn [id_list].
      rewrite (proj2 (nonempty_true i) Hne). cbn [List.filter].
      rewrite (proj2 (nonempty_true i) Hne).
      rewrite js_set_values_NoDup_id; [apply list_elem_of_here |].
      apply NoDup_singleton. }
    cbn [buildSaveResult sr_savedCount sr_savedFiles sr_metadataIds fold_left
           length st_session].
    match goal with
    | |- context [fold_left ?g ?l ?s0] =>
        pose proof (fold_ids_fields l s0) as Hfold;
        pose proof (fold_ids_metadataIds l s0) as Hids;
        cbv zeta in Hfold; set (s3 := fold_left g l s0) in *
    end.
    destruct Hfold as (Hc & _ & _ & _ & Hs & Hf & He & _).
    cbn in Hc, Hs, Hf, He, Hids.
    destruct (_ <=? _)%Z.
    + destruct (finish_fields s3) as (-> & -> & -> & -> & -> & _).
      rewrite Hc, Hs, Hf, He, Hids. repeat split. exact Hdisk.
    + cbn [Z.ltb Z.compare].
      destruct (scheduleIdleCheck_fields opts s3)
        as (-> & -> & -> & -> & -> & _).
      rewrite Hc, Hs, Hf, He, Hids. repeat split. exact Hdisk.
Qed.

(** A handler changes what the session reports and writes by elementary
    changes only. *)
Lemma processResponse_changes (net : Net) (response : Response) (st : St) :
  changes false st (snd (processResponse opts net response st)).
Proof.
  set (P := fun st' : St => changes false st st').
  refine (processResponse_hoare_log P P _ _ _ _ _ net response st _).
  - auto.
  - intros e He s Hs. unfold P in *. cbn.
    eapply changes_step; [exact Hs |]. apply (change_log _ _ _ e). cbn.
    repeat split. exact He.
  - intros k s Hs. unfold P in *. cbn.
    eapply changes_step; [exact Hs |]. apply (change_seen _ _ _ k). cbn.
    repeat split.
  - intros b ct n id em s Hs. unfold P in *.
    destruct (shouldIgnoreCapturedFile opts (Some n) (em_sourceFileName em))
      eqn:Hig.
    + destruct (handleFileBuffer_ignored opts b ct n id em s Hig)
        as (e & Hty & _ & ->).
      split; [reflexivity |]. cbn [snd].
      eapply changes_step; [exact Hs |]. apply (change_log _ _ _ e). cbn.
      repeat split. congruence.
    + destruct (handleFileBuffer_saved_entry b ct n id em s Hig)
        as (w' & e & entry & Hty & Hout & Hlen & Hid & Hdisk & ->).
      split; [reflexivity |]. cbn [snd].
      eapply changes_step; [exact Hs |].
      now apply (record_saved_change _ _ _ _ _ _ b).
  - intros net0 r0 ct s Hs. unfold P in *.
    destruct (direct_branch_outcome net0 r0 ct s)
      as [(e & Hty & ->) | (next & w' & evs & id & Hone & Hevs & ->)].
    + cbn [snd].
      eapply changes_step; [exact Hs |]. apply (change_log _ _ _ e). cbn.
      repeat split. congruence.
    + cbn [snd].
      eapply changes_step; [| apply merge_direct_change; exact Hone].
      eapply changes_step; [exact Hs |].
      destruct Hevs as [-> | ->].
      * apply change_none. cbn. rewrite app_nil_r. repeat split.
      * eapply change_log. cbn. repeat split. discriminate.
  - apply changes_refl.
Qed.

(** Every step of the event loop changes what the session reports and
    writes by elementary changes only. *)
Lemma step_changes_closing (i : Input) (r r' : Run) :
  step opts i r = Some r' -> changes (closes i) (run_st r) (run_st r').
Proof.
  unfold step. cbv zeta. intros Hstep. destruct i.
  - destruct (cs_listening _).
    + destruct (url_parse _); [| discriminate]. injection Hstep as <-.
      apply changes_one, change_none. cbn. unfold onResponse.
      destruct (cs_finished _); repeat split.
    + injection Hstep as <-. apply changes_refl.
  - destruct (cs_queue _) as [|response rest]; [discriminate |].
    pose proof (processResponse_changes net response (run_st r)) as Hch.
    destruct (processResponse opts net response (run_st r)) as [res st'].
    injection Hstep as <-. cbn [snd] in Hch. cbn.
    eapply changes_step; [exact Hch |]. apply change_none. repeat split.
  - destruct (waitForConvoStreamCompleted opts); [| discriminate].
    pose proof (markConvoStreamCompleted_shape opts (run_st r)) as Hshape.
    destruct (markConvoStreamCompleted opts (run_st r)) as [res st'].
    injection Hstep as <-. injection Hshape as _ ->. cbn [run_st]. cbv zeta.
    destruct (cs_convoStreamCompleted _);
      [apply changes_one, change_none; repeat split |].
    apply changes_one. eapply change_log. cbn [st_session].
    split; [| destruct (_ =? 0)%Z; [| destruct (_ && _ && _)]; repeat split].
    discriminate.
  - destruct (cs_idleTimer _); [| discriminate]. injection Hstep as <-.
    apply changes_one, change_none. cbn.
    destruct (finish_fields (set_idleTimer None (st_session (run_st r))))
      as (-> & -> & -> & -> & -> & _).
    repeat split.
  - destruct (cs_timeoutTimer _); [| discriminate]. injection Hstep as <-.
    apply changes_one, change_none. cbn.
    destruct (finish_fields (set_timeoutTimer None (st_session (run_st r))))
      as (-> & -> & -> & -> & -> & _).
    repeat split.
  - destruct (_ <=? _)%Z; [| discriminate]. injection Hstep as <-.
    apply changes_one, change_none. repeat split.
  - destruct (run_phase r); try discriminate.
    destruct (cs_finished _); [| discriminate]. injection Hstep as <-.
    apply changes_refl.
  - destruct (run_phase r) as [|[|n]| |]; try discriminate.
    destruct (run_queueError r); [injection Hstep as <-; apply changes_refl |].
    pose proof (complete_collection_shape (run_st r)) as Hshape.
    cbv zeta in Hshape.
    assert (Hlog : forall res w,
               changes true (run_st r)
                       {| st_session := st_session (run_st r);
                          st_world := w |} ->
               complete_collection (run_st r) =
               (res, {| st_session :=
                          log_events
                            [collector_complete_event
                               (cs_savedCount (st_session (run_st r)))]
                            (st_session (run_st r));
                        st_world := w |}) ->
               changes true (run_st r) (run_st r')).
    { intros res w Hw Heq. rewrite Heq in Hstep.
      destruct res; injection Hstep as <-; cbn [run_st];
        (eapply changes_step; [exact Hw |]); eapply change_log; cbn;
        repeat split; discriminate. }
    assert (Hsame : changes true (run_st r)
                      {| st_session := st_session (run_st r);
                         st_world := st_world (run_st r) |}).
    { destruct (run_st r). apply changes_refl. }
    destruct (last (cs_savedFiles (st_session (run_st r)))) as [f|] eqn:Hlast;
      [| exact (Hlog _ _ Hsame Hshape)].
    destruct (bool_decide (sf_filePath f = latestPath f));
      [exact (Hlog _ _ Hsame Hshape) |].
    destruct (w_disk (st_world (run_st r)) !! sf_filePath f) as [content|];
      [refine (Hlog _ _ _ Hshape) |].
    + apply changes_one, (change_copy _ _ _ f content). cbn. repeat split.
      apply last_Some in Hlast as [l' ->]. apply elem_of_app. right.
      apply list_elem_of_here.
    + rewrite Hshape in Hstep. injection Hstep as <-. apply changes_refl.
Qed.

Lemma step_changes (i : Input) (r r' : Run) :
  step opts i r = Some r' -> changes true (run_st r) (run_st r').
Proof.
  intros Hstep. pose proof (step_changes_closing i r r' Hstep) as Hch.
  destruct (closes i); [exact Hch | now apply changes_mono].
Qed.

Lemma reachable_changes (w0 : World) (r : Run) :
  reachable opts w0 r -> changes true (run_st (start opts w0)) (run_st r).
Proof.
  induction 1 as [|i r r' _ IH Hstep]; [apply changes_refl |].
  eapply changes_trans; [exact IH |]. now apply (step_changes i).
Qed.

Lemma run_inputs_changes (inputs : list Input) (r r' : Run) :
  run_inputs opts inputs r = Some r' -> changes true (run_st r) (run_st r').
Proof.
  revert r. induction inputs as [|i inputs IH]; intros r Hrun; cbn in Hrun.
  - injection Hrun as <-. apply changes_refl.
  - destruct (step opts i r) as [r1|] eqn:Hstep; [| discriminate].
    eapply changes_trans; [exact (step_changes i _ _ Hstep) | now apply IH].
Qed.

(** The aggregate built from a consistent session with the closing entry
    logged. *)
Lemma session_result_consistent (s : Session) :
  results_consistent s ->
  report_consistent
    (session_result
       (log_events [collector_complete_event (cs_savedCount s)] s)).
Proof.
  intros (Hc & Hp & Hnd & Hne & Hcover).
  unfold report_consistent, session_result.
  cbn [buildSaveResult sr_savedCount sr_savedFiles sr_metadataIds
         sr_streamEvents log_events set_streamEvents cs_savedCount
         cs_savedFiles cs_metadataIds cs_streamEvents].
  rewrite (filter_nonempty_id _ Hne), (js_set_values_NoDup_id _ Hnd).
  rewrite saved_event_paths_app, last_snoc. unfold saved_event_paths at 2.
  cbn. rewrite app_nil_r. repeat split; assumption.
Qed.

Lemma reachable_consistent (w0 : World) (r : Run) :
  reachable opts w0 r -> results_consistent (st_session (run_st r)).
Proof.
  intros Hr. eapply changes_consistent; [exact (reachable_changes w0 r Hr) |].
  cbn. repeat split; try constructor.
  intros f i Hf. now apply elem_of_nil in Hf.
Qed.

(** The phase is [Returned] only after the closing block ran on the
    session as it stood. *)
Lemma step_returned (i : Input) (r r' : Run) (result : SaveResult) :
  step opts i r = Some r' ->
  run_phase r' = Returned result ->
  run_phase r = Returned result \/
  result =
    session_result
      (log_events
         [collector_complete_event (cs_savedCount (st_session (run_st r)))]
         (st_session (run_st r))).
Proof.
  unfold step. cbv zeta. intros Hstep Hphase. destruct i.
  - destruct (cs_listening _); [destruct (url_parse _); [| discriminate] |];
      injection Hstep as <-; now left.
  - destruct (cs_queue _) as [|response rest]; [discriminate |].
    destruct (processResponse opts net response (run_st r)) as [res st'].
    injection Hstep as <-. cbn in Hphase. left.
    destruct (run_phase r) as [|[|n]| |]; congruence.
  - destruct (waitForConvoStreamCompleted opts); [| discriminate].
    destruct (markConvoStreamCompleted opts (run_st r)) as [res st'].
    injection Hstep as <-. now left.
  - destruct (cs_idleTimer _); [| discriminate]. injection Hstep as <-.
    now left.
  - destruct (cs_timeoutTimer _); [| discriminate]. injection Hstep as <-.
    now left.
  - destruct (_ <=? _)%Z; [| discriminate]. injection Hstep as <-. now left.
  - destruct (run_phase r); try discriminate.
    destruct (cs_finished _); [| discriminate]. injection Hstep as <-.
    discriminate.
  - destruct (run_phase r) as [|[|n]| |]; try discriminate.
    destruct (run_queueError r); [injection Hstep as <-; discriminate |].
    pose proof (complete_collection_shape (run_st r)) as Hshape.
    cbv zeta in Hshape. right.
    assert (Hok : forall st',
               complete_collection (run_st r) =
               (Ok (session_result
                      (log_events
                         [collector_complete_event
                            (cs_savedCount (st_session (run_st r)))]
                         (st_session (run_st r)))), st') ->
               result =
               session_result
                 (log_events
                    [collector_complete_event
                       (cs_savedCount (st_session (run_st r)))]
                    (st_session (run_st r)))).
    { intros st' Heq. rewrite Heq in Hstep. injection Hstep as <-.
      cbn in Hphase. congruence. }
    destruct (last (cs_savedFiles (st_session (run_st r)))) as [f|];
      [| exact (Hok _ Hshape)].
    destruct (bool_decide (sf_filePath f = latestPath f));
      [exact (Hok _ Hshape) |].
    destruct (w_disk (st_world (run_st r)) !! sf_filePath f);
      [exact (Hok _ Hshape) |].
    rewrite Hshape in Hstep. injection Hstep as <-. discriminate.
Qed.

(** X7: a session reports consistently at every moment, and so does the
    aggregate that it returns: the count is the number of saved files,
    the [file_saved] entries of the log report the paths of the saved
    files one for one and in order, the metadata ids are distinct, not
    empty and hold the metadata id of every saved file that has one, and
    the log of the aggregate ends with the closing entry carrying the
    count. *)
Theorem session_report_is_consistent (w0 : World) (r : Run) :
  reachable opts w0 r ->
  results_consistent (st_session (run_st r)) /\
  forall result, run_phase r = Returned result -> report_consistent result.
Proof.
  intros Hr. split; [exact (reachable_consistent w0 r Hr) |].
  induction Hr as [|i r r' Hr IH Hstep]; [discriminate |].
  intros result Hphase.
  destruct (step_returned i r r' result Hstep Hphase) as [Hold | ->].
  - now apply IH.
  - apply session_result_consistent. exact (reachable_consistent w0 r Hr).
Qed.

(** X8: whatever happens next, what a session reports only grows: the count
    never falls, and the saved files, the log and the metadata ids are
    extended at their ends, so an entry once reported is never removed,
    rewritten or reordered; the dedup set only gains keys. *)
Theorem session_results_only_grow (inputs : list Input) (r r' : Run) :
  run_inputs opts inputs r = Some r' ->
  results_grow (st_session (run_st r)) (st_session (run_st r')).
Proof.
  intros Hrun. exact (changes_grow _ _ _ (run_inputs_changes inputs r r' Hrun)).
Qed.

(** X9: a session removes nothing from the output directory, and a path
    whose content it changed is the path of a file it saved meanwhile or
    the path of the latest copy of a saved file. *)
Theorem session_writes_only_reported_paths (inputs : list Input)
    (r r' : Run) :
  run_inputs opts inputs r = Some r' ->
  disk_grows (run_st r) (run_st r').
Proof.
  intros Hrun. exact (changes_disk _ _ _ (run_inputs_changes inputs r r' Hrun)).
Qed.

(** *** What is reported is what was written *)

Lemma last_saved_at_snoc (files : list SavedFile) (f : SavedFile)
    (path : string) :
  last_saved_at (files ++ [f]) path =
  if bool_decide (sf_filePath f = path) then Some f
  else last_saved_at files path.
Proof.
  unfold last_saved_at. rewrite List.filter_app. cbn.
  case_bool_decide; [apply last_snoc | now rewrite app_nil_r].
Qed.

Lemma last_saved_at_last (files : list SavedFile) (g : SavedFile) :
  last files = Some g -> last_saved_at files (sf_filePath g) = Some g.
Proof.
  intros Hlast. apply last_Some in Hlast as [l ->].
  rewrite last_saved_at_snoc. now rewrite bool_decide_eq_true_2.
Qed.

(** A change that is no copy keeps the reports truthful: a save puts the
    buffer at its path and reports the length of the buffer. *)
Lemma change_truthful (st st' : St) :
  change false st st' -> lengths_truthful st -> lengths_truthful st'.
Proof.
  intros [(_ & Hf & _ & _ & _ & Hd) | e (_ & _ & Hf & _ & _ & _ & Hd)
         | k (_ & Hf & _ & _ & _ & Hd)
         | e f ids b (_ & _ & Hlen & _ & _ & Hf & _ & _ & _ & Hd)
         | f b (Hcopies & _)] Hst;
    [| | | | discriminate]; unfold lengths_truthful; rewrite Hf, Hd;
    [exact Hst | exact Hst | exact Hst |].
  intros path g. rewrite last_saved_at_snoc. case_bool_decide as Hpath.
  - intros [= <-]. subst path. exists b.
    split; [apply lookup_insert_eq | now rewrite Hlen].
  - intros Hg. rewrite lookup_insert_ne; [| exact Hpath]. now apply Hst.
Qed.

Lemma changes_truthful (st st' : St) :
  changes false st st' -> lengths_truthful st -> lengths_truthful st'.
Proof.
  intros Hc Hst. induction Hc as [|s s' s'' _ IH Hstep]; [exact Hst |].
  eapply change_truthful; [exact Hstep | now apply IH].
Qed.

(** The closing block is the last step of the body: a run that polls or
    awaits its queue has not run it. *)
Lemma step_before_closing (i : Input) (r r' : Run) :
  step opts i r = Some r' -> before_closing r' ->
  closes i = false /\ before_closing r.
Proof.
  unfold step, before_closing. cbv zeta. intros Hstep Hphase. destruct i;
    cbn [closes].
  - destruct (cs_listening _); [destruct (url_parse _); [| discriminate] |];
      injection Hstep as <-; now split.
  - destruct (cs_queue _) as [|response rest]; [discriminate |].
    destruct (processResponse opts net response (run_st r)) as [res st'].
    injection Hstep as <-. cbn in Hphase. split; [reflexivity |].
    destruct (run_phase r) as [|[|n]| |]; auto.
  - destruct (waitForConvoStreamCompleted opts); [| discriminate].
    destruct (markConvoStreamCompleted opts (run_st r)) as [res st'].
    injection Hstep as <-. now split.
  - destruct (cs_idleTimer _); [| discriminate]. injection Hstep as <-.
    now split.
  - destruct (cs_timeoutTimer _); [| discriminate]. injection Hstep as <-.
    now split.
  - destruct (_ <=? _)%Z; [| discriminate]. injection Hstep as <-. now split.
  - destruct (run_phase r); try discriminate.
    destruct (cs_finished _); [| discriminate]. now split.
  - destruct (run_phase r) as [|[|n]| |]; try discriminate.
    destruct (run_queueError r);
      [injection Hstep as <-; now contradiction Hphase |].
    destruct (complete_collection (run_st r)) as [[result | e] st'];
      injection Hstep as <-; now contradiction Hphase.
Qed.

Lemma reachable_truthful (w0 : World) (r : Run) :
  reachable opts w0 r -> before_closing r -> lengths_truthful (run_st r).
Proof.
  induction 1 as [|i r r' _ IH Hstep]; intros Hphase.
  - intros path f Hf. discriminate.
  - destruct (step_before_closing i r r' Hstep Hphase) as [Hi Hr].
    pose proof (step_changes_closing i r r' Hstep) as Hch.
    rewrite Hi in Hch. exact (changes_truthful _ _ Hch (IH Hr)).
Qed.

(** X20: while the body of a session polls or awaits its queue, the file at
    each path that the session reports has the byte length given by the
    last report for that path.  The closing block then finds the file it
    copies: unless the last handler threw, the session returns, and what
    it returns is truthful: the file at each reported path has the byte
    length of the last report for the path, except at the path of the
    latest copy, and the latest copy has the bytes of the file saved
    last. *)
Theorem session_reports_what_it_wrote (w0 : World) (r : Run) :
  reachable opts w0 r ->
  (before_closing r -> lengths_truthful (run_st r)) /\
  (forall r',
     step opts QueueAwaited r = Some r' -> run_queueError r = None ->
     exists result,
       run_phase r' = Returned result /\
       sr_savedFiles result = cs_savedFiles (st_session (run_st r)) /\
       report_truthful result (disk_of (run_st r'))).
Proof.
  intros Hr. split; [exact (reachable_truthful w0 r Hr) |].
  intros r' Hstep Herr.
  assert (Htrue : lengths_truthful (run_st r)).
  { apply (reachable_truthful w0 r Hr). unfold before_closing.
    unfold step in Hstep. destruct (run_phase r); [exact I | exact I | |];
      discriminate. }
  unfold step in Hstep. cbv zeta in Hstep.
  destruct (run_phase r) as [|[|n]| |]; try discriminate.
  rewrite Herr in Hstep.
  pose proof (complete_collection_shape (run_st r)) as Hshape.
  cbv zeta in Hshape.
  destruct (last (cs_savedFiles (st_session (run_st r)))) as [g|] eqn:Hlast.
  - destruct (Htrue _ _ (last_saved_at_last _ _ Hlast))
      as (content & Hcontent & Hlen).
    destruct (bool_decide (sf_filePath g = latestPath g)) eqn:Hsame.
    + apply bool_decide_eq_true_1 in Hsame.
      rewrite Hshape in Hstep. injection Hstep as <-. eexists.
      split; [reflexivity |]. split; [reflexivity |]. split.
      * intros path f Hf _. exact (Htrue path f Hf).
      * cbn [sr_savedFiles session_result buildSaveResult log_events
               set_streamEvents cs_savedFiles].
        intros g' Hg'. rewrite Hlast in Hg'. injection Hg' as <-.
        exists content. rewrite <- Hsame. auto.
    + apply bool_decide_eq_false_1 in Hsame.
      unfold disk_of in Hcontent. rewrite Hcontent in Hshape.
      rewrite Hshape in Hstep. injection Hstep as <-. eexists.
      split; [reflexivity |]. split; [reflexivity |]. split.
      * cbn [sr_savedFiles session_result buildSaveResult log_events
               set_streamEvents cs_savedFiles].
        intros path f Hf Hpath. specialize (Hpath g Hlast).
        unfold disk_of. cbn.
        rewrite lookup_insert_ne; [| congruence]. exact (Htrue path f Hf).
      * cbn [sr_savedFiles session_result buildSaveResult log_events
               set_streamEvents cs_savedFiles].
        intros g' Hg'. rewrite Hlast in Hg'. injection Hg' as <-.
        exists content. unfold disk_of. cbn.
        rewrite lookup_insert_eq, lookup_insert_ne; [| congruence]. auto.
  - rewrite Hshape in Hstep. injection Hstep as <-. eexists.
    split; [reflexivity |]. split; [reflexivity |]. split.
    + intros path f Hf _. exact (Htrue path f Hf).
    + cbn [sr_savedFiles session_result buildSaveResult log_events
             set_streamEvents cs_savedFiles].
      intros g' Hg'. rewrite Hlast in Hg'. discriminate.
Qed.

(** *** The cap on saved files *)

Lemma below_cap_record_saved (img : bool) (f : SavedFile)
    (id : option string) (s : Session) :
  below_cap (maxFiles opts) (record_saved opts img f id s).
Proof.
  unfold below_cap.
  destruct (record_saved_fields opts img f id s) as (-> & _).
  unfold record_saved.
  set (s1 := set_savedFiles (cs_savedFiles s ++ [f]) s).
  set (s2 := if requireFinalImageFrame opts && img then _ else _).
  set (s3 := match id with Some _ => _ | None => _ end).
  assert (Hcnt : cs_savedCount s3 = cs_savedCount s).
  { unfold s3, s2, s1.
    destruct id as [i|]; [destruct (nonempty i) |];
      destruct (requireFinalImageFrame opts && img);
      try destruct (sf_isStreamPart f);
      try destruct (sf_isFinalStreamFrame f); reflexivity. }
  cbv zeta. set (s4 := set_savedCount (cs_savedCount s3 + 1) s3).
  destruct (Z.leb_spec (maxFiles opts) (cs_savedCount s4)) as [Hle|Hlt].
  - destruct (finish_fields s4) as (_ & _ & _ & _ & _ & _ & _ & _ & _ & ->).
    discriminate.
  - intros _. cbn in Hlt. lia.
Qed.

Lemma below_cap_merge_direct (url : string) (id : option string)
    (ct : string) (next : SaveResult) (s : Session) :
  (exists w w', saved_one_or_none w w' next) ->
  below_cap (maxFiles opts) s ->
  below_cap (maxFiles opts) (merge_direct opts url id ct next s).
Proof.
  intros Hex Hs. unfold below_cap.
  destruct (merge_direct_fields opts url id ct next s Hex) as (Hcount & _).
  cbv zeta in Hcount. rewrite Hcount. clear Hcount. unfold merge_direct.
  set (s1 := set_savedCount _ s).
  set (s2 := fold_left _ (sr_savedFiles next) s1).
  match goal with
  | |- context [fold_left ?g ?l s2] =>
      pose proof (fold_ids_fields l s2) as Hfold;
      cbv zeta in Hfold; set (s3 := fold_left g l s2) in *
  end.
  destruct Hfold as (Hc3 & _).
  assert (Hc2 : cs_savedCount s2 = cs_savedCount s1).
  { unfold s2. clearbody s1. clear. revert s1.
    induction (sr_savedFiles next) as [|g l IH]; intros s1; cbn;
      [reflexivity |].
    now rewrite IH. }
  cbv zeta.
  destruct (Z.leb_spec (maxFiles opts) (cs_savedCount s3)) as [Hle|Hlt].
  - destruct (finish_fields s3) as (_ & _ & _ & _ & _ & _ & _ & _ & _ & ->).
    discriminate.
  - intros _. rewrite Hc3, Hc2 in Hlt. cbn in Hlt. lia.
Qed.

Lemma processResponse_below_cap (net : Net) (response : Response) (st : St) :
  below_cap (maxFiles opts) (st_session st) ->
  below_cap (maxFiles opts)
            (st_session (snd (processResponse opts net response st))).
Proof.
  intros Hs.
  exact (proj1 (processResponse_session_inv opts (run_is_image (st_world st))
                  (below_cap (maxFiles opts))
                  (fun evs s Hs => Hs) (fun k s Hs => Hs)
                  (fun f id s _ => below_cap_record_saved _ f id s)
                  (fun url id ct next s Hex Hs =>
                     below_cap_merge_direct url id ct next s Hex Hs)
                  net response st eq_refl Hs)).
Qed.

Lemma processResponse_finished (net : Net) (response : Response) (st : St) :
  cs_finished (st_session st) = true ->
  cs_finished (st_session (snd (processResponse opts net response st))) = true.
Proof.
  intros Hs.
  exact (proj1 (processResponse_session_inv opts (run_is_image (st_world st))
                  (fun s => cs_finished s = true)
                  (fun evs s Hs => Hs) (fun k s Hs => Hs)
                  (fun f id s Hs => finished_stays_record_saved opts _ f id s Hs)
                  (fun url id ct next s _ Hs =>
                     finished_stays_merge_direct opts url id ct next s Hs)
                  net response st eq_refl Hs)).
Qed.

Lemma step_below_cap (i : Input) (r r' : Run) :
  step opts i r = Some r' ->
  below_cap (maxFiles opts) (st_session (run_st r)) ->
  below_cap (maxFiles opts) (st_session (run_st r')).
Proof.
  unfold step. cbv zeta. intros Hstep Hs. destruct i.
  - destruct (cs_listening _); [destruct (url_parse _); [| discriminate] |];
      injection Hstep as <-; [| exact Hs].
    cbn. unfold onResponse. destruct (cs_finished _) eqn:Hf; [exact Hs |].
    exact Hs.
  - destruct (cs_queue _) as [|response rest]; [discriminate |].
    pose proof (processResponse_below_cap net response (run_st r) Hs) as Hb.
    destruct (processResponse opts net response (run_st r)) as [res st'].
    injection Hstep as <-. exact Hb.
  - destruct (waitForConvoStreamCompleted opts); [| discriminate].
    pose proof (markConvoStreamCompleted_fields opts (run_st r)) as Hfields.
    cbv zeta in Hfields.
    destruct (markConvoStreamCompleted opts (run_st r)) as [res st'].
    injection Hstep as <-. cbn [snd] in Hfields.
    destruct Hfields as (Hf & _ & Hc & _). unfold below_cap. cbn [run_st].
    rewrite Hf, Hc. exact Hs.
  - destruct (cs_idleTimer _); [| discriminate]. injection Hstep as <-.
    unfold below_cap. cbn.
    destruct (finish_fields (set_idleTimer None (st_session (run_st r))))
      as (_ & _ & _ & _ & _ & _ & _ & _ & _ & ->).
    discriminate.
  - destruct (cs_timeoutTimer _); [| discriminate]. injection Hstep as <-.
    unfold below_cap. cbn.
    destruct (finish_fields (set_timeoutTimer None (st_session (run_st r))))
      as (_ & _ & _ & _ & _ & _ & _ & _ & _ & ->).
    discriminate.
  - destruct (_ <=? _)%Z; [| discriminate]. injection Hstep as <-. exact Hs.
  - destruct (run_phase r); try discriminate.
    destruct (cs_finished _); [| discriminate]. injection Hstep as <-.
    exact Hs.
  - destruct (run_phase r) as [|[|n]| |]; try discriminate.
    destruct (run_queueError r); [injection Hstep as <-; exact Hs |].
    pose proof (complete_collection_shape (run_st r)) as Hshape.
    cbv zeta in Hshape.
    assert (Hlog : forall res w,
               complete_collection (run_st r) =
               (res, {| st_session :=
                          log_events
                            [collector_complete_event
                               (cs_savedCount (st_session (run_st r)))]
                            (st_session (run_st r));
                        st_world := w |}) ->
               below_cap (maxFiles opts) (st_session (run_st r'))).
    { intros res w Heq. rewrite Heq in Hstep.
      destruct res; injection Hstep as <-; exact Hs. }
    destruct (last (cs_savedFiles (st_session (run_st r)))) as [f|];
      [| exact (Hlog _ _ Hshape)].
    destruct (bool_decide (sf_filePath f = latestPath f));
      [exact (Hlog _ _ Hshape) |].
    destruct (w_disk (st_world (run_st r)) !! sf_filePath f);
      [exact (Hlog _ _ Hshape) |].
    rewrite Hshape in Hstep. injection Hstep as <-. exact Hs.
Qed.

(** Once the session is finished it stays finished, and every file
    saved later uses up a queued response. *)
Lemma step_after_finish (i : Input) (r r' : Run) :
  step opts i r = Some r' ->
  cs_finished (st_session (run_st r)) = true ->
  cs_finished (st_session (run_st r')) = true /\
  (cs_savedCount (st_session (run_st r')) +
   Z.of_nat (length (cs_queue (st_session (run_st r')))) <=
   cs_savedCount (st_session (run_st r)) +
   Z.of_nat (length (cs_queue (st_session (run_st r)))))%Z.
Proof.
  unfold step. cbv zeta. intros Hstep Hfin. destruct i.
  - destruct (cs_listening _); [destruct (url_parse _); [| discriminate] |];
      injection Hstep as <-; [| split; [exact Hfin | lia]].
    cbn. unfold onResponse. rewrite Hfin. split; [exact Hfin | lia].
  - destruct (cs_queue _) as [|response rest] eqn:Hq; [discriminate |].
    pose proof (processResponse_finished net response (run_st r) Hfin) as Hf.
    pose proof (processResponse_count opts net response (run_st r)) as Hc.
    destruct (processResponse opts net response (run_st r)) as [res st'].
    injection Hstep as <-. cbn [snd] in Hf, Hc. cbn.
    split; [exact Hf |]. lia.
  - destruct (waitForConvoStreamCompleted opts); [| discriminate].
    pose proof (markConvoStreamCompleted_fields opts (run_st r)) as Hfields.
    cbv zeta in Hfields.
    destruct (markConvoStreamCompleted opts (run_st r)) as [res st'].
    injection Hstep as <-. cbn [snd] in Hfields.
    destruct Hfields as (Hf & _ & Hc & _ & _ & Hq & _). cbn [run_st].
    rewrite Hf, Hc, Hq. split; [exact Hfin | lia].
  - destruct (cs_idleTimer _); [| discriminate]. injection Hstep as <-. cbn.
    destruct (finish_fields (set_idleTimer None (st_session (run_st r))))
      as (-> & _ & _ & _ & _ & _ & _ & _ & -> & ->).
    split; [reflexivity |]. cbn. lia.
  - destruct (cs_timeoutTimer _); [| discriminate]. injection Hstep as <-.
    cbn.
    destruct (finish_fields (set_timeoutTimer None (st_session (run_st r))))
      as (-> & _ & _ & _ & _ & _ & _ & _ & -> & ->).
    split; [reflexivity |]. cbn. lia.
  - destruct (_ <=? _)%Z; [| discriminate]. injection Hstep as <-.
    split; [exact Hfin | cbn; lia].
  - destruct (run_phase r); try discriminate.
    rewrite Hfin in Hstep. injection Hstep as <-.
    split; [exact Hfin | cbn; lia].
  - destruct (run_phase r) as [|[|n]| |]; try discriminate.
    destruct (run_queueError r);
      [injection Hstep as <-; split; [exact Hfin | cbn; lia] |].
    pose proof (complete_collection_shape (run_st r)) as Hshape.
    cbv zeta in Hshape.
    assert (Hlog : forall res w,
               complete_collection (run_st r) =
               (res, {| st_session :=
                          log_events
                            [collector_complete_event
                               (cs_savedCount (st_session (run_st r)))]
                            (st_session (run_st r));
                        st_world := w |}) ->
               cs_finished (st_session (run_st r')) = true /\
               (cs_savedCount (st_session (run_st r')) +
                Z.of_nat (length (cs_queue (st_session (run_st r')))) <=
                cs_savedCount (st_session (run_st r)) +
                Z.of_nat (length (cs_queue (st_session (run_st r)))))%Z).
    { intros res w Heq. rewrite Heq in Hstep.
      destruct res; injection Hstep as <-; cbn; (split; [exact Hfin | lia]). }
    destruct (last (cs_savedFiles (st_session (run_st r)))) as [f|];
      [| exact (Hlog _ _ Hshape)].
    destruct (bool_decide (sf_filePath f = latestPath f));
      [exact (Hlog _ _ Hshape) |].
    destruct (w_disk (st_world (run_st r)) !! sf_filePath f);
      [exact (Hlog _ _ Hshape) |].
    rewrite Hshape in Hstep. injection Hstep as <-.
    split; [exact Hfin | cbn; lia].
Qed.

Lemma run_inputs_after_finish (inputs : list Input) (r r' : Run) :
  run_inputs opts inputs r = Some r' ->
  cs_finished (st_session (run_st r)) = true ->
  cs_finished (st_session (run_st r')) = true /\
  (cs_savedCount (st_session (run_st r')) +
   Z.of_nat (length (cs_queue (st_session (run_st r')))) <=
   cs_savedCount (st_session (run_st r)) +
   Z.of_nat (length (cs_queue (st_session (run_st r)))))%Z.
Proof.
  revert r. induction inputs as [|i inputs IH]; intros r Hrun Hfin;
    cbn in Hrun.
  - injection Hrun as <-. split; [exact Hfin | lia].
  - destruct (step opts i r) as [r1|] eqn:Hstep; [| discriminate].
    destruct (step_after_finish i r r1 Hstep Hfin) as [Hfin1 Hle1].
    destruct (IH r1 Hrun Hfin1) as [Hfin' Hle']. split; [exact Hfin' | lia].
Qed.

(** X10: the cap on saved files is soft.  While the session is not finished
    it has saved fewer files than the cap (fewer than one when the cap is
    below one); once it is finished it stays finished and saves at most
    one more file for each response that is still queued, whatever the
    cap. *)
Theorem saved_count_cap_is_soft (w0 : World) (r : Run) :
  reachable opts w0 r ->
  below_cap (maxFiles opts) (st_session (run_st r)) /\
  forall inputs r',
    cs_finished (st_session (run_st r)) = true ->
    run_inputs opts inputs r = Some r' ->
    cs_finished (st_session (run_st r')) = true /\
    (cs_savedCount (st_session (run_st r')) <=
     cs_savedCount (st_session (run_st r)) +
     Z.of_nat (length (cs_queue (st_session (run_st r)))))%Z.
Proof.
  intros Hr. split.
  - induction Hr as [|i r r' _ IH Hstep].
    + intros _. cbn. lia.
    + exact (step_below_cap i r r' Hstep IH).
  - intros inputs r' Hfin Hrun.
    destruct (run_inputs_after_finish inputs r r' Hrun Hfin) as [Hfin' Hle].
    split; [exact Hfin' | lia].
Qed.

(** *** The idle timer *)

Lemma idle_inv_scheduleIdleCheck (s : Session) :
  idle_inv (requireFinalImageFrame opts) (scheduleIdleCheck opts s).
Proof.
  unfold idle_inv, waits_for_frames, scheduleIdleCheck. cbn.
  destruct (cs_savedCount s =? 0)%Z eqn:Hzero.
  { intros _ Hc _. cbn in Hc. apply Z.eqb_eq in Hzero. contradiction. }
  destruct (requireFinalImageFrame opts); cbn; [| discriminate].
  destruct (cs_sawImageStreamPartFrame s) eqn:Hp,
    (cs_sawImageFinalFrame s) eqn:Hl,
    (cs_convoStreamCompleted s) eqn:Hcv; cbn; intros _ _ Hidle;
    try discriminate; (split; [reflexivity |]); cbn;
    rewrite ?Hp, ?Hl, ?Hcv; auto.
Qed.

Lemma idle_inv_record_saved (img : bool) (f : SavedFile)
    (id : option string) (s : Session) :
  idle_inv (requireFinalImageFrame opts) (record_saved opts img f id s).
Proof.
  unfold record_saved.
  set (s1 := set_savedFiles (cs_savedFiles s ++ [f]) s).
  set (s2 := if requireFinalImageFrame opts && img then _ else _).
  set (s3 := match id with Some _ => _ | None => _ end).
  cbv zeta. set (s4 := set_savedCount (cs_savedCount s3 + 1) s3).
  destruct (_ <=? _)%Z.
  - intros Hfin. destruct (finish_fields s4)
      as (_ & _ & _ & _ & _ & _ & _ & _ & _ & Hf). congruence.
  - destruct (_ && _ && _ && _); [intros _ _ Hidle; discriminate |].
    apply idle_inv_scheduleIdleCheck.
Qed.

Lemma idle_inv_merge_direct (url : string) (id : option string)
    (ct : string) (next : SaveResult) (s : Session) :
  (exists w w', saved_one_or_none w w' next) ->
  idle_inv (requireFinalImageFrame opts) s ->
  idle_inv (requireFinalImageFrame opts) (merge_direct opts url id ct next s).
Proof.
  intros (w & w' & [[-> _] | (f & ids & b & -> & _)]) Hs; unfold merge_direct.
  - cbn. destruct (_ <=? _)%Z.
    + intros Hfin.
      destruct (finish_fields (set_savedCount (cs_savedCount s + 0) s))
        as (_ & _ & _ & _ & _ & _ & _ & _ & _ & Hf). congruence.
    + unfold idle_inv, waits_for_frames in *. cbn.
      rewrite Z.add_0_r. exact Hs.
  - cbn [buildSaveResult sr_savedCount sr_savedFiles sr_metadataIds fold_left].
    match goal with
    | |- context [fold_left ?g ?l ?s0] => set (s3 := fold_left g l s0)
    end.
    destruct (_ <=? _)%Z.
    + intros Hfin. destruct (finish_fields s3)
        as (_ & _ & _ & _ & _ & _ & _ & _ & _ & Hf). congruence.
    + cbn [Z.ltb Z.compare]. apply idle_inv_scheduleIdleCheck.
Qed.

Lemma processResponse_idle_inv (net : Net) (response : Response) (st : St) :
  idle_inv (requireFinalImageFrame opts) (st_session st) ->
  idle_inv (requireFinalImageFrame opts)
           (st_session (snd (processResponse opts net response st))).
Proof.
  intros Hs.
  exact (proj1 (processResponse_session_inv opts (run_is_image (st_world st))
                  (idle_inv (requireFinalImageFrame opts))
                  (fun evs s Hs => Hs) (fun k s Hs => Hs)
                  (fun f id s _ => idle_inv_record_saved _ f id s)
                  (fun url id ct next s Hex Hs =>
                     idle_inv_merge_direct url id ct next s Hex Hs)
                  net response st eq_refl Hs)).
Qed.

Lemma step_idle_inv (i : Input) (r r' : Run) :
  step opts i r = Some r' ->
  idle_inv (requireFinalImageFrame opts) (st_session (run_st r)) ->
  idle_inv (requireFinalImageFrame opts) (st_session (run_st r')).
Proof.
  unfold step. cbv zeta. intros Hstep Hs. destruct i.
  - destruct (cs_listening _); [destruct (url_parse _); [| discriminate] |];
      injection Hstep as <-; [| exact Hs].
    cbn. unfold onResponse. destruct (cs_finished _); exact Hs.
  - destruct (cs_queue _) as [|response rest]; [discriminate |].
    pose proof (processResponse_idle_inv net response (run_st r) Hs) as Hb.
    destruct (processResponse opts net response (run_st r)) as [res st'].
    injection Hstep as <-. exact Hb.
  - destruct (waitForConvoStreamCompleted opts); [| discriminate].
    pose proof (markConvoStreamCompleted_shape opts (run_st r)) as Hshape.
    destruct (markConvoStreamCompleted opts (run_st r)) as [res st'].
    injection Hstep as <-. injection Hshape as _ ->. cbn [run_st st_session].
    cbv zeta. destruct (cs_convoStreamCompleted _) eqn:Hconvo; [exact Hs |].
    unfold idle_inv, waits_for_frames in *. cbn.
    destruct (_ =? 0)%Z eqn:Hzero.
    { cbn. intros _ Hc _. apply Z.eqb_eq in Hzero. contradiction. }
    destruct (requireFinalImageFrame opts); cbn; [| discriminate].
    destruct (cs_sawImageStreamPartFrame _) eqn:Hp,
      (cs_sawImageFinalFrame _) eqn:Hl; cbn;
      intros _ _ Hidle; try discriminate; (split; [reflexivity |]); cbn;
      rewrite ?Hp, ?Hl; auto.
  - destruct (cs_idleTimer _); [| discriminate]. injection Hstep as <-.
    intros Hfin. cbn in Hfin.
    destruct (finish_fields (set_idleTimer None (st_session (run_st r))))
      as (_ & _ & _ & _ & _ & _ & _ & _ & _ & Hf). congruence.
  - destruct (cs_timeoutTimer _); [| discriminate]. injection Hstep as <-.
    intros Hfin. cbn in Hfin.
    destruct (finish_fields (set_timeoutTimer None (st_session (run_st r))))
      as (_ & _ & _ & _ & _ & _ & _ & _ & _ & Hf). congruence.
  - destruct (_ <=? _)%Z; [| discriminate]. injection Hstep as <-. exact Hs.
  - destruct (run_phase r); try discriminate.
    destruct (cs_finished _); [| discriminate]. injection Hstep as <-.
    exact Hs.
  - destruct (run_phase r) as [|[|n]| |]; try discriminate.
    destruct (run_queueError r); [injection Hstep as <-; exact Hs |].
    pose proof (complete_collection_shape (run_st r)) as Hshape.
    cbv zeta in Hshape.
    assert (Hlog : forall res w,
               complete_collection (run_st r) =
               (res, {| st_session :=
                          log_events
                            [collector_complete_event
                               (cs_savedCount (st_session (run_st r)))]
                            (st_session (run_st r));
                        st_world := w |}) ->
               idle_inv (requireFinalImageFrame opts)
                        (st_session (run_st r'))).
    { intros res w Heq. rewrite Heq in Hstep.
      destruct res; injection Hstep as <-; exact Hs. }
    destruct (last (cs_savedFiles (st_session (run_st r)))) as [f|];
      [| exact (Hlog _ _ Hshape)].
    destruct (bool_decide (sf_filePath f = latestPath f));
      [exact (Hlog _ _ Hshape) |].
    destruct (w_disk (st_world (run_st r)) !! sf_filePath f);
      [exact (Hlog _ _ Hshape) |].
    rewrite Hshape in Hstep. injection Hstep as <-. exact Hs.
Qed.

(** X11: an unfinished session that has saved a file either has its idle
    timer pending, and finishes when the timer fires, or requires the
    final frame of an image and is waiting: for the final frame after a
    part frame, or for the end of the conversation stream after the
    final frame.  Nothing else leaves it to the hard timeout. *)
Theorem idle_timer_pending_unless_waiting (w0 : World) (r : Run) :
  reachable opts w0 r ->
  cs_finished (st_session (run_st r)) = false ->
  cs_savedCount (st_session (run_st r)) <> 0%Z ->
  (exists delay r',
     cs_idleTimer (st_session (run_st r)) = Some delay /\
     step opts IdleTimerFires r = Some r' /\
     cs_finished (st_session (run_st r')) = true) \/
  (cs_idleTimer (st_session (run_st r)) = None /\
   waits_for_frames (requireFinalImageFrame opts) (st_session (run_st r))).
Proof.
  intros Hr Hfin Hcount.
  assert (Hinv : idle_inv (requireFinalImageFrame opts)
                          (st_session (run_st r))).
  { clear Hfin Hcount. induction Hr as [|i r r' _ IH Hstep].
    - intros _ Hc. now contradiction Hc.
    - exact (step_idle_inv i r r' Hstep IH). }
  destruct (cs_idleTimer (st_session (run_st r))) as [delay|] eqn:Hidle.
  - left. exists delay. eexists. split; [reflexivity |].
    unfold step. rewrite Hidle. split; [reflexivity |]. cbn.
    apply finish_fields.
  - right. split; [reflexivity |]. now apply Hinv.
Qed.

End SessionResults.

(** ** The header dump of curl *)

Lemma split_lines_from_line (acc line rest : chars) :
  lf ∉ line ->
  split_lines_from acc (line ++ cr :: lf :: rest) =
  (rev acc ++ line) :: split_lines rest.
Proof.
  revert acc. induction line as [|c line IH]; intros acc Hfree.
  - cbn. rewrite app_nil_r. reflexivity.
  - cbn [app split_lines_from].
    rewrite bool_decide_eq_false_2
      by (intros ->; apply Hfree, list_elem_of_here).
    rewrite IH by (intros Hin; apply Hfree; now apply list_elem_of_further).
    cbn [rev]. now rewrite <- app_assoc.
Qed.

Lemma split_lines_line (line rest : chars) :
  lf ∉ line ->
  split_lines (line ++ cr :: lf :: rest) = line :: split_lines rest.
Proof. intros Hfree. unfold split_lines at 1. now rewrite split_lines_from_line. Qed.

Lemma chars_of_render_headers (headers : list (string * string))
    (rest : chars) :
  Forall header_ok headers ->
  split_lines
    (chars_of
       (fold_right (fun header rest => render_header header +:+ rest) ""
                   headers) ++ rest) =
  map header_line headers ++ split_lines rest.
Proof.
  induction 1 as [|[n v] headers (Hn & Hv & _) _ IH]; [reflexivity |].
  cbn [fold_right map app]. unfold render_header at 1. cbn [fst snd] in *.
  rewrite !chars_of_app, <- !app_assoc.
  change (chars_of ": ") with [colon; " "%char].
  change (chars_of crlf) with [cr; lf].
  change (chars_of n ++ [colon; " "%char] ++ chars_of v ++ [cr; lf] ++ ?x)
    with (chars_of n ++ [colon; " "%char] ++ chars_of v ++ cr :: lf :: x).
  replace (chars_of n ++ [colon; " "%char] ++ chars_of v ++
           cr :: lf :: chars_of
             (fold_right (fun header rest => render_header header +:+ rest)
                         "" headers) ++ rest)
    with (header_line (n, v) ++
          cr :: lf :: chars_of
            (fold_right (fun header rest => render_header header +:+ rest)
                        "" headers) ++ rest)
    by (unfold header_line; cbn [fst snd]; now rewrite <- !app_assoc).
  rewrite split_lines_line, IH; [reflexivity |].
  unfold header_line. cbn [fst snd]. intros Hin.
  apply elem_of_app in Hin as [Hin | Hin]; [contradiction |].
  apply elem_of_cons in Hin as [Hin | Hin]; [discriminate |].
  apply elem_of_cons in Hin as [Hin | Hin]; [discriminate |].
  contradiction.
Qed.

Lemma split_lines_render_dump
    (responses : list (string * list (string * string))) :
  Forall response_ok responses ->
  split_lines (chars_of (render_dump responses)) =
  flat_map lines_of_response responses ++ [[]].
Proof.
  induction 1 as [|[sl hs] responses [[_ Hsl] Hhs] _ IH]; [reflexivity |].
  cbn [render_dump fold_right flat_map]. fold (render_dump responses).
  unfold render_response. cbn [fst snd] in *.
  rewrite !chars_of_app, <- !app_assoc.
  change (chars_of crlf) with [cr; lf]. cbn [app].
  rewrite (split_lines_line _ _ Hsl).
  rewrite (chars_of_render_headers hs _ Hhs).
  pose proof (split_lines_line [] (chars_of (render_dump responses))
                (not_elem_of_nil lf)) as Hblank.
  cbn [app] in Hblank. rewrite Hblank, IH.
  unfold lines_of_response. cbn [fst snd app]. now rewrite <- !app_assoc.
Qed.

Lemma after_first_app (sep : ascii) (l rest : chars) :
  sep ∉ l -> after_first sep (l ++ sep :: rest) = Some rest.
Proof.
  induction l as [|c l IH]; cbn.
  - intros _. now destruct (ascii_dec sep sep).
  - intros Hnot. apply not_elem_of_cons in Hnot as [Hc Hl].
    destruct (ascii_dec c sep) as [-> | _]; [contradiction | now apply IH].
Qed.

Lemma starts_http_digit_header (n rest : chars) :
  starts_http_digit (n ++ [colon]) = false ->
  starts_http_digit (n ++ colon :: rest) = false.
Proof.
  destruct n as [|a [|b [|c [|d [|e [|f n]]]]]]; cbn [app];
    try (intros Hn; exact Hn); intros _;
    do 5 (try (destruct rest as [|? rest]));
    cbn; rewrite ?andb_false_r; reflexivity.
Qed.

Lemma trim_chars_nonempty (c : ascii) (l : chars) :
  is_js_space c = false -> trim_chars (c :: l) <> [].
Proof.
  intros Hc. unfold trim_chars. cbn [trim_start]. rewrite Hc. cbn [rev].
  destruct (trim_start_last (rev l) c Hc) as [l' ->].
  rewrite rev_app_distr. discriminate.
Qed.

Lemma trim_nonempty (s : string) : trim s <> "" -> s <> "".
Proof. intros Ht ->. now apply Ht. Qed.

Lemma toLowerCase_nonempty (s : string) : s <> "" -> toLowerCase s <> "".
Proof. destruct s; [contradiction | discriminate]. Qed.

Lemma scan_blank_line (scan : DumpScan) : scan_line scan [] = scan.
Proof. unfold scan_line. cbn. now destruct (ds_current scan). Qed.

Lemma scan_header_line (blocks : list CurlBlock) (statusLine : string)
    (object : gmap string string) (header : string * string) :
  header_ok header ->
  scan_line {| ds_blocks := blocks;
               ds_current := Some {| cb_statusLine := statusLine;
                                     cb_headers := object |} |}
            (header_line header) =
  {| ds_blocks := blocks;
     ds_current :=
       Some {| cb_statusLine := statusLine;
               cb_headers :=
                 js_set_property (toLowerCase (trim (fst header)))
                                 (trim (snd header)) object |} |}.
Proof.
  destruct header as [n v]. intros (_ & _ & Hcolon & Hname & Hstatus).
  cbn [fst snd] in *. unfold scan_line, header_line. cbn [fst snd].
  rewrite (starts_http_digit_header _ _ Hstatus).
  cbn [ds_current ds_blocks cb_statusLine cb_headers].
  rewrite (after_first_app _ _ _ Hcolon), (before_first_app _ _ _ Hcolon).
  rewrite str_of_chars_of.
  assert (Hn : chars_of n <> []).
  { intros Hnil. apply (trim_nonempty n Hname). apply chars_of_inj.
    exact Hnil. }
  destruct (chars_of n) as [|c l] eqn:Hchars; [contradiction |].
  cbn [is_nil].
  rewrite (proj2 (nonempty_true _) (toLowerCase_nonempty _ Hname)).
  cbn [negb]. do 4 f_equal.
  unfold trim. rewrite chars_of_str_of. reflexivity.
Qed.

Lemma fold_header_lines (blocks : list CurlBlock) (statusLine : string)
    (headers : list (string * string)) (object : gmap string string) :
  Forall header_ok headers ->
  fold_left scan_line (map header_line headers)
    {| ds_blocks := blocks;
       ds_current := Some {| cb_statusLine := statusLine;
                             cb_headers := object |} |} =
  {| ds_blocks := blocks;
     ds_current := Some {| cb_statusLine := statusLine;
                           cb_headers := header_fold headers object |} |}.
Proof.
  intros Hok. revert object.
  induction Hok as [|header headers Hh _ IH]; intros object; [reflexivity |].
  cbn [map fold_left]. rewrite (scan_header_line _ _ _ _ Hh). apply IH.
Qed.

Lemma fold_response_lines (scan : DumpScan)
    (response : string * list (string * string)) :
  response_ok response ->
  fold_left scan_line (lines_of_response response) scan =
  {| ds_blocks := push_current scan; ds_current := Some (block_of response) |}.
Proof.
  destruct response as [sl hs]. intros [[Hstatus _] Hhs].
  unfold lines_of_response. cbn [fst snd fold_left] in *.
  rewrite fold_left_app. cbn [fold_left].
  unfold scan_line at 3. rewrite Hstatus.
  rewrite (fold_header_lines _ _ _ _ Hhs), scan_blank_line.
  rewrite str_of_chars_of. reflexivity.
Qed.

Lemma fold_dump_lines (responses : list (string * list (string * string)))
    (scan : DumpScan) :
  Forall response_ok responses ->
  push_current
    (fold_left scan_line (flat_map lines_of_response responses) scan) =
  push_current scan ++ map block_of responses.
Proof.
  intros Hok. revert scan.
  induction Hok as [|response responses Hr _ IH]; intros scan.
  - cbn. now rewrite app_nil_r.
  - cbn [flat_map map]. rewrite fold_left_app, (fold_response_lines _ _ Hr).
    rewrite IH. unfold push_current at 1. cbn [ds_current ds_blocks].
    now rewrite <- app_assoc.
Qed.

Lemma parseHttpStatusCode_trim (line : string) :
  parseHttpStatusCode (trim line) = parseHttpStatusCode line.
Proof.
  unfold parseHttpStatusCode, trim.
  now rewrite chars_of_str_of, trim_chars_idem.
Qed.

Lemma is_final_status_block_of
    (response : string * list (string * string)) :
  is_final_status (block_of response) = final_status response.
Proof.
  unfold is_final_status, final_status, block_of. cbn [cb_statusLine].
  now rewrite parseHttpStatusCode_trim.
Qed.

Lemma find_map_block_of
    (responses : list (string * list (string * string))) :
  List.find is_final_status (map block_of responses) =
  option_map block_of (List.find final_status responses).
Proof.
  induction responses as [|r responses IH]; [reflexivity |]. cbn.
  rewrite is_final_status_block_of. now destruct (final_status r).
Qed.

Lemma last_map_block_of
    (responses : list (string * list (string * string))) :
  last (map block_of responses) = option_map block_of (last responses).
Proof.
  induction responses as [|r responses IH] using rev_ind; [reflexivity |].
  rewrite map_app. cbn [map]. now rewrite !last_snoc.
Qed.

(** The value of a header in the object that the scan builds. *)
Lemma header_fold_lookup (headers : list (string * string)) (key : string) :
  key <> "__proto__" ->
  header_fold headers ∅ !! key = header_value key headers.
Proof.
  intros Hkey. unfold header_fold, header_value.
  induction headers as [|[n v] headers IH] using rev_ind; [reflexivity |].
  assert (Hone : forall f : string * string -> option string,
             omap f [(n, v)] =
             match f (n, v) with Some y => [y] | None => [] end)
    by reflexivity.
  rewrite fold_left_app, omap_app, Hone. cbn [fold_left fst snd].
  unfold js_set_property at 1. unfold str_eqb.
  case_bool_decide as Hproto.
  - rewrite IH, Hproto.
    rewrite bool_decide_eq_false_2 by congruence.
    now rewrite app_nil_r.
  - case_bool_decide as Hname.
    + rewrite Hname, lookup_insert_eq. now rewrite last_snoc.
    + rewrite lookup_insert_ne by exact Hname. rewrite IH.
      now rewrite app_nil_r.
Qed.

Lemma header_fold_proto (headers : list (string * string)) :
  header_fold headers ∅ !! "__proto__" = None.
Proof.
  unfold header_fold.
  induction headers as [|[n v] headers IH] using rev_ind; [reflexivity |].
  rewrite fold_left_app. cbn [fold_left fst snd].
  unfold js_set_property at 1. unfold str_eqb at 1.
  case_bool_decide as Hproto; [exact IH |].
  rewrite lookup_insert_ne by exact Hproto. exact IH.
Qed.

Lemma render_dump_not_blank
    (response : string * list (string * string))
    (responses : list (string * list (string * string))) :
  response_ok response ->
  nonempty (trim (render_dump (response :: responses))) = true.
Proof.
  destruct response as [sl hs]. intros [[Hstatus _] _]. cbn [fst] in Hstatus.
  apply nonempty_true. intros Hblank.
  apply (f_equal chars_of) in Hblank. unfold trim in Hblank.
  rewrite chars_of_str_of in Hblank.
  cbn [render_dump fold_right] in Hblank. unfold render_response in Hblank.
  cbn [fst snd] in Hblank. rewrite !chars_of_app, <- !app_assoc in Hblank.
  destruct (chars_of sl) as [|c l]; [discriminate |].
  cbn [app] in Hblank. revert Hblank. apply trim_chars_nonempty.
  destruct l as [|? [|? [|? [|? [|? ?]]]]]; try discriminate.
  cbn in Hstatus. apply andb_true_iff in Hstatus as [Hstatus _].
  apply andb_true_iff in Hstatus as [Hstatus _].
  apply andb_true_iff in Hstatus as [Hstatus _].
  apply andb_true_iff in Hstatus as [Hstatus _].
  apply andb_true_iff in Hstatus as [Hstatus _].
  unfold ci_eq in Hstatus. apply orb_true_iff in Hstatus as [Hc | Hc];
    apply bool_decide_eq_true in Hc; subst c; reflexivity.
Qed.

Section CurlProps.
Context `{Platform}.

(** X14: on the header dump that curl writes for a transfer, one
    response after the other, [parseCurlHeaderDump] reads the last
    response whose status is final (parsed, not 0, not 100), and the last
    response when none is: the status code is that of its status line,
    and the value of a header is the trimmed value of its last line whose
    name, trimmed and in lower case, is the key.  [fetchDownloadWithCurl]
    takes the content type and the status from there, with [""] and 200
    for what is missing. *)
Theorem parseCurlHeaderDump_reads_final_response
    (responses : list (string * list (string * string)))
    (read : string * list (string * string)) (buffer : Bytes) :
  Forall response_ok responses ->
  response_read responses = Some read ->
  let parsed := parseCurlHeaderDump (render_dump responses) in
  pd_statusCode parsed = parseHttpStatusCode (fst read) /\
  (forall key, key <> "__proto__" ->
               pd_headers parsed !! key = header_value key (snd read)) /\
  pd_headers parsed !! "__proto__" = None /\
  f_buffer (curl_fetched (render_dump responses) buffer) = buffer /\
  f_contentType (curl_fetched (render_dump responses) buffer) =
    default "" (header_value "content-type" (snd read)) /\
  f_status (curl_fetched (render_dump responses) buffer) =
    default 200%Z (parseHttpStatusCode (fst read)).
Proof.
  intros Hok Hread.
  assert (Hparsed : parseCurlHeaderDump (render_dump responses) =
                    {| pd_statusCode := parseHttpStatusCode (fst read);
                       pd_headers := header_fold (snd read) ∅ |}).
  { unfold parseCurlHeaderDump.
    destruct responses as [|response responses]; [discriminate |].
    rewrite (render_dump_not_blank response responses
               (Forall_inv Hok)).
    cbn [negb]. cbv zeta.
    rewrite (split_lines_render_dump _ Hok), fold_left_app.
    cbn [fold_left]. rewrite scan_blank_line, (fold_dump_lines _ _ Hok).
    cbn [push_current ds_current ds_blocks app].
    rewrite last_map_block_of, <- map_rev, find_map_block_of.
    unfold response_read in Hread.
    destruct (last (response :: responses)) as [lastResponse|] eqn:Hlast.
    - cbn [option_map].
      destruct (List.find final_status (rev (response :: responses)))
        as [found|]; injection Hread as <-; cbn [option_map default];
        unfold block_of, id; cbn [cb_statusLine cb_headers];
        now rewrite parseHttpStatusCode_trim.
    - destruct (List.find final_status (rev (response :: responses)));
        [| discriminate].
      apply last_None in Hlast. discriminate. }
  cbv zeta. unfold curl_fetched. rewrite Hparsed.
  cbn [pd_statusCode pd_headers f_buffer f_contentType f_status].
  split; [reflexivity |]. split; [intros key; apply header_fold_lookup |].
  split; [apply header_fold_proto |]. split; [reflexivity |].
  split; [| reflexivity].
  now rewrite header_fold_lookup.
Qed.

End CurlProps.

(** ** The uploaded names that a capture ignores *)

Lemma lower_char_slash (c : ascii) : lower_char c = slash <-> c = slash.
Proof. split; [| now intros ->]. by_cases_on_char c. Qed.

Lemma before_first_slash_map_lower (l : chars) :
  before_first slash (map lower_char l) =
  map lower_char (before_first slash l).
Proof.
  induction l as [|c l IH]; cbn; [reflexivity |].
  destruct (ascii_dec (lower_char c) slash) as [Hl | Hl];
    destruct (ascii_dec c slash) as [Hc | Hc]; cbn.
  - reflexivity.
  - apply (proj1 (lower_char_slash c)) in Hl. contradiction.
  - subst c. exfalso. apply Hl. reflexivity.
  - now rewrite IH.
Qed.

Lemma drop_slashes_map_lower (l : chars) :
  drop_slashes (map lower_char l) = map lower_char (drop_slashes l).
Proof.
  induction l as [|c l IH]; cbn; [reflexivity |].
  destruct (ascii_dec (lower_char c) slash) as [Hl | Hl];
    destruct (ascii_dec c slash) as [Hc | Hc]; cbn.
  - exact IH.
  - apply (proj1 (lower_char_slash c)) in Hl. contradiction.
  - subst c. exfalso. apply Hl. reflexivity.
  - reflexivity.
Qed.

Lemma basename_chars_map_lower (l : chars) :
  basename_chars (map lower_char l) = map lower_char (basename_chars l).
Proof.
  unfold basename_chars.
  now rewrite <- map_rev, drop_slashes_map_lower,
    before_first_slash_map_lower, map_rev.
Qed.

(** The match form of a name does not depend on its letter case. *)
Lemma normalizeMatchFileName_lower (v : string) :
  normalizeMatchFileName (Some (toLowerCase v)) =
  normalizeMatchFileName (Some v).
Proof.
  unfold normalizeMatchFileName, toLowerCase, trim, basename, nonempty,
    str_eqb.
  rewrite !chars_of_str_of, trim_chars_map_lower.
  assert (Hblank : forall l : chars,
             bool_decide (str_of (map lower_char l) = "") =
             bool_decide (str_of l = "")).
  { intros [|c l]; reflexivity. }
  rewrite Hblank.
  destruct (negb (negb (bool_decide (str_of (trim_chars (chars_of v)) = ""))));
    [reflexivity |].
  rewrite basename_chars_map_lower, map_map. f_equal.
  apply map_ext. apply lower_char_idem.
Qed.

Section IgnoreProps.
Variable opts : Options.

Lemma elem_of_ignoredFileNameSet (name : string) :
  name ∈ ignoredFileNameSet opts <->
  name <> "" /\
  exists entry, entry ∈ ignoreFileNames opts /\
                normalizeMatchFileName (Some entry) = name.
Proof.
  unfold ignoredFileNameSet. rewrite elem_of_list_to_set.
  rewrite ReducerProps.elem_of_filter_list, list_elem_of_fmap.
  rewrite nonempty_true. split.
  - intros [(entry & -> & Hin) Hne]. split; [exact Hne |]. now exists entry.
  - intros [Hne (entry & Hin & <-)]. split; [now exists entry | exact Hne].
Qed.

(** X15: a captured file is ignored exactly when the match form of its
    name hint, or of the name its source announced, is not empty and is
    the match form of an uploaded name; the match form is the base name
    of the trimmed name in lower case.  So nothing is ignored without
    uploaded names, and the letter case of the captured names does not
    matter. *)
Theorem shouldIgnoreCapturedFile_by_match_form
    (fileName sourceFileName : option string) :
  (shouldIgnoreCapturedFile opts fileName sourceFileName = true <->
   exists entry,
     entry ∈ ignoreFileNames opts /\
     normalizeMatchFileName (Some entry) <> "" /\
     (normalizeMatchFileName (Some entry) = normalizeMatchFileName fileName \/
      normalizeMatchFileName (Some entry) =
        normalizeMatchFileName sourceFileName)) /\
  (ignoreFileNames opts = [] ->
   shouldIgnoreCapturedFile opts fileName sourceFileName = false) /\
  shouldIgnoreCapturedFile opts (option_map toLowerCase fileName)
    (option_map toLowerCase sourceFileName) =
  shouldIgnoreCapturedFile opts fileName sourceFileName.
Proof.
  assert (Hrule : forall a b,
             shouldIgnoreCapturedFile opts a b = true <->
             exists entry,
               entry ∈ ignoreFileNames opts /\
               normalizeMatchFileName (Some entry) <> "" /\
               (normalizeMatchFileName (Some entry) =
                  normalizeMatchFileName a \/
                normalizeMatchFileName (Some entry) =
                  normalizeMatchFileName b)).
  { intros a b. unfold shouldIgnoreCapturedFile. cbv zeta.
    case_bool_decide as Hempty.
    - split; [discriminate |]. intros (entry & Hin & Hne & _).
      assert (Hmem : normalizeMatchFileName (Some entry)
                       ∈ ignoredFileNameSet opts).
      { apply elem_of_ignoredFileNameSet. split; [exact Hne |].
        now exists entry. }
      rewrite Hempty in Hmem. now apply not_elem_of_empty in Hmem.
    - rewrite orb_true_iff, !andb_true_iff, !bool_decide_eq_true,
        !elem_of_ignoredFileNameSet, !nonempty_true. split.
      + intros [[_ [Hne (entry & Hin & Heq)]] | [_ [Hne (entry & Hin & Heq)]]];
          exists entry; (split; [exact Hin |]);
          (split; [now rewrite Heq |]); auto.
      + intros (entry & Hin & Hne & [Heq | Heq]); [left | right];
          rewrite <- Heq; (split; [exact Hne |]); (split; [exact Hne |]);
          now exists entry. }
  assert (Hlower : forall a,
             normalizeMatchFileName (option_map toLowerCase a) =
             normalizeMatchFileName a).
  { intros [v|]; [apply normalizeMatchFileName_lower | reflexivity]. }
  split; [apply Hrule |]. split.
  - intros Hnone. unfold shouldIgnoreCapturedFile, ignoredFileNameSet.
    rewrite Hnone. reflexivity.
  - unfold shouldIgnoreCapturedFile. cbv zeta. now rewrite !Hlower.
Qed.

End IgnoreProps.

(** ** A path that is free *)

Section UniquePathProps.
Variable path_dirname : string -> string.
Variable path_resolve : string -> string -> string.

Lemma candidate_name_inj (filePath : string) (i j : Z) :
  candidate_name filePath i = candidate_name filePath j -> i = j.
Proof.
  unfold candidate_name. intros Heq. apply (f_equal chars_of) in Heq.
  rewrite !chars_of_app in Heq. do 2 apply app_inv_head in Heq.
  apply app_inv_tail in Heq. apply dec_string_inj. now apply chars_of_inj.
Qed.

(** With enough fuel the loop stops at the first index whose path is
    free. *)
Lemma next_free_path_found (disk : gmap string Bytes) (filePath : string)
    (k : nat) :
  forall fuel index,
    (k < fuel)%nat ->
    disk !! nextPath path_dirname path_resolve filePath
              (index + Z.of_nat k) = None ->
    (forall j, (j < k)%nat ->
               is_Some (disk !! nextPath path_dirname path_resolve filePath
                                  (index + Z.of_nat j))) ->
    next_free_path path_dirname path_resolve disk filePath fuel index =
    Some (nextPath path_dirname path_resolve filePath (index + Z.of_nat k)).
Proof.
  induction k as [|k IH]; intros fuel index Hfuel Hfree Hbusy;
    (destruct fuel as [|fuel]; [lia |]); cbn [next_free_path].
  - rewrite Z.add_0_r in Hfree. rewrite bool_decide_eq_false_2.
    + now rewrite Z.add_0_r.
    + rewrite Hfree. now intros [? ?].
  - rewrite bool_decide_eq_true_2.
    + replace (index + Z.of_nat (S k))%Z with (index + 1 + Z.of_nat k)%Z
        in * by lia.
      apply IH; [lia | exact Hfree |].
      intros j Hj. replace (index + 1 + Z.of_nat j)%Z
        with (index + Z.of_nat (S j))%Z by lia.
      apply Hbusy. lia.
    + specialize (Hbusy 0%nat ltac:(lia)). now rewrite Z.add_0_r in Hbusy.
Qed.

(** Among more paths than the directory has files, all different, one is
    free; the first such is found by searching upwards. *)
Lemma some_path_is_free (disk : gmap string Bytes) (path : nat -> string) :
  (forall i j, path i = path j -> i = j) ->
  exists k, (k <= size disk)%nat /\ disk !! path k = None /\
            forall j, (j < k)%nat -> is_Some (disk !! path j).
Proof.
  intros Hinj.
  assert (Hfirst : forall n,
             (forall j, (j < n)%nat -> is_Some (disk !! path j)) \/
             exists k, (k < n)%nat /\ disk !! path k = None /\
                       forall j, (j < k)%nat -> is_Some (disk !! path j)).
  { induction n as [|n [Hall | (k & Hk & Hfree & Hbusy)]].
    - left. intros j Hj. lia.
    - destruct (disk !! path n) as [content|] eqn:Hn.
      + left. intros j Hj. destruct (decide (j = n)) as [-> | Hne].
        * rewrite Hn. eauto.
        * apply Hall. lia.
      + right. exists n. split; [lia |]. split; [exact Hn | exact Hall].
    - right. exists k. split; [lia |]. split; assumption. }
  destruct (Hfirst (S (size disk))) as [Hall | (k & Hk & Hfree & Hbusy)].
  - exfalso.
    set (paths := map path (seq 0 (S (size disk)))).
    assert (Hnodup : NoDup paths).
    { apply NoDup_fmap_2_strong; [| apply NoDup_seq].
      intros i j _ _. apply Hinj. }
    assert (Hsub : list_to_set paths ⊆ dom disk).
    { intros p Hp. apply elem_of_list_to_set in Hp.
      apply list_elem_of_fmap in Hp as (i & -> & Hi).
      apply elem_of_dom. apply Hall. apply elem_of_seq in Hi. lia. }
    apply subseteq_size in Hsub.
    rewrite size_list_to_set in Hsub by exact Hnodup.
    rewrite size_dom in Hsub. unfold paths in Hsub.
    rewrite length_map, length_seq in Hsub. lia.
  - exists k. split; [lia |]. split; assumption.
Qed.

(** X16: [ensureUniqueOutputPath] returns, after at most one pass of its
    loop for each file of the directory and one more, a path at which no
    file exists: the path it was given when that is free, else the first
    free path of the numbered names [2, 3, ...] beside it.  The parent
    directory is taken to resolve different candidate names to different
    paths. *)
Theorem ensureUniqueOutputPath_returns_free_path
    (disk : gmap string Bytes) (filePath : string) :
  (forall i j,
     nextPath path_dirname path_resolve filePath i =
     nextPath path_dirname path_resolve filePath j ->
     candidate_name filePath i = candidate_name filePath j) ->
  exists p,
    (forall fuel, (size disk < fuel)%nat ->
       ensureUniqueOutputPath path_dirname path_resolve disk filePath fuel =
       Some p) /\
    disk !! p = None /\
    (disk !! filePath = None -> p = filePath) /\
    (is_Some (disk !! filePath) ->
     exists index,
       (2 <= index)%Z /\
       p = nextPath path_dirname path_resolve filePath index /\
       forall i, (2 <= i < index)%Z ->
                 is_Some (disk !! nextPath path_dirname path_resolve
                                    filePath i)).
Proof.
  intros Hresolve. unfold ensureUniqueOutputPath.
  destruct (disk !! filePath) as [content|] eqn:Hgiven.
  - rewrite bool_decide_eq_true_2 by eauto. cbn [negb].
    destruct (some_path_is_free disk
                (fun k => nextPath path_dirname path_resolve filePath
                            (2 + Z.of_nat k)))
      as (k & Hk & Hfree & Hbusy).
    { intros i j Heq. apply Hresolve, candidate_name_inj in Heq. lia. }
    exists (nextPath path_dirname path_resolve filePath (2 + Z.of_nat k)).
    split; [| split; [exact Hfree | split; [discriminate |]]].
    + intros fuel Hfuel. apply next_free_path_found; [lia | exact Hfree |].
      exact Hbusy.
    + intros _. exists (2 + Z.of_nat k)%Z. split; [lia |].
      split; [reflexivity |]. intros i Hi.
      replace i with (2 + Z.of_nat (Z.to_nat (i - 2)))%Z by lia.
      apply Hbusy. lia.
  - exists filePath. rewrite bool_decide_eq_false_2 by (now intros [? ?]).
    cbn [negb]. split; [reflexivity |]. split; [exact Hgiven |].
    split; [reflexivity |]. now intros [? ?].
Qed.

End UniquePathProps.

(** ** The reducer, run again *)

Lemma trim_trim (s : string) : trim (trim s) = trim s.
Proof. unfold trim. now rewrite chars_of_str_of, trim_chars_idem. Qed.

Lemma unlink_all_subseteq (paths : list string) (disk : gmap string Bytes) :
  unlink_all paths disk ⊆ disk.
Proof.
  unfold unlink_all. revert disk.
  induction paths as [|p paths IH]; intros disk; cbn; [reflexivity |].
  etransitivity; [apply IH | apply delete_subseteq].
Qed.

Lemma select_by_ids_nil (ids : list string) : select_by_ids ids [] = None.
Proof. induction ids as [|i ids IH]; [reflexivity | exact IH]. Qed.

(** The selected candidate is a candidate. *)
Lemma select_candidate_elem (scan : FrameScan) (disk : gmap string Bytes)
    (ordered : list Candidate) (selected : Candidate) :
  select_candidate scan (existingCandidates disk ordered) ordered =
    Some selected ->
  selected ∈ ordered /\
  (existingCandidates disk ordered <> [] ->
   is_Some (disk !! c_filePath selected)).
Proof.
  intros Hsel.
  assert (Hne : ordered <> []).
  { intros ->. unfold select_candidate in Hsel.
    change (existingCandidates disk []) with (@nil Candidate) in Hsel.
    rewrite !select_by_ids_nil in Hsel. discriminate. }
  destruct (ReducerProps.select_candidate_priority scan
              (existingCandidates disk ordered) ordered Hne)
    as (sel & Hsel' & Hprio).
  rewrite Hsel in Hsel'. injection Hsel' as <-.
  destruct (ReducerProps.selected_by_priority_elem _ _ _ _ _ Hprio)
    as [Hsome Hnone].
  assert (Hexisting : forall c, c ∈ existingCandidates disk ordered ->
                                c ∈ ordered /\
                                is_Some (disk !! c_filePath c)).
  { intros c Hc. unfold existingCandidates in Hc.
    apply ReducerProps.existing_from_elem in Hc
      as (newer & older & Hrev & _ & Hdisk & _).
    split; [| exact Hdisk]. apply ReducerProps.elem_of_rev. rewrite Hrev.
    apply elem_of_app. right. apply list_elem_of_here. }
  destruct (decide (existingCandidates disk ordered = [])) as [Hnil | Hcons].
  - split; [| contradiction].
    apply last_elem_of. now apply Hnone.
  - split; [apply Hexisting; now apply Hsome |].
    intros _. apply Hexisting. now apply Hsome.
Qed.

Lemma candidate_path_trimmed (saveResult : SaveResult) (c : Candidate) :
  c ∈ orderedCandidates saveResult ->
  nonempty (c_filePath c) = true /\ trim (c_filePath c) = c_filePath c.
Proof.
  intros Hc.
  destruct (ReducerProps.orderedCandidates_elem saveResult c Hc)
    as [Hne [(e & _ & _ & Hpath & _) | (f & _ & Hpath & _)]].
  - split; [exact Hne |]. destruct (ev_outputPath e) as [p|]; [| discriminate].
    cbn in Hpath. injection Hpath as <-. apply trim_trim.
  - split; [exact Hne |]. rewrite <- Hpath. apply trim_trim.
Qed.

Lemma candidates_of_file_some (info : gmap string FrameEntry)
    (file : SavedFile) :
  nonempty (trim (sf_filePath file)) = true ->
  exists c, candidates_of_file info file = [c] /\
            c_filePath c = trim (sf_filePath file).
Proof.
  intros Hpath. unfold candidates_of_file, pushCandidate. rewrite Hpath.
  cbn [negb]. eexists. split; reflexivity.
Qed.

(** The candidates of a reduced result: those of the event log, as
    before, and the retained file. *)
Lemma reduced_candidates (saveResult : SaveResult) (disk : gmap string Bytes)
    (selected : Candidate) :
  selected ∈ orderedCandidates saveResult ->
  let file := retained_file disk saveResult selected in
  let reduced :=
    {| sr_savedCount := 1; sr_savedFiles := [file];
       sr_metadataIds := id_list (sf_metadataId file);
       sr_streamEvents := sr_streamEvents saveResult |} in
  orderedCandidates reduced <> [] /\
  (forall c, c ∈ orderedCandidates reduced ->
             c ∈ orderedCandidates saveResult \/
             c_filePath c = c_filePath selected) /\
  exists c', last (orderedCandidates reduced) = Some c' /\
             c_filePath c' = c_filePath selected.
Proof.
  intros Hsel file reduced.
  destruct (candidate_path_trimmed saveResult selected Hsel)
    as [Hne Htrim].
  assert (Hpath : nonempty (trim (sf_filePath file)) = true).
  { cbn [file retained_file sf_filePath]. now rewrite Htrim. }
  unfold orderedCandidates. cbv zeta.
  cbn [reduced sr_streamEvents sr_savedFiles List.filter].
  set (info := fs_frameInfoByMetadataId _).
  cbn [file retained_file sf_filePath] in Hpath |- *.
  change (sf_filePath (retained_file disk saveResult selected))
    with (c_filePath selected).
  rewrite Hne. cbn [flat_map]. rewrite app_nil_r.
  destruct (candidates_of_file_some info file Hpath) as (c' & Hfile & Hc').
  rewrite Hfile.
  cbn [file retained_file sf_filePath] in Hc'. rewrite Htrim in Hc'.
  split; [| split].
  - intros Hnil. apply app_eq_nil in Hnil as [_ Hnil]. discriminate.
  - intros c Hc. apply elem_of_app in Hc as [Hc | Hc].
    + left. apply elem_of_app. now left.
    + right. apply list_elem_of_singleton in Hc. now subst c.
  - exists c'. split; [apply last_snoc | exact Hc'].
Qed.

(** X17: the reducer always returns, and it is idempotent where it
    matters: run again on its own result, it leaves the output directory
    as the first run left it and retains the file at the same path, with
    the same count and the same event log. *)
Theorem retainLatestImageOnly_twice (saveResult : SaveResult) (w : World) :
  exists once w1 twice w2,
    retainLatestImageOnly (Some saveResult) w = (Ok once, w1) /\
    retainLatestImageOnly (Some once) w1 = (Ok twice, w2) /\
    w_disk w1 ⊆ w_disk w /\
    w_disk w2 = w_disk w1 /\
    map sf_filePath (sr_savedFiles twice) =
      map sf_filePath (sr_savedFiles once) /\
    sr_savedCount twice = sr_savedCount once /\
    sr_streamEvents twice = sr_streamEvents once.
Proof.
  destruct (decide (orderedCandidates saveResult = [])) as [Hnil | Hne].
  - assert (Hsame : forall w0,
               retainLatestImageOnly (Some saveResult) w0 =
               (Ok saveResult, w0)).
    { intros w0. unfold retainLatestImageOnly. rewrite Hnil. reflexivity. }
    exists saveResult, w, saveResult, w. rewrite !Hsame.
    repeat split; reflexivity.
  - set (ordered := orderedCandidates saveResult) in *.
    destruct (ReducerProps.select_candidate_priority
                (scan_frames (sr_streamEvents saveResult))
                (existingCandidates (w_disk w) ordered) ordered Hne)
      as (selected & Hselect & _).
    destruct (select_candidate_elem _ _ _ _ Hselect) as [Hin _].
    pose proof (ReducerProps.retainLatestImageOnly_selected
                  saveResult w selected Hne Hselect) as Honce.
    cbv zeta in Honce.
    set (file := retained_file (w_disk w) saveResult selected) in *.
    set (once := {| sr_savedCount := 1; sr_savedFiles := [file];
                    sr_metadataIds := id_list (sf_metadataId file);
                    sr_streamEvents := sr_streamEvents saveResult |}) in *.
    set (disk1 := unlink_all (pathsToDelete ordered selected) (w_disk w))
      in *.
    set (w1 := set_disk disk1 w) in *.
    destruct (reduced_candidates saveResult (w_disk w) selected Hin)
      as (Hne1 & Hfrom & last1 & Hlast1 & Hlastpath).
    fold file once in Hne1, Hfrom, Hlast1.
    set (ordered1 := orderedCandidates once) in *.
    destruct (ReducerProps.select_candidate_priority
                (scan_frames (sr_streamEvents once))
                (existingCandidates (w_disk w1) ordered1) ordered1 Hne1)
      as (selected1 & Hselect1 & Hprio1).
    pose proof (ReducerProps.retainLatestImageOnly_selected
                  once w1 selected1 Hne1 Hselect1) as Htwice.
    cbv zeta in Htwice.
    destruct (select_candidate_elem _ _ _ _ Hselect1) as [Hin1 Hdisk1].
    destruct (ReducerProps.selected_by_priority_elem _ _ _ _ _ Hprio1)
      as [_ Hnone1].
    (* the second run selects a candidate at the same path *)
    assert (Hpath : c_filePath selected1 = c_filePath selected).
    { destruct (decide (existingCandidates (w_disk w1) ordered1 = []))
        as [Hnil1 | Hcons1].
      - specialize (Hnone1 Hnil1). rewrite Hlast1 in Hnone1.
        injection Hnone1 as <-. exact Hlastpath.
      - specialize (Hdisk1 Hcons1).
        destruct (Hfrom selected1 Hin1) as [Hold | Hsame]; [| exact Hsame].
        destruct (decide (c_filePath selected1 = c_filePath selected))
          as [Heq | Hdiff]; [exact Heq |].
        exfalso. cbn [w1 set_disk w_disk] in Hdisk1. unfold disk1 in Hdisk1.
        rewrite ReducerProps.unlink_all_lookup in Hdisk1.
        rewrite bool_decide_eq_true_2 in Hdisk1;
          [now destruct Hdisk1 |].
        apply ReducerProps.pathsToDelete_elem.
        split; [now exists selected1 |]. split; [| exact Hdiff].
        now apply (candidate_path_trimmed saveResult). }
    (* what the second run unlinks is gone already *)
    assert (Hdisk2 : unlink_all (pathsToDelete ordered1 selected1) disk1 =
                     disk1).
    { apply map_eq. intros p. rewrite ReducerProps.unlink_all_lookup.
      case_bool_decide as Hp; [| reflexivity].
      apply ReducerProps.pathsToDelete_elem in Hp
        as ((c & Hc & <-) & Hnonempty & Hdiff).
      rewrite Hpath in Hdiff. unfold disk1.
      rewrite ReducerProps.unlink_all_lookup.
      rewrite bool_decide_eq_true_2; [reflexivity |].
      apply ReducerProps.pathsToDelete_elem.
      destruct (Hfrom c Hc) as [Hold | Hsame]; [| contradiction].
      split; [now exists c |]. split; assumption. }
    eexists once, w1, _, _. split; [exact Honce |].
    split; [exact Htwice |]. cbn [w_disk set_disk w1].
    split; [apply unlink_all_subseteq |]. split; [exact Hdisk2 |].
    cbn. rewrite Hpath. repeat split.
Qed.

(** ** Lists given as text *)

Lemma split_on_free (sep : ascii) (piece l : chars) :
  sep ∉ l -> split_on sep piece l = [rev piece ++ l].
Proof.
  revert piece. induction l as [|c l IH]; intros piece Hfree; cbn.
  - now rewrite app_nil_r.
  - apply not_elem_of_cons in Hfree as [Hc Hl].
    rewrite bool_decide_eq_false_2 by congruence.
    rewrite IH by exact Hl. cbn. now rewrite <- app_assoc.
Qed.

Lemma split_on_app (sep : ascii) (piece a b : chars) :
  split_on sep piece (a ++ sep :: b) =
  split_on sep piece a ++ split_on sep [] b.
Proof.
  revert piece. induction a as [|c a IH]; intros piece; cbn.
  - now rewrite bool_decide_eq_true_2.
  - case_bool_decide; [now rewrite IH | apply IH].
Qed.

Lemma split_on_pieces (sep : ascii) (piece l : chars) :
  sep ∉ piece ->
  Forall (fun p => sep ∉ p) (split_on sep piece l).
Proof.
  revert piece. induction l as [|c l IH]; intros piece Hfree; cbn.
  - constructor; [| constructor]. now rewrite ReducerProps.elem_of_rev.
  - case_bool_decide as Hc.
    + constructor; [now rewrite ReducerProps.elem_of_rev |].
      apply IH, not_elem_of_nil.
    + apply IH. apply not_elem_of_cons. split; [congruence | exact Hfree].
Qed.

(** An entry that is already one: not empty, trimmed, without a comma. *)
Lemma parseCommaList_entry (entry : string) :
  entry <> "" -> trim entry = entry -> (comma ∉ chars_of entry) ->
  parseCommaList entry = [entry].
Proof.
  intros Hne Htrim Hfree. unfold parseCommaList.
  rewrite (split_on_free _ _ _ Hfree). cbn [rev app map List.filter].
  rewrite str_of_chars_of, Htrim.
  now rewrite (proj2 (nonempty_true entry) Hne).
Qed.

Lemma parseCommaList_entries (value entry : string) :
  entry ∈ parseCommaList value ->
  entry <> "" /\ trim entry = entry /\ (comma ∉ chars_of entry).
Proof.
  unfold parseCommaList. intros Hin.
  apply ReducerProps.elem_of_filter_list in Hin as [Hin Hne].
  apply list_elem_of_fmap in Hin as (piece & -> & Hpiece).
  split; [now apply nonempty_true |]. split; [apply trim_trim |].
  pose proof (split_on_pieces comma [] (chars_of value)
                (not_elem_of_nil comma)) as Hfree.
  rewrite Forall_forall in Hfree. specialize (Hfree piece Hpiece).
  intros Hc. apply Hfree. unfold trim in Hc.
  rewrite !chars_of_str_of in Hc. now apply trim_chars_elem in Hc.
Qed.

(** X18: [parseCommaList] cuts a text at its commas and keeps the
    trimmed pieces that are not empty.  Its entries are not empty,
    trimmed and free of commas, so a second pass over them, as
    [normalizeUploadInput] makes, changes nothing but dropping repeated
    entries; the entries of [a,b] are those of [a] followed by those of
    [b]; and [parseArgs] is the same function. *)
Theorem parseCommaList_entries_are_final (value other : string) :
  (forall entry, entry ∈ parseCommaList value ->
     entry <> "" /\ trim entry = entry /\ (comma ∉ chars_of entry) /\
     parseCommaList entry = [entry]) /\
  flat_map parseCommaList (parseCommaList value) = parseCommaList value /\
  flatten_upload_entries (parseCommaList value) =
    js_set_values (parseCommaList value) /\
  parseCommaList (value +:+ "," +:+ other) =
    parseCommaList value ++ parseCommaList other /\
  parseArgs value = parseCommaList value.
Proof.
  assert (Hentry : forall entry, entry ∈ parseCommaList value ->
            entry <> "" /\ trim entry = entry /\
            (comma ∉ chars_of entry) /\ parseCommaList entry = [entry]).
  { intros entry Hin.
    destruct (parseCommaList_entries value entry Hin) as (Hne & Ht & Hc).
    repeat split; try assumption. now apply parseCommaList_entry. }
  assert (Hflat : forall l : list string,
            (forall entry, entry ∈ l -> parseCommaList entry = [entry]) ->
            flat_map parseCommaList l = l).
  { induction l as [|e l IH]; intros Hl; [reflexivity |]. cbn.
    rewrite (Hl e (list_elem_of_here _ _)). cbn. f_equal. apply IH.
    intros entry Hin. apply Hl. now apply list_elem_of_further. }
  assert (Hsecond : flat_map parseCommaList (parseCommaList value) =
                    parseCommaList value).
  { apply Hflat. intros entry Hin. now apply Hentry. }
  split; [exact Hentry |]. split; [exact Hsecond |]. split; [| split].
  - unfold flatten_upload_entries. rewrite Hsecond. f_equal.
    apply filter_all_true. intros entry Hin. apply nonempty_true.
    apply list_elem_of_In in Hin. now apply Hentry.
  - unfold parseCommaList. rewrite !chars_of_app.
    change (chars_of ",") with [comma]. cbn [app].
    now rewrite split_on_app, map_app, List.filter_app.
  - unfold parseArgs. destruct (nonempty value) eqn:Hv; [reflexivity |].
    apply nonempty_false in Hv. now subst value.
Qed.

(** ** Windows paths and their mount paths *)

Ltac by_letter_cases c H :=
  revert H; destruct c as [[] [] [] [] [] [] [] []]; vm_compute; intros H;
  try discriminate H; repeat split; try reflexivity; try discriminate.

Lemma upper_letter_facts (d : ascii) :
  is_upper d = true ->
  is_letter d = true /\ d <> backslash /\ is_lower (lower_char d) = true /\
  upper_letter (lower_char d) = d /\ is_letter (lower_char d) = true /\
  lower_char d <> backslash /\ lower_char (lower_char d) = lower_char d.
Proof. intros Hd. by_letter_cases d Hd. Qed.

Lemma lower_letter_facts (d : ascii) :
  is_lower d = true ->
  is_letter d = true /\ d <> backslash /\ is_upper (upper_letter d) = true /\
  lower_char (upper_letter d) = d /\ upper_letter d <> backslash /\
  upper_letter (upper_letter d) = upper_letter d /\
  lower_char d = d.
Proof. intros Hd. by_letter_cases d Hd. Qed.

Lemma map_fixed (f : ascii -> ascii) (l : chars) :
  (forall c, c ∈ l -> f c = c) -> map f l = l.
Proof.
  induction l as [|c l IH]; intros Hf; [reflexivity |]. cbn.
  rewrite (Hf c (list_elem_of_here _ _)). f_equal. apply IH.
  intros c' Hc'. apply Hf. now apply list_elem_of_further.
Qed.

Lemma slashes_backward_forward (l : chars) :
  slash ∉ l -> slashes_backward (slashes_forward l) = l.
Proof.
  intros Hfree. unfold slashes_backward, slashes_forward. rewrite map_map.
  apply map_fixed. intros c Hc. cbn beta.
  destruct (decide (c = backslash)) as [-> | Hb].
  - rewrite (bool_decide_eq_true_2 (backslash = backslash)) by reflexivity.
    now rewrite bool_decide_eq_true_2.
  - rewrite (bool_decide_eq_false_2 (c = backslash)) by exact Hb.
    rewrite bool_decide_eq_false_2; [reflexivity |]. now intros ->.
Qed.

Lemma slashes_forward_backward (l : chars) :
  backslash ∉ l -> slashes_forward (slashes_backward l) = l.
Proof.
  intros Hfree. unfold slashes_backward, slashes_forward. rewrite map_map.
  apply map_fixed. intros c Hc. cbn beta.
  destruct (decide (c = slash)) as [-> | Hb].
  - rewrite (bool_decide_eq_true_2 (slash = slash)) by reflexivity.
    now rewrite bool_decide_eq_true_2.
  - rewrite (bool_decide_eq_false_2 (c = slash)) by exact Hb.
    rewrite bool_decide_eq_false_2; [reflexivity |]. now intros ->.
Qed.

Lemma slashes_forward_free (l : chars) : backslash ∉ slashes_forward l.
Proof.
  induction l as [|c l IH]; [apply not_elem_of_nil |]. cbn.
  apply not_elem_of_cons. split; [| exact IH].
  case_bool_decide; [discriminate | congruence].
Qed.

Lemma slashes_backward_free (l : chars) : slash ∉ slashes_backward l.
Proof.
  induction l as [|c l IH]; [apply not_elem_of_nil |]. cbn.
  apply not_elem_of_cons. split; [| exact IH].
  case_bool_decide; [discriminate | congruence].
Qed.

Lemma slashes_forward_id (l : chars) :
  backslash ∉ l -> slashes_forward l = l.
Proof.
  intros Hfree. apply map_fixed. intros c Hc. cbn beta.
  rewrite bool_decide_eq_false_2; [reflexivity |]. now intros ->.
Qed.

Lemma slashes_keep_lines (f : ascii -> ascii) (l : chars) :
  (forall c, is_line_terminator c = false ->
             is_line_terminator (f c) = false) ->
  Forall (fun c => is_line_terminator c = false) l ->
  Forall (fun c => is_line_terminator c = false) (map f l).
Proof.
  intros Hf Hl. induction Hl as [|c l Hc _ IH]; cbn; constructor; auto.
Qed.

Lemma forward_keeps_line (c : ascii) :
  is_line_terminator c = false ->
  is_line_terminator (if bool_decide (c = backslash) then slash else c) =
  false.
Proof. intros Hc. now case_bool_decide. Qed.

Lemma backward_keeps_line (c : ascii) :
  is_line_terminator c = false ->
  is_line_terminator (if bool_decide (c = slash) then backslash else c) =
  false.
Proof. intros Hc. now case_bool_decide. Qed.

Lemma no_line_terminator_forallb (l : chars) :
  Forall (fun c => is_line_terminator c = false) l ->
  forallb (fun c => negb (is_line_terminator c)) l = true.
Proof.
  induction 1 as [|c l Hc _ IH]; [reflexivity |]. cbn -[is_line_terminator].
  now rewrite Hc, IH.
Qed.

Lemma slashes_forward_cons (c : ascii) (l : chars) :
  c <> backslash -> slashes_forward (c :: l) = c :: slashes_forward l.
Proof.
  intros Hc. unfold slashes_forward. cbn [map].
  now rewrite bool_decide_eq_false_2.
Qed.

Lemma slashes_forward_backslash (l : chars) :
  slashes_forward (backslash :: l) = slash :: slashes_forward l.
Proof. reflexivity. Qed.

Lemma slashes_forward_head (l : chars) :
  slash ∉ l ->
  match l with c :: _ => c <> backslash | [] => True end ->
  match slashes_forward l with c :: _ => c <> slash | [] => True end.
Proof.
  destruct l as [|c l]; [auto |]. intros Hfree Hc.
  apply not_elem_of_cons in Hfree as [Hs _].
  now rewrite (slashes_forward_cons _ _ Hc).
Qed.

Lemma slashes_backward_head (l : chars) :
  backslash ∉ l ->
  match l with c :: _ => c <> slash | [] => True end ->
  match slashes_backward l with c :: _ => c <> backslash | [] => True end.
Proof.
  destruct l as [|c l]; [auto |]. intros Hfree Hc.
  apply not_elem_of_cons in Hfree as [Hb _].
  unfold slashes_backward. cbn [map]. now rewrite bool_decide_eq_false_2.
Qed.

Lemma drop_slashes_slash (l : chars) :
  drop_slashes (slash :: l) = drop_slashes l.
Proof. reflexivity. Qed.

Lemma match_mount_path_mnt (d : ascii) (rest : chars) :
  is_letter d = true ->
  Forall (fun c => is_line_terminator c = false) rest ->
  match_mount_path "/mnt/" (chars_of "/mnt/" ++ d :: slash :: rest) =
  Some (d, rest).
Proof.
  intros Hd Hlines. unfold match_mount_path.
  change (strip_prefix_ci (chars_of "/mnt/")
            (chars_of "/mnt/" ++ d :: slash :: rest))
    with (Some (d :: slash :: rest)).
  cbv beta iota. rewrite Hd, (no_line_terminator_forallb _ Hlines).
  now rewrite bool_decide_eq_true_2.
Qed.

(** X19: the two path conversions are inverse to each other on their
    normal forms.  A Windows path [D:\rest] with a capital drive letter
    and backslashes only is turned into the mount path [/mnt/d/rest'] in
    normal form, and back into itself; a mount path [/mnt/d/rest] with a
    small drive letter and slashes only is turned into a Windows path in
    normal form, and back into itself. *)
Theorem mount_path_conversions_round_trip (value : string) :
  (windows_normal value ->
   mount_normal (windowsPathToPosixMountPath value) /\
   posixMountPathToWindowsPath (windowsPathToPosixMountPath value) = value) /\
  (mount_normal value ->
   windows_normal (posixMountPathToWindowsPath value) /\
   windowsPathToPosixMountPath (posixMountPathToWindowsPath value) = value).
Proof.
  split.
  - intros (d & rest & Hchars & Hd & Hslash & Hhead & Hlines).
    destruct (upper_letter_facts d Hd)
      as (Hletter & Hnb & Hlow & Hup & Hletter' & Hnb' & _).
    pose proof (slashes_keep_lines _ rest forward_keeps_line Hlines)
      as Hlines'.
    fold (slashes_forward rest) in Hlines'.
    assert (Hwin : windowsPathToPosixMountPath value =
                   str_of (chars_of "/mnt/" ++
                           lower_char d :: slash :: slashes_forward rest)).
    { unfold windowsPathToPosixMountPath. rewrite Hchars.
      assert (Habs : is_windows_abs_path (d :: colon :: backslash :: rest)
                     = true)
        by (unfold is_windows_abs_path; now rewrite Hletter).
      rewrite Habs. cbn [negb]. cbv zeta.
      rewrite (slashes_forward_cons _ _ Hnb).
      rewrite slashes_forward_cons by discriminate.
      rewrite slashes_forward_backslash. cbn [take drop map].
      rewrite drop_slashes_slash.
      rewrite (drop_slashes_id _ (slashes_forward_head _ Hslash Hhead)).
      reflexivity. }
    rewrite Hwin. split.
    + exists (lower_char d), (slashes_forward rest).
      rewrite chars_of_str_of. split; [reflexivity |].
      split; [exact Hlow |]. split; [apply slashes_forward_free |].
      split; [now apply slashes_forward_head | exact Hlines'].
    + unfold posixMountPathToWindowsPath. rewrite chars_of_str_of.
      rewrite slashes_forward_id.
      * rewrite (match_mount_path_mnt _ _ Hletter' Hlines').
        rewrite Hup, (slashes_backward_forward _ Hslash), <- Hchars.
        apply str_of_chars_of.
      * intros Hin. apply elem_of_app in Hin as [Hin | Hin].
        { apply list_elem_of_In in Hin. cbn in Hin. intuition discriminate. }
        apply elem_of_cons in Hin as [Hin | Hin]; [congruence |].
        apply elem_of_cons in Hin as [Hin | Hin]; [discriminate |].
        now apply (slashes_forward_free rest).
  - intros (d & rest & Hchars & Hd & Hback & Hhead & Hlines).
    destruct (lower_letter_facts d Hd)
      as (Hletter & Hnb & Hup & Hlow & Hnb' & _ & Hsame).
    pose proof (slashes_keep_lines _ rest backward_keeps_line Hlines)
      as Hlines'.
    fold (slashes_backward rest) in Hlines'.
    assert (Hposix : posixMountPathToWindowsPath value =
                     str_of (upper_letter d :: colon :: backslash ::
                             slashes_backward rest)).
    { unfold posixMountPathToWindowsPath. rewrite Hchars.
      rewrite slashes_forward_id.
      - now rewrite (match_mount_path_mnt _ _ Hletter Hlines).
      - intros Hin. apply elem_of_app in Hin as [Hin | Hin].
        { apply list_elem_of_In in Hin. cbn in Hin. intuition discriminate. }
        apply elem_of_cons in Hin as [Hin | Hin]; [congruence |].
        apply elem_of_cons in Hin as [Hin | Hin]; [discriminate |].
        contradiction. }
    rewrite Hposix. split.
    + exists (upper_letter d), (slashes_backward rest).
      rewrite chars_of_str_of. split; [reflexivity |].
      split; [exact Hup |]. split; [apply slashes_backward_free |].
      split; [now apply slashes_backward_head | exact Hlines'].
    + unfold windowsPathToPosixMountPath. rewrite chars_of_str_of.
      assert (Habs : is_windows_abs_path
                       (upper_letter d :: colon :: backslash ::
                        slashes_backward rest) = true).
      { unfold is_windows_abs_path, is_letter. rewrite Hup.
        now rewrite orb_true_r. }
      rewrite Habs. cbn [negb]. cbv zeta.
      rewrite (slashes_forward_cons _ _ Hnb').
      rewrite slashes_forward_cons by discriminate.
      rewrite slashes_forward_backslash. cbn [take drop map].
      rewrite drop_slashes_slash, (slashes_forward_backward _ Hback).
      rewrite (drop_slashes_id _ Hhead), Hlow.
      change ([d] ++ slash :: rest) with (d :: slash :: rest).
      rewrite <- Hchars. apply str_of_chars_of.
Qed.

(* ===================================================================== *)
(** * Part III: the properties at work on sample runs                     *)
(* ===================================================================== *)

Lemma parts_only_run_reachable :
  @reachable sample_platform media_options media_world parts_only_run.
Proof.
  apply (@run_inputs_reachable sample_platform media_options media_world
           parts_only_inputs (@start media_options media_world)).
  - apply reachable_start.
  - vm_compute. reflexivity.
Qed.

(** After the first part frame of a stream was saved, and nothing else,
    no idle timer is pending. *)
Lemma idle_timer_unarmed_after_first_part :
  requireFinalImageFrame media_options = true /\
  run_is_image media_world = true /\
  cs_finished (st_session (run_st parts_only_run)) = false /\
  (exists f, f ∈ cs_savedFiles (st_session (run_st parts_only_run)) /\
             sf_isStreamPart f = true) /\
  cs_idleTimer (st_session (run_st parts_only_run)) = None /\
  @step sample_platform media_options IdleTimerFires parts_only_run = None.
Proof.
  assert (Hfiles :
            exists f, f ∈ cs_savedFiles (st_session (run_st parts_only_run)) /\
                      sf_isStreamPart f = true).
  { eexists. split; [vm_compute; apply list_elem_of_here | reflexivity]. }
  assert (Hnofinal :
            forall f, f ∈ cs_savedFiles (st_session (run_st parts_only_run)) ->
                      sf_isFinalStreamFrame f = false).
  { intros f Hf. vm_compute in Hf.
    apply list_elem_of_singleton in Hf. now subst f. }
  destruct (@idle_timer_unarmed_while_only_parts_saved sample_platform
              media_options media_world parts_only_run
              eq_refl eq_refl parts_only_run_reachable eq_refl
              Hfiles Hnofinal) as (Hidle & Hstep & _).
  repeat split; assumption.
Defined.

(** C3 at work: three deliveries of the same download notification in a
    file run; the file is saved once. *)
Lemma redelivered_download_saved_once :
  let r := metadata_response "file-d1" "report.pdf" in
  let st := fresh_state (file_options []) file_world in
  run_is_image (st_world st) = false /\
  @in_scope sample_platform r /\
  cs_savedCount
    (st_session
       (@process_all sample_platform (file_options [])
          [(pdf_net "PDF-1", r); (pdf_net "PDF-2", r); (pdf_net "PDF-3", r)]
          st)) = 1%Z.
Proof.
  cbv zeta.
  assert (Hscope : @in_scope sample_platform
                     (metadata_response "file-d1" "report.pdf")).
  { eexists. split; [vm_compute; reflexivity |]. split; [reflexivity |].
    right. reflexivity. }
  destruct (@duplicate_download_counted_at_most_once sample_platform
              (file_options []) (pdf_net "PDF-1")
              (metadata_response "file-d1" "report.pdf")
              [(pdf_net "PDF-2", metadata_response "file-d1" "report.pdf");
               (pdf_net "PDF-3", metadata_response "file-d1" "report.pdf")]
              (fresh_state (file_options []) file_world)
              eq_refl Hscope) as (Hall & _).
  { intros p Hp. apply list_elem_of_In in Hp. simpl in Hp.
    destruct Hp as [<- | [<- | []]]; reflexivity. }
  split; [reflexivity |]. split; [exact Hscope |].
  rewrite Hall. vm_compute. reflexivity.
Defined.

(** C3, as first stated, fails when the first delivery cannot be saved:
    its key is remembered all the same, the later deliveries are dropped
    although their download would succeed, and the id is counted zero
    times, not once. *)
Lemma redelivery_after_failed_download_never_saved :
  let r := metadata_response "file-d1" "report.pdf" in
  let st := fresh_state (file_options []) file_world in
  let st' :=
    @process_all sample_platform (file_options [])
      [(failing_net, r); (pdf_net "PDF-2", r); (pdf_net "PDF-3", r)] st in
  run_is_image (st_world st) = false /\
  cs_savedCount (st_session st') = 0%Z /\
  cs_savedFiles (st_session st') = [] /\
  map ev_type (cs_streamEvents (st_session st')) =
    [download_url_resolved; save_failed] /\
  cs_savedCount
    (st_session
       (snd (@processResponse sample_platform (file_options [])
               (pdf_net "PDF-2") r st))) = 1%Z.
Proof. vm_compute. repeat split; reflexivity. Qed.

(** C5 at work: with an uploaded reference file, the metadata response
    without name and size is ignored. *)
Lemma nameless_metadata_ignored_after_upload :
  let o := file_options ["ref.pdf"] in
  let st := fresh_state o file_world in
  let st' :=
    snd (@processResponse sample_platform o (pdf_net "PDF-1")
           nameless_metadata_response st) in
  ignoredFileNameSet o <> ∅ /\
  cs_savedFiles (st_session st') = [] /\
  cs_savedCount (st_session st') = 0%Z /\
  map ev_type (cs_streamEvents (st_session st')) = [file_ignored].
Proof.
  cbv zeta.
  assert (Hset : ignoredFileNameSet (file_options ["ref.pdf"]) <> ∅).
  { intros Hempty.
    assert (Hin : "ref.pdf" ∈ ignoredFileNameSet (file_options ["ref.pdf"]))
      by (vm_compute; reflexivity).
    rewrite Hempty in Hin. now apply not_elem_of_empty in Hin. }
  destruct (@upload_echo_metadata_is_ignored sample_platform
              (file_options ["ref.pdf"]) (pdf_net "PDF-1")
              nameless_metadata_response
              (fresh_state (file_options ["ref.pdf"]) file_world)
              {| url_hostname := "chatgpt.com";
                 url_pathname := "/backend-api/files/download/file-e1";
                 url_id_param := None |}
              {| j_download_url :=
                   Some "https://files.oaiusercontent.com/file-e1?sig=1";
                 j_file_name := None; j_file_size_bytes := None;
                 j_item := None; j_detail_message := None |}
              Hset eq_refl eq_refl eq_refl eq_refl eq_refl
              (conj I I) (or_intror (not_elem_of_empty _)))
    as ((e & Hty & _ & Hev) & Hfiles & Hcount & _).
  split; [exact Hset |]. split; [exact Hfiles |]. split; [exact Hcount |].
  rewrite Hev. simpl. now rewrite Hty.
Defined.

(** C5, as first stated, fails in a session without uploaded reference
    files: the same response is followed to its download URL and the
    file is saved and counted. *)
Lemma nameless_metadata_saved_without_upload :
  let o := file_options [] in
  let st' :=
    snd (@processResponse sample_platform o (pdf_net "PDF-1")
           nameless_metadata_response (fresh_state o file_world)) in
  isLikelyUploadEchoMetadata (r_json nameless_metadata_response) = true /\
  cs_savedCount (st_session st') = 1%Z /\
  map sf_filePath (cs_savedFiles (st_session st')) =
    ["/out/file-1700000000000.pdf"] /\
  map ev_type (cs_streamEvents (st_session st')) =
    [download_url_resolved; file_saved] /\
  w_disk (st_world st') !! "/out/file-1700000000000.pdf" = Some "PDF-1".
Proof. vm_compute. repeat split; reflexivity. Qed.

Lemma saved_pdf_run_reachable :
  @reachable sample_platform (file_options []) file_world saved_pdf_run.
Proof.
  apply (@run_inputs_reachable sample_platform (file_options []) file_world
           saved_pdf_inputs (@start (file_options []) file_world)).
  - apply reachable_start.
  - vm_compute. reflexivity.
Qed.

(** C10 at work: at the end of the file run that saved [report.pdf],
    [/out/latest.pdf] holds the content of the report, and the result
    lists the report alone. *)
Lemma latest_copy_of_saved_report :
  let r := saved_pdf_run in
  let r' :=
    default r (@step sample_platform (file_options []) QueueAwaited r) in
  @step sample_platform (file_options []) QueueAwaited r = Some r' /\
  last (cs_savedFiles (st_session (run_st r))) = Some report_file /\
  @latestPath sample_platform report_file = "/out/latest.pdf" /\
  w_disk (st_world (run_st r')) !! "/out/latest.pdf" = Some "PDF-1" /\
  exists result,
    run_phase r' = Returned result /\
    sr_savedFiles result = [report_file] /\
    sr_savedCount result = 1%Z.
Proof.
  cbv zeta.
  assert (Hstep :
            @step sample_platform (file_options []) QueueAwaited
              saved_pdf_run =
            Some (default saved_pdf_run
                    (@step sample_platform (file_options []) QueueAwaited
                       saved_pdf_run)))
    by (vm_compute; reflexivity).
  assert (Hlast : last (cs_savedFiles (st_session (run_st saved_pdf_run))) =
                  Some report_file)
    by (vm_compute; reflexivity).
  destruct (@latest_copy_after_session sample_platform (file_options [])
              file_world saved_pdf_run _ report_file
              saved_pdf_run_reachable Hstep Hlast)
    as (result & content & Hphase & Hsrc & Hdst & Hpath & _ &
        Hfiles & Hcount & _).
  assert (Hcontent : content = "PDF-1").
  { assert (Hsrc' : w_disk (st_world (run_st saved_pdf_run)) !!
                      sf_filePath report_file = Some "PDF-1")
      by (vm_compute; reflexivity).
    congruence. }
  assert (Hname : @latestPath sample_platform report_file =
                  "/out/latest.pdf") by reflexivity.
  split; [exact Hstep |]. split; [exact Hlast |]. split; [exact Hname |].
  split; [rewrite <- Hname, <- Hcontent; exact Hdst |].
  exists result. split; [exact Hphase |].
  split; [rewrite Hfiles | rewrite Hcount]; vm_compute; reflexivity.
Defined.

(** C8 at work: after the first part frame of a media stream, with the
    final frame never delivered, the hard timeout is still pending, and
    its firing, the poll and the wait on the queue bring the session to
    its end. *)
Lemma parts_only_session_terminates :
  cs_finished (st_session (run_st parts_only_run)) = false /\
  cs_timeoutTimer (st_session (run_st parts_only_run)) = Some 90000%Z /\
  (exists r', @step sample_platform media_options TimeoutTimerFires
                parts_only_run = Some r' /\
              cs_finished (st_session (run_st r')) = true) /\
  exists r' result,
    @run_inputs sample_platform media_options
      [TimeoutTimerFires; PollSeesFinished; QueueAwaited]
      parts_only_run = Some r' /\
    run_phase r' = Returned result.
Proof.
  destruct (@capture_session_terminates sample_platform media_options
              media_world parts_only_run parts_only_run_reachable)
    as (Hpending & _ & _ & _ & _ & Hends).
  destruct (Hpending eq_refl) as [Htimer Hfires].
  split; [reflexivity |]. split; [exact Htimer |]. split; [exact Hfires |].
  exact (Hends failing_net).
Defined.

(** C6, at an input where the code departs from it.  The run uploaded
    the reference file [Ref.PDF], and the page announces a download named
    [ref.pdf].  The capture session ignores the candidate: it logs
    [file_ignored] and saves nothing.  The fallback prober's
    [saveDownloadFromUrl], given the same metadata and the same bytes,
    knows no uploaded names: it saves [ref.pdf] and counts it. *)
Theorem fallback_saves_uploaded_reference_name :
  let o := file_options ["Ref.PDF"] in
  let url := "https://chatgpt.com/backend-api/files/download/file-r1" in
  let collected :=
    snd (@processResponse sample_platform o (pdf_net "PDF-1")
           (metadata_response "file-r1" "ref.pdf")
           (fresh_state o file_world)) in
  let probed :=
    @saveDownloadFromUrl sample_platform
      (HttpReturns (metadata_http_response "file-r1" "ref.pdf"))
      (pdf_net "PDF-1") url file_world in
  r_url (metadata_response "file-r1" "ref.pdf") = url /\
  shouldIgnoreCapturedFile o (Some "ref.pdf") (Some "ref.pdf") = true /\
  (cs_savedCount (st_session collected) = 0%Z /\
   cs_savedFiles (st_session collected) = [] /\
   map ev_type (cs_streamEvents (st_session collected)) =
     [download_url_resolved; file_ignored] /\
   w_disk (st_world collected) = ∅) /\
  (exists result,
     fst probed = Ok result /\
     sr_savedCount result = 1%Z /\
     map sf_fileName (sr_savedFiles result) = ["ref.pdf"] /\
     w_disk (snd probed) !! "/out/ref.pdf" = Some "PDF-1").
Proof.
  cbv zeta. split; [reflexivity |]. split; [vm_compute; reflexivity |].
  split; [vm_compute; repeat split; reflexivity |].
  eexists. split; [vm_compute; reflexivity |].
  vm_compute. repeat split; reflexivity.
Qed.

(** C7, at an input where the code departs from it.  In a file run with
    downloads through curl enabled, a download URL that answers with
    status 200 and a JSON body is accepted from curl as it is: the fetch
    returns the JSON body without any browser request, and the session
    saves it as the file.  The loop of browser requests, on the same
    answers, turns the JSON body down four times, pauses 350, 700 and
    1050 ms in between and fails; a media session, which does not use
    curl, then logs [save_failed], saves nothing and goes on to save the
    next download. *)
Theorem curl_download_returns_json_body :
  let through_curl :=
    @fetchDownloadWithRetry_run sample_platform json_net default_attempts
      true in
  let through_browser :=
    @fetchDownloadWithRetry_run sample_platform json_net default_attempts
      false in
  let file_session :=
    snd (@processResponse sample_platform (file_options []) json_net
           (metadata_response "file-d1" "report.pdf")
           (fresh_state (file_options []) file_world)) in
  let media_session :=
    snd (@processResponse sample_platform media_options json_net
           (metadata_response "file-p1" "x.png")
           (fresh_state media_options media_world)) in
  let media_session' :=
    snd (@processResponse sample_platform media_options (png_net "PNG-2")
           (metadata_response "file-p2" "y.png") media_session) in
  @preferCurlDownloads sample_platform = true /\
  run_is_file file_world = true /\
  (fr_result through_curl = Ok json_body /\
   isJsonContentType (f_contentType json_body) = true /\
   fr_attempts through_curl = 0%nat) /\
  (cs_savedCount (st_session file_session) = 1%Z /\
   map ev_type (cs_streamEvents (st_session file_session)) =
     [download_url_resolved; file_saved] /\
   w_disk (st_world file_session) !! "/out/report.pdf" = Some "{}") /\
  (fr_result through_browser = Throw (DownloadFailed 4 (Some 200%Z)) /\
   fr_attempts through_browser = 4%nat /\
   fr_sleeps through_browser = [350; 700; 1050]%Z) /\
  (cs_savedCount (st_session media_session) = 0%Z /\
   cs_savedFiles (st_session media_session) = [] /\
   map ev_type (cs_streamEvents (st_session media_session)) =
     [download_url_resolved; save_failed] /\
   cs_finished (st_session media_session) = false /\
   w_disk (st_world media_session) = ∅) /\
  (cs_savedCount (st_session media_session') = 1%Z /\
   map sf_fileName (cs_savedFiles (st_session media_session')) = ["y.png"]).
Proof.
  cbv zeta. split; [reflexivity |]. split; [reflexivity |].
  split; [vm_compute; repeat split; reflexivity |].
  split; [vm_compute; repeat split; reflexivity |].
  split; [vm_compute; repeat split; reflexivity |].
  split; vm_compute; repeat split; reflexivity.
Qed.

(** C1 at work: the frames [x.part1.png], [x.part2.png] and [x.png] were
    delivered in this order.  The reduced result is derived from
    [x.png], and the files of the two parts are gone. *)
Lemma streamed_frames_reduce_to_final :
  let saveResult := fst in_order_outcome in
  let w := snd in_order_outcome in
  let reduced := retainLatestImageOnly (Some saveResult) w in
  (exists f, f ∈ sr_savedFiles saveResult /\
             nonempty (trim (sf_filePath f)) = true) /\
  orderedCandidates saveResult =
    [first_part_candidate; second_part_candidate; final_candidate;
     first_part_candidate; second_part_candidate; final_candidate] /\
  (exists file,
     fst reduced =
       Ok {| sr_savedCount := 1;
             sr_savedFiles := [file];
             sr_metadataIds := id_list (sf_metadataId file);
             sr_streamEvents := sr_streamEvents saveResult |} /\
     sf_filePath file = "/out/x.png" /\
     sf_metadataId file = Some "file-f") /\
  w_disk (snd reduced) !! "/out/image-1700000000000.png" = None /\
  w_disk (snd reduced) !! "/out/image-1700000000100.png" = None /\
  w_disk (snd reduced) !! "/out/x.png" = Some "PNG-final".
Proof.
  cbv zeta.
  assert (Hordered :
            orderedCandidates (fst in_order_outcome) =
            [first_part_candidate; second_part_candidate; final_candidate;
             first_part_candidate; second_part_candidate; final_candidate])
    by (vm_compute; reflexivity).
  assert (Hexisting :
            existingCandidates (w_disk (snd in_order_outcome))
              (orderedCandidates (fst in_order_outcome)) =
            [final_candidate; second_part_candidate; first_part_candidate])
    by (vm_compute; reflexivity).
  assert (Hpreferred :
            fs_preferredFinalFrameMetadataIds
              (scan_frames (sr_streamEvents (fst in_order_outcome))) =
            ["file-f"])
    by (vm_compute; reflexivity).
  assert (Hsaved : exists f, f ∈ sr_savedFiles (fst in_order_outcome) /\
                             nonempty (trim (sf_filePath f)) = true).
  { eexists. split; [vm_compute; apply list_elem_of_here |].
    vm_compute. reflexivity. }
  destruct (ReducerProps.retainLatestImageOnly_keeps_selected
              (fst in_order_outcome) (snd in_order_outcome) Hsaved)
    as (_ & _ & _ & _ & selected & file & w' & _ & _ & _ & Hunique & Hrun &
        Hpath & Hid & Hkept & Hgone & _).
  assert (Hselected : final_candidate = selected).
  { apply Hunique. unfold selected_by_priority.
    rewrite Hpreferred, Hexisting.
    replace (existsb (carries_one_of ["file-f"])
               [final_candidate; second_part_candidate; first_part_candidate])
      with true by (vm_compute; reflexivity).
    exists [], "file-f", []. split; [reflexivity |]. split.
    - exists [], [second_part_candidate; first_part_candidate].
      split; [reflexivity |]. split; [vm_compute; reflexivity |].
      intros c Hc. now apply not_elem_of_nil in Hc.
    - intros j c Hj. now apply not_elem_of_nil in Hj. }
  subst selected.
  assert (Hfile : sf_filePath file = "/out/x.png") by exact Hpath.
  assert (Hfid : sf_metadataId file = Some "file-f") by exact Hid.
  rewrite Hrun. cbn [fst snd].
  split; [exact Hsaved |]. split; [exact Hordered |].
  split; [exists file; split; [reflexivity | split; assumption] |].
  rewrite Hordered in Hgone.
  split; [| split].
  - apply (Hgone first_part_candidate); [apply list_elem_of_here |].
    discriminate.
  - apply (Hgone second_part_candidate);
      [apply list_elem_of_further, list_elem_of_here | discriminate].
  - rewrite <- Hfile. apply Hkept. vm_compute. reflexivity.
Defined.

(** C1, as first stated, fails on the metadata id when a part frame is
    delivered after the final frame: the last id known to the run is the
    one of the late part, and the reduced result carries the id of the
    final frame that it retains. *)
Lemma retained_id_is_not_the_latest_known :
  let saveResult := fst late_part_outcome in
  let w := snd late_part_outcome in
  sr_savedCount saveResult = 3%Z /\
  map sf_sourceFileName (sr_savedFiles saveResult) =
    [Some "x.part1.png"; Some "x.png"; Some "x.part2.png"] /\
  sr_metadataIds saveResult = ["file-p1"; "file-f"; "file-p2"] /\
  last (sr_metadataIds saveResult) = Some "file-p2" /\
  exists out,
    fst (retainLatestImageOnly (Some saveResult) w) = Ok out /\
    sr_savedCount out = 1%Z /\
    map sf_fileName (sr_savedFiles out) = ["x.png"] /\
    map sf_metadataId (sr_savedFiles out) = [Some "file-f"] /\
    sr_metadataIds out = ["file-f"].
Proof.
  cbv zeta. split; [vm_compute; reflexivity |].
  split; [vm_compute; reflexivity |]. split; [vm_compute; reflexivity |].
  split; [vm_compute; reflexivity |].
  eexists. split; [vm_compute; reflexivity |].
  vm_compute. repeat split; reflexivity.
Qed.

(** ** The further properties at work *)

Lemma png_is_no_inherited_key :
  ~ inherited_key (normalizeContentType "image/png; q=1").
Proof. intros [Hkey | Hkey]; vm_compute in Hkey; discriminate. Qed.

(** The extension of [image/png; q=1] is plain. *)
Lemma extension_of_png_is_plain :
  ~ inherited_key (normalizeContentType "image/png; q=1") /\
  (extensionFromContentType "image/png; q=1" = "" \/
   plain_extension (extensionFromContentType "image/png; q=1")).
Proof.
  split; [exact png_is_no_inherited_key |].
  exact (extensionFromContentType_shape "image/png; q=1"
           png_is_no_inherited_key).
Defined.

Lemma png_extension_is_plain : plain_extension ".png".
Proof.
  exists (chars_of "png"). split; [reflexivity |]. split; [discriminate |].
  repeat constructor.
Qed.

(** [photo] gets the extension, [photo.jpg] keeps its own. *)
Lemma photo_gets_png_extension :
  "photo" <> "" /\ (slash ∉ chars_of "photo") /\ plain_extension ".png" /\
  applyExtension "photo" ".png" = "photo.png" /\
  extname "photo.png" = ".png".
Proof.
  assert (Hne : "photo" <> "") by discriminate.
  assert (Hslash : slash ∉ chars_of "photo").
  { intros Hin. apply list_elem_of_In in Hin. cbn in Hin.
    intuition discriminate. }
  destruct (applyExtension_gives_extension "photo" ".png" Hne Hslash
              png_extension_is_plain) as (_ & _ & _ & Hadd).
  destruct (Hadd eq_refl) as [Happ Hext].
  split; [exact Hne |]. split; [exact Hslash |].
  split; [exact png_extension_is_plain |]. split; [exact Happ | exact Hext].
Defined.


Lemma returned_pdf_run_reachable :
  @reachable sample_platform (file_options []) file_world returned_pdf_run.
Proof.
  apply (@run_inputs_reachable sample_platform (file_options []) file_world
           (saved_pdf_inputs ++ [QueueAwaited])
           (@start (file_options []) file_world)).
  - apply reachable_start.
  - vm_compute. reflexivity.
Qed.

Lemma returned_pdf_run_returned :
  exists result, run_phase returned_pdf_run = Returned result.
Proof. eexists. vm_compute. reflexivity. Qed.

(** The file run reports consistently at its end. *)
Lemma returned_report_is_consistent :
  @reachable sample_platform (file_options []) file_world returned_pdf_run /\
  results_consistent (st_session (run_st returned_pdf_run)) /\
  match run_phase returned_pdf_run with
  | Returned result => report_consistent result
  | _ => False
  end.
Proof.
  destruct (@session_report_is_consistent sample_platform (file_options [])
              file_world returned_pdf_run returned_pdf_run_reachable)
    as [Hsession Hresult].
  split; [exact returned_pdf_run_reachable |]. split; [exact Hsession |].
  destruct returned_pdf_run_returned as [result Hphase].
  rewrite Hphase. exact (Hresult result Hphase).
Defined.

Lemma saved_pdf_run_runs :
  @run_inputs sample_platform (file_options []) saved_pdf_inputs
    (@start (file_options []) file_world) = Some saved_pdf_run.
Proof. vm_compute. reflexivity. Qed.

(** The file run only added to what the fresh session reports. *)
Lemma saved_pdf_run_grew :
  @run_inputs sample_platform (file_options []) saved_pdf_inputs
    (@start (file_options []) file_world) = Some saved_pdf_run /\
  results_grow (st_session (run_st (@start (file_options []) file_world)))
               (st_session (run_st saved_pdf_run)).
Proof.
  split; [exact saved_pdf_run_runs |].
  exact (@session_results_only_grow sample_platform (file_options [])
           saved_pdf_inputs _ _ saved_pdf_run_runs).
Defined.

(** The file run wrote its report and removed nothing. *)
Lemma saved_pdf_run_wrote_its_report :
  @run_inputs sample_platform (file_options []) saved_pdf_inputs
    (@start (file_options []) file_world) = Some saved_pdf_run /\
  @disk_grows sample_platform
    (run_st (@start (file_options []) file_world)) (run_st saved_pdf_run).
Proof.
  split; [exact saved_pdf_run_runs |].
  exact (@session_writes_only_reported_paths sample_platform
           (file_options []) saved_pdf_inputs _ _ saved_pdf_run_runs).
Defined.

(** The finished file run is below its cap of eight files, and saves
    nothing more. *)
Lemma saved_pdf_run_respects_cap :
  @reachable sample_platform (file_options []) file_world saved_pdf_run /\
  below_cap 8 (st_session (run_st saved_pdf_run)) /\
  (cs_savedCount (st_session (run_st returned_pdf_run)) <= 1)%Z.
Proof.
  destruct (@saved_count_cap_is_soft sample_platform (file_options [])
              file_world saved_pdf_run saved_pdf_run_reachable)
    as [Hbelow Hafter].
  split; [exact saved_pdf_run_reachable |]. split; [exact Hbelow |].
  assert (Hrun : @run_inputs sample_platform (file_options []) [QueueAwaited]
                   saved_pdf_run = Some returned_pdf_run)
    by (vm_compute; reflexivity).
  pose proof (proj2 (Hafter [QueueAwaited] returned_pdf_run eq_refl Hrun))
    as Hle.
  vm_compute in Hle |- *. exact Hle.
Defined.

(** After its first part frame the media run has no idle timer and waits
    for the final frame. *)
Lemma parts_only_run_waits_for_final_frame :
  @reachable sample_platform media_options media_world parts_only_run /\
  cs_finished (st_session (run_st parts_only_run)) = false /\
  cs_savedCount (st_session (run_st parts_only_run)) <> 0%Z /\
  cs_idleTimer (st_session (run_st parts_only_run)) = None /\
  waits_for_frames true (st_session (run_st parts_only_run)).
Proof.
  assert (Hcount : cs_savedCount (st_session (run_st parts_only_run)) <> 0%Z)
    by (vm_compute; discriminate).
  split; [exact parts_only_run_reachable |]. split; [reflexivity |].
  split; [exact Hcount |].
  destruct (@idle_timer_pending_unless_waiting sample_platform media_options
              media_world parts_only_run parts_only_run_reachable eq_refl
              Hcount)
    as [(delay & r' & Hidle & _) | [Hidle Hwaits]].
  - vm_compute in Hidle. discriminate.
  - split; [exact Hidle | exact Hwaits].
Defined.

(** On a network that fails every request the browser loop gives up
    after four requests and three pauses. *)
Lemma browser_loop_gives_up_on_failing_net :
  net_curl failing_net = CurlThrows /\
  fr_attempts (@fetchDownloadWithRetry_run sample_platform failing_net
                 default_attempts true) = 4%nat /\
  fr_sleeps (@fetchDownloadWithRetry_run sample_platform failing_net
               default_attempts true) = [350; 700; 1050]%Z.
Proof.
  split; [reflexivity |].
  pose proof (@fetchDownloadWithRetry_browser_loop sample_platform
                failing_net true (or_intror eq_refl)) as Hloop.
  cbv zeta in Hloop.
  destruct (fr_result (@fetchDownloadWithRetry_run sample_platform
                         failing_net default_attempts true)) as [f|e].
  - destruct Hloop as (k & r & _ & Hget & _). discriminate.
  - destruct Hloop as (_ & Hattempts & Hsleeps & _).
    split; [exact Hattempts | exact Hsleeps].
Defined.

Lemma sample_paths_differ (a b : string) :
  a <> "" -> b <> "" -> safe_name a -> safe_name b ->
  @resolve_in_outputDir sample_platform a =
  @resolve_in_outputDir sample_platform b -> a = b.
Proof. intros _ _ _ _ Heq. cbn in Heq. now injection Heq. Qed.

(** The first and the tenth file of a run that randomizes names, both
    PNG images saved under the same hint, get different paths. *)
Lemma first_and_tenth_random_names_differ :
  w_imageRun (random_world 1) = Some (random_run 1) /\
  w_imageRun (random_world 10) = Some (random_run 10) /\
  exists f1 w1' f2 w2',
    @saveBufferToDisk sample_platform "PNG-1" (Some "same.png")
      "image/png; q=1" None (random_world 1) = (Ok f1, w1') /\
    @saveBufferToDisk sample_platform "PNG-2" (Some "same.png")
      "image/png; q=1" None (random_world 10) = (Ok f2, w2') /\
    sf_filePath f1 <> sf_filePath f2 /\
    w_imageRun w1' = Some (random_run 2).
Proof.
  split; [reflexivity |]. split; [reflexivity |].
  destruct (@randomized_saves_get_distinct_paths sample_platform
              "PNG-1" "PNG-2" (Some "same.png") (Some "same.png")
              "image/png; q=1" "image/png; q=1" None None
              (random_world 1) (random_world 10)
              (random_run 1) (random_run 10)
              sample_paths_differ png_is_no_inherited_key
              png_is_no_inherited_key eq_refl eq_refl eq_refl eq_refl
              eq_refl eq_refl ltac:(cbn; lia) ltac:(cbn; lia)
              ltac:(cbn; lia))
    as (f1 & w1' & f2 & w2' & r1' & Hsave1 & Hsave2 & Hdiff & Hrun & _).
  exists f1, w1', f2, w2'. split; [exact Hsave1 |]. split; [exact Hsave2 |].
  split; [exact Hdiff |].
  vm_compute in Hsave1. injection Hsave1 as _ <-. reflexivity.
Defined.


Ltac closed_list_fact := apply (bool_decide_unpack _); vm_compute; exact I.

Lemma redirected_dump_ok : Forall response_ok redirected_dump.
Proof.
  unfold redirected_dump, response_ok, status_line_ok, header_ok.
  repeat constructor; cbn [fst snd];
    try closed_list_fact; try (vm_compute; reflexivity);
    try (vm_compute; discriminate).
Qed.

(** The dump of a redirect, the final answer and a trailing interim
    response is read as the final answer. *)
Lemma redirected_dump_reads_final_answer :
  Forall response_ok redirected_dump /\
  pd_statusCode (parseCurlHeaderDump (render_dump redirected_dump)) =
    Some 200%Z /\
  pd_headers (parseCurlHeaderDump (render_dump redirected_dump))
    !! "content-type" = Some "image/png" /\
  f_status (@curl_fetched sample_platform (render_dump redirected_dump)
              "PNG-1") = 200%Z.
Proof.
  split; [exact redirected_dump_ok |].
  destruct (@parseCurlHeaderDump_reads_final_response sample_platform
              redirected_dump
              ("HTTP/2 200", [("Content-Type", "text/plain");
                              ("content-type", " image/png ");
                              ("Content-Length", "5")])
              "PNG-1" redirected_dump_ok eq_refl)
    as (Hstatus & Hheaders & _ & _ & _ & Hfetched).
  split; [exact Hstatus |]. split; [| exact Hfetched].
  exact (Hheaders "content-type" ltac:(discriminate)).
Defined.

(** Beside [a.png] and [a-2.png] the free path is [a-3.png]. *)
Lemma third_name_is_free :
  (forall i j,
     nextPath sample_dirname sample_resolve "/out/a.png" i =
     nextPath sample_dirname sample_resolve "/out/a.png" j ->
     candidate_name "/out/a.png" i = candidate_name "/out/a.png" j) /\
  exists p,
    ensureUniqueOutputPath sample_dirname sample_resolve crowded_disk
      "/out/a.png" 3 = Some p /\
    crowded_disk !! p = None /\
    p = "/out/a-3.png".
Proof.
  assert (Hresolve : forall i j,
             nextPath sample_dirname sample_resolve "/out/a.png" i =
             nextPath sample_dirname sample_resolve "/out/a.png" j ->
             candidate_name "/out/a.png" i = candidate_name "/out/a.png" j).
  { intros i j Heq. unfold nextPath, sample_resolve, sample_dirname in Heq.
    apply (f_equal chars_of) in Heq. rewrite !chars_of_app in Heq.
    do 2 apply app_inv_head in Heq. now apply chars_of_inj. }
  split; [exact Hresolve |].
  destruct (ensureUniqueOutputPath_returns_free_path sample_dirname
              sample_resolve crowded_disk "/out/a.png" Hresolve)
    as (p & Hreturns & Hfree & _).
  assert (Hsize : (size crowded_disk < 3)%nat) by (vm_compute; lia).
  exists p. split; [exact (Hreturns 3%nat Hsize) |]. split; [exact Hfree |].
  pose proof (Hreturns 3%nat Hsize) as Heq. vm_compute in Heq.
  now injection Heq.
Defined.

(** [C:\Users\ada] and [/mnt/c/Users/ada] are turned into each other. *)
Lemma drive_path_round_trip :
  windows_normal "C:\Users\ada" /\
  windowsPathToPosixMountPath "C:\Users\ada" = "/mnt/c/Users/ada" /\
  posixMountPathToWindowsPath "/mnt/c/Users/ada" = "C:\Users\ada" /\
  posixMountPathToWindowsPath (windowsPathToPosixMountPath "C:\Users\ada") =
    "C:\Users\ada".
Proof.
  assert (Hnormal : windows_normal "C:\Users\ada").
  { exists "C"%char, (chars_of "Users\ada").
    split; [reflexivity |]. split; [reflexivity |].
    split; [closed_list_fact |]. split; [discriminate |].
    repeat constructor. }
  split; [exact Hnormal |]. split; [reflexivity |]. split; [reflexivity |].
  exact (proj2 (proj1 (mount_path_conversions_round_trip "C:\Users\ada")
                  Hnormal)).
Defined.

(** The file run reports [report.pdf] with the length of what it wrote, and
    its latest copy has the same bytes. *)
Lemma saved_pdf_run_reported_truthfully :
  @reachable sample_platform (file_options []) file_world saved_pdf_run /\
  lengths_truthful (run_st saved_pdf_run) /\
  exists result,
    run_phase returned_pdf_run = Returned result /\
    @report_truthful sample_platform result (disk_of (run_st returned_pdf_run)).
Proof.
  destruct (@session_reports_what_it_wrote sample_platform (file_options [])
              file_world saved_pdf_run saved_pdf_run_reachable)
    as [Hbefore Hreturn].
  split; [exact saved_pdf_run_reachable |].
  split; [apply Hbefore; vm_compute; exact I |].
  assert (Hstep : @step sample_platform (file_options []) QueueAwaited
                    saved_pdf_run = Some returned_pdf_run)
    by (vm_compute; reflexivity).
  assert (Herr : run_queueError saved_pdf_run = None)
    by (vm_compute; reflexivity).
  destruct (Hreturn returned_pdf_run Hstep Herr)
    as (result & Hphase & _ & Htrue).
  exists result. split; assumption.
Defined.
